(** * sjtu::map — a red-black tree threaded by a doubly-linked list

    Shallow embedding of [src/map.hpp] (the [rbt_node] based implementation):
    nodes live in a heap addressed by stable handles, every C++ member
    function is a state-passing function over that heap and the fields of the
    map object, a null dereference is a fault of the model. *)

From stdpp Require Import gmap list option sorting.

Set Default Proof Using "Type".

(** ** Pointers and nodes *)

Definition addr := positive.
(** A pointer value; [None] is [nullptr]. *)
Definition ptr := option addr.

Inductive color_e := RED | BLACK.

#[global] Instance color_e_eq_dec : EqDecision color_e.
Proof. solve_decision. Defined.

(** [which_e = bool]: [LEFT = false], [RIGHT = true]. *)
Abbreviation which_e := bool (only parsing).
Abbreviation LEFT := false (only parsing).
Abbreviation RIGHT := true (only parsing).

Definition ptr_eqb (p q : ptr) : bool := bool_decide (p = q).

Inductive exn := index_out_of_bound | invalid_iterator.

Section map.
Context {K V : Type}.

(** [struct rbt_node]; the array [child[2]] is the pair [child_l], [child_r],
    [value] is the owned pointer to the stored pair (null in a sentinel). *)
Record rbt_node := mk_node {
  prev : ptr; next : ptr;
  father : ptr; child_l : ptr; child_r : ptr;
  which : which_e;
  color : color_e;
  value : option (K * V)
}.

Definition child (w : which_e) (n : rbt_node) : ptr :=
  if w then child_r n else child_l n.

Definition set_prev (v : ptr) (n : rbt_node) : rbt_node :=
  mk_node v (next n) (father n) (child_l n) (child_r n) (which n) (color n) (value n).
Definition set_next (v : ptr) (n : rbt_node) : rbt_node :=
  mk_node (prev n) v (father n) (child_l n) (child_r n) (which n) (color n) (value n).
Definition set_father (v : ptr) (n : rbt_node) : rbt_node :=
  mk_node (prev n) (next n) v (child_l n) (child_r n) (which n) (color n) (value n).
Definition set_child (w : which_e) (v : ptr) (n : rbt_node) : rbt_node :=
  if w
  then mk_node (prev n) (next n) (father n) (child_l n) v (which n) (color n) (value n)
  else mk_node (prev n) (next n) (father n) v (child_r n) (which n) (color n) (value n).
Definition set_which (v : which_e) (n : rbt_node) : rbt_node :=
  mk_node (prev n) (next n) (father n) (child_l n) (child_r n) v (color n) (value n).
Definition set_color (v : color_e) (n : rbt_node) : rbt_node :=
  mk_node (prev n) (next n) (father n) (child_l n) (child_r n) (which n) v (value n).
Definition set_value (v : option (K * V)) (n : rbt_node) : rbt_node :=
  mk_node (prev n) (next n) (father n) (child_l n) (child_r n) (which n) (color n) v.

(** ** The heap and the state of a member function

    [state] is the heap together with the fields of the map object a member
    function runs on ([head], [tail], [root], [__size]). *)

Record state := mk_state {
  heap : gmap addr rbt_node;
  head : ptr; tail : ptr; root : ptr;
  __size : nat
}.

Definition with_heap (h : gmap addr rbt_node) (s : state) : state :=
  mk_state h (head s) (tail s) (root s) (__size s).
Definition with_root (r : ptr) (s : state) : state :=
  mk_state (heap s) (head s) (tail s) r (__size s).
Definition with_size (n : nat) (s : state) : state :=
  mk_state (heap s) (head s) (tail s) (root s) n.

(** Reading [p->f] and writing [p->f = v] in a heap. *)
Definition load {A} (f : rbt_node → A) (p : ptr) (h : gmap addr rbt_node) : option A :=
  a ← p; f <$> h !! a.
Definition store (g : rbt_node → rbt_node) (p : ptr) (h : gmap addr rbt_node)
  : option (gmap addr rbt_node) :=
  a ← p; _ ← h !! a; Some (alter g a h).

(** The monad of private member functions: state passing, [None] is a fault
    (a null or dangling dereference, or the recursion budget exhausted). *)
Definition M (A : Type) : Type := state → option (A * state).

Definition ret {A} (a : A) : M A := λ s, Some (a, s).
Definition bind {A B} (m : M A) (k : A → M B) : M B :=
  λ s, match m s with Some (a, s') => k a s' | None => None end.
Definition fault {A} : M A := λ _, None.

Definition rd {A} (f : rbt_node → A) (p : ptr) : M A :=
  λ s, match load f p (heap s) with Some v => Some (v, s) | None => None end.
Definition wr (g : rbt_node → rbt_node) (p : ptr) : M unit :=
  λ s, match store g p (heap s) with Some h => Some (tt, with_heap h s) | None => None end.
Definition get_root : M ptr := λ s, Some (root s, s).
Definition set_root (r : ptr) : M unit := λ s, Some (tt, with_root r s).
Definition get_head : M ptr := λ s, Some (head s, s).
Definition get_tail : M ptr := λ s, Some (tail s, s).
Definition get_size : M nat := λ s, Some (__size s, s).
Definition set_size (n : nat) : M unit := λ s, Some (tt, with_size n s).

(** [new rbt_node{...}]: a fresh address holding [n]. *)
Definition alloc (h : gmap addr rbt_node) : addr := fresh (dom h).
Definition new_node (n : rbt_node) : M ptr :=
  λ s, let a := alloc (heap s) in Some (Some a, with_heap (<[a := n]> (heap s)) s).
(** [delete p] for a non-null [p]. *)
Definition delete_node (p : ptr) : M unit :=
  λ s, match p with
       | Some a => match heap s !! a with
                   | Some _ => Some (tt, with_heap (delete a (heap s)) s)
                   | None => None
                   end
       | None => None
       end.

End map.

Arguments rbt_node : clear implicits.
Arguments state : clear implicits.
Arguments M : clear implicits.
Arguments load : simpl never.
Arguments store : simpl never.
Arguments alloc : simpl never.

Declare Scope m_scope.
Delimit Scope m_scope with M.
Notation "'let*' x := m 'in' k" := (bind m (λ x, k))
  (at level 10, x name, m at level 100, k at level 200, only parsing) : m_scope.
Notation "m >> k" := (bind m (λ _, k))
  (at level 100, k at level 200, right associativity, only parsing) : m_scope.

(** ** The private member functions of [map] *)

Section code.
Context {K V : Type}.
(** The ordering predicate held by the container ([__Compare]) and the
    default value [V()]. *)
Variable comparing_function : K → K → bool.
Variable default_V : V.

Local Open Scope m_scope.
Local Abbreviation M := (M K V).
Local Abbreviation rbt_node := (rbt_node K V).

(** [rbt_node::update_nearby]. In [next->prev = prev->next = this] the right
    assignment is performed first. *)
Definition update_nearby (this : ptr) : M unit :=
  let* pv := rd prev this in
  wr (set_next this) pv >>
  let* nx := rd next this in
  wr (set_prev this) nx >>
  let* f := rd father this in
  (if f is Some _ then let* w := rd which this in wr (set_child w this) f else ret tt) >>
  let* cl := rd (child LEFT) this in
  (if cl is Some _ then wr (set_father this) cl >> wr (set_which LEFT) cl else ret tt) >>
  let* cr := rd (child RIGHT) this in
  (if cr is Some _ then wr (set_father this) cr >> wr (set_which RIGHT) cr else ret tt).

(** The constructor [rbt_node(value, prev, next, father, left_child,
    right_child, which)]: a RED node, announced to its neighbours. *)
Definition construct_node (v : K * V) (pv nx f lc rc : ptr) (w : which_e) : M ptr :=
  let* this := new_node (mk_node pv nx f lc rc w RED (Some v)) in
  update_nearby this >>
  ret this.

(** [rbt_node::brother]. *)
Definition brother (this : ptr) : M ptr :=
  let* f := rd father this in
  let* w := rd which this in
  rd (child (negb w)) f.

Definition link_node (a b : ptr) : M unit :=
  wr (set_next b) a >>
  wr (set_prev a) b.

(** [__swap(a->f, b->f)] on a field [f] with setter [set]. *)
Definition __swap {A} (f : rbt_node → A) (set : A → rbt_node → rbt_node) (a b : ptr) : M unit :=
  let* temp := rd f a in
  let* vb := rd f b in
  wr (set vb) a >>
  wr (set temp) b.

(** [if (a->f == a) a->f = b]. *)
Definition fix_self (f : rbt_node → ptr) (set : ptr → rbt_node → rbt_node) (a b : ptr) : M unit :=
  let* v := rd f a in
  if ptr_eqb v a then wr (set b) a else ret tt.

Definition swap_node (a b : ptr) : M unit :=
  let* r := get_root in
  (if ptr_eqb r a then set_root b
   else if ptr_eqb r b then set_root a else ret tt) >>
  __swap prev set_prev a b >>
  __swap next set_next a b >>
  __swap father set_father a b >>
  __swap (child LEFT) (set_child LEFT) a b >>
  __swap (child RIGHT) (set_child RIGHT) a b >>
  __swap color set_color a b >>
  __swap which set_which a b >>
  fix_self prev set_prev a b >>
  fix_self next set_next a b >>
  fix_self father set_father a b >>
  fix_self (child LEFT) (set_child LEFT) a b >>
  fix_self (child RIGHT) (set_child RIGHT) a b >>
  fix_self prev set_prev b a >>
  fix_self next set_next b a >>
  fix_self father set_father b a >>
  fix_self (child LEFT) (set_child LEFT) b a >>
  fix_self (child RIGHT) (set_child RIGHT) b a >>
  update_nearby a >>
  update_nearby b.

(** [rotate(x, which)]: [x] goes down to side [which], its child on the
    other side takes its place. *)
Definition rotate (x : ptr) (w : which_e) : M unit :=
  let* y := rd (child (negb w)) x in
  let* r := get_root in
  (if ptr_eqb r x then set_root y else ret tt) >>
  let* yc := rd (child w) y in
  wr (set_child (negb w) yc) x >>
  let* xf := rd father x in
  wr (set_father xf) y >>
  let* xw := rd which x in
  wr (set_which xw) y >>
  wr (set_father y) x >>
  wr (set_which w) x >>
  update_nearby x >>
  update_nearby y.

(** [p == nullptr || p->color == BLACK]. *)
Definition null_or_black (p : ptr) : M bool :=
  match p with
  | None => ret true
  | Some _ => let* c := rd color p in ret (bool_decide (c = BLACK))
  end.

Fixpoint insert_fix (fuel : nat) (target : ptr) : M unit :=
  match fuel with
  | 0 => fault
  | S fuel =>
    let* f := rd father target in
    match f with
    | None => wr (set_color BLACK) target
    | Some _ =>
      let* fc := rd color f in
      if bool_decide (fc = BLACK) then ret tt else
      let* grandpa := rd father f in
      let* uncle := brother f in
      let* ub := null_or_black uncle in
      if ub then
        let* tw := rd which target in
        let* fw := rd which f in
        if bool_decide (tw = fw) then
          wr (set_color BLACK) f >>
          wr (set_color RED) grandpa >>
          let* tw := rd which target in
          rotate grandpa (negb tw)
        else
          wr (set_color BLACK) target >>
          wr (set_color RED) grandpa >>
          let* tw := rd which target in
          rotate f (negb tw) >>
          let* tw := rd which target in
          rotate grandpa (negb tw)
      else
        wr (set_color BLACK) uncle >>
        wr (set_color BLACK) f >>
        wr (set_color RED) grandpa >>
        insert_fix fuel grandpa
    end
  end.

(** Both children of [b] (the array [cousin]) are null or BLACK. *)
Definition cousins_black (b : ptr) : M bool :=
  let* cl := rd (child LEFT) b in
  let* lb := null_or_black cl in
  if lb then let* cr := rd (child RIGHT) b in null_or_black cr else ret false.

(** [target->child[target->child[LEFT] == nullptr]]. *)
Definition only_child (target : ptr) : M ptr :=
  let* cl := rd (child LEFT) target in
  rd (child (bool_decide (cl = None))) target.

Fixpoint erase_fix (fuel : nat) (target : ptr) (recursive : bool) : M unit :=
  match fuel with
  | 0 => fault
  | S fuel =>
    let* tc := rd color target in
    if bool_decide (tc = RED) && negb recursive then ret tt else
    let* ch := only_child target in
    let* chb := null_or_black ch in
    if negb chb && negb recursive then wr (set_color BLACK) ch else
    let* r := get_root in
    if ptr_eqb r target then wr (set_color BLACK) target else
    let* f := rd father target in
    let* br := brother target in
    let* fc := rd color f in
    let* bc := rd color br in
    let* cb := (if bool_decide (fc = BLACK) && bool_decide (bc = BLACK)
          then cousins_black br else ret false) in
    if cb then
      wr (set_color RED) br >>
      erase_fix fuel f true
    else
      let* bc := rd color br in
      let* br := (if bool_decide (bc = RED) then
              wr (set_color RED) f >>
              wr (set_color BLACK) br >>
              let* tw := rd which target in
              rotate f tw >>
              brother target
            else ret br) in
      let* fc := rd color f in
      let* bc := rd color br in
      let* cb := (if bool_decide (fc = RED) && bool_decide (bc = BLACK)
            then cousins_black br else ret false) in
      if cb then
        wr (set_color BLACK) f >>
        wr (set_color RED) br
      else
        let* tw := rd which target in
        let* far := rd (child (negb tw)) br in
        let* fb := null_or_black far in
        let* br := (if fb then
                let* tw := rd which target in
                let* near := rd (child tw) br in
                wr (set_color BLACK) near >>
                wr (set_color RED) br >>
                let* tw := rd which target in
                rotate br (negb tw) >>
                brother target
              else ret br) in
        __swap color set_color f br >>
        let* tw := rd which target in
        let* far := rd (child (negb tw)) br in
        wr (set_color BLACK) far >>
        let* tw := rd which target in
        rotate f tw
  end.

(** [p->value->first]. *)
Definition key_of (p : ptr) : M K :=
  let* v := rd value p in
  match v with Some kv => ret kv.1 | None => fault end.

(** The descent of [__insert]: [inl cur] when [key] is found at [cur],
    [inr (cur, which)] when the loop breaks below [cur] on side [which]. *)
Fixpoint insert_descend (fuel : nat) (key : K) (cur_node : ptr) : M (ptr + ptr * which_e) :=
  match fuel with
  | 0 => fault
  | S fuel =>
    let* ck := key_of cur_node in
    let w := comparing_function ck key in
    if negb w && negb (comparing_function key ck) then ret (inl cur_node) else
    let* c := rd (child w) cur_node in
    match c with
    | None => ret (inr (cur_node, w))
    | Some _ => insert_descend fuel key c
    end
  end.

(** [__insert(key, value)]; [value] is the pair to store. *)
Definition __insert (fuel : nat) (key : K) (v : K * V) : M (ptr * bool) :=
  let* r := get_root in
  match r with
  | None =>
    let* hd := get_head in let* tl := get_tail in
    let* new_node := construct_node v hd tl None None None LEFT in
    set_root new_node >>
    let* n := get_size in set_size (S n) >>
    insert_fix fuel new_node >>
    ret (new_node, true)
  | Some _ =>
    let* d := insert_descend fuel key r in
    match d with
    | inl cur_node => ret (cur_node, false)
    | inr (cur_node, w) =>
      let* pv := (if w then ret cur_node else rd prev cur_node) in
      let* nx := (if w then rd next cur_node else ret cur_node) in
      let* new_node := construct_node v pv nx cur_node None None w in
      let* n := get_size in set_size (S n) >>
      insert_fix fuel new_node >>
      ret (new_node, true)
    end
  end.

(** [__insert(const value_type &)] and [__insert(const K &)]. *)
Definition __insert_value (fuel : nat) (v : K * V) : M (ptr * bool) :=
  __insert fuel v.1 v.
Definition __insert_key (fuel : nat) (key : K) : M ptr :=
  let* r := __insert fuel key (key, default_V) in ret r.1.

(** [erase(rbt_node *target)]. *)
Definition erase_node (fuel : nat) (target : ptr) : M unit :=
  let* n := get_size in set_size (Nat.pred n) >>
  let* cl := rd (child LEFT) target in
  let* cr := rd (child RIGHT) target in
  (if bool_decide (cl ≠ None) && bool_decide (cr ≠ None)
   then let* nx := rd next target in swap_node target nx else ret tt) >>
  erase_fix fuel target false >>
  let* pv := rd prev target in
  let* nx := rd next target in
  link_node pv nx >>
  let* ch := only_child target in
  let* r := get_root in
  (if ptr_eqb target r then set_root ch
   else let* f := rd father target in let* w := rd which target in wr (set_child w ch) f) >>
  (if ch is Some _ then
     let* f := rd father target in wr (set_father f) ch >>
     let* w := rd which target in wr (set_which w) ch
   else ret tt) >>
  delete_node target.

(** The loop of [find]: the node holding [key], or null. *)
Fixpoint find_node (fuel : nat) (key : K) (cur : ptr) : M ptr :=
  match fuel with
  | 0 => fault
  | S fuel =>
    match cur with
    | None => ret None
    | Some _ =>
      let* ck := key_of cur in
      if comparing_function key ck then
        let* c := rd (child LEFT) cur in find_node fuel key c
      else if comparing_function ck key then
        let* c := rd (child RIGHT) cur in find_node fuel key c
      else ret cur
    end
  end.

(** The loop of [clear]. *)
Fixpoint clear_loop (fuel : nat) (cur : ptr) : M unit :=
  match fuel with
  | 0 => fault
  | S fuel =>
    let* tl := get_tail in
    if ptr_eqb cur tl then ret tt else
    let* nx := rd next cur in
    delete_node cur >>
    clear_loop fuel nx
  end.

Definition clear_body (fuel : nat) : M unit :=
  set_size 0 >>
  let* hd := get_head in
  let* cur := rd next hd in
  clear_loop fuel cur >>
  let* hd := get_head in let* tl := get_tail in
  wr (set_next tl) hd >>
  wr (set_prev hd) tl >>
  set_root None.

(** The cloning constructor [rbt_node(other, father, prev, next)]; it
    copies the pair [*(other->value)], so [other->value] must not be null. *)
Fixpoint clone (fuel : nat) (other f pv nx : ptr) : M ptr :=
  match fuel with
  | 0 => fault
  | S fuel =>
    let* ow := rd which other in
    let* oc := rd color other in
    let* ov := rd value other in
    let* ov := (if ov is Some kv then ret (Some kv) else fault) in
    let* this := new_node (mk_node pv nx f None None ow oc ov) in
    wr (set_prev this) nx >>
    wr (set_next this) pv >>
    let* ol := rd (child LEFT) other in
    (if ol is Some _ then let* c := clone fuel ol this pv this in wr (set_child LEFT c) this
     else wr (set_child LEFT None) this) >>
    let* or := rd (child RIGHT) other in
    (if or is Some _ then let* c := clone fuel or this this nx in wr (set_child RIGHT c) this
     else wr (set_child RIGHT None) this) >>
    ret this
  end.

End code.

(** ** Map objects, iterators and the public interface

    A [world] is the heap shared by all containers and the map objects
    themselves, addressed by their identity ([this]). *)

Record map_obj := mk_map { m_head : ptr; m_tail : ptr; m_root : ptr; m_size : nat }.

(** [iterator] and [const_iterator]: the owning container and a node. *)
Record iterator := mk_iterator { it_map : ptr; it_node : ptr }.

#[global] Instance iterator_eq_dec : EqDecision iterator.
Proof. solve_decision. Defined.

(** What a public call does: return, throw (the state at the throw is kept),
    terminate the program (an exception leaving a [noexcept] function), or
    fault (undefined behaviour of the model). *)
Inductive outcome (S A : Type) :=
  | Ret (a : A) (s : S)
  | Throw (e : exn) (s : S)
  | Terminate
  | Fault.
Arguments Ret {S A} a s.
Arguments Throw {S A} e s.
Arguments Terminate {S A}.
Arguments Fault {S A}.

Section api.
Context {K V : Type}.
Variable comparing_function : K → K → bool.
Variable default_V : V.

Local Open Scope m_scope.

Record world := mk_world {
  w_heap : gmap addr (rbt_node K V);
  w_maps : gmap addr map_obj
}.

Definition enter (m : map_obj) (w : world) : state K V :=
  mk_state (w_heap w) (m_head m) (m_tail m) (m_root m) (m_size m).
Definition leave (this : addr) (s : state K V) (w : world) : world :=
  mk_world (heap s) (<[this := mk_map (head s) (tail s) (root s) (__size s)]> (w_maps w)).

(** Running a private member function on the object [this]. *)
Definition call {A} (this : addr) (f : M K V A) (w : world) : outcome world A :=
  match w_maps w !! this with
  | None => Fault
  | Some m =>
    match f (enter m w) with
    | Some (a, s) => Ret a (leave this s w)
    | None => Fault
    end
  end.

(** The recursion budget of a call: loops and recursions of the container
    visit distinct nodes, so the number of allocated nodes bounds them. *)
Definition budget (w : world) : nat := S (S (size (w_heap w))).

(** The sentinel built by [rbt_node()]: only [value] is initialised. *)
Definition sentinel : rbt_node K V := mk_node None None None None None LEFT RED None.

(** [map()]: the new object gets the identity [this]. *)
Definition map_default (this : addr) (w : world) : outcome world unit :=
  let hd := alloc (w_heap w) in
  let h1 := <[hd := sentinel]> (w_heap w) in
  let tl := alloc h1 in
  let h2 := <[tl := sentinel]> h1 in
  match store (set_next (Some tl)) (Some hd) h2 with
  | Some h3 =>
    match store (set_prev (Some hd)) (Some tl) h3 with
    | Some h4 => Ret tt (mk_world h4 (<[this := mk_map (Some hd) (Some tl) None 0]> (w_maps w)))
    | None => Fault
    end
  | None => Fault
  end.

(** The identity a newly declared map object gets. *)
Definition new_map_id (w : world) : addr := fresh (dom (w_maps w)).

(** [map(const map &other)]. *)
Definition map_copy (this other : addr) (w : world) : outcome world unit :=
  match map_default this w with
  | Ret _ w1 =>
    match w_maps w1 !! other with
    | None => Fault
    | Some o =>
      if bool_decide (m_size o = 0) then Ret tt w1 else
      call this (set_size (m_size o) >>
                 let* hd := get_head in let* tl := get_tail in
                 let* r := clone (budget w) (m_root o) None hd tl in
                 set_root r) w1
    end
  | o => o
  end.

Definition clear (this : addr) (w : world) : outcome world unit :=
  call this (clear_body (budget w)) w.

(** [operator=(const map &other)]. *)
Definition operator_assign (this other : addr) (w : world) : outcome world unit :=
  if bool_decide (this = other) then
    (if w_maps w !! this is Some _ then Ret tt w else Fault)
  else
    match clear this w with
    | Ret _ w1 =>
      match w_maps w1 !! other with
      | None => Fault
      | Some o =>
        match call this (set_size (m_size o)) w1 with
        | Ret _ w2 =>
          if bool_decide (m_size o = 0) then Ret tt w2 else
          call this (let* hd := get_head in let* tl := get_tail in
                     let* r := clone (budget w) (m_root o) None hd tl in
                     set_root r) w2
        | o => o
        end
      end
    | o => o
    end.

(** [~map()]. *)
Definition map_destroy (this : addr) (w : world) : outcome world unit :=
  match call this (clear_body (budget w) >>
                   let* hd := get_head in delete_node hd >>
                   let* tl := get_tail in delete_node tl) w with
  | Ret _ w1 => Ret tt (mk_world (w_heap w1) (delete this (w_maps w1)))
  | o => o
  end.

Definition empty (this : addr) (w : world) : outcome world bool :=
  call this (let* n := get_size in ret (bool_decide (n = 0))) w.
Definition size (this : addr) (w : world) : outcome world nat :=
  call this get_size w.

Definition begin_ (this : addr) (w : world) : outcome world iterator :=
  call this (let* hd := get_head in let* n := rd next hd in ret (mk_iterator (Some this) n)) w.
Definition end_ (this : addr) (w : world) : outcome world iterator :=
  call this (let* tl := get_tail in ret (mk_iterator (Some this) tl)) w.

(** [find]: the loop, then [iterator(this, cur)] or [end()]. *)
Definition find (this : addr) (key : K) (w : world) : outcome world iterator :=
  call this (let* r := get_root in
             let* cur := find_node comparing_function (budget w) key r in
             match cur with
             | Some _ => ret (mk_iterator (Some this) cur)
             | None => let* tl := get_tail in ret (mk_iterator (Some this) tl)
             end) w.

(** [iterator::operator==] compares the nodes only. *)
Definition it_eqb (a b : iterator) : bool := ptr_eqb (it_node a) (it_node b).

Definition count (this : addr) (key : K) (w : world) : outcome world nat :=
  match find this key w with
  | Ret it w1 =>
    match end_ this w1 with
    | Ret e w2 => Ret (if it_eqb it e then 0 else 1) w2
    | Throw e s => Throw e s | Terminate => Terminate | Fault => Fault
    end
  | Throw e s => Throw e s | Terminate => Terminate | Fault => Fault
  end.

(** *** Iterators

    An iterator operation runs on the iterator object and the world. *)

(** [__map->tail] and [__map->head->next]. *)
Definition it_tail (it : iterator) (w : world) : option ptr :=
  a ← it_map it; m ← w_maps w !! a; Some (m_tail m).
Definition it_first (it : iterator) (w : world) : option ptr :=
  a ← it_map it; m ← w_maps w !! a; load next (m_head m) (w_heap w).

(** [operator++()]. *)
Definition operator_incr (it : iterator) (w : world) : outcome (iterator * world) unit :=
  if bool_decide (it_node it = None) then Throw invalid_iterator (it, w) else
  match it_tail it w with
  | None => Fault
  | Some tl =>
    if ptr_eqb (it_node it) tl then Throw invalid_iterator (it, w) else
    match load next (it_node it) (w_heap w) with
    | Some n => Ret tt (mk_iterator (it_map it) n, w)
    | None => Fault
    end
  end.

(** [operator--()]. *)
Definition operator_decr (it : iterator) (w : world) : outcome (iterator * world) unit :=
  if bool_decide (it_node it = None) then Throw invalid_iterator (it, w) else
  match it_first it w with
  | None => Fault
  | Some b =>
    if ptr_eqb (it_node it) b then Throw invalid_iterator (it, w) else
    match load prev (it_node it) (w_heap w) with
    | Some n => Ret tt (mk_iterator (it_map it) n, w)
    | None => Fault
    end
  end.

(** The body of [operator->()]: the pointer [node->value], here the node
    itself when it owns a pair and null when it does not. *)
Definition arrow_body (it : iterator) (w : world) : outcome (iterator * world) ptr :=
  if bool_decide (it_node it = None) then Throw invalid_iterator (it, w) else
  match it_tail it w with
  | None => Fault
  | Some tl =>
    if ptr_eqb (it_node it) tl then Throw invalid_iterator (it, w) else
    match load value (it_node it) (w_heap w) with
    | Some (Some _) => Ret (it_node it) (it, w)
    | Some None => Ret None (it, w)
    | None => Fault
    end
  end.

(** A function declared [noexcept]: an exception that would leave it
    terminates the program. *)
Definition noexcept {S A} (o : outcome S A) : outcome S A :=
  match o with Throw _ _ => Terminate | _ => o end.

(** [pointer operator->() const noexcept]. *)
Definition operator_arrow (it : iterator) (w : world) : outcome (iterator * world) ptr :=
  noexcept (arrow_body it w).

(** *** Element access and modifiers *)

(** [at(key)]: a reference to the mapped value, here the node holding it. *)
Definition at_ (this : addr) (key : K) (w : world) : outcome world ptr :=
  match find this key w with
  | Ret it w1 =>
    match end_ this w1 with
    | Ret e w2 =>
      if it_eqb it e then Throw index_out_of_bound w2 else
      match operator_arrow it w2 with
      | Ret (Some a) (_, w3) => Ret (Some a) w3
      | Ret None _ => Fault
      | Throw e (_, w3) => Throw e w3
      | Terminate => Terminate
      | Fault => Fault
      end
    | Throw e s => Throw e s | Terminate => Terminate | Fault => Fault
    end
  | Throw e s => Throw e s | Terminate => Terminate | Fault => Fault
  end.

(** [V &operator[](const K &key)]. *)
Definition operator_index (this : addr) (key : K) (w : world) : outcome world ptr :=
  call this (let* n := __insert_key comparing_function default_V (budget w) key in
             let* v := rd value n in
             if v is Some _ then ret n else fault) w.

(** [const V &operator[](const K &key) const]. *)
Definition operator_index_const (this : addr) (key : K) (w : world) : outcome world ptr :=
  at_ this key w.

Definition insert (this : addr) (v : K * V) (w : world) : outcome world (iterator * bool) :=
  call this (let* r := __insert_value comparing_function (budget w) v in
             ret (mk_iterator (Some this) r.1, r.2)) w.

(** [erase(iterator pos)]. *)
Definition erase (this : addr) (pos : iterator) (w : world) : outcome world unit :=
  match w_maps w !! this with
  | None => Fault
  | Some m =>
    if bool_decide (it_map pos ≠ Some this) || ptr_eqb (it_node pos) (m_tail m)
    then Throw invalid_iterator w
    else call this (erase_node (budget w) (it_node pos)) w
  end.

(** Assigning through a reference to a mapped value ([m[k] = v],
    [it->second = v]). *)
Definition assign_mapped (ref : ptr) (v : V) (w : world) : outcome world unit :=
  match load value ref (w_heap w) with
  | Some (Some kv) =>
    match store (set_value (Some (kv.1, v))) ref (w_heap w) with
    | Some h => Ret tt (mk_world h (w_maps w))
    | None => Fault
    end
  | _ => Fault
  end.

(** Reading through a reference to a mapped value. *)
Definition read_mapped (ref : ptr) (w : world) : option V :=
  kv ← load value ref (w_heap w); snd <$> kv.

(** The walk of a client from [begin()] to [end()]: the pairs visited. *)
Fixpoint walk_next (fuel : nat) (h : gmap addr (rbt_node K V)) (cur stop : ptr)
  : option (list addr) :=
  match fuel with
  | 0 => None
  | S fuel =>
    if ptr_eqb cur stop then Some []
    else a ← cur; n ← load next cur h; l ← walk_next fuel h n stop; Some (a :: l)
  end.
Fixpoint walk_prev (fuel : nat) (h : gmap addr (rbt_node K V)) (cur stop : ptr)
  : option (list addr) :=
  match fuel with
  | 0 => None
  | S fuel =>
    if ptr_eqb cur stop then Some []
    else a ← cur; n ← load prev cur h; l ← walk_prev fuel h n stop; Some (a :: l)
  end.

End api.

Arguments world : clear implicits.

(** * Verification *)

(** ** Reading and writing fields of the heap *)

Section heap_lemmas.
Context {K V : Type}.
Implicit Types (h : gmap addr (rbt_node K V)) (p q : ptr) (a b : addr).

Lemma load_Some {A} (f : rbt_node K V → A) a h v :
  load f (Some a) h = Some v ↔ ∃ n, h !! a = Some n ∧ f n = v.
Proof.
  unfold load; simpl. destruct (h !! a) as [n|]; simpl; split.
  - intros [= <-]; eauto.
  - intros (n' & [= <-] & <-); done.
  - done.
  - intros (? & ? & ?); done.
Qed.

Lemma load_is_Some {A} (f : rbt_node K V → A) p h v :
  load f p h = Some v → ∃ a, p = Some a ∧ is_Some (h !! a).
Proof.
  destruct p as [a|]; [|done]. intros (n & Hn & _)%load_Some; eauto.
Qed.

Lemma load_alter_indep {A} (f : rbt_node K V → A) g a h p :
  (∀ n, f (g n) = f n) → load f p (alter g a h) = load f p h.
Proof.
  intros Hfg. destruct p as [b|]; [|done]. unfold load; simpl.
  destruct (decide (a = b)) as [->|].
  - rewrite lookup_alter_eq. destruct (h !! b); simpl; [|done]. by rewrite Hfg.
  - by rewrite lookup_alter_ne.
Qed.

Lemma load_alter_ne {A} (f : rbt_node K V → A) g a h p :
  p ≠ Some a → load f p (alter g a h) = load f p h.
Proof.
  intros Hne. destruct p as [b|]; [|done]. unfold load; simpl.
  rewrite lookup_alter_ne; [done|congruence].
Qed.

Lemma load_alter_same {A} (f : rbt_node K V → A) g a h v :
  (∀ n, f (g n) = v) → is_Some (h !! a) → load f (Some a) (alter g a h) = Some v.
Proof.
  intros Hfg [n Hn]. unfold load; simpl. rewrite lookup_alter_eq, Hn; simpl.
  by rewrite Hfg.
Qed.

(** A write of the value a field already holds changes nothing. *)
Lemma alter_noop {A} (f : rbt_node K V → A) g a h v :
  load f (Some a) h = Some v → (∀ n, f n = v → g n = n) → alter g a h = h.
Proof.
  intros (n & Hn & Hv)%load_Some Hg. apply map_eq; intros b.
  destruct (decide (a = b)) as [->|].
  - rewrite lookup_alter_eq, Hn; simpl. by rewrite Hg.
  - by rewrite lookup_alter_ne.
Qed.

Lemma alter_is_Some g a b h : is_Some (alter g a h !! b) ↔ is_Some (h !! b).
Proof.
  destruct (decide (a = b)) as [->|].
  - rewrite lookup_alter_eq. by rewrite fmap_is_Some.
  - by rewrite lookup_alter_ne.
Qed.

Lemma store_Some g a h : is_Some (h !! a) → store g (Some a) h = Some (alter g a h).
Proof. intros [n Hn]. unfold store; simpl. by rewrite Hn. Qed.

Lemma load_insert_ne {A} (f : rbt_node K V → A) a n h p :
  p ≠ Some a → load f p (<[a := n]> h) = load f p h.
Proof.
  intros Hne. destruct p as [b|]; [|done]. unfold load; simpl.
  rewrite lookup_insert_ne; [done|congruence].
Qed.

Lemma load_insert_same {A} (f : rbt_node K V → A) a n h :
  load f (Some a) (<[a := n]> h) = Some (f n).
Proof. unfold load; simpl. by rewrite lookup_insert_eq. Qed.

Lemma load_delete_ne {A} (f : rbt_node K V → A) a h p :
  p ≠ Some a → load f p (delete a h) = load f p h.
Proof.
  intros Hne. destruct p as [b|]; [|done]. unfold load; simpl.
  rewrite lookup_delete_ne; [done|congruence].
Qed.

Lemma load_total {A} (f : rbt_node K V → A) a h :
  is_Some (h !! a) → ∃ v, load f (Some a) h = Some v.
Proof. intros [n Hn]. exists (f n). apply load_Some. eauto. Qed.
Lemma load_alloc {A} (f : rbt_node K V → A) a h v :
  load f (Some a) h = Some v → is_Some (h !! a).
Proof. intros (n & Hn & _)%load_Some. eauto. Qed.

Lemma alloc_fresh h : h !! alloc h = None.
Proof. apply not_elem_of_dom, is_fresh. Qed.

Lemma load_alloc_None {A} (f : rbt_node K V → A) h v : load f (Some (alloc h)) h = Some v → False.
Proof. intros (n & Hn & _)%load_Some. by rewrite alloc_fresh in Hn. Qed.

(** Setters and getters. *)
Lemma child_set_child_eq w v (n : rbt_node K V) : child w (set_child w v n) = v.
Proof. by destruct w. Qed.
Lemma child_set_child_ne w w' v (n : rbt_node K V) :
  w ≠ w' → child w (set_child w' v n) = child w n.
Proof. by destruct w, w'. Qed.

End heap_lemmas.

(** Field facts: [f (g n) = f n], [f (g n) = v], [f n = v → g n = n]. *)
Ltac fld :=
  let n := fresh "n" in
  intros n; try (intros <-); destruct n; unfold child, set_child; cbn;
  first
    [ reflexivity
    | repeat match goal with
             | |- context [negb ?b] => is_var b; destruct b; cbn
             | |- context [if ?b then _ else _] => is_var b; destruct b; cbn
             end;
      reflexivity ].

(** ** The tree a heap represents

    The abstract view of the tree layer: a coloured binary tree whose nodes
    carry their address and their stored pair. A context is a tree with a
    hole, read from the hole upwards as the code does through [father]. *)

Section trees.
Context {K V : Type}.

Inductive tree :=
  | Leaf
  | Node (c : color_e) (l : tree) (x : addr) (kv : K * V) (r : tree).

Definition root_of (t : tree) : ptr :=
  match t with Leaf => None | Node _ _ x _ _ => Some x end.

(** In-order addresses and pairs. *)
Fixpoint addrs (t : tree) : list addr :=
  match t with Leaf => [] | Node _ l x _ r => addrs l ++ x :: addrs r end.
Fixpoint elems (t : tree) : list (K * V) :=
  match t with Leaf => [] | Node _ l _ kv r => elems l ++ kv :: elems r end.

(** The node [x] whose [child[w]] is [tw] and whose [child[!w]] is [tn]. *)
Definition mkN (w : which_e) (c : color_e) (tw : tree) (x : addr) (kv : K * V) (tn : tree) : tree :=
  if w then Node c tn x kv tw else Node c tw x kv tn.

(** [Zip w c x kv sib up]: the hole is [child[w]] of [x], [sib] is the other
    child, [up] is the context of [x]. *)
Inductive ctx :=
  | Top
  | Zip (w : which_e) (c : color_e) (x : addr) (kv : K * V) (sib : tree) (up : ctx).

Fixpoint plug (k : ctx) (t : tree) : tree :=
  match k with
  | Top => t
  | Zip w c x kv sib up => plug up (mkN w c t x kv sib)
  end.

Fixpoint ctx_before (k : ctx) : list addr :=
  match k with
  | Top => []
  | Zip w _ x _ sib up => if w then ctx_before up ++ addrs sib ++ [x] else ctx_before up
  end.
Fixpoint ctx_after (k : ctx) : list addr :=
  match k with
  | Top => []
  | Zip w _ x _ sib up => if w then ctx_after up else x :: addrs sib ++ ctx_after up
  end.
Fixpoint ctx_elems_before (k : ctx) : list (K * V) :=
  match k with
  | Top => []
  | Zip w _ _ kv sib up =>
    if w then ctx_elems_before up ++ elems sib ++ [kv] else ctx_elems_before up
  end.
Fixpoint ctx_elems_after (k : ctx) : list (K * V) :=
  match k with
  | Top => []
  | Zip w _ _ kv sib up => if w then ctx_elems_after up else kv :: elems sib ++ ctx_elems_after up
  end.

(** The root pointer of [plug k t] when the hole holds pointer [p]. *)
Fixpoint plug_root (k : ctx) (p : ptr) : ptr :=
  match k with Top => p | Zip _ _ x _ _ up => plug_root up (Some x) end.

(** The father of the hole and the depth of the hole. *)
Definition ctx_father (k : ctx) : ptr :=
  match k with Top => None | Zip _ _ x _ _ _ => Some x end.
Fixpoint ctx_depth (k : ctx) : nat :=
  match k with Top => 0 | Zip _ _ _ _ _ up => S (ctx_depth up) end.

Lemma addrs_mkN w c tw x kv tn :
  addrs (mkN w c tw x kv tn) = if w then addrs tn ++ x :: addrs tw else addrs tw ++ x :: addrs tn.
Proof. by destruct w. Qed.
Lemma elems_mkN w c tw x kv tn :
  elems (mkN w c tw x kv tn) = if w then elems tn ++ kv :: elems tw else elems tw ++ kv :: elems tn.
Proof. by destruct w. Qed.
Lemma root_of_mkN w c tw x kv tn : root_of (mkN w c tw x kv tn) = Some x.
Proof. by destruct w. Qed.

Lemma addrs_plug k t : addrs (plug k t) = ctx_before k ++ addrs t ++ ctx_after k.
Proof.
  revert t; induction k as [|w c x kv sib up IH]; intros t; simpl.
  - by rewrite app_nil_r.
  - rewrite IH, addrs_mkN. destruct w; simpl; by rewrite <-?app_assoc.
Qed.
Lemma elems_plug k t : elems (plug k t) = ctx_elems_before k ++ elems t ++ ctx_elems_after k.
Proof.
  revert t; induction k as [|w c x kv sib up IH]; intros t; simpl.
  - by rewrite app_nil_r.
  - rewrite IH, elems_mkN. destruct w; simpl; by rewrite <-?app_assoc.
Qed.
Lemma root_of_plug k t : root_of (plug k t) = plug_root k (root_of t).
Proof.
  revert t; induction k as [|w c x kv sib up IH]; intros t; simpl; [done|].
  by rewrite IH, root_of_mkN.
Qed.
Lemma length_addrs_elems t : length (addrs t) = length (elems t).
Proof. induction t; simpl; [done|]. rewrite !length_app; simpl. lia. Qed.

Lemma ctx_depth_le k t : ctx_depth k + length (addrs t) ≤ length (addrs (plug k t)).
Proof.
  revert t; induction k as [|w c x kv sib up IH]; intros t; simpl; [lia|].
  specialize (IH (mkN w c t x kv sib)). rewrite addrs_mkN in IH.
  destruct w; rewrite length_app in IH; simpl in *; lia.
Qed.

(** *** Representation in the heap *)

Implicit Types (h : gmap addr (rbt_node K V)).

(** The node at [p], if any, says that it is [child[w]] of [x]. *)
Definition uplink h (p : ptr) (x : addr) (w : which_e) : Prop :=
  match p with
  | None => True
  | Some _ => load father p h = Some (Some x) ∧ load which p h = Some w
  end.

Fixpoint tree_ok h (t : tree) : Prop :=
  match t with
  | Leaf => True
  | Node c l x kv r =>
    load color (Some x) h = Some c ∧ load value (Some x) h = Some (Some kv) ∧
    load (child LEFT) (Some x) h = Some (root_of l) ∧
    load (child RIGHT) (Some x) h = Some (root_of r) ∧
    uplink h (root_of l) x LEFT ∧ uplink h (root_of r) x RIGHT ∧
    tree_ok h l ∧ tree_ok h r
  end.

(** What the node at the hole must say about its father. *)
Definition hole_up h (k : ctx) (p : ptr) : Prop :=
  match k with
  | Top => match p with None => True | Some _ => load father p h = Some None end
  | Zip w _ x _ _ _ => uplink h p x w
  end.

Fixpoint ctx_ok h (k : ctx) (p : ptr) : Prop :=
  match k with
  | Top => True
  | Zip w c x kv sib up =>
    load color (Some x) h = Some c ∧ load value (Some x) h = Some (Some kv) ∧
    load (child w) (Some x) h = Some p ∧
    load (child (negb w)) (Some x) h = Some (root_of sib) ∧
    uplink h (root_of sib) x (negb w) ∧ tree_ok h sib ∧
    hole_up h up (Some x) ∧ ctx_ok h up (Some x)
  end.

(** A whole tree: the root has no father. *)
Definition whole_ok h (t : tree) : Prop := tree_ok h t ∧ hole_up h Top (root_of t).

Lemma tree_ok_mkN h w c tw x kv tn :
  tree_ok h (mkN w c tw x kv tn) ↔
    load color (Some x) h = Some c ∧ load value (Some x) h = Some (Some kv) ∧
    load (child w) (Some x) h = Some (root_of tw) ∧
    load (child (negb w)) (Some x) h = Some (root_of tn) ∧
    uplink h (root_of tw) x w ∧ uplink h (root_of tn) x (negb w) ∧
    tree_ok h tw ∧ tree_ok h tn.
Proof. destruct w; simpl; tauto. Qed.

Lemma plug_ok h k t :
  tree_ok h (plug k t) ∧ hole_up h Top (root_of (plug k t)) ↔
    ctx_ok h k (root_of t) ∧ hole_up h k (root_of t) ∧ tree_ok h t.
Proof.
  revert t; induction k as [|w c x kv sib up IH]; intros t; simpl.
  - tauto.
  - rewrite IH, tree_ok_mkN, root_of_mkN. tauto.
Qed.

(** *** Frames: what a predicate reads *)

(** The fields of [a] that describe what is below it, and above it. *)
Definition same_body h h' (a : addr) : Prop :=
  load color (Some a) h' = load color (Some a) h ∧
  load value (Some a) h' = load value (Some a) h ∧
  load (child LEFT) (Some a) h' = load (child LEFT) (Some a) h ∧
  load (child RIGHT) (Some a) h' = load (child RIGHT) (Some a) h.
Definition same_up h h' (a : addr) : Prop :=
  load father (Some a) h' = load father (Some a) h ∧
  load which (Some a) h' = load which (Some a) h.

Lemma uplink_father h a x w : uplink h (Some a) x w → load father (Some a) h = Some (Some x).
Proof. by intros [? ?]. Qed.
Lemma uplink_which h a x w : uplink h (Some a) x w → load which (Some a) h = Some w.
Proof. by intros [? ?]. Qed.

Lemma uplink_frame h h' p x w :
  uplink h p x w → (∀ a, p = Some a → same_up h h' a) → uplink h' p x w.
Proof.
  destruct p as [a|]; [|done]. intros [Hf Hw] Hs.
  destruct (Hs a eq_refl) as [E1 E2]. unfold uplink. by rewrite E1, E2.
Qed.

Lemma root_of_addrs t a : root_of t = Some a → a ∈ addrs t.
Proof. destruct t; [done|]. intros [= ->]. simpl. set_solver. Qed.

Lemma tree_ok_frame h h' t :
  tree_ok h t →
  (∀ a, a ∈ addrs t → same_body h h' a) →
  (∀ a, a ∈ addrs t → Some a ≠ root_of t → same_up h h' a) →
  NoDup (addrs t) →
  tree_ok h' t.
Proof.
  induction t as [|c l IHl x kv r IHr]; [done|]. simpl.
  intros (Hc & Hv & Hl & Hr & Hul & Hur & Htl & Htr) Hb Hu Hnd.
  apply NoDup_app in Hnd as (Hndl & Hlx & Hndr). apply NoDup_cons in Hndr as [Hxr Hndr].
  destruct (Hb x) as (-> & -> & -> & ->); [set_solver|].
  split_and!; try done.
  - eapply uplink_frame; [done|]. intros a Ha. apply Hu.
    + apply root_of_addrs in Ha. set_solver.
    + apply root_of_addrs in Ha. intros [= ->]. set_solver.
  - eapply uplink_frame; [done|]. intros a Ha. apply Hu.
    + apply root_of_addrs in Ha. set_solver.
    + apply root_of_addrs in Ha. intros [= ->]. set_solver.
  - apply IHl; [done| | |done].
    + intros a Ha. apply Hb. set_solver.
    + intros a Ha _. apply Hu; [set_solver|]. intros [= ->]. set_solver.
  - apply IHr; [done| | |done].
    + intros a Ha. apply Hb. set_solver.
    + intros a Ha _. apply Hu; [set_solver|]. intros [= ->]. set_solver.
Qed.

(** The addresses of the nodes of a context. *)
Definition ctx_addrs (k : ctx) : list addr := ctx_before k ++ ctx_after k.

Lemma ctx_addrs_Zip w c x kv sib up a :
  a ∈ ctx_addrs (Zip w c x kv sib up) ↔ a = x ∨ a ∈ addrs sib ∨ a ∈ ctx_addrs up.
Proof. unfold ctx_addrs; destruct w; simpl; set_solver. Qed.

Lemma ctx_father_in k a : ctx_father k = Some a → a ∈ ctx_addrs k.
Proof. destruct k; [done|]. intros [= ->]. apply ctx_addrs_Zip; auto. Qed.

Lemma hole_up_father h k a : hole_up h k (Some a) → load father (Some a) h = Some (ctx_father k).
Proof. destruct k; simpl; [done|]. by intros [? _]. Qed.

End trees.

Arguments tree : clear implicits.
Arguments ctx : clear implicits.

(** ** The sequence layer and the shape of a container *)

Section shape.
Context {K V : Type}.
Implicit Types (h : gmap addr (rbt_node K V)) (t : tree K V) (k : ctx K V).

Definition same_node h h' (a : addr) : Prop := same_body h h' a ∧ same_up h h' a.

(** [a] and [b] are neighbours of the list. *)
Definition link h (a b : addr) : Prop :=
  load next (Some a) h = Some (Some b) ∧ load prev (Some b) h = Some (Some a).

(** The list from [a] through [xs] to [b]. *)
Fixpoint dll h (a : addr) (xs : list addr) (b : addr) : Prop :=
  match xs with
  | [] => link h a b
  | x :: xs => link h a x ∧ dll h x xs b
  end.

Definition same_links h h' (a : addr) : Prop :=
  load prev (Some a) h' = load prev (Some a) h ∧
  load next (Some a) h' = load next (Some a) h.

Lemma dll_app h a xs y ys b : dll h a (xs ++ y :: ys) b ↔ dll h a xs y ∧ dll h y ys b.
Proof. revert a; induction xs as [|x xs IH]; intros a; simpl; [done|]. rewrite IH. tauto. Qed.

Lemma dll_frame h h' a xs b :
  dll h a xs b → (∀ z, z ∈ a :: b :: xs → same_links h h' z) → dll h' a xs b.
Proof.
  revert a; induction xs as [|x xs IH]; intros a; simpl.
  - intros [H1 H2] Hs. destruct (Hs a) as [_ E1]; [set_solver|].
    destruct (Hs b) as [E2 _]; [set_solver|]. split; congruence.
  - intros [[H1 H2] Hd] Hs. destruct (Hs a) as [_ E1]; [set_solver|].
    destruct (Hs x) as [E2 _]; [set_solver|]. split; [split; congruence|].
    apply IH; [done|]. intros z Hz. apply Hs. set_solver.
Qed.

(** The neighbours of an element of the list. *)
Lemma dll_elem h a xs x ys b :
  dll h a (xs ++ x :: ys) b →
  link h (default a (last xs)) x ∧ link h x (hd b ys).
Proof.
  rewrite dll_app. intros [H1 H2]. split.
  - clear H2. revert a H1. induction xs as [|z xs IH]; intros a; simpl; [done|].
    intros [_ H]. apply IH in H. rewrite last_cons. by destruct (last xs).
  - destruct ys; simpl in *; tauto.
Qed.

(** The heap represents the tree [t] under the root pointer [r], threaded
    in order between the sentinels [hd] and [tl]. *)
Definition Shape (hd tl : addr) h (r : ptr) t : Prop :=
  NoDup (hd :: tl :: addrs t) ∧
  load value (Some hd) h = Some None ∧ load value (Some tl) h = Some None ∧
  r = root_of t ∧ whole_ok h t ∧ dll h hd (addrs t) tl.

Lemma hole_up_frame h h' k a : hole_up h k (Some a) → same_up h h' a → hole_up h' k (Some a).
Proof.
  intros Hu [E1 E2]. destruct k; simpl in *; [congruence|]. unfold uplink in *.
  by rewrite E1, E2.
Qed.

Lemma ctx_ok_frame h h' k p :
  ctx_ok h k p → (∀ a, a ∈ ctx_addrs k → same_node h h' a) → NoDup (ctx_addrs k) →
  ctx_ok h' k p.
Proof.
  induction k as [|w c x kv sib up IH] in p |- *; [done|]. simpl.
  intros (Hc & Hv & Hw & Hn & Hus & Hts & Hup & Hk) Hs Hnd.
  assert (Hx : same_node h h' x) by (apply Hs, ctx_addrs_Zip; auto).
  assert (NoDup (addrs sib) ∧ NoDup (ctx_addrs up)) as [Hnds Hndu].
  { unfold ctx_addrs in *. destruct w; simpl in Hnd;
      rewrite ?NoDup_app, ?NoDup_cons, ?NoDup_app in Hnd; rewrite NoDup_app; set_solver. }
  destruct Hx as [(E1 & E2 & E3 & E4) (E5 & E6)].
  assert (∀ w', load (child w') (Some x) h' = load (child w') (Some x) h) as Ec
    by (by intros []).
  rewrite E1, E2, !Ec. split_and!; try done.
  - eapply uplink_frame; [done|]. intros a Ha. apply Hs, ctx_addrs_Zip.
    right; left. by apply root_of_addrs.
  - apply tree_ok_frame with h; [done| | |done].
    + intros a Ha. apply Hs, ctx_addrs_Zip. auto.
    + intros a Ha _. apply Hs, ctx_addrs_Zip. auto.
  - destruct up; simpl in *; [congruence|]. unfold uplink in *. by rewrite E5, E6.
  - apply IH; [done| |done]. intros a Ha. apply Hs, ctx_addrs_Zip. auto.
Qed.

Lemma tree_ok_alloc h t a : tree_ok h t → a ∈ addrs t → is_Some (h !! a).
Proof.
  induction t as [|c l IHl x kv r IHr]; simpl; [set_solver|].
  intros (Hc & _ & _ & _ & _ & _ & Hl & Hr) Ha.
  apply elem_of_app in Ha as [Ha|Ha]; [auto|].
  apply elem_of_cons in Ha as [->|Ha]; [|auto].
  apply load_is_Some in Hc as (? & [= <-] & ?). done.
Qed.

End shape.

(** ** Conditional writes *)

Section cwr.
Context {K V : Type}.
Implicit Types (h : gmap addr (rbt_node K V)).

(** A write through a pointer that is skipped when the pointer is null. *)
Definition cwr (g : rbt_node K V → rbt_node K V) (p : ptr) h : gmap addr (rbt_node K V) :=
  match p with Some a => alter g a h | None => h end.
(** The child at [p], if any, is told that it is [child[w]] of [x]. *)
Definition adopt (x : addr) (w : which_e) (p : ptr) h : gmap addr (rbt_node K V) :=
  cwr (set_which w) p (cwr (set_father (Some x)) p h).
(** [p] is null or allocated. *)
Definition valid h (p : ptr) : Prop := ∀ a, p = Some a → is_Some (h !! a).

Lemma load_cwr_indep {A} (f : rbt_node K V → A) g p h q :
  (∀ n, f (g n) = f n) → load f q (cwr g p h) = load f q h.
Proof. destruct p; simpl; [|done]. apply load_alter_indep. Qed.
Lemma load_cwr_ne {A} (f : rbt_node K V → A) g p h q :
  q ≠ p → load f q (cwr g p h) = load f q h.
Proof. destruct p; simpl; [|done]. intros. by apply load_alter_ne. Qed.
Lemma cwr_is_Some g p a h : is_Some (cwr g p h !! a) ↔ is_Some (h !! a).
Proof. destruct p; simpl; [|done]. apply alter_is_Some. Qed.
Lemma cwr_noop {A} (f : rbt_node K V → A) g p h v :
  (∀ a, p = Some a → load f p h = Some v) → (∀ n, f n = v → g n = n) → cwr g p h = h.
Proof. destruct p as [a|]; simpl; [|done]. intros H Hg. eapply alter_noop; eauto. Qed.

Lemma cwr_Some g a h : cwr g (Some a) h = alter g a h.
Proof. done. Qed.
Lemma cwr_None g h : cwr g None h = h.
Proof. done. Qed.
Lemma valid_Some h a : valid h (Some a) ↔ is_Some (h !! a).
Proof. unfold valid. naive_solver. Qed.
Lemma valid_None h : valid h None.
Proof. by intros ?. Qed.
Lemma valid_alter h g a p : valid (alter g a h) p ↔ valid h p.
Proof. unfold valid. by setoid_rewrite alter_is_Some. Qed.
Lemma valid_cwr h g q p : valid (cwr g q h) p ↔ valid h p.
Proof. unfold valid. by setoid_rewrite cwr_is_Some. Qed.

Lemma valid_insert h a n p : valid h p → valid (<[a := n]> h) p.
Proof.
  unfold valid. intros H b Hb. apply lookup_insert_is_Some'. right. by apply H.
Qed.
Lemma valid_delete h a p : valid h p → p ≠ Some a → valid (delete a h) p.
Proof.
  unfold valid. intros H Hne b ->. rewrite lookup_delete_ne by congruence. by apply H.
Qed.

Lemma adopt_is_Some x w p a h : is_Some (adopt x w p h !! a) ↔ is_Some (h !! a).
Proof. unfold adopt. by rewrite !cwr_is_Some. Qed.
Lemma valid_adopt h x w q p : valid (adopt x w q h) p ↔ valid h p.
Proof. unfold adopt. by rewrite !valid_cwr. Qed.
Lemma adopt_noop h x w p : uplink h p x w → adopt x w p h = h.
Proof.
  intros Hu. unfold adopt. destruct p as [a|]; simpl; [|done]. destruct Hu as [Hf Hw].
  rewrite (alter_noop father _ a h (Some x)); [|done|fld].
  rewrite (alter_noop which _ a h w); [done|done|fld].
Qed.

Lemma uplink_adopt h x w p : valid h p → uplink (adopt x w p h) p x w.
Proof.
  intros Hv. unfold adopt. destruct p as [a|]; simpl; [|done].
  specialize (Hv a eq_refl). split.
  - rewrite load_alter_indep by fld. by apply load_alter_same; [fld|].
  - apply load_alter_same; [fld|]. by rewrite alter_is_Some.
Qed.

Lemma tree_ok_valid h (t : tree K V) : tree_ok h t → valid h (root_of t).
Proof.
  destruct t; simpl; [intros _ ? [=]|]. intros (Hc & _) a [= <-]. by eapply load_alloc.
Qed.
(** Writes stay inside the footprint [S]. *)
Definition frame_on (S : list addr) h h' : Prop := ∀ a, a ∉ S → h' !! a = h !! a.

Lemma frame_on_refl S h : frame_on S h h.
Proof. done. Qed.
Lemma frame_on_alter S h h' g a : a ∈ S → frame_on S h h' → frame_on S h (alter g a h').
Proof. intros Ha Hf b Hb. rewrite lookup_alter_ne; [by apply Hf|]. intros ->. done. Qed.
Lemma frame_on_cwr S h h' g p :
  (∀ a, p = Some a → a ∈ S) → frame_on S h h' → frame_on S h (cwr g p h').
Proof. destruct p; unfold cwr; [|done]. intros. apply frame_on_alter; auto. Qed.
Lemma frame_on_adopt S h h' x w p :
  (∀ a, p = Some a → a ∈ S) → frame_on S h h' → frame_on S h (adopt x w p h').
Proof. intros. unfold adopt. by do 2 (apply frame_on_cwr; [done|]). Qed.
Lemma frame_on_insert S h h' a n : a ∈ S → frame_on S h h' → frame_on S h (<[a := n]> h').
Proof. intros Ha Hf b Hb. rewrite lookup_insert_ne; [by apply Hf|]. intros ->. done. Qed.
Lemma frame_on_delete S h h' a : a ∈ S → frame_on S h h' → frame_on S h (delete a h').
Proof. intros Ha Hf b Hb. rewrite lookup_delete_ne; [by apply Hf|]. intros ->. done. Qed.
Lemma frame_on_trans S h1 h2 h3 : frame_on S h1 h2 → frame_on S h2 h3 → frame_on S h1 h3.
Proof. intros H1 H2 a Ha. rewrite H2, H1; done. Qed.
Lemma frame_on_mono S S' h h' : (∀ a, a ∈ S → a ∈ S') → frame_on S h h' → frame_on S' h h'.
Proof. intros HS Hf a Ha. apply Hf. naive_solver. Qed.

Lemma ctx_ok_valid h (k : ctx K V) p : ctx_ok h k p → valid h (ctx_father k).
Proof.
  destruct k; simpl; [intros _ ? [=]|]. intros (Hc & _) a [= <-]. by eapply load_alloc.
Qed.

End cwr.

Arguments cwr : simpl never.
#[global] Opaque valid.

(** ** Stepping through monadic code *)

Section steps.
Context {K V : Type}.
Implicit Types (s : state K V).

Lemma bind_ok {A B} (m : M K V A) (k : A → M K V B) s a s' :
  m s = Some (a, s') → bind m k s = k a s'.
Proof. unfold bind. by intros ->. Qed.
Lemma bind_rd {A B} (f : rbt_node K V → A) p (k : A → M K V B) s v :
  load f p (heap s) = Some v → bind (rd f p) k s = k v s.
Proof. unfold bind, rd. by intros ->. Qed.
Lemma bind_wr {B} g a (k : unit → M K V B) s :
  is_Some (heap s !! a) → bind (wr g (Some a)) k s = k tt (with_heap (alter g a (heap s)) s).
Proof. intros H. unfold bind, wr. by rewrite store_Some. Qed.
Lemma bind_ret {A B} (a : A) (k : A → M K V B) s : bind (ret a) k s = k a s.
Proof. done. Qed.
Lemma bind_bind {A B C} (m : M K V A) (k1 : A → M K V B) (k2 : B → M K V C) s :
  bind (bind m k1) k2 s = bind m (λ a, bind (k1 a) k2) s.
Proof. unfold bind. by destruct (m s) as [[? ?]|]. Qed.
Lemma bind_get_root {B} (k : ptr → M K V B) s : bind get_root k s = k (root s) s.
Proof. done. Qed.
Lemma bind_set_root {B} r (k : unit → M K V B) s : bind (set_root r) k s = k tt (with_root r s).
Proof. done. Qed.
Lemma bind_get_head {B} (k : ptr → M K V B) s : bind get_head k s = k (head s) s.
Proof. done. Qed.
Lemma bind_get_tail {B} (k : ptr → M K V B) s : bind get_tail k s = k (tail s) s.
Proof. done. Qed.
Lemma bind_get_size {B} (k : nat → M K V B) s : bind get_size k s = k (__size s) s.
Proof. done. Qed.
Lemma bind_set_size {B} n (k : unit → M K V B) s : bind (set_size n) k s = k tt (with_size n s).
Proof. done. Qed.
Lemma bind_cwr {B} g p (k : unit → M K V B) s :
  valid (heap s) p →
  bind (if p is Some _ then wr g p else ret tt) k s = k tt (with_heap (cwr g p (heap s)) s).
Proof.
  destruct p as [a|]; simpl; intros Hv.
  - rewrite bind_wr; [done|]. by apply valid_Some.
  - rewrite bind_ret. by destruct s.
Qed.
Lemma wr_ok g a s :
  is_Some (heap s !! a) → wr g (Some a) s = Some (tt, with_heap (alter g a (heap s)) s).
Proof. intros H. unfold wr. by rewrite store_Some. Qed.
Lemma rd_ok {A} (f : rbt_node K V → A) p s v : load f p (heap s) = Some v → rd f p s = Some (v, s).
Proof. unfold rd. by intros ->. Qed.

Lemma null_or_black_None s : null_or_black None s = Some (true, s).
Proof. done. Qed.
Lemma null_or_black_Some a s c :
  load color (Some a) (heap s) = Some c →
  null_or_black (Some a) s = Some (bool_decide (c = BLACK), s).
Proof. intros H. unfold null_or_black. by erewrite bind_rd by done. Qed.

Lemma ptr_eqb_refl (p : ptr) : ptr_eqb p p = true.
Proof. by apply bool_decide_eq_true. Qed.
Lemma ptr_eqb_ne (p q : ptr) : p ≠ q → ptr_eqb p q = false.
Proof. by apply bool_decide_eq_false. Qed.

End steps.

Arguments bind : simpl never.
Arguments rd : simpl never.
Arguments wr : simpl never.
Arguments ret : simpl never.
Arguments get_root : simpl never.
Arguments set_root : simpl never.
Arguments get_head : simpl never.
Arguments get_tail : simpl never.
Arguments get_size : simpl never.
Arguments set_size : simpl never.
Arguments new_node : simpl never.
Arguments delete_node : simpl never.
Arguments ptr_eqb : simpl never.
Arguments null_or_black : simpl never.

(** Distinctness facts in atomic form. *)
Definition disj (l1 l2 : list addr) : Prop := ∀ z, z ∈ l1 → z ∉ l2.

Lemma NoDup_app_disj (l1 l2 : list addr) : NoDup (l1 ++ l2) ↔ NoDup l1 ∧ disj l1 l2 ∧ NoDup l2.
Proof. apply NoDup_app. Qed.
Lemma disj_app_r l l1 l2 : disj l (l1 ++ l2) ↔ disj l l1 ∧ disj l l2.
Proof. unfold disj. set_solver. Qed.
Lemma disj_cons_r l a l2 : disj l (a :: l2) ↔ a ∉ l ∧ disj l l2.
Proof. unfold disj. set_solver. Qed.
Lemma disj_app_l l l1 l2 : disj (l1 ++ l2) l ↔ disj l1 l ∧ disj l2 l.
Proof. unfold disj. set_solver. Qed.
Lemma disj_cons_l l a l1 : disj (a :: l1) l ↔ a ∉ l ∧ disj l1 l.
Proof. unfold disj. set_solver. Qed.
Lemma disj_nil_r l : disj l [] ↔ True.
Proof. unfold disj. set_solver. Qed.
Lemma disj_nil_l l : disj [] l ↔ True.
Proof. unfold disj. set_solver. Qed.
Lemma not_elem_of_nil_iff (a : addr) : a ∉ [] ↔ True.
Proof. set_solver. Qed.

Ltac nd_norm H :=
  repeat first
    [ rewrite NoDup_cons in H | rewrite NoDup_app_disj in H | rewrite NoDup_nil in H
    | rewrite not_elem_of_cons in H | rewrite not_elem_of_app in H
    | rewrite not_elem_of_nil_iff in H
    | rewrite disj_app_r in H | rewrite disj_cons_r in H | rewrite disj_nil_r in H
    | rewrite disj_app_l in H | rewrite disj_cons_l in H | rewrite disj_nil_l in H ];
  destruct_and? H.

Ltac nd_contra :=
  match goal with
  | H1 : ?a ∈ ?S, H2 : ?a ∉ ?S |- _ => exact (False_ind _ (H2 H1))
  | H1 : ?a ∈ ?S1, H2 : ?a ∈ ?S2, H3 : disj ?S1 ?S2 |- _ => exact (False_ind _ (H3 a H1 H2))
  | H1 : ?a ∈ ?S1, H2 : ?a ∈ ?S2, H3 : disj ?S2 ?S1 |- _ => exact (False_ind _ (H3 a H2 H1))
  | H : ?a ≠ ?a |- _ => exact (False_ind _ (H eq_refl))
  | H : ?a ∈ [] |- _ => exact (False_ind _ (proj1 (elem_of_nil a) H))
  end.

Ltac diseq :=
  solve [ assumption | congruence
        | let E := fresh in
          intros E;
          lazymatch type of E with
          | Some _ = Some _ => simplify_eq
          | root_of _ = Some _ => apply root_of_addrs in E
          | Some _ = root_of _ => symmetry in E; apply root_of_addrs in E
          | ctx_father _ = Some _ => apply ctx_father_in in E
          | Some _ = ctx_father _ => symmetry in E; apply ctx_father_in in E
          | _ => simplify_eq
          end;
          nd_contra ].

Ltac alloc_solve :=
  repeat first [ rewrite alter_is_Some | rewrite cwr_is_Some | rewrite adopt_is_Some
               | rewrite lookup_insert_eq | rewrite lookup_insert_ne by diseq
               | rewrite lookup_delete_ne by diseq ];
  first [ eassumption | eapply load_alloc; eassumption
        | eapply load_alloc, uplink_father; eassumption
        | eapply tree_ok_alloc; eassumption
        | match goal with
          | H : valid _ (Some ?a) |- is_Some (_ !! ?a) => apply (H a eq_refl)
          end ].

Ltac valid_solve :=
  lazymatch goal with
  | |- valid _ None => apply valid_None
  | |- _ =>
    repeat match goal with
           | |- valid (alter _ _ _) _ => apply valid_alter
           | |- valid (cwr _ _ _) _ => apply valid_cwr
           | |- valid (adopt _ _ _ _) _ => apply valid_adopt
           | |- valid (<[_ := _]> _) _ => apply valid_insert
           end;
    lazymatch goal with
    | |- valid _ (Some _) => apply valid_Some; alloc_solve
    | |- valid _ _ => first [ eassumption | eapply tree_ok_valid; eassumption ]
    end
  end.

(** Evaluate reads through a chain of writes. *)
Ltac load_step :=
  match goal with
  | |- context [load ?f ?p ?H] =>
    lazymatch H with
    | alter ?g ?a ?h =>
      first [ rewrite (load_alter_indep f g a h p) by fld
            | erewrite (load_alter_same f g a h) by first [ fld | alloc_solve ]
            | rewrite (load_alter_ne f g a h p) by diseq ]
    | cwr ?g (Some ?a) ?h => rewrite (cwr_Some g a h)
    | cwr ?g None ?h => rewrite (cwr_None g h)
    | cwr ?g ?q ?h =>
      first [ rewrite (load_cwr_indep f g q h p) by fld
            | rewrite (load_cwr_ne f g q h p) by diseq ]
    | adopt ?x ?w ?q ?h => unfold adopt at 1
    | <[?a := ?nd]> ?h =>
      first [ rewrite (load_insert_same f a nd h);
              cbn [negb child prev next father child_l child_r which color value]
            | rewrite (load_insert_ne f a nd h p) by diseq ]
    | delete ?a ?h => rewrite (load_delete_ne f a h p) by diseq
    end
  end.
Ltac load_simpl := repeat load_step.
Ltac load_solve :=
  load_simpl;
  first [ eassumption | reflexivity
        | eapply uplink_father; eassumption | eapply uplink_which; eassumption ].

(** Writes of list links that change nothing. *)
Ltac noop_links :=
  repeat match goal with
  | |- context [alter (set_next ?v) ?a ?H] =>
      rewrite (alter_noop next (set_next v) a H v) by first [ load_solve | fld ]
  | |- context [alter (set_prev ?v) ?a ?H] =>
      rewrite (alter_noop prev (set_prev v) a H v) by first [ load_solve | fld ]
  end.

Ltac uplink_solve :=
  lazymatch goal with
  | |- uplink _ None _ _ => exact I
  | |- uplink _ (Some _) _ _ => split; load_solve
  | |- uplink _ ?p _ _ =>
      let E := fresh "E" in
      destruct p eqn:E; [| exact I ];
      apply root_of_addrs in E; split; load_solve
  end.

Ltac root_ne :=
  lazymatch goal with
  | |- None = None ∨ _ => by left
  | |- Some _ = None ∨ _ => right; diseq
  | |- ?p = None ∨ ?p ≠ ?q =>
      let E := fresh "E" in
      destruct p eqn:E; [ right; apply root_of_addrs in E; diseq | by left ]
  end.

(** A subtree or a context that the writes leave alone. *)
Ltac same_tac :=
  let a := fresh "a" in
  let Ha := fresh "Ha" in
  intros a Ha; try (let Hr := fresh "Hr" in intros Hr);
  unfold same_node, same_body, same_up, same_links; split_and!; load_solve.
Ltac tree_frame :=
  eapply tree_ok_frame; [ eassumption | same_tac | same_tac | assumption ].
Ltac ctx_frame :=
  eapply ctx_ok_frame; [ eassumption | same_tac | assumption ].
Ltac hole_frame :=
  eapply hole_up_frame; [ eassumption | unfold same_up; split; load_solve ].
Ltac dll_frame_tac :=
  eapply dll_frame; [ eassumption | same_tac ].

(** A tree or a context after the writes, node by node. *)
Ltac shape_step :=
  lazymatch goal with
  | |- load _ _ _ = _ => load_solve
  | |- uplink _ _ _ _ => uplink_solve
  | |- tree_ok _ (mkN _ _ _ _ _ _) =>
      apply tree_ok_mkN; rewrite ?root_of_mkN; split_and!
  | |- tree_ok _ Leaf => exact I
  | |- tree_ok _ _ => tree_frame
  | |- ctx_ok _ Top _ => exact I
  | |- ctx_ok _ (Zip _ _ _ _ _ _) _ => cbn [ctx_ok]; rewrite ?root_of_mkN; split_and!
  | |- ctx_ok _ _ _ => ctx_frame
  | |- hole_up _ Top _ => cbn [hole_up]; load_solve
  | |- hole_up _ (Zip _ _ _ _ _ _) _ => cbn [hole_up]; uplink_solve
  | |- hole_up _ _ _ => hole_frame
  end.
Ltac shape_tac := repeat shape_step.

(** Membership in the footprint. *)
Ltac in_solve :=
  lazymatch goal with
  | |- ∀ a, _ = Some a → _ =>
      let a := fresh "a" in
      let E := fresh "E" in
      intros a E;
      first [ apply root_of_addrs in E | apply ctx_father_in in E | simplify_eq ];
      try clear -E; set_solver
  | |- _ => clear; set_solver
  end.
Ltac frame_tac :=
  repeat first
    [ apply frame_on_refl
    | apply frame_on_alter; [ in_solve | ]
    | apply frame_on_cwr; [ in_solve | ]
    | apply frame_on_adopt; [ in_solve | ]
    | apply frame_on_insert; [ in_solve | ]
    | apply frame_on_delete; [ in_solve | ] ].

Ltac st_simpl :=
  unfold with_heap, with_root, with_size; cbn [heap head tail root __size].

(** One step of a monadic program. *)
Ltac mstep :=
  st_simpl;
  lazymatch goal with
  | |- context [bind ?m _ _] =>
    lazymatch m with
    | bind _ _ => rewrite bind_bind
    | ret _ => rewrite bind_ret
    | get_root => rewrite bind_get_root
    | set_root _ => rewrite bind_set_root
    | get_head => rewrite bind_get_head
    | get_tail => rewrite bind_get_tail
    | get_size => rewrite bind_get_size
    | set_size _ => rewrite bind_set_size
    | rd _ _ => erewrite bind_rd by (st_simpl; load_solve)
    | wr _ (Some _) => rewrite bind_wr by (st_simpl; alloc_solve)
    | null_or_black None => erewrite bind_ok by apply null_or_black_None
    | null_or_black (Some _) =>
        erewrite bind_ok by (apply null_or_black_Some; st_simpl; load_solve)
    | _ => rewrite bind_cwr by (st_simpl; valid_solve)
    end
  | |- context [wr _ (Some _) _] => rewrite wr_ok by (st_simpl; alloc_solve)
  | |- context [rd _ _ _] => erewrite rd_ok by (st_simpl; load_solve)
  end;
  st_simpl.

(** Decided tests. *)
Ltac bd_simpl :=
  repeat match goal with
         | |- context [bool_decide ?p] =>
             first [ rewrite (bool_decide_true p) by (done || congruence)
                   | rewrite (bool_decide_false p) by (done || congruence) ]
         | |- context [ptr_eqb ?p ?p] => rewrite (ptr_eqb_refl p)
         | |- context [ptr_eqb ?p ?q] => rewrite (ptr_eqb_ne p q) by diseq
         end.
Ltac mrun :=
  repeat first
    [ mstep
    | progress bd_simpl
    | progress unfold brother, cousins_black, only_child
    | progress cbn [insert_fix erase_fix andb negb orb root_of mkN] ].

(** ** The primitive restructurings *)

(** ** Reads through long chains of writes

    The same evaluation as above, peeling one write at a time off the
    heap of the goal. *)

Section fast_loads.
Context {K V : Type}.
Implicit Types (h : gmap addr (rbt_node K V)).

Lemma load_alter_indep_to {A} (f : rbt_node K V → A) g a h p v :
  (∀ n, f (g n) = f n) → load f p h = v → load f p (alter g a h) = v.
Proof. intros H <-. by apply load_alter_indep. Qed.
Lemma load_alter_ne_to {A} (f : rbt_node K V → A) g a h p v :
  p ≠ Some a → load f p h = v → load f p (alter g a h) = v.
Proof. intros H <-. by apply load_alter_ne. Qed.
Lemma load_cwr_indep_to {A} (f : rbt_node K V → A) g q h p v :
  (∀ n, f (g n) = f n) → load f p h = v → load f p (cwr g q h) = v.
Proof. intros H <-. by apply load_cwr_indep. Qed.
Lemma load_cwr_ne_to {A} (f : rbt_node K V → A) g q h p v :
  p ≠ q → load f p h = v → load f p (cwr g q h) = v.
Proof. intros H <-. by apply load_cwr_ne. Qed.
Lemma load_cwr_None_to {A} (f : rbt_node K V → A) g h p v :
  load f p h = v → load f p (cwr g None h) = v.
Proof. done. Qed.
Lemma load_insert_ne_to {A} (f : rbt_node K V → A) a n h p v :
  p ≠ Some a → load f p h = v → load f p (<[a := n]> h) = v.
Proof. intros H <-. by apply load_insert_ne. Qed.
Lemma load_delete_ne_to {A} (f : rbt_node K V → A) a h p v :
  p ≠ Some a → load f p h = v → load f p (delete a h) = v.
Proof. intros H <-. by apply load_delete_ne. Qed.

Lemma load_adopt_indep_to {A} (f : rbt_node K V → A) x w q h p v :
  (∀ n, f (set_which w n) = f n) → (∀ n, f (set_father (Some x) n) = f n) →
  load f p h = v → load f p (adopt x w q h) = v.
Proof. intros H1 H2 <-. unfold adopt. by rewrite !load_cwr_indep. Qed.
Lemma load_adopt_ne_to {A} (f : rbt_node K V → A) x w q h p v :
  p ≠ q → load f p h = v → load f p (adopt x w q h) = v.
Proof. intros H <-. unfold adopt. by rewrite !load_cwr_ne. Qed.
Lemma load_adopt_None_to {A} (f : rbt_node K V → A) x w h p v :
  load f p h = v → load f p (adopt x w None h) = v.
Proof. done. Qed.
Lemma load_adopt_father x w a h :
  is_Some (h !! a) → load father (Some a) (adopt x w (Some a) h) = Some (Some x).
Proof. intros. by apply (uplink_adopt h x w (Some a)), valid_Some. Qed.
Lemma load_adopt_which x w a h :
  is_Some (h !! a) → load which (Some a) (adopt x w (Some a) h) = Some w.
Proof. intros. by apply (uplink_adopt h x w (Some a)), valid_Some. Qed.

Lemma alter_alloc g a b h : is_Some (h !! b) → is_Some (alter g a h !! b).
Proof. by rewrite alter_is_Some. Qed.
Lemma cwr_alloc g p b h : is_Some (h !! b) → is_Some (cwr g p h !! b).
Proof. by rewrite cwr_is_Some. Qed.
Lemma adopt_alloc x w p b h : is_Some (h !! b) → is_Some (adopt x w p h !! b).
Proof. by rewrite adopt_is_Some. Qed.
Lemma insert_alloc a n b h : is_Some (h !! b) → is_Some (<[a := n]> h !! b).
Proof. intros. apply lookup_insert_is_Some'. by right. Qed.
Lemma insert_alloc_same a n h : is_Some (<[a := n]> h !! a).
Proof. rewrite lookup_insert_eq. by eexists. Qed.
Lemma delete_alloc a b h : b ≠ a → is_Some (h !! b) → is_Some (delete a h !! b).
Proof. intros. by rewrite lookup_delete_ne. Qed.

End fast_loads.

Ltac diseq ::=
  solve [ assumption | congruence
        | let E := fresh in
          intros E;
          lazymatch type of E with
          | Some ?a = Some ?b =>
              apply (inj Some) in E;
              first [ is_var a; subst a | is_var b; subst b ]
          | root_of _ = Some _ => apply root_of_addrs in E
          | Some _ = root_of _ => symmetry in E; apply root_of_addrs in E
          | ctx_father _ = Some _ => apply ctx_father_in in E
          | Some _ = ctx_father _ => symmetry in E; apply ctx_father_in in E
          | _ => discriminate E
          end;
          nd_contra ].

Ltac alloc_solve ::=
  repeat lazymatch goal with
         | |- is_Some (alter _ _ _ !! _) => apply alter_alloc
         | |- is_Some (cwr _ _ _ !! _) => apply cwr_alloc
         | |- is_Some (adopt _ _ _ _ !! _) => apply adopt_alloc
         | |- is_Some (<[?a := _]> _ !! ?a) => apply insert_alloc_same
         | |- is_Some (<[_ := _]> _ !! _) => apply insert_alloc
         | |- is_Some (delete _ _ !! _) => apply delete_alloc; [ diseq | ]
         end;
  first [ eassumption | eapply load_alloc; eassumption
        | eapply load_alloc, uplink_father; eassumption
        | eapply tree_ok_alloc; eassumption
        | match goal with
          | H : valid _ (Some ?a) |- is_Some (_ !! ?a) => apply (H a eq_refl)
          end ].

Ltac load_alter_step f p g a h :=
  first [ apply (load_alter_indep_to f g a h p); [ fld | ]
        | apply (load_alter_same f g a h); [ fld | alloc_solve ]
        | apply (load_alter_ne_to f g a h p); [ diseq | ] ].
Ltac load_cwr_step f p g q h :=
  lazymatch q with
  | Some ?a => load_alter_step f p g a h
  | None => apply (load_cwr_None_to f g h p)
  | _ => first [ apply (load_cwr_indep_to f g q h p); [ fld | ]
               | apply (load_cwr_ne_to f g q h p); [ diseq | ] ]
  end.
Ltac load_step ::=
  lazymatch goal with
  | |- load ?f ?p ?H = _ =>
    lazymatch H with
    | alter ?g ?a ?h => load_alter_step f p g a h
    | cwr ?g ?q ?h => load_cwr_step f p g q h
    | adopt ?x ?w ?q ?h =>
      first [ apply (load_adopt_indep_to f x w q h p); [ fld | fld | ]
            | lazymatch q with
              | None => apply (load_adopt_None_to f x w h p)
              | Some ?a =>
                first [ apply (load_adopt_father x w a h); alloc_solve
                      | apply (load_adopt_which x w a h); alloc_solve
                      | apply (load_adopt_ne_to f x w q h p); [ diseq | ] ]
              | _ => apply (load_adopt_ne_to f x w q h p); [ diseq | ]
              end ]
    | <[?a := ?nd]> ?h =>
      first [ rewrite (load_insert_same f a nd h);
              cbn [negb child prev next father child_l child_r which color value]
            | apply (load_insert_ne_to f a nd h p); [ diseq | ] ]
    | delete ?a ?h => apply (load_delete_ne_to f a h p); [ diseq | ]
    end
  end.


Section primitives.
Context {K V : Type}.
Implicit Types (h : gmap addr (rbt_node K V)) (t tw tn sib : tree K V).
Implicit Types (k up : ctx K V) (kv : K * V).

(** Addresses up to permutation, for distinctness. *)
Lemma addrs_mkN_perm w c tw x kv tn :
  addrs (mkN w c tw x kv tn) ≡ₚ x :: addrs tw ++ addrs tn.
Proof.
  rewrite addrs_mkN. destruct w.
  - by rewrite <-Permutation_middle, (comm (++)).
  - by rewrite <-Permutation_middle.
Qed.
Lemma addrs_Node_perm c (l : tree K V) x kv r :
  addrs (Node c l x kv r) ≡ₚ x :: addrs l ++ addrs r.
Proof. simpl. by rewrite <-Permutation_middle. Qed.
Lemma addrs_plug_perm k t : addrs (plug k t) ≡ₚ addrs t ++ ctx_addrs k.
Proof.
  rewrite addrs_plug. unfold ctx_addrs.
  by rewrite (assoc (++)), (comm (++) (ctx_before k)), <-(assoc (++)).
Qed.
Lemma ctx_addrs_Zip_perm w c x kv sib up :
  ctx_addrs (Zip w c x kv sib up) ≡ₚ x :: addrs sib ++ ctx_addrs up.
Proof.
  unfold ctx_addrs. destruct w; simpl; rewrite <-?app_assoc; simpl;
    rewrite <-!Permutation_middle; constructor; apply Permutation_app_swap_app.
Qed.

#[global] Instance set_unfold_addrs_mkN a w c tw x kv tn P Q :
  SetUnfoldElemOf a (addrs tw) P → SetUnfoldElemOf a (addrs tn) Q →
  SetUnfoldElemOf a (addrs (mkN w c tw x kv tn)) (a = x ∨ P ∨ Q).
Proof.
  intros [HP] [HQ]. constructor. rewrite addrs_mkN_perm. set_solver.
Qed.
#[global] Instance set_unfold_addrs_Node a c (l r : tree K V) x kv P Q :
  SetUnfoldElemOf a (addrs l) P → SetUnfoldElemOf a (addrs r) Q →
  SetUnfoldElemOf a (addrs (Node c l x kv r)) (a = x ∨ P ∨ Q).
Proof.
  intros [HP] [HQ]. constructor. rewrite addrs_Node_perm. set_solver.
Qed.
#[global] Instance set_unfold_addrs_Leaf a :
  SetUnfoldElemOf a (addrs (@Leaf K V)) False.
Proof. constructor. simpl. set_solver. Qed.
#[global] Instance set_unfold_addrs_plug a k t P Q :
  SetUnfoldElemOf a (addrs t) P → SetUnfoldElemOf a (ctx_addrs k) Q →
  SetUnfoldElemOf a (addrs (plug k t)) (P ∨ Q).
Proof.
  intros [HP] [HQ]. constructor. rewrite addrs_plug_perm. set_solver.
Qed.
#[global] Instance set_unfold_ctx_addrs_Zip a w c x kv sib up P Q :
  SetUnfoldElemOf a (addrs sib) P → SetUnfoldElemOf a (ctx_addrs up) Q →
  SetUnfoldElemOf a (ctx_addrs (Zip w c x kv sib up)) (a = x ∨ P ∨ Q).
Proof.
  intros [HP] [HQ]. constructor. rewrite ctx_addrs_Zip_perm. set_solver.
Qed.
#[global] Instance set_unfold_ctx_addrs_Top a :
  SetUnfoldElemOf a (ctx_addrs (@Top K V)) False.
Proof. constructor. unfold ctx_addrs; simpl. set_solver. Qed.

Lemma Shape_focus hd tl h r k t :
  Shape hd tl h r (plug k t) ↔
    NoDup (hd :: tl :: addrs t ++ ctx_addrs k) ∧
    load value (Some hd) h = Some None ∧ load value (Some tl) h = Some None ∧
    r = plug_root k (root_of t) ∧
    ctx_ok h k (root_of t) ∧ hole_up h k (root_of t) ∧ tree_ok h t ∧
    dll h hd (addrs (plug k t)) tl.
Proof.
  unfold Shape, whole_ok. rewrite plug_ok, root_of_plug, <-addrs_plug_perm. tauto.
Qed.

Lemma dll_in h a l b x :
  dll h a l b → x ∈ l → NoDup (a :: b :: l) →
  ∃ p n, link h p x ∧ link h x n ∧ p ∈ a :: l ∧ n ∈ b :: l ∧ p ≠ x ∧ n ≠ x.
Proof.
  intros Hd (xs & ys & ->)%list_elem_of_split Hnd.
  apply dll_elem in Hd as [H1 H2]. eexists _, _; split_and!; [done..| | | |].
  - destruct (last xs) as [z|] eqn:E; simpl; [|set_solver].
    apply last_Some in E as [? ->]. set_solver.
  - destruct ys; simpl; set_solver.
  - apply NoDup_cons in Hnd as [Ha Hnd]. apply NoDup_cons in Hnd as [_ Hnd].
    apply NoDup_app in Hnd as (_ & Hdis & _).
    destruct (last xs) as [z|] eqn:E; simpl; [|set_solver].
    apply last_Some in E as [? ->]. intros ->. set_solver.
  - apply NoDup_cons in Hnd as [_ Hnd]. apply NoDup_cons in Hnd as [Hb Hnd].
    apply NoDup_app in Hnd as (_ & _ & Hnd). apply NoDup_cons in Hnd as [Hx _].
    destruct ys; simpl; set_solver.
Qed.

Lemma plug_root_in k p :
  k ≠ Top → ∃ a, plug_root k p = Some a ∧ a ∈ ctx_addrs k.
Proof.
  induction k as [|w c x kv sib up IH] in p |- *; [done|]. intros _. simpl.
  destruct up as [|w' c' x' kv' sib' up'].
  - exists x. split; [done|]. apply ctx_addrs_Zip; auto.
  - destruct (IH (Some x)) as (a & Ha & Hin); [done|].
    exists a. split; [done|]. apply ctx_addrs_Zip; auto.
Qed.


Lemma update_nearby_eq w0 this pv nx f wt cw cn h hd tl r n :
  load prev (Some this) h = Some (Some pv) → is_Some (h !! pv) →
  load next (Some this) (alter (set_next (Some this)) pv h) = Some (Some nx) →
  is_Some (h !! nx) →
  load father (Some this) h = Some f → load which (Some this) h = Some wt →
  valid h f → f ≠ Some this →
  load (child w0) (Some this) h = Some cw → load (child (negb w0)) (Some this) h = Some cn →
  valid h cw → valid h cn → (cw = None ∨ cw ≠ cn) →
  update_nearby (Some this) (mk_state h hd tl r n) =
    Some (tt, mk_state
      (adopt this (negb w0) cn (adopt this w0 cw
        (cwr (set_child wt (Some this)) f
          (alter (set_prev (Some this)) nx (alter (set_next (Some this)) pv h)))))
      hd tl r n).
Proof.
  intros Hpv Hapv Hnx Hanx Hf Hwt Hvf Hfne Hcw Hcn Hvw Hvn Hne.
  unfold update_nearby.
  mstep. mstep. mstep. mstep. mstep. 
  destruct f as [fa|], w0, cw as [c1|], cn as [c2|]; simpl in *;
    repeat mstep; unfold adopt, cwr.
  all: try reflexivity.
  all: destruct Hne as [|Hne]; [done|]; assert (c1 ≠ c2) by congruence.
  all: f_equal; f_equal; f_equal.
  all: rewrite (alter_alter_ne (set_father _) (set_which false) _ c1 c2) by done.
  all: rewrite (alter_alter_ne (set_which true) (set_which false) _ c1 c2) by done.
  all: rewrite (alter_alter_ne (set_father _) (set_father _) _ c1 c2) by done.
  all: by rewrite (alter_alter_ne (set_which true) (set_father _) _ c1 c2) by done.
Qed.
Lemma rotate_spec hd tl h r n w k cx cy (C : tree K V) x kvx (B : tree K V) y kvy (A : tree K V) :
  Shape hd tl h r (plug k (mkN w cx C x kvx (mkN (negb w) cy A y kvy B))) →
  ∃ h' r',
    rotate (Some x) w (mk_state h (Some hd) (Some tl) r n)
      = Some (tt, mk_state h' (Some hd) (Some tl) r' n) ∧
    Shape hd tl h' r' (plug k (mkN w cy (mkN w cx C x kvx B) y kvy A)) ∧
    frame_on (addrs (plug k (mkN w cx C x kvx (mkN (negb w) cy A y kvy B)))) h h'.
Proof.
  intros HS.
  apply Shape_focus in HS as (Hnd & Hvh & Hvt & -> & Hk & Hup & Ht & Hd).
  pose proof Hnd as Hnd0.
  apply tree_ok_mkN in Ht as (Hxc & Hxv & Hxw & Hxn & HuC & HuY & HtC & HtY).
  apply tree_ok_mkN in HtY as (Hyc & Hyv & Hyw & Hyn & HuA & HuB & HtA & HtB).
  rewrite root_of_mkN in *.
  rewrite negb_involutive in *.
  assert (Hxin : x ∈ addrs (plug k (mkN w cx C x kvx (mkN (negb w) cy A y kvy B)))) by set_solver.
  assert (Hyin : y ∈ addrs (plug k (mkN w cx C x kvx (mkN (negb w) cy A y kvy B)))) by set_solver.
  assert (Hnd' : NoDup (hd :: tl :: addrs (plug k (mkN w cx C x kvx (mkN (negb w) cy A y kvy B)))))
    by (by rewrite addrs_plug_perm).
  destruct (dll_in _ _ _ _ _ Hd Hxin Hnd') as (px & nx & [Hpx1 Hpx2] & [Hnx1 Hnx2] & _ & _ & Hpx & Hnx).
  destruct (dll_in _ _ _ _ _ Hd Hyin Hnd') as (py & ny & [Hpy1 Hpy2] & [Hny1 Hny2] & _ & _ & Hpy & Hny).
  clear Hnd'.
  rewrite !addrs_mkN_perm in Hnd. simpl in Hnd.
  destruct (load_total which x h) as [wx Hwx]; [by eapply load_alloc|].
  pose proof (hole_up_father _ _ _ Hup) as Hfx.
  pose proof (ctx_ok_valid _ _ _ Hk) as Hvk.
  destruct HuY as [Hfy Hwy].
  
  assert (Hrne : k ≠ Top → plug_root k (Some x) ≠ Some x).
  { intros Hk0. destruct (plug_root_in k (Some x) Hk0) as (a & -> & Ha). intros [= ->].
    clear -Hnd Ha. rewrite !NoDup_cons, NoDup_app in Hnd. set_solver. }
  destruct k as [|w' c' par kvp sib up].
  all: try rewrite ctx_addrs_Zip_perm in Hnd.
  all: nd_norm Hnd.
  all: simpl in Hfx, Hvk, Hup, Hk.
  2: destruct Hup as [_ Hup]; assert (wx = w') by congruence; subst wx.
  2: destruct Hk as (Hpc & Hpv & Hpw & Hpn & Hus & Hts & Hupp & Hkk).
  all: unfold rotate; simpl plug_root.
  all: eexists _, _; split;
    [ mstep; mstep;
      first [ rewrite ptr_eqb_refl | rewrite ptr_eqb_ne by (by apply Hrne) ];
      repeat mstep;
      (erewrite bind_ok;
        [| eapply (update_nearby_eq w);
           [load_solve | alloc_solve | load_solve | alloc_solve | load_solve | load_solve
           | valid_solve | diseq | load_solve | load_solve | valid_solve | valid_solve | root_ne ] ]);
      noop_links;
      rewrite (adopt_noop _ x w (root_of C)) by uplink_solve;
      rewrite ?cwr_Some, ?cwr_None;
      (erewrite (update_nearby_eq w);
           [| load_solve | alloc_solve | load_solve | alloc_solve | load_solve | load_solve
           | valid_solve | diseq | load_solve | load_solve | valid_solve | valid_solve | root_ne ]);
      noop_links;
      rewrite (adopt_noop _ y w (Some x)) by uplink_solve;
      rewrite (adopt_noop _ y (negb w) (root_of A)) by uplink_solve;
      rewrite ?cwr_Some, ?cwr_None;
      reflexivity
    | ].
  all: set (t0 := mkN w cx C x kvx (mkN (negb w) cy A y kvy B)).
  all: assert (Hadd : addrs (mkN w cy (mkN w cx C x kvx B) y kvy A) = addrs t0)
    by (subst t0; destruct w; simpl; by rewrite <-?app_assoc).
  all: split; [apply Shape_focus; split_and!|].

  all: rewrite ?root_of_mkN.
  all: lazymatch goal with
       | |- NoDup _ => by rewrite Hadd
       | |- load _ _ _ = _ => load_solve
       | |- _ = plug_root _ _ => done
       | |- ctx_ok _ Top _ => exact I
       | |- hole_up _ Top _ => cbn [hole_up]; load_solve
       | |- hole_up _ (Zip _ _ _ _ _ _) _ => cbn [hole_up]; uplink_solve
       | |- dll _ _ _ _ => rewrite addrs_plug, Hadd, <-addrs_plug; dll_frame_tac
       | |- frame_on _ _ _ => subst t0; frame_tac
       | |- _ => idtac
       end.
  all: shape_tac.
Qed.

Lemma mkN_flip w c tw x kv tn : mkN w c tw x kv tn = mkN (negb w) c tn x kv tw.
Proof. by destruct w. Qed.

(** Rotating away from the side [w] of the heavy child. *)
Lemma rotate_spec_neg hd tl h r n w k cx cy (C : tree K V) x kvx (B : tree K V) y kvy (A : tree K V) :
  Shape hd tl h r (plug k (mkN w cx (mkN w cy A y kvy B) x kvx C)) →
  ∃ h' r',
    rotate (Some x) (negb w) (mk_state h (Some hd) (Some tl) r n)
      = Some (tt, mk_state h' (Some hd) (Some tl) r' n) ∧
    Shape hd tl h' r' (plug k (mkN w cy A y kvy (mkN w cx B x kvx C))) ∧
    frame_on (addrs (plug k (mkN w cx (mkN w cy A y kvy B) x kvx C))) h h'.
Proof.
  assert (E1 : mkN w cx (mkN w cy A y kvy B) x kvx C
             = mkN (negb w) cx C x kvx (mkN (negb (negb w)) cy A y kvy B)) by (by destruct w).
  assert (E2 : mkN (negb w) cy (mkN (negb w) cx C x kvx B) y kvy A
             = mkN w cy A y kvy (mkN w cx B x kvx C)) by (by destruct w).
  rewrite E1, <-E2. apply rotate_spec.
Qed.

(** What the heap says about the node at the focus. *)
Lemma Shape_node hd tl h r k w c (tw : tree K V) x kv (tn : tree K V) :
  Shape hd tl h r (plug k (mkN w c tw x kv tn)) →
  load color (Some x) h = Some c ∧ load value (Some x) h = Some (Some kv) ∧
  load (child w) (Some x) h = Some (root_of tw) ∧
  load (child (negb w)) (Some x) h = Some (root_of tn) ∧
  load father (Some x) h = Some (ctx_father k) ∧
  hole_up h k (Some x) ∧ r = plug_root k (Some x).
Proof.
  intros (Hnd & Hvh & Hvt & -> & Hk & Hup & Ht & Hd)%Shape_focus.
  apply tree_ok_mkN in Ht as (Hxc & Hxv & Hxw & Hxn & _).
  rewrite root_of_mkN in *. split_and!; try done. by apply hole_up_father.
Qed.

(** Recolouring the node at the focus. *)
Lemma recolor_spec c' hd tl h r k w c (tw : tree K V) x kv (tn : tree K V) :
  Shape hd tl h r (plug k (mkN w c tw x kv tn)) →
  Shape hd tl (alter (set_color c') x h) r (plug k (mkN w c' tw x kv tn)) ∧
  frame_on (addrs (plug k (mkN w c tw x kv tn))) h (alter (set_color c') x h).
Proof.
  intros (Hnd & Hvh & Hvt & -> & Hk & Hup & Ht & Hd)%Shape_focus.
  pose proof Hnd as Hnd0.
  apply tree_ok_mkN in Ht as (Hxc & Hxv & Hxw & Hxn & Huw & Hun & Htw & Htn).
  rewrite root_of_mkN in *.
  rewrite !addrs_mkN_perm in Hnd. simpl in Hnd. nd_norm Hnd.
  assert (Hadd : addrs (mkN w c' tw x kv tn) = addrs (mkN w c tw x kv tn))
    by (by destruct w).
  split; [apply Shape_focus; split_and!|].
  all: rewrite ?root_of_mkN.
  all: lazymatch goal with
       | |- NoDup _ => by rewrite Hadd
       | |- _ = plug_root _ _ => done
       | |- dll _ _ _ _ => rewrite addrs_plug, Hadd, <-addrs_plug; dll_frame_tac
       | |- frame_on _ _ _ => frame_tac
       | |- _ => idtac
       end.
  all: shape_tac.
Qed.

End primitives.

(** ** The fix-ups on the abstract tree

    The code of [insert_fix] and [erase_fix] read on a tree with a focus:
    the target is the root of the subtree in the hole, the context is
    walked upwards as the code walks [father]. [None] means that the code
    dereferences a null pointer. *)

Section pure.
Context {K V : Type}.
Implicit Types (t l r s : tree K V) (k up : ctx K V).

Definition null_or_black_t t : bool :=
  match t with Node RED _ _ _ _ => false | _ => true end.
Definition set_tcolor (c : color_e) t : tree K V :=
  match t with Leaf => Leaf | Node _ l x kv r => Node c l x kv r end.
Definition tchild (w : which_e) t : tree K V :=
  match t with Leaf => Leaf | Node _ l _ _ r => if w then r else l end.
Definition tcolor t : color_e :=
  match t with Leaf => BLACK | Node c _ _ _ _ => c end.

Fixpoint ifix k t : option (tree K V) :=
  match t with
  | Leaf => None
  | Node _ l x kv r =>
    match k with
    | Top => Some (Node BLACK l x kv r)
    | Zip w1 c1 f kvf s1 up =>
      if c1 is BLACK then Some (plug k t) else
      match up with
      | Top => None
      | Zip w2 c2 g kvg s2 up2 =>
        if null_or_black_t s2 then
          if bool_decide (w1 = w2) then
            Some (plug up2 (mkN w2 BLACK t f kvf (mkN w2 RED s1 g kvg s2)))
          else
            Some (plug up2 (mkN w2 BLACK (mkN w2 c1 s1 f kvf (tchild w2 t)) x kv
                                         (mkN w2 RED (tchild (negb w2) t) g kvg s2)))
        else ifix up2 (mkN w2 RED (mkN w1 BLACK t f kvf s1) g kvg (set_tcolor BLACK s2))
      end
    end
  end.

(** [erase_fix] from its last test on: the far nephew is made RED if it is
    not, then the father is rotated towards the target. The result is the
    context of the target afterwards. *)
Definition efix_tail (w : which_e) (cf : color_e) (f : addr) (kvf : K * V) s up
  : option (ctx K V) :=
  match s with
  | Leaf => None
  | Node cb bl y kvy br =>
    let far := tchild (negb w) s in
    let near := tchild w s in
    s' ← (if null_or_black_t far then
            match near with
            | Leaf => None
            | Node _ _ z kvz _ =>
              Some (mkN w BLACK (tchild w near) z kvz (mkN w RED (tchild (negb w) near) y kvy far))
            end
          else Some s);
    match s' with
    | Leaf => None
    | Node cs' _ y' kvy' _ =>
      match tchild (negb w) s' with
      | Leaf => None
      | far' => Some (Zip w cs' f kvf (tchild w s') (Zip w cf y' kvy' (set_tcolor BLACK far') up))
      end
    end
  end.

(** From the test "father RED, brother and nephews BLACK" on. *)
Definition efix_mid (w : which_e) (cf : color_e) (f : addr) (kvf : K * V) s up
  : option (ctx K V) :=
  match s with
  | Leaf => None
  | Node cb bl y kvy br =>
    if bool_decide (cf = RED) && bool_decide (cb = BLACK)
       && null_or_black_t bl && null_or_black_t br
    then Some (Zip w BLACK f kvf (Node RED bl y kvy br) up)
    else efix_tail w cf f kvf s up
  end.

(** From the test "brother RED" on. *)
Definition efix_red (w : which_e) (cf : color_e) (f : addr) (kvf : K * V) s up
  : option (ctx K V) :=
  match s with
  | Leaf => None
  | Node cb bl y kvy br =>
    if bool_decide (cb = RED)
    then efix_mid w RED f kvf (tchild w s) (Zip w BLACK y kvy (tchild (negb w) s) up)
    else efix_mid w cf f kvf s up
  end.

(** [erase_fix] past its first two tests, for a target in the hole of [k]:
    the subtree of the target lacks one BLACK node. The result is the
    context of the target afterwards, and whether the target has been made
    BLACK (it is when the walk reaches the root). *)
Fixpoint efix k : option (ctx K V * bool) :=
  match k with
  | Top => Some (Top, true)
  | Zip w cf f kvf s up =>
    match s with
    | Leaf => None
    | Node cb bl y kvy br =>
      if bool_decide (cf = BLACK) && bool_decide (cb = BLACK)
         && null_or_black_t bl && null_or_black_t br
      then
        match efix up with
        | Some (up', b) =>
            Some (Zip w (if b then BLACK else cf) f kvf (Node RED bl y kvy br) up', false)
        | None => None
        end
      else
        match efix_red w cf f kvf s up with
        | Some k' => Some (k', false)
        | None => None
        end
    end
  end.

(** [target->child[target->child[LEFT] == nullptr]]. *)
Definition only_child_t t : tree K V :=
  match tchild LEFT t with Leaf => tchild RIGHT t | c => c end.

(** [erase_fix(target)]: the node to remove is the root of [t]; the result
    is the focus on that node afterwards. *)
Definition efix0 k t : option (ctx K V * tree K V) :=
  match t with
  | Leaf => None
  | Node ct l x kv r =>
    if bool_decide (ct = RED) then Some (k, t)
    else if null_or_black_t (only_child_t t) then
      match efix k with
      | Some (k', b) => Some (k', if b then set_tcolor BLACK t else t)
      | None => None
      end
    else match l with
         | Leaf => Some (k, Node ct Leaf x kv (set_tcolor BLACK r))
         | _ => Some (k, Node ct (set_tcolor BLACK l) x kv r)
         end
  end.

End pure.

(** Composing frames over trees with the same addresses. *)
Ltac fr_mem :=
  let a := fresh "a" in
  let Ha := fresh "Ha" in
  intros a Ha; clear -Ha;
  repeat match goal with w : bool |- _ => destruct w end;
  cbn [plug mkN tchild negb] in *; set_solver.
Ltac fr_chain :=
  lazymatch goal with
  | H : frame_on _ ?h1 ?h2 |- frame_on _ ?h0 ?h2 =>
      first [ exact H
            | eapply frame_on_mono; [| exact H]; fr_mem
            | eapply frame_on_trans; [| eapply frame_on_mono; [| exact H]; fr_mem ];
              clear H; fr_chain ]
  | |- frame_on _ ?h ?h => apply frame_on_refl
  end.


(** ** [insert_fix] follows [ifix] *)

Section insert_fix.
Context {K V : Type}.
Implicit Types (h : gmap addr (rbt_node K V)) (t l s : tree K V) (k up : ctx K V).

Lemma root_of_Node t x : root_of t = Some x → ∃ c l kv (r : tree K V), t = Node c l x kv r.
Proof. destruct t; [done|]. intros [= ->]. eauto. Qed.

Lemma Node_mkN w c l x kv (r : tree K V) :
  Node c l x kv r = mkN w c (tchild w (Node c l x kv r)) x kv (tchild (negb w) (Node c l x kv r)).
Proof. by destruct w. Qed.

Lemma addrs_recolor k w c c' tw x kv tn :
  addrs (plug k (mkN w c' tw x kv tn)) = addrs (plug k (mkN w c tw x kv tn)).
Proof. rewrite !addrs_plug. by destruct w. Qed.
Lemma addrs_rotate k w cx cy cx' cy' (A B C : tree K V) x kvx y kvy :
  addrs (plug k (mkN w cy' A y kvy (mkN w cx' B x kvx C)))
  = addrs (plug k (mkN w cx (mkN w cy A y kvy B) x kvx C)).
Proof.
  rewrite !addrs_plug. destruct w; simpl; repeat (rewrite <-app_assoc; simpl); done.
Qed.

Lemma plug_sibling k w c x kv sib t :
  plug (Zip w c x kv sib k) t = plug (Zip (negb w) c x kv t k) sib.
Proof. simpl. by rewrite mkN_flip. Qed.

Lemma insert_fix_sim fuel k t t' x hd tl h r n :
  Shape hd tl h r (plug k t) → root_of t = Some x → ifix k t = Some t' →
  ctx_depth k < fuel →
  ∃ h' r',
    insert_fix fuel (Some x) (mk_state h (Some hd) (Some tl) r n)
      = Some (tt, mk_state h' (Some hd) (Some tl) r' n) ∧
    Shape hd tl h' r' t' ∧ frame_on (addrs (plug k t)) h h'.
Proof.
  revert k t t' x h r. induction fuel as [|fuel IH]; intros k t t' x h r HS Hx Hfix Hfuel; [lia|].
  apply root_of_Node in Hx as (ct & l & kv & rr & ->).
  destruct k as [|w1 c1 f kvf s1 up].
  { (* the target is the root *)
    simpl in Hfix. injection Hfix as <-.
    destruct (Shape_node _ _ _ _ Top false _ _ _ _ _ HS) as (Hc & Hv & Hl & Hr & Hf & Hup & ->).
    destruct (recolor_spec BLACK _ _ _ _ Top false _ _ _ _ _ HS) as [HS' Hfr].
    eexists _, _. split; [|split; [exact HS'|exact Hfr]].
    simpl. repeat mstep. done. }
  destruct (Shape_node _ _ _ _ _ false _ _ _ _ _ HS) as (Hc & Hv & Hl & Hr & Hf & Hup & Hroot).
  destruct (Shape_node _ _ _ _ up w1 _ _ _ _ _ HS) as (Hfc & Hfv & Hfw & Hfn & Hff & Hfup & _).
  cbn [hole_up ctx_father] in *. destruct Hup as [_ Hw].
  destruct c1.
  2: { (* the father is BLACK *)
    simpl in Hfix. injection Hfix as <-.
    eexists _, _. split; [|split; [exact HS|apply frame_on_refl]].
    simpl. repeat mstep. done. }
  destruct up as [|w2 c2 g kvg s2 up2]; [done|].
  destruct (Shape_node _ _ _ _ up2 w2 _ _ _ _ _ HS) as (Hgc & Hgv & Hgw & Hgn & Hgf & Hgup & _).
  cbn [hole_up ctx_father] in *. destruct Hfup as [_ Hfwh].
  assert (Huc : ∀ cu ul u kvu ur, s2 = Node cu ul u kvu ur → load color (Some u) h = Some cu).
  { intros cu ul u kvu ur ->.
    pose proof HS as HSu. cbn [plug] in HSu. rewrite (mkN_flip w2) in HSu.
    by destruct (Shape_node _ _ _ _ (Zip (negb w2) c2 g kvg _ up2) false _ _ _ _ _ HSu) as (Huc & _). }
  cbn [ifix] in Hfix.
  destruct (null_or_black_t s2) eqn:Hnb.
  - (* the uncle is null or BLACK *)
    destruct (decide (w1 = w2)) as [->|Hne].
    + rewrite bool_decide_true in Hfix by done. injection Hfix as <-.
      destruct (recolor_spec BLACK _ _ _ _ (Zip w2 c2 g kvg s2 up2) w2 _ _ _ _ _ HS) as [HS1 Hfr1].
      destruct (recolor_spec RED _ _ _ _ up2 w2 _ _ _ _ _ HS1) as [HS2 Hfr2].
      destruct (rotate_spec_neg _ _ _ _ n _ _ _ _ _ _ _ _ _ _ _ HS2) as (h' & r' & Hrun & HS3 & Hfr3).
      exists h', r'. split; [|split; [exact HS3|]].
      * destruct s2 as [|[] ul u kvu ur]; [|done|]; try specialize (Huc _ _ _ _ _ eq_refl); mrun.
        all: exact Hrun.
      * fr_chain.
    + rewrite bool_decide_false in Hfix by done. injection Hfix as <-.
      assert (w1 = negb w2) as -> by (by destruct w1, w2).
      destruct (recolor_spec BLACK _ _ _ _ _ false _ _ _ _ _ HS) as [HS1 Hfr1].
      cbn [plug] in HS1.
      destruct (recolor_spec RED _ _ _ _ up2 w2 _ _ _ _ _ HS1) as [HS2 Hfr2].
      assert (E : mkN (negb w2) RED (mkN false BLACK l x kv rr) f kvf s1
                = mkN w2 RED s1 f kvf
                    (mkN (negb w2) BLACK (tchild (negb w2) (Node ct l x kv rr)) x kv
                       (tchild w2 (Node ct l x kv rr)))) by (by destruct w2).
      rewrite E in HS2.
      destruct (rotate_spec _ _ _ _ n w2 (Zip w2 RED g kvg s2 up2) _ _ _ _ _ _ _ _ _ HS2)
        as (h3 & r3 & Hrun3 & HS3 & Hfr3).
      destruct (Shape_node _ _ _ _ _ _ _ _ _ _ _ HS3) as (_ & _ & _ & _ & _ & [_ Hw3] & _).
      cbn [plug] in HS3.
      destruct (rotate_spec_neg _ _ _ _ n _ _ _ _ _ _ _ _ _ _ _ HS3) as (h4 & r4 & Hrun4 & HS4 & Hfr4).
      exists h4, r4. split; [|split; [exact HS4|]].
      * destruct s2 as [|[] ul u kvu ur]; [|done|]; try specialize (Huc _ _ _ _ _ eq_refl); mrun.
        all: rewrite negb_involutive.
        all: erewrite bind_ok by exact Hrun3.
        all: mrun; exact Hrun4.
      * rewrite <-E in Hfr3. fr_chain.
  - (* the uncle is RED *)
    destruct s2 as [|[] ul u kvu ur]; try done.
    specialize (Huc _ _ _ _ _ eq_refl).
    pose proof HS as HSu. cbn [plug] in HSu. rewrite (mkN_flip w2) in HSu.
    destruct (recolor_spec BLACK _ _ _ _ (Zip (negb w2) c2 g kvg _ up2) false _ _ _ _ _ HSu)
      as [HS1 Hfr1].
    cbn [plug] in HS1. rewrite <-(mkN_flip w2) in HS1.
    destruct (recolor_spec BLACK _ _ _ _ (Zip w2 c2 g kvg _ up2) w1 _ _ _ _ _ HS1) as [HS2 Hfr2].
    destruct (recolor_spec RED _ _ _ _ up2 w2 _ _ _ _ _ HS2) as [HS3 Hfr3].
    destruct (IH up2 _ t' g _ _ HS3) as (h4 & r4 & Hrun4 & HS4 & Hfr4);
      [by rewrite root_of_mkN|exact Hfix|simpl in Hfuel; lia|].
    exists h4, r4. split; [|split; [exact HS4|]].
    + mrun. exact Hrun4.
    + fr_chain.
Qed.

End insert_fix.

(** ** [erase_fix] follows [efix] *)

Section erase_fix.
Context {K V : Type}.
Implicit Types (h : gmap addr (rbt_node K V)) (t l s : tree K V) (k up : ctx K V).

Local Open Scope m_scope.

(** The parts of the body of [erase_fix]. *)
Definition erase_tail (target f br : ptr) : M K V unit :=
  let* tw := rd which target in
  let* far := rd (child (negb tw)) br in
  let* fb := null_or_black far in
  let* br := (if fb then
                let* tw := rd which target in
                let* near := rd (child tw) br in
                wr (set_color BLACK) near >>
                wr (set_color RED) br >>
                let* tw := rd which target in
                rotate br (negb tw) >>
                brother target
              else ret br) in
  __swap color set_color f br >>
  let* tw := rd which target in
  let* far := rd (child (negb tw)) br in
  wr (set_color BLACK) far >>
  let* tw := rd which target in
  rotate f tw.

Definition erase_mid (target f br : ptr) : M K V unit :=
  let* fc := rd color f in
  let* bc := rd color br in
  let* cb := (if bool_decide (fc = RED) && bool_decide (bc = BLACK)
              then cousins_black br else ret false) in
  if cb then
    wr (set_color BLACK) f >>
    wr (set_color RED) br
  else erase_tail target f br.

Definition erase_red (target f br : ptr) : M K V unit :=
  let* bc := rd color br in
  let* br := (if bool_decide (bc = RED) then
                wr (set_color RED) f >>
                wr (set_color BLACK) br >>
                let* tw := rd which target in
                rotate f tw >>
                brother target
              else ret br) in
  erase_mid target f br.

Lemma erase_fix_unfold fuel target recursive :
  erase_fix (S fuel) target recursive =
    (let* tc := rd color target in
     if bool_decide (tc = RED) && negb recursive then ret tt else
     let* ch := only_child target in
     let* chb := null_or_black ch in
     if negb chb && negb recursive then wr (set_color BLACK) ch else
     let* r := get_root in
     if ptr_eqb r target then wr (set_color BLACK) target else
     let* f := rd father target in
     let* br := brother target in
     let* fc := rd color f in
     let* bc := rd color br in
     let* cb := (if bool_decide (fc = BLACK) && bool_decide (bc = BLACK)
                 then cousins_black br else ret false) in
     if cb then
       wr (set_color RED) br >>
       erase_fix fuel f true
     else erase_red target f br).
Proof. reflexivity. Qed.

Lemma Shape_sub hd tl h r k t : Shape hd tl h r (plug k t) → tree_ok h t.
Proof. by intros (_ & _ & _ & _ & _ & _ & Ht & _)%Shape_focus. Qed.

Lemma tree_ok_color h t a : tree_ok h t → root_of t = Some a → load color (Some a) h = Some (tcolor t).
Proof. destruct t; [done|]. intros (Hc & _) [= ->]. done. Qed.

Lemma nob_ok h t hd tl r n :
  tree_ok h t →
  null_or_black (root_of t) (mk_state h hd tl r n) = Some (null_or_black_t t, mk_state h hd tl r n).
Proof.
  destruct t as [|c l x kv rr]; [done|]. intros (Hc & _). simpl.
  erewrite null_or_black_Some by exact Hc. by destruct c.
Qed.

Lemma cousins_black_ok h c l x kv (rr : tree K V) hd tl r n :
  tree_ok h (Node c l x kv rr) →
  cousins_black (Some x) (mk_state h hd tl r n)
    = Some (null_or_black_t l && null_or_black_t rr, mk_state h hd tl r n).
Proof.
  intros (Hc & Hv & Hl & Hr & _ & _ & Htl & Htr). unfold cousins_black.
  mstep. erewrite bind_ok by (by apply nob_ok).
  destruct (null_or_black_t l); simpl; [|done].
  mstep. by apply nob_ok.
Qed.

Lemma only_child_ok h c l x kv (rr : tree K V) hd tl r n :
  tree_ok h (Node c l x kv rr) →
  only_child (Some x) (mk_state h hd tl r n)
    = Some (root_of (only_child_t (Node c l x kv rr)), mk_state h hd tl r n).
Proof.
  intros (Hc & Hv & Hl & Hr & _). unfold only_child, only_child_t.
  mstep. destruct l; simpl; by mstep.
Qed.

Lemma tree_view w t : t = Leaf ∨ ∃ c tw x kv (tn : tree K V), t = mkN w c tw x kv tn.
Proof.
  destruct t as [|c l x kv r]; [by left|]. right. destruct w.
  - by exists c, r, x, kv, l.
  - by exists c, l, x, kv, r.
Qed.

Lemma root_of_view w t x :
  root_of t = Some x → ∃ c tw kv (tn : tree K V), t = mkN w c tw x kv tn.
Proof.
  destruct (tree_view w t) as [->|(c & tw & x' & kv & tn & ->)]; [done|].
  rewrite root_of_mkN. intros [= ->]. eauto.
Qed.

(** The equations of [efix_tail] on trees read from the side [w]. *)
Lemma efix_tail_far_black w cf f kvf cb cn (nw : tree K V) z kvz nn y kvy far up :
  null_or_black_t far = true →
  efix_tail w cf f kvf (mkN w cb (mkN w cn nw z kvz nn) y kvy far) up
  = Some (Zip w BLACK f kvf nw (Zip w cf z kvz (mkN w BLACK nn y kvy far) up)).
Proof. intros H. destruct w; simpl; by rewrite H. Qed.

Lemma efix_tail_near_null w cf f kvf cb y kvy far up :
  null_or_black_t far = true →
  efix_tail w cf f kvf (mkN w cb Leaf y kvy far) up = None.
Proof. intros H. destruct w; simpl; by rewrite H. Qed.

Lemma efix_tail_far_red w cf f kvf cb near y kvy fl u kvu (fr : tree K V) up :
  efix_tail w cf f kvf (mkN w cb near y kvy (Node RED fl u kvu fr)) up
  = Some (Zip w cb f kvf near (Zip w cf y kvy (Node BLACK fl u kvu fr) up)).
Proof. by destruct w. Qed.

Lemma erase_tail_sim hd tl h r n w cf f kvf s up t k' x :
  Shape hd tl h r (plug (Zip w cf f kvf s up) t) → root_of t = Some x →
  efix_tail w cf f kvf s up = Some k' →
  ∃ h' r',
    erase_tail (Some x) (Some f) (root_of s) (mk_state h (Some hd) (Some tl) r n)
      = Some (tt, mk_state h' (Some hd) (Some tl) r' n) ∧
    Shape hd tl h' r' (plug k' t) ∧ frame_on (addrs (plug (Zip w cf f kvf s up) t)) h h'.
Proof.
  intros HS Hx Hfix.
  apply root_of_Node in Hx as (ct & l & kv & rr & ->).
  set (T := Node ct l x kv rr) in *.
  destruct (tree_view w s) as [->|(cb & near & y & kvy & far & ->)]; [done|].
  destruct (Shape_node _ _ _ _ _ false _ _ _ _ _ HS) as (_ & _ & _ & _ & _ & [Hxf Hxw] & _).
  pose proof HS as HSb. rewrite plug_sibling in HSb.
  destruct (Shape_node _ _ _ _ _ _ _ _ _ _ _ HSb) as (Hyc & _ & Hyw & Hyn & _).
  pose proof (Shape_sub _ _ _ _ _ _ HSb) as (_ & _ & _ & _ & _ & _ & Htw & Htn)%tree_ok_mkN.
  pose (kb := Zip (negb w) cf f kvf T up).
  destruct (null_or_black_t far) eqn:Hfar.
  - (* the far nephew is null or BLACK *)
    destruct (tree_view w near) as [->|(cn & nw & z & kvz & nn & ->)];
      [by rewrite efix_tail_near_null in Hfix|].
    rewrite efix_tail_far_black in Hfix by done. injection Hfix as <-.
    assert (HSz : Shape hd tl h r (plug (Zip w cb y kvy far kb) (mkN w cn nw z kvz nn)))
      by exact HSb.
    destruct (Shape_node _ _ _ _ _ _ _ _ _ _ _ HSz) as (Hzc & _).
    destruct (recolor_spec BLACK _ _ _ _ _ _ _ _ _ _ _ HSz) as [HS1 Hfr1].
    assert (HS1y : Shape hd tl (alter (set_color BLACK) z h) r
      (plug kb (mkN w cb (mkN w BLACK nw z kvz nn) y kvy far))) by exact HS1.
    destruct (recolor_spec RED _ _ _ _ _ _ _ _ _ _ _ HS1y) as [HS2 Hfr2].
    destruct (rotate_spec_neg _ _ _ _ n _ _ _ _ _ _ _ _ _ _ _ HS2) as (h3 & r3 & Hrun3 & HS3 & Hfr3).
    set (FAR := mkN w RED nn y kvy far) in *.
    pose proof HS3 as HS3x. unfold kb in HS3x. rewrite <-plug_sibling in HS3x.
    destruct (Shape_node _ _ _ _ _ false _ _ _ _ _ HS3x) as (_ & _ & _ & _ & _ & [Hxf3 Hxw3] & _).
    assert (HS3f : Shape hd tl h3 r3 (plug up (mkN w cf T f kvf (mkN w BLACK nw z kvz FAR))))
      by exact HS3x.
    destruct (Shape_node _ _ _ _ _ _ _ _ _ _ _ HS3f) as (Hfc3 & _ & _ & Hfn3 & _).
    destruct (Shape_node _ _ _ _ _ _ _ _ _ _ _ HS3) as (Hzc3 & _ & _ & Hzn3 & _).
    assert (HS3y : Shape hd tl h3 r3 (plug (Zip w BLACK z kvz FAR kb) nw)) by exact HS3.
    rewrite plug_sibling in HS3y.
    destruct (Shape_node _ _ _ _ _ w _ _ _ _ _ HS3y) as (Hyc3 & _).
    destruct (recolor_spec BLACK _ _ _ _ _ _ _ _ _ _ _ HS3f) as [HS4 Hfr4].
    assert (HS4z : Shape hd tl (alter (set_color BLACK) f h3) r3
      (plug (Zip w BLACK f kvf (mkN w BLACK nw z kvz FAR) up) T)) by exact HS4.
    rewrite plug_sibling in HS4z.
    destruct (recolor_spec cf _ _ _ _ _ _ _ _ _ _ _ HS4z) as [HS5 Hfr5].
    assert (HS5y : Shape hd tl (alter (set_color cf) z (alter (set_color BLACK) f h3)) r3
      (plug (Zip w cf z kvz FAR (Zip (negb w) BLACK f kvf T up)) nw)) by exact HS5.
    rewrite plug_sibling in HS5y.
    destruct (recolor_spec BLACK _ _ _ _ _ w RED nn y kvy far HS5y) as [HS6 Hfr6].
    assert (HS6f : Shape hd tl
      (alter (set_color BLACK) y (alter (set_color cf) z (alter (set_color BLACK) f h3))) r3
      (plug (Zip (negb w) BLACK f kvf T up)
         (mkN (negb w) cf (mkN w BLACK nn y kvy far) z kvz nw))) by exact HS6.
    rewrite <-plug_sibling in HS6f.
    destruct (rotate_spec _ _ _ _ n w up _ _ _ _ _ _ _ _ _ HS6f) as (h7 & r7 & Hrun7 & HS7 & Hfr7).
    exists h7, r7. split; [|split; [exact HS7|]].
    + unfold erase_tail. rewrite ?root_of_mkN in *. mrun.
      erewrite bind_ok by (by apply nob_ok). rewrite Hfar. mrun.
      erewrite bind_ok by exact Hrun3. mrun. unfold __swap. mrun.
      unfold FAR. rewrite root_of_mkN. mrun.
      exact Hrun7.
    + fr_chain.
  - (* the far nephew is RED *)
    destruct far as [|cfar fl u kvu fr]; [done|]. destruct cfar; [|done].
    rewrite efix_tail_far_red in Hfix. injection Hfix as <-.
    pose proof Htn as (Huc & _).
    set (FAR := Node RED fl u kvu fr) in *.
    assert (HSf : Shape hd tl h r (plug up (mkN w cf T f kvf (mkN w cb near y kvy FAR))))
      by exact HS.
    destruct (Shape_node _ _ _ _ _ _ _ _ _ _ _ HSf) as (Hfc & _).
    destruct (recolor_spec cb _ _ _ _ _ _ _ _ _ _ _ HSf) as [HS1 Hfr1].
    assert (HS1b : Shape hd tl (alter (set_color cb) f h) r
      (plug (Zip w cb f kvf (mkN w cb near y kvy FAR) up) T)) by exact HS1.
    rewrite plug_sibling in HS1b.
    destruct (recolor_spec cf _ _ _ _ _ _ _ _ _ _ _ HS1b) as [HS2 Hfr2].
    assert (HS2u : Shape hd tl (alter (set_color cf) y (alter (set_color cb) f h)) r
      (plug (Zip w cf y kvy FAR (Zip (negb w) cb f kvf T up)) near)) by exact HS2.
    rewrite plug_sibling in HS2u.
    destruct (recolor_spec BLACK _ _ _ _ _ false RED fl u kvu fr HS2u) as [HS3 Hfr3].
    assert (HS3f : Shape hd tl
      (alter (set_color BLACK) u (alter (set_color cf) y (alter (set_color cb) f h))) r
      (plug (Zip (negb w) cb f kvf T up)
         (mkN (negb w) cf (Node BLACK fl u kvu fr) y kvy near))) by exact HS3.
    rewrite <-plug_sibling in HS3f.
    destruct (rotate_spec _ _ _ _ n w up _ _ _ _ _ _ _ _ _ HS3f) as (h4 & r4 & Hrun4 & HS4 & Hfr4).
    exists h4, r4. split; [|split; [exact HS4|]].
    + unfold erase_tail. rewrite ?root_of_mkN in *. mrun.
      erewrite bind_ok by (by apply (nob_ok _ FAR)). cbn [null_or_black_t FAR].
      mrun. unfold __swap. mrun. unfold FAR. cbn [root_of]. mrun.
      exact Hrun4.
    + fr_chain.
Qed.

Lemma erase_mid_sim hd tl h r n w cf f kvf s up t k' x :
  Shape hd tl h r (plug (Zip w cf f kvf s up) t) → root_of t = Some x →
  efix_mid w cf f kvf s up = Some k' →
  ∃ h' r',
    erase_mid (Some x) (Some f) (root_of s) (mk_state h (Some hd) (Some tl) r n)
      = Some (tt, mk_state h' (Some hd) (Some tl) r' n) ∧
    Shape hd tl h' r' (plug k' t) ∧ frame_on (addrs (plug (Zip w cf f kvf s up) t)) h h'.
Proof.
  intros HS Hx Hfix.
  destruct s as [|cb bl y kvy br]; [done|].
  set (S0 := Node cb bl y kvy br) in *.
  assert (HSf : Shape hd tl h r (plug up (mkN w cf t f kvf S0))) by exact HS.
  destruct (Shape_node _ _ _ _ _ _ _ _ _ _ _ HSf) as (Hfc & _).
  pose proof HS as HSb. rewrite plug_sibling in HSb.
  destruct (Shape_node _ _ _ _ _ false _ _ _ _ _ HSb) as (Hyc & _).
  pose proof (Shape_sub _ _ _ _ _ _ HSb) as Hts.
  unfold efix_mid in Hfix. cbn [S0] in Hfix.
  destruct (bool_decide (cf = RED) && bool_decide (cb = BLACK)
            && null_or_black_t bl && null_or_black_t br) eqn:Htest.
  - apply andb_prop in Htest as [[[Hcf Hcb]%andb_prop Hbl]%andb_prop Hbr].
    apply bool_decide_eq_true in Hcf as ->, Hcb as ->.
    injection Hfix as <-.
    destruct (recolor_spec BLACK _ _ _ _ _ _ _ _ _ _ _ HSf) as [HS1 Hfr1].
    assert (HS1b : Shape hd tl (alter (set_color BLACK) f h) r
      (plug (Zip w BLACK f kvf S0 up) t)) by exact HS1.
    rewrite plug_sibling in HS1b.
    destruct (recolor_spec RED _ _ _ _ _ false BLACK bl y kvy br HS1b) as [HS2 Hfr2].
    rewrite <-plug_sibling in HS2.
    eexists _, _. split; [|split; [exact HS2|]].
    + unfold erase_mid. cbn [S0 root_of]. do 2 mstep. bd_simpl. cbn [andb].
      erewrite bind_ok by (by eapply cousins_black_ok). rewrite Hbl, Hbr. mrun. done.
    + fr_chain.
  - destruct (erase_tail_sim _ _ _ _ n _ _ _ _ _ _ _ _ _ HS Hx Hfix) as (h' & r' & Hrun & HS' & Hfr).
    exists h', r'. split; [|done].
    unfold erase_mid. cbn [S0 root_of] in *. do 2 mstep.
    destruct (bool_decide (cf = RED) && bool_decide (cb = BLACK)) eqn:Hc2.
    + erewrite bind_ok by (by eapply cousins_black_ok).
      cbn [andb] in Htest. rewrite Htest. exact Hrun.
    + mrun. exact Hrun.
Qed.

Lemma efix_red_RED w cf f kvf near y kvy far up :
  efix_red w cf f kvf (mkN w RED near y kvy far) up
  = efix_mid w RED f kvf near (Zip w BLACK y kvy far up).
Proof. by destruct w. Qed.

Lemma efix_red_BLACK w cf f kvf bl y kvy br up :
  efix_red w cf f kvf (Node BLACK bl y kvy br) up
  = efix_mid w cf f kvf (Node BLACK bl y kvy br) up.
Proof. done. Qed.

Lemma erase_red_sim hd tl h r n w cf f kvf s up t k' x :
  Shape hd tl h r (plug (Zip w cf f kvf s up) t) → root_of t = Some x →
  efix_red w cf f kvf s up = Some k' →
  ∃ h' r',
    erase_red (Some x) (Some f) (root_of s) (mk_state h (Some hd) (Some tl) r n)
      = Some (tt, mk_state h' (Some hd) (Some tl) r' n) ∧
    Shape hd tl h' r' (plug k' t) ∧ frame_on (addrs (plug (Zip w cf f kvf s up) t)) h h'.
Proof.
  intros HS Hx Hfix.
  destruct s as [|cb bl y kvy br]; [done|].
  apply root_of_Node in Hx as Hx'. destruct Hx' as (ct & l & kv & rr & ->).
  set (T := Node ct l x kv rr) in *.
  pose proof HS as HSb. rewrite plug_sibling in HSb.
  destruct (Shape_node _ _ _ _ _ false _ _ _ _ _ HSb) as (Hyc & _).
  destruct cb.
  - (* the brother is RED *)
    destruct (tree_view w (Node RED bl y kvy br)) as [|(cb & near & y' & kvy' & far & E)]; [done|].
    assert (cb = RED ∧ y' = y ∧ kvy' = kvy) as (-> & -> & ->) by (by destruct w; injection E).
    clear HSb. rewrite E in *. clear E bl br.
    rewrite efix_red_RED in Hfix.
    destruct (Shape_node _ _ _ _ _ false _ _ _ _ _ HS) as (_ & _ & _ & _ & _ & [Hxf Hxw] & _).
    assert (HSf : Shape hd tl h r (plug up (mkN w cf T f kvf (mkN w RED near y kvy far))))
      by exact HS.
    destruct (Shape_node _ _ _ _ _ _ _ _ _ _ _ HSf) as (Hfc & _).
    destruct (recolor_spec RED _ _ _ _ _ _ _ _ _ _ _ HSf) as [HS1 Hfr1].
    assert (HS1b : Shape hd tl (alter (set_color RED) f h) r
      (plug (Zip w RED f kvf (mkN w RED near y kvy far) up) T)) by exact HS1.
    rewrite plug_sibling in HS1b.
    destruct (recolor_spec BLACK _ _ _ _ _ _ _ _ _ _ _ HS1b) as [HS2 Hfr2].
    rewrite (mkN_flip w) in HS2. rewrite <-plug_sibling in HS2.
    destruct (rotate_spec _ _ _ _ n w up _ _ _ _ _ _ _ _ _ HS2) as (h3 & r3 & Hrun3 & HS3 & Hfr3).
    assert (HS3x : Shape hd tl h3 r3 (plug (Zip w RED f kvf near (Zip w BLACK y kvy far up)) T))
      by exact HS3.
    destruct (Shape_node _ _ _ _ _ false _ _ _ _ _ HS3x) as (_ & _ & _ & _ & _ & [Hxf3 Hxw3] & _).
    assert (HS3f : Shape hd tl h3 r3
      (plug (Zip w BLACK y kvy far up) (mkN w RED T f kvf near))) by exact HS3.
    destruct (Shape_node _ _ _ _ _ _ _ _ _ _ _ HS3f) as (_ & _ & _ & Hfn3 & _).
    destruct (erase_mid_sim _ _ _ _ n _ _ _ _ _ _ _ _ _ HS3x Hx Hfix) as (h' & r' & Hrun & HS' & Hfr).
    exists h', r'. split; [|split; [exact HS'|]].
    + unfold erase_red. rewrite root_of_mkN. mrun.
      erewrite bind_ok by exact Hrun3. mrun. exact Hrun.
    + fr_chain.
  - rewrite efix_red_BLACK in Hfix.
    destruct (erase_mid_sim _ _ _ _ n _ _ _ _ _ _ _ _ _ HS Hx Hfix) as (h' & r' & Hrun & HS' & Hfr).
    exists h', r'. split; [|done].
    unfold erase_red. cbn [root_of]. mrun. exact Hrun.
Qed.

Lemma tree_ok_only_child h t : tree_ok h t → tree_ok h (only_child_t t).
Proof.
  destruct t as [|c l x kv rr]; [done|].
  intros (_ & _ & _ & _ & _ & _ & Hl & Hr). by destruct l.
Qed.

Lemma Shape_root_ne hd tl h r k t x :
  Shape hd tl h r (plug k t) → root_of t = Some x → k ≠ Top → r ≠ Some x.
Proof.
  intros (Hnd & _ & _ & -> & _)%Shape_focus Hx Hk. rewrite Hx.
  destruct (plug_root_in k (Some x) Hk) as (a & -> & Ha). intros [= ->].
  apply root_of_addrs in Hx. do 2 apply NoDup_cons in Hnd as [_ Hnd].
  apply NoDup_app in Hnd as (_ & Hd & _). by apply (Hd x).
Qed.

Lemma erase_fix_sim fuel k t k' b x hd tl h r n :
  Shape hd tl h r (plug k t) → root_of t = Some x → efix k = Some (k', b) →
  ctx_depth k < fuel →
  ∃ h' r',
    erase_fix fuel (Some x) true (mk_state h (Some hd) (Some tl) r n)
      = Some (tt, mk_state h' (Some hd) (Some tl) r' n) ∧
    Shape hd tl h' r' (plug k' (if b then set_tcolor BLACK t else t)) ∧
    frame_on (addrs (plug k t)) h h'.
Proof.
  revert k t k' b x h r. induction fuel as [|fuel IH]; intros k t k' b x h r HS Hx Hfix Hfuel; [lia|].
  apply root_of_Node in Hx as (ct & l & kv & rr & ->).
  set (T := Node ct l x kv rr) in *.
  pose proof (Shape_sub _ _ _ _ _ _ HS) as HT.
  destruct (Shape_node _ _ _ _ _ false _ _ _ _ _ HS) as (Hc & _ & _ & _ & Hf & Hup & Hroot).
  rewrite erase_fix_unfold. mstep. cbn [negb]. rewrite andb_false_r.
  erewrite bind_ok by (by eapply only_child_ok).
  erewrite bind_ok by (by eapply nob_ok, tree_ok_only_child).
  rewrite andb_false_r. mstep.
  destruct k as [|w cf f kvf s up].
  { (* the target is the root *)
    simpl in Hfix. injection Hfix as <- <-. cbn [plug_root] in Hroot. subst r.
    destruct (recolor_spec BLACK _ _ _ _ Top false _ _ _ _ _ HS) as [HS' Hfr].
    eexists _, _. split; [|split; [exact HS'|exact Hfr]].
    mrun. done. }
  cbn [hole_up ctx_father] in *. destruct Hup as [_ Hw].
  destruct s as [|cb bl y kvy br]; [done|].
  set (S0 := Node cb bl y kvy br) in *.
  assert (HSf : Shape hd tl h r (plug up (mkN w cf T f kvf S0))) by exact HS.
  destruct (Shape_node _ _ _ _ _ _ _ _ _ _ _ HSf) as (Hfc & _ & _ & Hfn & _).
  pose proof HS as HSb. rewrite plug_sibling in HSb.
  destruct (Shape_node _ _ _ _ _ false _ _ _ _ _ HSb) as (Hyc & _).
  pose proof (Shape_sub _ _ _ _ _ _ HSb) as Hts.
  rewrite ptr_eqb_ne by (by apply (Shape_root_ne _ _ _ _ _ _ _ HS)).
  mstep. unfold brother at 1. repeat mstep. cbn [S0 root_of]. repeat mstep.
  cbn [efix] in Hfix. cbn [S0] in Hfix.
  destruct (bool_decide (cf = BLACK) && bool_decide (cb = BLACK)
            && null_or_black_t bl && null_or_black_t br) eqn:Htest.
  - apply andb_prop in Htest as [[[Hcf Hcb]%andb_prop Hbl]%andb_prop Hbr].
    apply bool_decide_eq_true in Hcf as ->, Hcb as ->.
    bd_simpl. cbn [andb].
    erewrite bind_ok by (by eapply cousins_black_ok). rewrite Hbl, Hbr. cbn [andb].
    destruct (recolor_spec RED _ _ _ _ _ false BLACK bl y kvy br HSb) as [HS1 Hfr1].
    rewrite <-plug_sibling in HS1.
    assert (HS1f : Shape hd tl (alter (set_color RED) y h) r
      (plug up (mkN w BLACK T f kvf (Node RED bl y kvy br)))) by exact HS1.
    destruct (efix up) as [[up' b']|] eqn:Hup'; [|done]. injection Hfix as <- <-.
    destruct (IH up _ _ _ f _ _ HS1f (root_of_mkN _ _ _ _ _ _) Hup') as (h' & r' & Hrun & HS' & Hfr);
      [cbn [ctx_depth] in Hfuel; lia|].
    exists h', r'. split; [|split].
    + mstep. exact Hrun.
    + cbn [plug]. by destruct b', w.
    + fr_chain.
  - destruct (efix_red w cf f kvf S0 up) as [k1|] eqn:Hred; [|done]. injection Hfix as <- <-.
    destruct (erase_red_sim _ _ _ _ n _ _ _ _ _ _ _ _ _ HS eq_refl Hred) as (h' & r' & Hrun & HS' & Hfr).
    exists h', r'. split; [|done].
    destruct (bool_decide (cf = BLACK) && bool_decide (cb = BLACK)) eqn:Hc2.
    + erewrite bind_ok by (by eapply cousins_black_ok).
      cbn [andb] in Htest. rewrite Htest. exact Hrun.
    + mrun. exact Hrun.
Qed.

Lemma erase_fix0_sim fuel k t k' t' x hd tl h r n :
  Shape hd tl h r (plug k t) → root_of t = Some x → efix0 k t = Some (k', t') →
  ctx_depth k < fuel →
  ∃ h' r',
    erase_fix fuel (Some x) false (mk_state h (Some hd) (Some tl) r n)
      = Some (tt, mk_state h' (Some hd) (Some tl) r' n) ∧
    Shape hd tl h' r' (plug k' t') ∧ frame_on (addrs (plug k t)) h h'.
Proof.
  intros HS Hx Hfix Hfuel.
  destruct fuel as [|fuel]; [lia|].
  apply root_of_Node in Hx as (ct & l & kv & rr & ->).
  pose proof (Shape_sub _ _ _ _ _ _ HS) as HT.
  destruct (Shape_node _ _ _ _ _ false _ _ _ _ _ HS) as (Hc & _).
  cbn [efix0] in Hfix.
  destruct ct.
  { (* the target is RED *)
    rewrite bool_decide_true in Hfix by done. injection Hfix as <- <-.
    exists h, r. split; [|split; [exact HS|apply frame_on_refl]].
    rewrite erase_fix_unfold. mstep. bd_simpl. done. }
  rewrite bool_decide_false in Hfix by done.
  destruct (null_or_black_t (only_child_t (Node BLACK l x kv rr))) eqn:Hch.
  - (* no RED child *)
    destruct (efix k) as [[k1 b]|] eqn:Hk1; [|done]. injection Hfix as <- <-.
    destruct (erase_fix_sim (S fuel) _ _ _ _ _ _ _ _ _ n HS eq_refl Hk1 Hfuel)
      as (h' & r' & Hrun & HS' & Hfr).
    exists h', r'. split; [|done].
    rewrite erase_fix_unfold in Hrun |- *.
    erewrite bind_rd in Hrun by exact Hc. erewrite bind_rd by exact Hc.
    rewrite bool_decide_false in Hrun |- * by done. cbn [andb] in Hrun |- *.
    erewrite bind_ok in Hrun by (by eapply only_child_ok).
    erewrite bind_ok by (by eapply only_child_ok).
    erewrite bind_ok in Hrun by (by eapply nob_ok, tree_ok_only_child).
    erewrite bind_ok by (by eapply nob_ok, tree_ok_only_child).
    rewrite Hch in Hrun |- *. exact Hrun.
  - (* a RED child *)
    assert (∃ h',
      wr (set_color BLACK) (root_of (only_child_t (Node BLACK l x kv rr)))
         (mk_state h (Some hd) (Some tl) r n)
        = Some (tt, mk_state h' (Some hd) (Some tl) r n) ∧
      Shape hd tl h' r (plug k' t') ∧ frame_on (addrs (plug k (Node BLACK l x kv rr))) h h')
      as (h' & Hrun & HS' & Hfr).
    { destruct l as [|cl ll a kva lr].
      - destruct rr as [|[] rl a kva rrr]; try done. injection Hfix as <- <-.
        assert (HSc : Shape hd tl h r
          (plug (Zip true BLACK x kv Leaf k) (mkN false RED rl a kva rrr))) by exact HS.
        destruct (Shape_node _ _ _ _ _ _ _ _ _ _ _ HSc) as (Hac & _).
        destruct (recolor_spec BLACK _ _ _ _ _ _ _ _ _ _ _ HSc) as [HS1 Hfr1].
        eexists. split; [|split; [exact HS1|exact Hfr1]].
        cbn. mstep. done.
      - destruct cl; try done. injection Hfix as <- <-.
        assert (HSc : Shape hd tl h r
          (plug (Zip false BLACK x kv rr k) (mkN false RED ll a kva lr))) by exact HS.
        destruct (Shape_node _ _ _ _ _ _ _ _ _ _ _ HSc) as (Hac & _).
        destruct (recolor_spec BLACK _ _ _ _ _ _ _ _ _ _ _ HSc) as [HS1 Hfr1].
        eexists. split; [|split; [exact HS1|exact Hfr1]].
        cbn. mstep. done. }
    exists h', r. split; [|done].
    rewrite erase_fix_unfold. mstep. bd_simpl. cbn [andb].
    erewrite bind_ok by (by eapply only_child_ok).
    erewrite bind_ok by (by eapply nob_ok, tree_ok_only_child).
    rewrite Hch. cbn [negb andb]. exact Hrun.
Qed.

End erase_fix.

(** ** Linking a new node below a leaf position *)

Section attach.
Context {K V : Type}.
Implicit Types (h : gmap addr (rbt_node K V)) (t l s : tree K V) (k up : ctx K V).

Local Open Scope m_scope.

Lemma dll_frame_ends h h' a xs b :
  dll h a xs b →
  load next (Some a) h' = load next (Some a) h →
  load prev (Some b) h' = load prev (Some b) h →
  (∀ z, z ∈ xs → same_links h h' z) → dll h' a xs b.
Proof.
  revert a; induction xs as [|x xs IH]; intros a; simpl.
  - intros [H1 H2] E1 E2 _. split; congruence.
  - intros [[H1 H2] Hd] E1 E2 Hs. destruct (Hs x) as [E3 E4]; [set_solver|].
    split; [split; congruence|]. apply IH; [done..|]. intros z Hz. apply Hs. set_solver.
Qed.

(** The neighbours of a position between two elements. *)
Lemma dll_mid h a xs ys b :
  dll h a (xs ++ ys) b → link h (default a (last xs)) (hd b ys).
Proof.
  revert a; induction xs as [|x xs IH]; intros a; simpl.
  - destruct ys; simpl; tauto.
  - intros [_ H]. apply IH in H. rewrite last_cons. by destruct (last xs).
Qed.

Lemma last_in (a : addr) xs : default a (last xs) ∈ a :: xs.
Proof.
  destruct (last xs) as [z|] eqn:E; simpl; [|set_solver].
  apply last_Some in E as [? ->]. set_solver.
Qed.
Lemma hd_in (b : addr) ys : hd b ys ∈ b :: ys.
Proof. destruct ys; simpl; set_solver. Qed.

Lemma dll_insert h h' a xs ys b z :
  dll h a (xs ++ ys) b →
  NoDup (a :: b :: xs ++ ys) →
  link h' (default a (last xs)) z → link h' z (hd b ys) →
  (∀ u, u ∈ a :: b :: xs ++ ys →
     (u ≠ default a (last xs) → load next (Some u) h' = load next (Some u) h) ∧
     (u ≠ hd b ys → load prev (Some u) h' = load prev (Some u) h)) →
  dll h' a (xs ++ z :: ys) b.
Proof.
  revert a; induction xs as [|x xs IH]; intros a; simpl.
  - intros Hd Hnd Hl1 Hl2 Hs. split; [done|].
    destruct ys as [|y ys]; simpl in *; [done|]. destruct Hd as [_ Hd]. split; [done|].
    apply NoDup_cons in Hnd as [Ha Hnd]. apply NoDup_cons in Hnd as [Hb Hnd].
    apply NoDup_cons in Hnd as [Hy Hnd].
    eapply dll_frame_ends; [done| | |].
    + apply Hs; set_solver.
    + apply Hs; set_solver.
    + intros u Hu. split; apply Hs; set_solver.
  - intros [[Hl1 Hl2] Hd] Hnd Hz1 Hz2 Hs. rewrite last_cons in Hz1, Hs.
    assert (E : default a (match last xs with Some y => Some y | None => Some x end)
              = default x (last xs)) by (by destruct (last xs)).
    rewrite E in Hz1, Hs.
    pose proof (last_in x xs) as Hp. pose proof (hd_in b ys) as Hq.
    apply NoDup_cons in Hnd as [Ha Hnd]. apply NoDup_cons in Hnd as [Hb Hnd].
    pose proof Hnd as Hnd'. apply NoDup_cons in Hnd as [Hx Hnd].
    split.
    + split.
      * destruct (Hs a) as [E1 _]; [set_solver|]. rewrite E1; [done|].
        intros E'. rewrite <-E' in Hp. set_solver.
      * destruct (Hs x) as [_ E1]; [set_solver|]. rewrite E1; [done|].
        intros E'. rewrite <-E' in Hq.
        apply NoDup_app in Hnd as (_ & Hdis & _). set_solver.
    + apply IH; [done| |done..|].
      * rewrite NoDup_cons. split; [set_solver|]. rewrite NoDup_cons. set_solver.
      * intros u Hu. apply Hs. set_solver.
Qed.

Lemma ctx_ok_alloc h k p a : ctx_ok h k p → a ∈ ctx_addrs k → is_Some (h !! a).
Proof.
  induction k as [|w c x kv sib up IH] in p |- *; [by intros _ ?%elem_of_nil|].
  simpl. intros (Hc & _ & _ & _ & _ & Hts & _ & Hk) [->|[Ha|Ha]]%ctx_addrs_Zip.
  - by eapply load_alloc.
  - by eapply tree_ok_alloc.
  - by eapply IH.
Qed.

Lemma Shape_alloc hd tl h r t a :
  Shape hd tl h r t → a ∈ hd :: tl :: addrs t → is_Some (h !! a).
Proof.
  intros (_ & Hh & Ht & _ & [Hok _] & _) Ha.
  apply elem_of_cons in Ha as [->|Ha]; [by eapply load_alloc|].
  apply elem_of_cons in Ha as [->|Ha]; [by eapply load_alloc|].
  by eapply tree_ok_alloc.
Qed.

Lemma Shape_fresh hd tl h r t : Shape hd tl h r t → alloc h ∉ hd :: tl :: addrs t.
Proof.
  intros HS Ha. apply (Shape_alloc _ _ _ _ _ _ HS) in Ha as [? Ha].
  by rewrite alloc_fresh in Ha.
Qed.

Lemma bind_new_node {B} nd (kk : ptr → M K V B) (st : state K V) :
  bind (new_node nd) kk st
  = kk (Some (alloc (heap st))) (with_heap (<[alloc (heap st) := nd]> (heap st)) st).
Proof. done. Qed.

(** The new node is linked between its neighbours of the list and below
    its father. *)
Lemma attach_spec hd tl h r n w c cur kvc sib up v :
  Shape hd tl h r (plug (Zip w c cur kvc sib up) Leaf) →
  ∃ h',
    (let* pv := (if w then ret (Some cur) else rd prev (Some cur)) in
     let* nx := (if w then rd next (Some cur) else ret (Some cur)) in
     construct_node v pv nx (Some cur) None None w) (mk_state h (Some hd) (Some tl) r n)
      = Some (Some (alloc h), mk_state h' (Some hd) (Some tl) r n) ∧
    Shape hd tl h' r (plug (Zip w c cur kvc sib up) (Node RED Leaf (alloc h) v Leaf)) ∧
    frame_on (alloc h :: hd :: tl :: addrs (plug (Zip w c cur kvc sib up) Leaf)) h h'.
Proof.
  intros HS. pose proof (Shape_fresh _ _ _ _ _ HS) as Hfr.
  set (k := Zip w c cur kvc sib up) in *. set (a := alloc h) in *.
  pose proof (λ z, Shape_alloc _ _ _ _ _ z HS) as Hal.
  apply Shape_focus in HS as (Hnd & Hvh & Hvt & -> & Hk & Hup & Ht & Hd).
  rewrite addrs_plug in Hd, Hfr, Hal |- *. cbn [addrs app] in *.
  pose proof (dll_mid _ _ _ _ _ Hd) as [Hpn Hqp].
  pose proof (last_in hd (ctx_before k)) as Hpin. pose proof (hd_in tl (ctx_after k)) as Hqin.
  set (p := default hd (last (ctx_before k))) in *. set (q := List.hd tl (ctx_after k)) in *.
  assert (Hnd2 : NoDup (hd :: tl :: ctx_before k ++ ctx_after k)).
  { cbn [addrs app] in Hnd. unfold ctx_addrs in Hnd. done. }
  assert (Hpa : is_Some (h !! p)) by (apply Hal; clear -Hpin; set_solver).
  assert (Hqa : is_Some (h !! q)) by (apply Hal; clear -Hqin; set_solver).
  assert (Hp : p ≠ a) by (intros ->; apply Hfr; clear -Hpin; set_solver).
  assert (Hq : q ≠ a) by (intros ->; apply Hfr; clear -Hqin; set_solver).
  assert (Hpq : (if w then p = cur else q = cur)).
  { subst p q k. destruct w; cbn [ctx_before ctx_after]; [|done].
    by rewrite !app_assoc, last_snoc. }
  assert (Hnda : NoDup (a :: hd :: tl :: ctx_addrs k)).
  { apply NoDup_cons. split; [|done]. unfold ctx_addrs. done. }
  pose proof Hnda as Hnda0.
  clear Hal.
  subst k. cbn [ctx_ok hole_up root_of] in Hk, Hup.
  destruct Hk as (Hcc & Hcv & Hcw & Hcn & Hus & Hts & Hupp & Hkk).
  rewrite ctx_addrs_Zip_perm in Hnda. nd_norm Hnda.
  eexists. split; [|split].
  - assert (E : ∀ {B} (kk : ptr → ptr → M K V B) (st : state K V),
      st = mk_state h (Some hd) (Some tl) (plug_root (Zip w c cur kvc sib up) None) n →
      (let* pv := (if w then ret (Some cur) else rd prev (Some cur)) in
       let* nx := (if w then rd next (Some cur) else ret (Some cur)) in kk pv nx) st
      = kk (Some p) (Some q) st).
    { intros B kk st ->. destruct w; rewrite <-Hpq; repeat mstep; done. }
    rewrite E by done. clear E.
    unfold construct_node. rewrite bind_new_node. st_simpl. fold a.
    erewrite bind_ok;
      [| eapply (update_nearby_eq false);
         [load_solve | alloc_solve | load_solve | alloc_solve | load_solve | load_solve
         | valid_solve | diseq | load_solve | load_solve | valid_solve | valid_solve | root_ne ] ].
    unfold adopt. rewrite ?cwr_None, ?cwr_Some. cbn [which]. reflexivity.
  - apply Shape_focus. cbn [root_of tree_ok]. split_and!.
    all: lazymatch goal with
         | |- NoDup _ =>
             cbn [addrs app];
             rewrite (Permutation_swap a tl), (Permutation_swap a hd); exact Hnda0
         | |- _ = plug_root _ _ => done
         | |- dll _ _ _ _ => idtac
         | |- True => exact I
         | |- _ => shape_tac
         end.
    rewrite addrs_plug. cbn [addrs app].
    eapply dll_insert; [exact Hd|exact Hnd2| | |]; fold p q.
    + split; load_solve.
    + split; load_solve.
    + intros u Hu. split; intros Hne; load_solve.
  - apply frame_on_alter; [clear; destruct w; cbn [ctx_before ctx_after]; set_solver|].
    apply frame_on_alter; [clear -Hqin; set_solver|].
    apply frame_on_alter; [clear -Hpin; set_solver|].
    apply frame_on_insert; [clear; set_solver|]. apply frame_on_refl.
Qed.

(** The first node of an empty container. *)
Lemma attach_root_spec hd tl h n v :
  Shape hd tl h None Leaf →
  ∃ h',
    construct_node v (Some hd) (Some tl) None None None LEFT
        (mk_state h (Some hd) (Some tl) None n)
      = Some (Some (alloc h), mk_state h' (Some hd) (Some tl) None n) ∧
    Shape hd tl h' (Some (alloc h)) (Node RED Leaf (alloc h) v Leaf) ∧
    frame_on [alloc h; hd; tl] h h'.
Proof.
  intros HS. pose proof (Shape_fresh _ _ _ _ _ HS) as Hfr.
  set (a := alloc h) in *.
  destruct HS as (Hnd & Hvh & Hvt & _ & _ & [Hn Hp]).
  cbn [addrs] in *.
  assert (Hnda : NoDup [a; hd; tl]) by (by apply NoDup_cons).
  pose proof Hnda as Hnda0. nd_norm Hnda.
  eexists. split; [|split].
  - unfold construct_node. rewrite bind_new_node. st_simpl. fold a.
    erewrite bind_ok;
      [| eapply (update_nearby_eq false);
         [load_solve | alloc_solve | load_solve | alloc_solve | load_solve | load_solve
         | valid_solve | diseq | load_solve | load_solve | valid_solve | valid_solve | root_ne ] ].
    unfold adopt. rewrite ?cwr_None, ?cwr_Some. reflexivity.
  - split_and!.
    + cbn [addrs app]. rewrite (Permutation_swap a tl), (Permutation_swap a hd). exact Hnda0.
    + load_solve.
    + load_solve.
    + done.
    + split; cbn [tree_ok root_of hole_up]; split_and?; try exact I; load_solve.
    + cbn [addrs app dll]. split; split; load_solve.
  - apply frame_on_alter; [clear; set_solver|].
    apply frame_on_alter; [clear; set_solver|].
    apply frame_on_insert; [clear; set_solver|]. apply frame_on_refl.
Qed.

End attach.

(** ** Searching: [find] and the descent of [__insert] on the abstract tree *)

Section search.
Context {K V : Type}.
Variable comparing_function : K → K → bool.
Implicit Types (h : gmap addr (rbt_node K V)) (t l s : tree K V) (k up : ctx K V).

Local Open Scope m_scope.

(** Where the descent of [__insert] stops: at a node with an equivalent
    key, or at an empty child position. *)
Inductive place :=
  | Found (k : ctx K V) (t : tree K V)
  | Hole (k : ctx K V).

Fixpoint locate (key : K) t k : place :=
  match t with
  | Leaf => Hole k
  | Node c l x kv r =>
    let w := comparing_function kv.1 key in
    if negb w && negb (comparing_function key kv.1) then Found k t
    else if w then locate key r (Zip RIGHT c x kv l k)
    else locate key l (Zip LEFT c x kv r k)
  end.

Definition ctx_which k : which_e :=
  match k with Top => LEFT | Zip w _ _ _ _ _ => w end.

(** The loop of [find]. *)
Fixpoint tfind (key : K) t : option (addr * (K * V)) :=
  match t with
  | Leaf => None
  | Node c l x kv r =>
    if comparing_function key kv.1 then tfind key l
    else if comparing_function kv.1 key then tfind key r
    else Some (x, kv)
  end.

Lemma locate_plug key t k :
  match locate key t k with
  | Found k' t' => plug k' t' = plug k t ∧ t' ≠ Leaf
  | Hole k' => plug k' Leaf = plug k t
  end.
Proof.
  induction t as [|c l IHl x kv r IHr] in k |- *; simpl; [done|].
  destruct (negb _ && negb _); [done|].
  destruct (comparing_function kv.1 key).
  - specialize (IHr (Zip RIGHT c x kv l k)). by destruct (locate key r _).
  - specialize (IHl (Zip LEFT c x kv r k)). by destruct (locate key l _).
Qed.

Lemma key_of_ok h x kv hd tl r n :
  load value (Some x) h = Some (Some kv) →
  key_of (Some x) (mk_state h hd tl r n) = Some (kv.1, mk_state h hd tl r n).
Proof. intros Hv. unfold key_of. by mstep. Qed.

Lemma insert_descend_sim fuel key t k h hd tl r n :
  tree_ok h t → t ≠ Leaf → length (addrs t) ≤ fuel →
  insert_descend comparing_function fuel key (root_of t) (mk_state h hd tl r n)
  = Some (match locate key t k with
          | Found _ t' => inl (root_of t')
          | Hole k' => inr (ctx_father k', ctx_which k')
          end, mk_state h hd tl r n).
Proof.
  revert t k. induction fuel as [|fuel IH]; intros t k Ht Hne Hlen.
  { destruct t; [done|]. simpl in Hlen. rewrite length_app in Hlen. simpl in Hlen. lia. }
  destruct t as [|c l x kv rr]; [done|].
  destruct Ht as (Hc & Hv & Hl & Hr & _ & _ & Htl & Htr).
  cbn [insert_descend root_of locate].
  erewrite bind_ok by (by apply key_of_ok).
  destruct (negb _ && negb _); [done|].
  simpl in Hlen. rewrite length_app in Hlen. simpl in Hlen.
  destruct (comparing_function kv.1 key).
  - mstep. destruct rr as [|c' l' x' kv' r']; [done|].
    apply (IH (Node c' l' x' kv' r')); [done..|]. lia.
  - mstep. destruct l as [|c' l' x' kv' r']; [done|].
    apply (IH (Node c' l' x' kv' r')); [done..|]. lia.
Qed.

Lemma find_node_sim fuel key t h hd tl r n :
  tree_ok h t → length (addrs t) < fuel →
  find_node comparing_function fuel key (root_of t) (mk_state h hd tl r n)
  = Some (fst <$> tfind key t, mk_state h hd tl r n).
Proof.
  revert t. induction fuel as [|fuel IH]; intros t Ht Hlen; [lia|].
  destruct t as [|c l x kv rr]; [done|].
  destruct Ht as (Hc & Hv & Hl & Hr & _ & _ & Htl & Htr).
  cbn [find_node root_of tfind].
  erewrite bind_ok by (by apply key_of_ok).
  simpl in Hlen. rewrite length_app in Hlen. simpl in Hlen.
  destruct (comparing_function key kv.1).
  - mstep. apply IH; [done|lia].
  - destruct (comparing_function kv.1 key); [|done].
    mstep. apply IH; [done|lia].
Qed.

Lemma locate_Hole_Zip key t k k' :
  locate key t k = Hole k' → t ≠ Leaf → ∃ w c x kv s up, k' = Zip w c x kv s up.
Proof.
  induction t as [|c l IHl x kv r IHr] in k |- *; simpl; [done|]. intros H _.
  destruct (negb _ && negb _); [done|].
  destruct (comparing_function kv.1 key).
  - destruct r; [simpl in H; injection H as <-; eauto 10|]. by eapply IHr.
  - destruct l; [simpl in H; injection H as <-; eauto 10|]. by eapply IHl.
Qed.

Lemma bind_assoc2 {A B C D} (m1 : M K V A) (m2 : A → M K V B) (m3 : A → B → M K V C)
    (kk : C → M K V D) (st : state K V) :
  bind m1 (λ a, bind (m2 a) (λ b, bind (m3 a b) kk)) st
  = bind (bind m1 (λ a, bind (m2 a) (m3 a))) kk st.
Proof.
  unfold bind. destruct (m1 st) as [[a s1]|]; [|done]. by destruct (m2 a s1) as [[b s2]|].
Qed.

(** [__insert] on a container of shape [t]. *)
Lemma insert_sim fuel key v t hd tl h r n :
  Shape hd tl h r t → length (addrs t) < fuel →
  match locate key t Top with
  | Found k' t' =>
      __insert comparing_function fuel key v (mk_state h (Some hd) (Some tl) r n)
      = Some ((root_of t', false), mk_state h (Some hd) (Some tl) r n)
  | Hole k' =>
      ∀ t'', ifix k' (Node RED Leaf (alloc h) v Leaf) = Some t'' →
      ∃ h' r',
        __insert comparing_function fuel key v (mk_state h (Some hd) (Some tl) r n)
        = Some ((Some (alloc h), true), mk_state h' (Some hd) (Some tl) r' (S n)) ∧
        Shape hd tl h' r' t'' ∧
        frame_on (alloc h :: hd :: tl :: addrs t) h h'
  end.
Proof.
  intros HS Hlen.
  destruct t as [|c l x kv rr].
  - (* the container is empty *)
    cbn [locate]. intros t'' Hfix.
    pose proof HS as (_ & _ & _ & -> & _).
    destruct (attach_root_spec _ _ _ n v HS) as (h1 & Hrun1 & HS1 & Hfr1).
    destruct (insert_fix_sim fuel Top _ _ _ _ _ _ _ (S n) HS1 eq_refl Hfix)
      as (h2 & r2 & Hrun2 & HS2 & Hfr2); [simpl; lia|].
    exists h2, r2. split; [|split; [done|]].
    + unfold __insert. cbn [root_of]. repeat mstep.
      erewrite bind_ok by exact Hrun1. repeat mstep.
      erewrite bind_ok by exact Hrun2. done.
    + eapply frame_on_trans; [exact Hfr1|]. eapply frame_on_mono; [|exact Hfr2].
      cbn [plug addrs app]. clear. set_solver.
  - pose proof HS as (_ & _ & _ & Hr & [Ht _] & _). cbn [root_of] in Hr. subst r.
    pose proof (insert_descend_sim fuel key _ Top h (Some hd) (Some tl) (Some x) n Ht) as Hdesc.
    pose proof (locate_plug key (Node c l x kv rr) Top) as Hplug.
    pose proof (locate_Hole_Zip key (Node c l x kv rr) Top) as HZ.
    destruct (locate key (Node c l x kv rr) Top) as [k' t'|k'].
    + unfold __insert. cbn [root_of] in *. mstep.
      erewrite bind_ok by (apply Hdesc; [done|lia]). done.
    + intros t'' Hfix.
      destruct (HZ _ eq_refl) as (w & cc & cur & kvc & sib & up & ->); [done|].
      cbn [plug] in Hplug. rewrite <-Hplug in HS.
      destruct (attach_spec _ _ _ _ n _ _ _ _ _ _ v HS) as (h1 & Hrun1 & HS1 & Hfr1).
      destruct (insert_fix_sim fuel _ _ _ _ _ _ _ _ (S n) HS1 eq_refl Hfix)
        as (h2 & r2 & Hrun2 & HS2 & Hfr2).
      { pose proof (ctx_depth_le (Zip w cc cur kvc sib up) Leaf) as Hd.
        cbn [plug] in Hd. rewrite Hplug in Hd. simpl in Hd, Hlen |- *. lia. }
      exists h2, r2. split; [|split; [done|]].
      * unfold __insert. cbn [root_of ctx_father ctx_which] in *. mstep.
        erewrite bind_ok by (apply Hdesc; [done|lia]).
        cbn beta iota. rewrite bind_assoc2.
        erewrite bind_ok by exact Hrun1.
        repeat mstep. erewrite bind_ok by exact Hrun2. done.
      * rewrite <-Hplug.
        eapply frame_on_trans; [exact Hfr1|]. eapply frame_on_mono; [|exact Hfr2].
        clear. intros a. rewrite !addrs_plug.
        destruct w; cbn [addrs app mkN ctx_before ctx_after]; set_solver.
Qed.

End search.

(** ** Unlinking a node with at most one child *)

Section unlink.
Context {K V : Type}.
Implicit Types (h : gmap addr (rbt_node K V)) (t l s : tree K V) (k up : ctx K V).

Local Open Scope m_scope.

Lemma dll_delete h h' a xs x ys b :
  dll h a (xs ++ x :: ys) b →
  NoDup (a :: b :: xs ++ x :: ys) →
  link h' (default a (last xs)) (hd b ys) →
  (∀ u, u ∈ a :: b :: xs ++ ys →
     (u ≠ default a (last xs) → load next (Some u) h' = load next (Some u) h) ∧
     (u ≠ hd b ys → load prev (Some u) h' = load prev (Some u) h)) →
  dll h' a (xs ++ ys) b.
Proof.
  revert a; induction xs as [|z xs IH]; intros a; simpl.
  - intros [Hax Hd] Hnd Hl Hs.
    apply NoDup_cons in Hnd as [Ha Hnd]. apply NoDup_cons in Hnd as [Hb Hnd].
    apply NoDup_cons in Hnd as [Hx Hnd].
    destruct ys as [|y ys]; simpl in *; [done|]. destruct Hd as [_ Hd]. split; [done|].
    apply NoDup_cons in Hnd as [Hy Hnd].
    eapply dll_frame_ends; [done| | |].
    + apply Hs; set_solver.
    + apply Hs; set_solver.
    + intros u Hu. split; apply Hs; set_solver.
  - intros [[Hl1 Hl2] Hd] Hnd Hl Hs. rewrite last_cons in Hl, Hs.
    assert (E : default a (match last xs with Some y => Some y | None => Some z end)
              = default z (last xs)) by (by destruct (last xs)).
    rewrite E in Hl, Hs.
    pose proof (last_in z xs) as Hp. pose proof (hd_in b ys) as Hq.
    apply NoDup_cons in Hnd as [Ha Hnd]. apply NoDup_cons in Hnd as [Hb Hnd].
    pose proof Hnd as Hnd'. apply NoDup_cons in Hnd as [Hz Hnd].
    split.
    + split.
      * destruct (Hs a) as [E1 _]; [set_solver|]. rewrite E1; [done|].
        intros E'. rewrite <-E' in Hp. set_solver.
      * destruct (Hs z) as [_ E1]; [set_solver|]. rewrite E1; [done|].
        intros E'. rewrite <-E' in Hq.
        apply NoDup_app in Hnd as (_ & Hdis & _). set_solver.
    + apply IH; [done| |done|].
      * rewrite NoDup_cons. split; [set_solver|]. rewrite NoDup_cons. set_solver.
      * intros u Hu. apply Hs. set_solver.
Qed.

(** The end of the private [erase], after [erase_fix]. *)
Definition unlink (target : ptr) : M K V unit :=
  let* pv := rd prev target in
  let* nx := rd next target in
  link_node pv nx >>
  let* ch := only_child target in
  let* r := get_root in
  (if ptr_eqb target r then set_root ch
   else let* f := rd father target in let* w := rd which target in wr (set_child w ch) f) >>
  (if ch is Some _ then
     let* f := rd father target in wr (set_father f) ch >>
     let* w := rd which target in wr (set_which w) ch
   else ret tt) >>
  delete_node target.

Lemma bind_delete_node {B} a (kk : unit → M K V B) (st : state K V) :
  is_Some (heap st !! a) →
  bind (delete_node (Some a)) kk st = kk tt (with_heap (delete a (heap st)) st).
Proof. intros [nd Hn]. unfold bind, delete_node. by rewrite Hn. Qed.
Lemma delete_node_ok a (st : state K V) :
  is_Some (heap st !! a) →
  delete_node (Some a) st = Some (tt, with_heap (delete a (heap st)) st).
Proof. intros [nd Hn]. unfold delete_node. by rewrite Hn. Qed.

Lemma unlink_spec hd tl h r n k w0 c (C : tree K V) x kv :
  Shape hd tl h r (plug k (mkN w0 c C x kv Leaf)) →
  ∃ h' r',
    unlink (Some x) (mk_state h (Some hd) (Some tl) r n)
      = Some (tt, mk_state h' (Some hd) (Some tl) r' n) ∧
    Shape hd tl h' r' (plug k C) ∧
    frame_on (hd :: tl :: addrs (plug k (mkN w0 c C x kv Leaf))) h h' ∧
    h' !! x = None.
Proof.
  intros HS.
  pose proof (λ z, Shape_alloc _ _ _ _ _ z HS) as Hal.
  apply Shape_focus in HS as (Hnd & Hvh & Hvt & -> & Hk & Hup & Ht & Hd).
  pose proof Ht as Ht0.
  apply tree_ok_mkN in Ht as (Hxc & Hxv & Hxw & Hxn & HuC & _ & HtC & _).
  rewrite root_of_mkN in *. cbn [root_of] in Hxn.
  set (xs := ctx_before k ++ (if w0 then [] else addrs C)).
  set (ys := (if w0 then addrs C else []) ++ ctx_after k).
  assert (E1 : addrs (plug k (mkN w0 c C x kv Leaf)) = xs ++ x :: ys).
  { rewrite addrs_plug, addrs_mkN. subst xs ys. destruct w0; simpl; by rewrite <-?app_assoc. }
  assert (E2 : addrs (plug k C) = xs ++ ys).
  { rewrite addrs_plug. subst xs ys. destruct w0; simpl; by rewrite <-?app_assoc, ?app_nil_r. }
  rewrite E1 in Hd, Hal.
  assert (Hnd1 : NoDup (hd :: tl :: xs ++ x :: ys)) by (by rewrite <-E1, addrs_plug_perm).
  destruct (dll_elem _ _ _ _ _ _ Hd) as [[Hpn Hxp] [Hxn' Hqp]].
  pose proof (last_in hd xs) as Hpin. pose proof (hd_in tl ys) as Hqin.
  set (p := default hd (last xs)) in *. set (q := List.hd tl ys) in *.
  assert (Hpa : is_Some (h !! p)) by (apply Hal; clear -Hpin; set_solver).
  assert (Hqa : is_Some (h !! q)) by (apply Hal; clear -Hqin; set_solver).
  assert (Hpx : p ≠ x).
  { intros ->. clear -Hnd1 Hpin. do 2 apply NoDup_cons in Hnd1 as [? Hnd1].
    apply NoDup_app in Hnd1 as (_ & Hdis & _). set_solver. }
  assert (Hqx : q ≠ x).
  { intros ->. clear -Hnd1 Hqin. do 2 apply NoDup_cons in Hnd1 as [? Hnd1].
    apply NoDup_app in Hnd1 as (_ & _ & Hnd1). apply NoDup_cons in Hnd1 as [? _]. set_solver. }
  assert (Hxa : is_Some (h !! x)) by (by eapply load_alloc).
  pose proof (hole_up_father _ _ _ Hup) as Hfx.
  destruct (load_total which x h) as [wx Hwx]; [done|].
  pose proof (ctx_ok_valid _ _ _ Hk) as Hvk.
  assert (Hoc : ∀ st : state K V,
    load (child w0) (Some x) (heap st) = Some (root_of C) →
    load (child (negb w0)) (Some x) (heap st) = Some None →
    only_child (Some x) st = Some (root_of C, st)).
  { intros st H1 H2. unfold only_child. clear -H1 H2.
    destruct w0, C; cbn [negb root_of] in *; repeat mstep; done. }
  clear Hal.
  assert (Hxnot : x ∉ hd :: tl :: xs ++ ys).
  { clear -Hnd1. rewrite <-Permutation_middle in Hnd1.
    rewrite (Permutation_swap x tl), (Permutation_swap x hd) in Hnd1.
    by apply NoDup_cons in Hnd1 as [? _]. }
  assert (HndC : NoDup (hd :: tl :: addrs C ++ ctx_addrs k)).
  { rewrite <-addrs_plug_perm, E2. clear -Hnd1. rewrite <-Permutation_middle in Hnd1.
    rewrite (Permutation_swap x tl), (Permutation_swap x hd) in Hnd1.
    by apply NoDup_cons in Hnd1 as [_ ?]. }
  assert (Hpin' : p ∈ hd :: tl :: addrs (plug k (mkN w0 c C x kv Leaf))).
  { rewrite E1. clear -Hpin. set_solver. }
  assert (Hqin' : q ∈ hd :: tl :: addrs (plug k (mkN w0 c C x kv Leaf))).
  { rewrite E1. clear -Hqin. set_solver. }
  destruct k as [|w' c' f kvf sib up], C as [|cc cl y kvy cr].
  all: rewrite addrs_mkN_perm, ?addrs_Node_perm, ?ctx_addrs_Zip_perm in Hnd.
  all: cbn [addrs app] in Hnd; rewrite ?app_nil_r in Hnd.
  all: nd_norm Hnd.
  all: cbn [ctx_father hole_up ctx_ok plug_root root_of] in *.
  3,4: destruct Hup as [_ Hup]; assert (wx = w') by congruence; subst wx.
  3,4: destruct Hk as (Hfc & Hfv & Hfw & Hfn & Hus & Hts & Hupp & Hkk).
  3,4: assert (Hrne : plug_root up (Some f) ≠ Some x)
       by (destruct up; [cbn; congruence|];
           destruct (plug_root_in (Zip w c0 x0 kv0 sib0 up) (Some f)) as (a & -> & Ha); [done|];
           intros [= ->]; nd_contra).
  2,4: destruct HtC as (Hyc & Hyv & Hyl & Hyr & Hul & Hur & Htl & Htr).
  all: eexists _, _; split;
    [ unfold unlink, link_node; repeat mstep;
      (erewrite bind_ok by (apply Hoc; st_simpl; load_solve));
      repeat mstep;
      first [ rewrite ptr_eqb_refl | rewrite ptr_eqb_ne by congruence ];
      repeat mstep;
      rewrite delete_node_ok by (st_simpl; alloc_solve);
      st_simpl; reflexivity
    | ].
  all: split; [|split; [|by rewrite lookup_delete_eq]].
  all: try (apply Shape_focus; cbn [root_of tree_ok]; split_and!).
  all: lazymatch goal with
       | |- NoDup _ => exact HndC
       | |- _ = plug_root _ _ => done
       | |- dll _ _ _ _ =>
           rewrite E2; eapply dll_delete;
           [ exact Hd | exact Hnd1 | fold p q; split; load_solve
           | fold p q; intros u Hu; split; intros Hne; load_solve ]
       | |- frame_on _ _ _ =>
           repeat first
             [ apply frame_on_refl
             | apply frame_on_alter; [ first [ exact Hpin' | exact Hqin' | in_solve ] | ]
             | apply frame_on_delete; [ in_solve | ] ]
       | |- True => exact I
       | |- _ => shape_tac
       end.
Qed.

End unlink.

(** ** Exchanging a node with its successor *)

Section swap.
Context {K V : Type}.
Implicit Types (h : gmap addr (rbt_node K V)) (t l s : tree K V) (k up : ctx K V).

Local Open Scope m_scope.

(** [k1] inside the hole of [k2]. *)
Fixpoint ctx_app k1 k2 : ctx K V :=
  match k1 with
  | Top => k2
  | Zip w c x kv sib up => Zip w c x kv sib (ctx_app up k2)
  end.

(** The leftmost node of [t], in context. *)
Fixpoint lmost t k : option (ctx K V * tree K V) :=
  match t with
  | Leaf => None
  | Node c l y kv r =>
    match l with
    | Leaf => Some (k, t)
    | _ => lmost l (Zip LEFT c y kv r k)
    end
  end.

(** Contexts that descend to the left only. *)
Fixpoint lspine k : Prop :=
  match k with Top => True | Zip w _ _ _ _ up => w = LEFT ∧ lspine up end.

Lemma plug_app k1 k2 t : plug (ctx_app k1 k2) t = plug k2 (plug k1 t).
Proof. revert t; induction k1 as [|w c x kv sib up IH]; intros t; simpl; [done|]. by rewrite IH. Qed.

Lemma ctx_app_Top k : ctx_app k Top = k.
Proof. induction k as [|w c x kv sib up IH]; simpl; [done|]. by rewrite IH. Qed.
Lemma ctx_app_assoc k1 k2 k3 : ctx_app (ctx_app k1 k2) k3 = ctx_app k1 (ctx_app k2 k3).
Proof. induction k1 as [|w c x kv sib up IH]; simpl; [done|]. by rewrite IH. Qed.

Lemma ctx_before_app k1 k2 : ctx_before (ctx_app k1 k2) = ctx_before k2 ++ ctx_before k1.
Proof.
  induction k1 as [|w c x kv sib up IH]; simpl; [by rewrite app_nil_r|].
  destruct w; [|done]. by rewrite IH, <-app_assoc.
Qed.
Lemma ctx_after_app k1 k2 : ctx_after (ctx_app k1 k2) = ctx_after k1 ++ ctx_after k2.
Proof.
  induction k1 as [|w c x kv sib up IH]; simpl; [done|].
  destruct w; rewrite IH; [done|]. simpl. by rewrite <-app_assoc.
Qed.
Lemma ctx_addrs_app k1 k2 : ctx_addrs (ctx_app k1 k2) ≡ₚ ctx_addrs k1 ++ ctx_addrs k2.
Proof.
  unfold ctx_addrs. rewrite ctx_before_app, ctx_after_app.
  rewrite (comm (++) (ctx_before k2)), <-!app_assoc. f_equiv.
  apply Permutation_app_swap_app.
Qed.
Lemma plug_root_app k1 k2 p : plug_root (ctx_app k1 k2) p = plug_root k2 (plug_root k1 p).
Proof. revert p; induction k1 as [|w c x kv sib up IH]; intros p; simpl; [done|]. by rewrite IH. Qed.
Lemma ctx_depth_app k1 k2 : ctx_depth (ctx_app k1 k2) = ctx_depth k1 + ctx_depth k2.
Proof. induction k1 as [|w c x kv sib up IH]; simpl; [done|]. by rewrite IH. Qed.

Lemma lmost_app t k1 k2 :
  lmost t (ctx_app k1 k2) =
  match lmost t k1 with Some (k', t') => Some (ctx_app k' k2, t') | None => None end.
Proof.
  induction t as [|c l IHl y kv r _] in k1 |- *; simpl; [done|].
  destruct l; [done|]. apply (IHl (Zip LEFT c y kv r k1)).
Qed.

Lemma lmost_spec t k k' t' :
  lmost t k = Some (k', t') →
  ∃ kR c y kv r, k' = ctx_app kR k ∧ lspine kR ∧ t' = Node c Leaf y kv r ∧ t = plug kR t'.
Proof.
  induction t as [|c l IHl y kv r _] in k |- *; simpl; [done|].
  destruct l as [|cl ll z kvz lr].
  - intros [= <- <-]. by exists Top, c, y, kv, r.
  - intros (kR & c' & y' & kv' & r' & -> & Hsp & -> & E)%IHl.
    exists (ctx_app kR (Zip LEFT c y kv r Top)), c', y', kv', r'. split_and!; [| |done|].
    + by rewrite ctx_app_assoc.
    + clear -Hsp. induction kR as [|w ? ? ? ? up IH]; simpl in *; [done|]. naive_solver.
    + rewrite plug_app. simpl. by rewrite <-E.
Qed.

Lemma lspine_before kR : lspine kR → ctx_before kR = [].
Proof. induction kR as [|w c x kv sib up IH]; simpl; [done|]. intros [-> ?]. auto. Qed.

Lemma plug_root_Zip w c x kv sib up p q :
  plug_root (Zip w c x kv sib up) p = plug_root (Zip w c x kv sib up) q.
Proof. done. Qed.

(** A context whose outer part changes: the frames of [k1] are left alone,
    but for the father of the outermost node. *)
Lemma ctx_ok_rebase h h' k1 k2 k2' q :
  ctx_ok h (ctx_app k1 k2) q →
  NoDup (ctx_addrs k1) →
  (∀ a, a ∈ ctx_addrs k1 → same_body h h' a) →
  (∀ a, a ∈ ctx_addrs k1 → Some a ≠ plug_root k1 None → same_up h h' a) →
  (k1 ≠ Top → hole_up h' k2' (plug_root k1 q)) →
  ctx_ok h' k2' (plug_root k1 q) →
  ctx_ok h' (ctx_app k1 k2') q.
Proof.
  induction k1 as [|w c x kv sib up IH] in q |- *; [by intros _ _ _ _ _ ?|].
  cbn [ctx_app ctx_ok]. intros (Hc & Hv & Hw & Hn & Hus & Hts & Hup & Hk) Hnd Hb Hu Hh Hk2.
  assert (Hx : x ∈ ctx_addrs (Zip w c x kv sib up)) by (apply ctx_addrs_Zip; auto).
  assert (Hsib : ∀ a, a ∈ addrs sib → a ∈ ctx_addrs (Zip w c x kv sib up))
    by (intros; apply ctx_addrs_Zip; auto).
  assert (Hupi : ∀ a, a ∈ ctx_addrs up → a ∈ ctx_addrs (Zip w c x kv sib up))
    by (intros; apply ctx_addrs_Zip; auto).
  rewrite ctx_addrs_Zip_perm in Hnd. apply NoDup_cons in Hnd as [Hxn Hnd].
  apply NoDup_app in Hnd as (Hnds & Hdis & Hndu).
  assert (Hroot : ∀ a, a ∈ addrs sib → Some a ≠ plug_root (Zip w c x kv sib up) None).
  { intros a Ha. cbn [plug_root]. destruct up as [|w1 c1 x1 kv1 s1 up1]; cbn [plug_root].
    - intros [= ->]. set_solver.
    - destruct (plug_root_in (Zip w1 c1 x1 kv1 s1 up1) (Some x)) as (g & Hg & Hgin); [done|].
      cbn [plug_root] in Hg. rewrite Hg. intros [= ->]. by apply (Hdis g). }
  destruct (Hb x Hx) as (E1 & E2 & E3 & E4).
  assert (Ec : ∀ w', load (child w') (Some x) h' = load (child w') (Some x) h) by (by intros []).
  rewrite E1, E2, !Ec. split_and!; try done.
  - eapply uplink_frame; [done|]. intros a Ha. apply root_of_addrs in Ha. auto.
  - apply tree_ok_frame with h; [done| | |done]; auto.
  - destruct up as [|w1 c1 x1 kv1 s1 up1]; cbn [ctx_app hole_up] in *.
    + apply Hh. done.
    + destruct Hup as [Hf Hwh]. destruct (Hu x Hx) as [E5 E6].
      * cbn [plug_root].
        destruct (plug_root_in (Zip w1 c1 x1 kv1 s1 up1) (Some x)) as (g & Hg & Hgin); [done|].
        cbn [plug_root] in Hg. rewrite Hg. intros [= ->].
        apply Hxn, elem_of_app. auto.
      * unfold uplink. by rewrite E5, E6.
  - apply IH; [done|done|auto| | |].
    + intros a Ha Hne. apply Hu; [auto|].
      cbn [plug_root]. destruct up as [|w1 c1 x1 kv1 s1 up1]; cbn [plug_root] in *.
      * by apply elem_of_nil in Ha.
      * done.
    + intros Hne. destruct up; [done|]. apply Hh. done.
    + done.
Qed.

Lemma dll_swap h h' a xs x y ys b :
  dll h a (xs ++ x :: y :: ys) b →
  NoDup (a :: b :: xs ++ x :: y :: ys) →
  link h' (default a (last xs)) y → link h' y x → link h' x (hd b ys) →
  (∀ u, u ∈ a :: b :: xs ++ ys →
     (u ≠ default a (last xs) → load next (Some u) h' = load next (Some u) h) ∧
     (u ≠ hd b ys → load prev (Some u) h' = load prev (Some u) h)) →
  dll h' a (xs ++ y :: x :: ys) b.
Proof.
  revert a; induction xs as [|z xs IH]; intros a; simpl.
  - intros (Hax & Hxy & Hd) Hnd Hl1 Hl2 Hl3 Hs. split; [done|]. split; [done|].
    apply NoDup_cons in Hnd as [Ha Hnd]. apply NoDup_cons in Hnd as [Hb Hnd].
    apply NoDup_cons in Hnd as [Hx Hnd]. apply NoDup_cons in Hnd as [Hy Hnd].
    destruct ys as [|y' ys]; simpl in *; [done|]. destruct Hd as [_ Hd]. split; [done|].
    apply NoDup_cons in Hnd as [Hy' Hnd].
    eapply dll_frame_ends; [done| | |].
    + apply Hs; set_solver.
    + apply Hs; set_solver.
    + intros u Hu. split; apply Hs; set_solver.
  - intros [[Hl1 Hl2] Hd] Hnd Hz1 Hz2 Hz3 Hs. rewrite last_cons in Hz1, Hs.
    assert (E : default a (match last xs with Some y => Some y | None => Some z end)
              = default z (last xs)) by (by destruct (last xs)).
    rewrite E in Hz1, Hs.
    pose proof (last_in z xs) as Hp. pose proof (hd_in b ys) as Hq.
    apply NoDup_cons in Hnd as [Ha Hnd]. apply NoDup_cons in Hnd as [Hb Hnd].
    pose proof Hnd as Hnd'. apply NoDup_cons in Hnd as [Hz Hnd].
    split.
    + split.
      * destruct (Hs a) as [E1 _]; [set_solver|]. rewrite E1; [done|].
        intros E'. rewrite <-E' in Hp. set_solver.
      * destruct (Hs z) as [_ E1]; [set_solver|]. rewrite E1; [done|].
        intros E'. rewrite <-E' in Hq.
        apply NoDup_app in Hnd as (_ & Hdis & _). set_solver.
    + apply IH; [done| |done..|].
      * rewrite NoDup_cons. split; [set_solver|]. rewrite NoDup_cons. set_solver.
      * intros u Hu. apply Hs. set_solver.
Qed.

(** The successor is the right child. *)
Lemma swap_node_child hd tl h r n k cx (L : tree K V) x kvx cy y kvy (ry : tree K V) :
  Shape hd tl h r (plug (Zip RIGHT cx x kvx L k) (Node cy Leaf y kvy ry)) →
  ∃ h' r',
    swap_node (Some x) (Some y) (mk_state h (Some hd) (Some tl) r n)
      = Some (tt, mk_state h' (Some hd) (Some tl) r' n) ∧
    Shape hd tl h' r' (plug (Zip RIGHT cx y kvy L k) (Node cy Leaf x kvx ry)) ∧
    frame_on (hd :: tl :: addrs (plug (Zip RIGHT cx x kvx L k) (Node cy Leaf y kvy ry))) h h'.
Proof.
  intros HS.
  pose proof (λ z, Shape_alloc _ _ _ _ _ z HS) as Hal.
  apply Shape_focus in HS as (Hnd & Hvh & Hvt & -> & Hk & Hup & Ht & Hd).
  cbn [ctx_ok hole_up root_of tree_ok negb] in Hk, Hup, Ht.
  destruct Hk as (Hxc & Hxv & Hxr & Hxl & HuL & HtL & Hxup & Hkk).
  destruct Ht as (Hyc & Hyv & Hyl & Hyr & _ & Hury & _ & Htry).
  destruct Hup as [Hyf Hyw].
  set (xs := ctx_before k ++ addrs L).
  set (ys := addrs ry ++ ctx_after k).
  set (T0 := plug (Zip RIGHT cx x kvx L k) (Node cy Leaf y kvy ry)) in *.
  assert (E1 : addrs T0 = xs ++ x :: y :: ys).
  { subst T0. rewrite addrs_plug. subst xs ys. cbn [ctx_before ctx_after addrs app].
    by rewrite <-!app_assoc. }
  assert (E2 : addrs (plug (Zip RIGHT cx y kvy L k) (Node cy Leaf x kvx ry))
             = xs ++ y :: x :: ys).
  { rewrite addrs_plug. subst xs ys. cbn [ctx_before ctx_after addrs app].
    by rewrite <-!app_assoc. }
  rewrite E1 in Hd, Hal.
  assert (Hnd1 : NoDup (hd :: tl :: xs ++ x :: y :: ys))
    by (rewrite <-E1; unfold T0; by rewrite addrs_plug_perm).
  pose proof Hd as Hd0.
  apply (dll_elem _ _ _ _ (y :: ys)) in Hd0 as [[Hpn Hxp] [Hxn _]]. cbn [List.hd] in Hxn.
  pose proof Hd as Hd0. rewrite (cons_middle x), app_assoc in Hd0.
  apply dll_elem in Hd0 as [[_ Hyp] [Hyn Hqp]]. rewrite last_snoc in Hyp. simpl in Hyp.
  pose proof (last_in hd xs) as Hpin. pose proof (hd_in tl ys) as Hqin.
  remember (default hd (last xs)) as p eqn:Ep. remember (List.hd tl ys) as q eqn:Eq.
  assert (Hpa : is_Some (h !! p)) by (apply Hal; clear -Hpin; set_solver).
  assert (Hqa : is_Some (h !! q)) by (apply Hal; clear -Hqin; set_solver).
  assert (Hxynot : x ∉ hd :: tl :: xs ++ ys ∧ y ∉ hd :: tl :: xs ++ ys ∧ x ≠ y).
  { clear -Hnd1. rewrite <-!Permutation_middle in Hnd1.
    rewrite (Permutation_swap x tl), (Permutation_swap x hd) in Hnd1.
    apply NoDup_cons in Hnd1 as [Hx Hnd1].
    rewrite (Permutation_swap y tl), (Permutation_swap y hd) in Hnd1.
    apply NoDup_cons in Hnd1 as [Hy Hnd1]. set_solver. }
  destruct Hxynot as (Hxnot & Hynot & Hxy).
  assert (Hpx : p ≠ x) by (intros ->; apply Hxnot; clear -Hpin; set_solver).
  assert (Hpy : p ≠ y) by (intros ->; apply Hynot; clear -Hpin; set_solver).
  assert (Hqx : q ≠ x) by (intros ->; apply Hxnot; clear -Hqin; set_solver).
  assert (Hqy : q ≠ y) by (intros ->; apply Hynot; clear -Hqin; set_solver).
  pose proof (hole_up_father _ _ _ Hxup) as Hfx.
  destruct (load_total which x h) as [wx Hwx]; [by eapply load_alloc|].
  pose proof (ctx_ok_valid _ _ _ Hkk) as Hvk.
  assert (HndN : NoDup (hd :: tl :: addrs (Node cy Leaf x kvx ry)
                          ++ ctx_addrs (Zip RIGHT cx y kvy L k))).
  { rewrite <-addrs_plug_perm, E2. by rewrite (Permutation_swap x y). }
  assert (Hpin' : p ∈ hd :: tl :: addrs T0) by (rewrite E1; clear -Hpin; set_solver).
  assert (Hqin' : q ∈ hd :: tl :: addrs T0) by (rewrite E1; clear -Hqin; set_solver).
  clear Hal. subst T0.
  rewrite ctx_addrs_Zip_perm, addrs_Node_perm in Hnd. cbn [addrs app] in Hnd.
  destruct k as [|w' c' f kvf sib up].
  all: try rewrite ctx_addrs_Zip_perm in Hnd.
  all: nd_norm Hnd.
  all: cbn [ctx_father hole_up ctx_ok plug_root root_of] in *.
  2: destruct Hxup as [_ Hxup]; assert (wx = w') by congruence; subst wx.
  2: destruct Hkk as (Hfc & Hfv & Hfw & Hfn & Hus & Hts & Hupp & Hkk).
  2: assert (Hrnx : plug_root up (Some f) ≠ Some x)
       by (destruct up; [cbn; congruence|];
           destruct (plug_root_in (Zip w c x0 kv sib0 up) (Some f)) as (a & -> & Ha); [done|];
           intros [= ->]; nd_contra).
  2: assert (Hrny : plug_root up (Some f) ≠ Some y)
       by (destruct up; [cbn; congruence|];
           destruct (plug_root_in (Zip w c x0 kv sib0 up) (Some f)) as (a & -> & Ha); [done|];
           intros [= ->]; nd_contra).
  all: eexists _, _; split;
    [ unfold swap_node, __swap, fix_self; repeat mstep;
      first [ rewrite ptr_eqb_refl | rewrite !ptr_eqb_ne by congruence ];
      mrun;
      (erewrite bind_ok;
        [| eapply (update_nearby_eq false);
           [load_solve | alloc_solve | load_solve | alloc_solve | load_solve | load_solve
           | valid_solve | diseq | load_solve | load_solve | valid_solve | valid_solve | root_ne ] ]);
      (erewrite (update_nearby_eq true);
           [| load_solve | alloc_solve | load_solve | alloc_solve | load_solve | load_solve
           | valid_solve | diseq | load_solve | load_solve | valid_solve | valid_solve | root_ne ]);
      rewrite ?cwr_Some, ?cwr_None;
      reflexivity
    | ].
  all: split; [apply Shape_focus; cbn [root_of tree_ok]; split_and!|].
  all: lazymatch goal with
       | |- NoDup _ => exact HndN
       | |- _ = plug_root _ _ => done
       | |- dll _ _ _ _ =>
           rewrite E2; eapply dll_swap;
           [ exact Hd | exact Hnd1 | rewrite <-?Ep, <-?Eq; split; load_solve
           | split; load_solve | rewrite <-?Ep, <-?Eq; split; load_solve
           | rewrite <-?Ep, <-?Eq; intros u Hu; split; intros Hne; load_solve ]
       | |- frame_on _ _ _ =>
           repeat first
             [ apply frame_on_refl
             | apply frame_on_alter; [ first [ exact Hpin' | exact Hqin' | in_solve ] | ]
             | apply frame_on_adopt; [ in_solve | ] ]
       | |- True => exact I
       | |- _ => shape_tac
       end.
  all: exact I.
Qed.

End swap.

Section swap_deep.
Context {K V : Type}.
Implicit Types (h : gmap addr (rbt_node K V)) (t l s : tree K V) (k up : ctx K V).

Local Open Scope m_scope.

Lemma hole_up_app h k1 k2 q : k1 ≠ Top → hole_up h (ctx_app k1 k2) q = hole_up h k1 q.
Proof. by destruct k1. Qed.

Lemma ctx_ok_app_base h k1 k2 q :
  ctx_ok h (ctx_app k1 k2) q →
  ctx_ok h k2 (plug_root k1 q) ∧ (k1 ≠ Top → hole_up h k2 (plug_root k1 q)).
Proof.
  induction k1 as [|w c x kv sib up IH] in q |- *; [done|].
  cbn [ctx_app ctx_ok plug_root]. intros (_ & _ & _ & _ & _ & _ & Hup & Hk).
  destruct (IH _ Hk) as [H1 H2]. split; [done|]. intros _.
  destruct up; [done|]. by apply H2.
Qed.

(** The successor is deeper in the right subtree. *)
Lemma swap_node_deep hd tl h r n k kR cx (L : tree K V) x kvx cp p0 kvp (sp : tree K V)
    cy y kvy (ry : tree K V) :
  lspine kR →
  Shape hd tl h r
    (plug (Zip LEFT cp p0 kvp sp (ctx_app kR (Zip RIGHT cx x kvx L k)))
       (Node cy Leaf y kvy ry)) →
  ∃ h' r',
    swap_node (Some x) (Some y) (mk_state h (Some hd) (Some tl) r n)
      = Some (tt, mk_state h' (Some hd) (Some tl) r' n) ∧
    Shape hd tl h' r'
      (plug (Zip LEFT cp p0 kvp sp (ctx_app kR (Zip RIGHT cx y kvy L k)))
         (Node cy Leaf x kvx ry)) ∧
    frame_on (hd :: tl :: addrs
      (plug (Zip LEFT cp p0 kvp sp (ctx_app kR (Zip RIGHT cx x kvx L k)))
         (Node cy Leaf y kvy ry))) h h'.
Proof.
  intros Hsp HS.
  pose proof (λ z, Shape_alloc _ _ _ _ _ z HS) as Hal.
  apply Shape_focus in HS as (Hnd & Hvh & Hvt & -> & Hk & Hup & Ht & Hd).
  cbn [ctx_ok hole_up root_of tree_ok negb] in Hk, Hup, Ht.
  destruct Hk as (Hpc & Hpv & Hpl & Hpr & Husp & Htsp & Hpup & Hkk).
  destruct Ht as (Hyc & Hyv & Hyl & Hyr & _ & Hury & _ & Htry).
  destruct Hup as [Hyf Hyw].
  destruct (ctx_ok_app_base _ _ _ _ Hkk) as [HB HBup].
  cbn [ctx_ok negb] in HB.
  destruct HB as (Hxc & Hxv & Hxr & Hxl & HuL & HtL & Hxup & Hkx).
  set (xs := ctx_before k ++ addrs L).
  set (ys := addrs ry ++ (p0 :: addrs sp ++ ctx_after kR) ++ ctx_after k).
  set (T0 := plug (Zip LEFT cp p0 kvp sp (ctx_app kR (Zip RIGHT cx x kvx L k)))
               (Node cy Leaf y kvy ry)) in *.
  assert (E1 : addrs T0 = xs ++ x :: y :: ys).
  { subst T0. rewrite addrs_plug. subst xs ys.
    cbn [ctx_before ctx_after addrs app]. rewrite ctx_before_app, ctx_after_app.
    rewrite (lspine_before kR Hsp). cbn [ctx_before ctx_after addrs app].
    rewrite app_nil_r, <-!app_assoc. cbn [app]. by rewrite <-?app_assoc. }
  assert (E2 : addrs (plug (Zip LEFT cp p0 kvp sp (ctx_app kR (Zip RIGHT cx y kvy L k)))
                        (Node cy Leaf x kvx ry)) = xs ++ y :: x :: ys).
  { rewrite addrs_plug. subst xs ys.
    cbn [ctx_before ctx_after addrs app]. rewrite ctx_before_app, ctx_after_app.
    rewrite (lspine_before kR Hsp). cbn [ctx_before ctx_after addrs app].
    rewrite app_nil_r, <-!app_assoc. cbn [app]. by rewrite <-?app_assoc. }
  rewrite E1 in Hd, Hal.
  assert (Hnd1 : NoDup (hd :: tl :: xs ++ x :: y :: ys))
    by (rewrite <-E1; unfold T0; by rewrite addrs_plug_perm).
  pose proof Hd as Hd0.
  apply (dll_elem _ _ _ _ (y :: ys)) in Hd0 as [[Hpn Hxp] [Hxn _]]. cbn [List.hd] in Hxn.
  pose proof Hd as Hd0. rewrite (cons_middle x), app_assoc in Hd0.
  apply dll_elem in Hd0 as [[_ Hyp] [Hyn Hqp]]. rewrite last_snoc in Hyp. simpl in Hyp.
  pose proof (last_in hd xs) as Hpin. pose proof (hd_in tl ys) as Hqin.
  remember (default hd (last xs)) as p eqn:Ep. remember (List.hd tl ys) as q eqn:Eq.
  assert (Hpa : is_Some (h !! p)) by (apply Hal; clear -Hpin; set_solver).
  assert (Hqa : is_Some (h !! q)) by (apply Hal; clear -Hqin; set_solver).
  assert (Hxynot : x ∉ hd :: tl :: xs ++ ys ∧ y ∉ hd :: tl :: xs ++ ys ∧ x ≠ y).
  { clear -Hnd1. rewrite <-!Permutation_middle in Hnd1.
    rewrite (Permutation_swap x tl), (Permutation_swap x hd) in Hnd1.
    apply NoDup_cons in Hnd1 as [Hx Hnd1].
    rewrite (Permutation_swap y tl), (Permutation_swap y hd) in Hnd1.
    apply NoDup_cons in Hnd1 as [Hy Hnd1]. set_solver. }
  destruct Hxynot as (Hxnot & Hynot & Hxy).
  assert (Hpx : p ≠ x) by (intros ->; apply Hxnot; clear -Hpin; set_solver).
  assert (Hpy : p ≠ y) by (intros ->; apply Hynot; clear -Hpin; set_solver).
  assert (Hqx : q ≠ x) by (intros ->; apply Hxnot; clear -Hqin; set_solver).
  assert (Hqy : q ≠ y) by (intros ->; apply Hynot; clear -Hqin; set_solver).
  pose proof (hole_up_father _ _ _ Hxup) as Hfx.
  destruct (load_total which x h) as [wx Hwx]; [by eapply load_alloc|].
  pose proof (ctx_ok_valid _ _ _ Hkx) as Hvk.
  assert (HndN : NoDup (hd :: tl :: addrs (Node cy Leaf x kvx ry)
     ++ ctx_addrs (Zip LEFT cp p0 kvp sp (ctx_app kR (Zip RIGHT cx y kvy L k))))).
  { rewrite <-addrs_plug_perm, E2. by rewrite (Permutation_swap x y). }
  remember (hd :: tl :: addrs T0) as F eqn:EF.
  assert (Hpin' : p ∈ F) by (rewrite EF, E1; clear -Hpin; set_solver).
  assert (Hqin' : q ∈ F) by (rewrite EF, E1; clear -Hqin; set_solver).
  assert (Hxin' : x ∈ F) by (rewrite EF, E1; clear; set_solver).
  assert (Hyin' : y ∈ F) by (rewrite EF, E1; clear; set_solver).
  assert (Hp0in' : p0 ∈ F) by (rewrite EF, E1; unfold ys; clear; set_solver).
  assert (HLin' : ∀ a, root_of L = Some a → a ∈ F).
  { intros a Ha%root_of_addrs. rewrite EF, E1. unfold xs. clear -Ha. set_solver. }
  assert (Hryin' : ∀ a, root_of ry = Some a → a ∈ F).
  { intros a Ha%root_of_addrs. rewrite EF, E1. unfold ys. clear -Ha. set_solver. }
  assert (Hkin' : ∀ a, ctx_father k = Some a → a ∈ F).
  { intros a Ha%ctx_father_in. rewrite EF. unfold T0. clear -Ha.
    rewrite addrs_plug_perm, ctx_addrs_Zip_perm, ctx_addrs_app, ctx_addrs_Zip_perm.
    set_solver. }
  assert (HkRin' : ∀ a, a ∈ ctx_addrs kR → a ∈ F).
  { intros a Ha. rewrite EF. unfold T0. clear -Ha.
    rewrite addrs_plug_perm, ctx_addrs_Zip_perm, ctx_addrs_app. set_solver. }
  clear Hal. subst T0.
  rewrite ctx_addrs_Zip_perm, ctx_addrs_app, ctx_addrs_Zip_perm, addrs_Node_perm in Hnd.
  cbn [addrs app] in Hnd.
  (* the root of the right subtree of [x] *)
  assert (∃ g, plug_root kR (Some p0) = Some g ∧
               (kR = Top ∧ g = p0 ∨ kR ≠ Top ∧ g ∈ ctx_addrs kR ∧ plug_root kR None = Some g))
    as (g & Hg & Hgc).
  { destruct kR as [|w1 c1 z1 kv1 s1 up1]; [by exists p0; split; [|left]|].
    destruct (plug_root_in (Zip w1 c1 z1 kv1 s1 up1) (Some p0)) as (g & Hg & Hgin); [done|].
    exists g. split; [done|]. right. done. }
  cbn [plug_root]. rewrite plug_root_app.
  rewrite Hg in *. cbn [plug_root].
  assert (HBup' : uplink h (Some g) x RIGHT).
  { destruct Hgc as [[-> ->]|(HkR & _)]; [exact Hpup|by apply HBup]. }
  clear HBup.
  destruct k as [|w' c' f kvf sib up].
  all: try rewrite ctx_addrs_Zip_perm in Hnd.
  all: destruct Hgc as [[-> ->]|(HkR & Hgin & HgN)].
  all: try change (ctx_addrs (@Top K V)) with (@nil addr) in Hnd.
  all: cbn [app] in Hnd.
  all: nd_norm Hnd.
  all: cbn [ctx_father hole_up ctx_ok plug_root root_of ctx_app] in *.
  3,4: destruct Hxup as [_ Hxup]; assert (wx = w') by congruence; subst wx.
  3,4: destruct Hkx as (Hfc & Hfv & Hfw & Hfn & Hus & Hts & Hupp & Hkx).
  3,4: assert (Hrnx : plug_root up (Some f) ≠ Some x)
       by (destruct up; [cbn; congruence|];
           destruct (plug_root_in (Zip w c x0 kv sib0 up) (Some f)) as (a & -> & Ha); [done|];
           intros [= ->]; nd_contra).
  3,4: assert (Hrny : plug_root up (Some f) ≠ Some y)
       by (destruct up; [cbn; congruence|];
           destruct (plug_root_in (Zip w c x0 kv sib0 up) (Some f)) as (a & -> & Ha); [done|];
           intros [= ->]; nd_contra).
  all: destruct HBup' as [Hgf Hgw].
  all: eexists _, _; split;
    [ unfold swap_node, __swap, fix_self; repeat mstep;
      first [ rewrite ptr_eqb_refl | rewrite !ptr_eqb_ne by congruence ];
      mrun;
      (erewrite bind_ok;
        [| eapply (update_nearby_eq false);
           [load_solve | alloc_solve | load_solve | alloc_solve | load_solve | load_solve
           | valid_solve | diseq | load_solve | load_solve | valid_solve | valid_solve | root_ne ] ]);
      (erewrite (update_nearby_eq true);
           [| load_solve | alloc_solve | load_solve | alloc_solve | load_solve | load_solve
           | valid_solve | diseq | load_solve | load_solve | valid_solve | valid_solve | root_ne ]);
      rewrite ?cwr_Some, ?cwr_None;
      reflexivity
    | ].
  all: split; [apply Shape_focus; cbn [root_of tree_ok ctx_ok]; split_and!|].
  all: lazymatch goal with
       | |- NoDup _ => exact HndN
       | |- _ = plug_root _ _ => cbn [plug_root]; rewrite ?plug_root_app, ?Hg; done
       | |- dll _ _ _ _ =>
           rewrite E2; eapply dll_swap;
           [ exact Hd | exact Hnd1 | rewrite <-?Ep, <-?Eq; split; load_solve
           | split; load_solve | rewrite <-?Ep, <-?Eq; split; load_solve
           | rewrite <-?Ep, <-?Eq; intros u Hu; split; intros Hne; load_solve ]
       | |- frame_on ?S0 _ _ =>
           replace S0 with F by (rewrite EF; reflexivity);
           repeat first
             [ apply frame_on_refl
             | apply frame_on_alter; [ first [ assumption | by apply Hkin' | by apply HkRin' ] | ]
             | apply frame_on_adopt;
               [ first [ assumption | by intros ? [= <-] | by intros ? [=] ] | ] ]
       | |- True => exact I
       | |- hole_up _ (ctx_app _ _) _ =>
           rewrite hole_up_app by done; rewrite hole_up_app in Hpup by done; hole_frame
       | |- ctx_ok _ (ctx_app _ _) _ =>
           eapply ctx_ok_rebase;
           [ exact Hkk | assumption | same_tac | same_tac
           | intros _; rewrite Hg; cbn [hole_up]; uplink_solve
           | rewrite Hg; shape_tac ]
       | |- _ => shape_tac
       end.
  all: exact I.
Qed.

(** [swap_node(x, y)] for the successor [y] of [x]: the two nodes exchange
    their places in the tree and in the list; colours stay with the places,
    the pairs stay with the nodes. *)
Lemma swap_node_spec hd tl h r n k kR cx (L : tree K V) x kvx cy y kvy (ry : tree K V) :
  lspine kR →
  Shape hd tl h r (plug (ctx_app kR (Zip RIGHT cx x kvx L k)) (Node cy Leaf y kvy ry)) →
  ∃ h' r',
    swap_node (Some x) (Some y) (mk_state h (Some hd) (Some tl) r n)
      = Some (tt, mk_state h' (Some hd) (Some tl) r' n) ∧
    Shape hd tl h' r' (plug (ctx_app kR (Zip RIGHT cx y kvy L k)) (Node cy Leaf x kvx ry)) ∧
    frame_on (hd :: tl :: addrs
      (plug (ctx_app kR (Zip RIGHT cx x kvx L k)) (Node cy Leaf y kvy ry))) h h'.
Proof.
  destruct kR as [|w cp p0 kvp sp kR]; cbn [ctx_app lspine].
  - intros _. apply swap_node_child.
  - intros [-> Hsp]. by apply swap_node_deep.
Qed.

End swap_deep.

(** ** The private [erase] on the abstract tree *)

Section erase_node.
Context {K V : Type}.
Implicit Types (h : gmap addr (rbt_node K V)) (t l s : tree K V) (k up : ctx K V).

Local Open Scope m_scope.

(** [target->child[LEFT] != nullptr && target->child[RIGHT] != nullptr]. *)
Definition two_children t : bool :=
  match t with
  | Node _ (Node _ _ _ _ _) _ _ (Node _ _ _ _ _) => true
  | _ => false
  end.

(** The exchange with the successor: the focus is on the same node
    afterwards. *)
Definition tswap k t : option (ctx K V * tree K V) :=
  match t with
  | Leaf => None
  | Node cx L x kvx R =>
    match lmost R Top with
    | Some (kR, Node cy _ y kvy ry) =>
        Some (ctx_app kR (Zip RIGHT cx y kvy L k), Node cy Leaf x kvx ry)
    | _ => None
    end
  end.

(** [erase(target)] for the node at the root of [t]. *)
Definition terase k t : option (tree K V) :=
  match (if two_children t then tswap k t else Some (k, t)) with
  | Some (k1, t1) =>
    match efix0 k1 t1 with
    | Some (k2, t2) => Some (plug k2 (only_child_t t2))
    | None => None
    end
  | None => None
  end.

Lemma erase_node_unfold fuel target :
  erase_node (K:=K) (V:=V) fuel target =
    (let* n := get_size in set_size (Nat.pred n) >>
     let* cl := rd (child LEFT) target in
     let* cr := rd (child RIGHT) target in
     (if bool_decide (cl ≠ None) && bool_decide (cr ≠ None)
      then let* nx := rd next target in swap_node target nx else ret tt) >>
     erase_fix fuel target false >>
     unlink target).
Proof. reflexivity. Qed.

(** The list successor of a node with a right subtree is the leftmost
    node of that subtree. *)
Lemma Shape_succ hd tl h r k kR cx (L : tree K V) x kvx cy y kvy (ry : tree K V) :
  lspine kR →
  Shape hd tl h r (plug (ctx_app kR (Zip RIGHT cx x kvx L k)) (Node cy Leaf y kvy ry)) →
  load next (Some x) h = Some (Some y).
Proof.
  intros Hsp (_ & _ & _ & _ & _ & Hd).
  rewrite addrs_plug, ctx_before_app, (lspine_before kR Hsp) in Hd.
  cbn [ctx_before addrs app] in Hd. rewrite app_nil_r, <-!app_assoc in Hd. cbn [app] in Hd.
  rewrite app_assoc in Hd.
  apply (dll_elem _ _ _ _ (y :: _)) in Hd as [_ [Hxn _]]. exact Hxn.
Qed.

(** *** The fix-up keeps the order of the nodes *)

Lemma addrs_set_tcolor c t : addrs (set_tcolor c t) = addrs t.
Proof. by destruct t. Qed.
Lemma elems_set_tcolor c t : elems (set_tcolor c t) = elems t.
Proof. by destruct t. Qed.
Lemma root_of_set_tcolor c t : root_of (set_tcolor c t) = root_of t.
Proof. by destruct t. Qed.

Lemma efix_tail_order w cf f kvf s up k' t :
  efix_tail w cf f kvf s up = Some k' →
  addrs (plug k' t) = addrs (plug (Zip w cf f kvf s up) t) ∧
  elems (plug k' t) = elems (plug (Zip w cf f kvf s up) t).
Proof.
  unfold efix_tail. destruct s as [|cb bl y kvy br]; [done|].
  intros H. rewrite !addrs_plug, !elems_plug.
  destruct w; cbn [tchild negb] in H.
  - destruct (null_or_black_t bl).
    + destruct br as [|cn nl z kvz nr]; [done|]. cbn in H. injection H as <-.
      cbn. rewrite ?addrs_set_tcolor, ?elems_set_tcolor.
      split; rewrite <-?app_assoc; cbn; rewrite <-?app_assoc; done.
    + cbn in H. destruct bl as [|c1 l1 z1 kv1 r1]; [done|]. injection H as <-.
      cbn. split; rewrite <-?app_assoc; cbn; rewrite <-?app_assoc; done.
  - destruct (null_or_black_t br).
    + destruct bl as [|cn nl z kvz nr]; [done|]. cbn in H. injection H as <-.
      cbn. rewrite ?addrs_set_tcolor, ?elems_set_tcolor.
      split; rewrite <-?app_assoc; cbn; rewrite <-?app_assoc; done.
    + cbn in H. destruct br as [|c1 l1 z1 kv1 r1]; [done|]. injection H as <-.
      cbn. split; rewrite <-?app_assoc; cbn; rewrite <-?app_assoc; done.
Qed.

Lemma efix_mid_order w cf f kvf s up k' t :
  efix_mid w cf f kvf s up = Some k' →
  addrs (plug k' t) = addrs (plug (Zip w cf f kvf s up) t) ∧
  elems (plug k' t) = elems (plug (Zip w cf f kvf s up) t).
Proof.
  unfold efix_mid. destruct s as [|cb bl y kvy br]; [done|].
  destruct (_ && _); [|apply efix_tail_order].
  intros [= <-]. rewrite !addrs_plug, !elems_plug. by destruct w.
Qed.

Lemma efix_red_order w cf f kvf s up k' t :
  efix_red w cf f kvf s up = Some k' →
  addrs (plug k' t) = addrs (plug (Zip w cf f kvf s up) t) ∧
  elems (plug k' t) = elems (plug (Zip w cf f kvf s up) t).
Proof.
  unfold efix_red. destruct s as [|cb bl y kvy br]; [done|].
  destruct (bool_decide (cb = RED)); [|apply efix_mid_order].
  intros [-> ->]%(efix_mid_order _ _ _ _ _ _ _ t).
  rewrite !addrs_plug, !elems_plug.
  destruct w; cbn; split; rewrite <-?app_assoc; cbn; rewrite <-?app_assoc; done.
Qed.

Lemma efix_order k k' b t :
  efix k = Some (k', b) →
  addrs (plug k' t) = addrs (plug k t) ∧ elems (plug k' t) = elems (plug k t).
Proof.
  revert k' b t. induction k as [|w cf f kvf s up IH]; intros k' b t; cbn [efix].
  - by intros [= <- <-].
  - destruct s as [|cb bl y kvy br]; [done|].
    destruct (_ && _).
    + destruct (efix up) as [[up' b']|] eqn:Hup; [|done]. intros [= <- <-].
      cbn [plug].
      destruct (IH _ _ (mkN w (if b' then BLACK else cf) t f kvf (Node RED bl y kvy br)) eq_refl)
        as [-> ->].
      rewrite !addrs_plug, !elems_plug. by destruct w.
    + destruct (efix_red _ _ _ _ _ _) as [k1|] eqn:Hred; [|done]. intros [= <- <-].
      by apply efix_red_order.
Qed.

Lemma efix0_order k t k' t' :
  efix0 k t = Some (k', t') →
  addrs (plug k' t') = addrs (plug k t) ∧ elems (plug k' t') = elems (plug k t).
Proof.
  unfold efix0. destruct t as [|ct l x kv r]; [done|].
  destruct (bool_decide (ct = RED)); [by intros [= <- <-]|].
  destruct (null_or_black_t _).
  - destruct (efix k) as [[k1 b]|] eqn:Hk; [|done]. intros [= <- <-].
    destruct b.
    + destruct (efix_order _ _ _ (set_tcolor BLACK (Node ct l x kv r)) Hk) as [E1 E2].
      cbn [set_tcolor] in *. rewrite E1, E2, !addrs_plug, !elems_plug. done.
    + by apply efix_order with false.
  - destruct l as [|cl ll a kva lr]; intros [= <- <-].
    + rewrite !addrs_plug, !elems_plug. cbn. by rewrite addrs_set_tcolor, elems_set_tcolor.
    + by rewrite !addrs_plug, !elems_plug.
Qed.

(** The node to remove keeps its children, one of which is empty. *)
Lemma efix0_one_child k c l x kv r k' t' :
  efix0 k (Node c l x kv r) = Some (k', t') → l = Leaf ∨ r = Leaf →
  ∃ w0 c' C, t' = mkN w0 c' C x kv Leaf ∧ only_child_t t' = C.
Proof.
  unfold efix0. intros H Hc.
  destruct (bool_decide (c = RED)).
  { injection H as <- <-. destruct Hc as [->| ->].
    - by exists RIGHT, c, r.
    - exists LEFT, c, l. split; [done|]. by destruct l. }
  destruct (null_or_black_t _).
  { destruct (efix k) as [[k1 b]|]; [|done]. injection H as <- <-.
    destruct Hc as [->| ->].
    - exists RIGHT, (if b then BLACK else c), r. by destruct b.
    - exists LEFT, (if b then BLACK else c), l. by destruct b, l. }
  destruct l as [|cl ll a kva lr].
  - injection H as <- <-. by exists RIGHT, c, (set_tcolor BLACK r).
  - destruct Hc as [?| ->]; [done|]. injection H as <- <-.
    by exists LEFT, c, (Node BLACK ll a kva lr).
Qed.

Lemma ctx_depth_lt k t : t ≠ Leaf → ctx_depth k < length (addrs (plug k t)).
Proof.
  intros Ht. pose proof (ctx_depth_le k t) as H. destruct t; [done|].
  simpl in H. rewrite length_app in H. simpl in H. lia.
Qed.

(** The second half of [erase]: fix-up, then unlinking. *)
Lemma erase_tail_sim' fuel k c l x kv (r0 : tree K V) k2 t2 hd tl h r n :
  Shape hd tl h r (plug k (Node c l x kv r0)) →
  l = Leaf ∨ r0 = Leaf →
  efix0 k (Node c l x kv r0) = Some (k2, t2) →
  ctx_depth k < fuel →
  ∃ h' r',
    (erase_fix fuel (Some x) false >> unlink (Some x)) (mk_state h (Some hd) (Some tl) r n)
      = Some (tt, mk_state h' (Some hd) (Some tl) r' n) ∧
    Shape hd tl h' r' (plug k2 (only_child_t t2)) ∧
    frame_on (hd :: tl :: addrs (plug k (Node c l x kv r0))) h h' ∧
    h' !! x = None.
Proof.
  intros HS Hone Hfix Hfuel.
  destruct (erase_fix0_sim fuel _ _ _ _ _ _ _ _ _ n HS eq_refl Hfix Hfuel)
    as (h1 & r1 & Hrun1 & HS1 & Hfr1).
  destruct (efix0_one_child _ _ _ _ _ _ _ _ Hfix Hone) as (w0 & c' & C & -> & ->).
  destruct (unlink_spec _ _ _ _ n _ _ _ _ _ _ HS1) as (h2 & r2 & Hrun2 & HS2 & Hfr2 & Hx).
  exists h2, r2. split_and!; [|done| |done].
  - erewrite bind_ok by exact Hrun1. exact Hrun2.
  - destruct (efix0_order _ _ _ _ Hfix) as [Ea _].
    eapply frame_on_trans.
    + eapply frame_on_mono; [|exact Hfr1]. clear. set_solver.
    + by rewrite <-Ea.
Qed.

Lemma erase_node_sim fuel k t t' x hd tl h r n :
  Shape hd tl h r (plug k t) → root_of t = Some x → terase k t = Some t' →
  length (addrs (plug k t)) ≤ fuel →
  ∃ h' r',
    erase_node fuel (Some x) (mk_state h (Some hd) (Some tl) r n)
      = Some (tt, mk_state h' (Some hd) (Some tl) r' (Nat.pred n)) ∧
    Shape hd tl h' r' t' ∧
    frame_on (hd :: tl :: addrs (plug k t)) h h' ∧
    h' !! x = None.
Proof.
  intros HS Hx Her Hfuel.
  apply root_of_Node in Hx as (cx & L & kvx & R & ->).
  destruct (Shape_node _ _ _ _ _ false _ _ _ _ _ HS) as (_ & _ & Hxl & Hxr & _).
  cbn [negb] in Hxr.
  unfold terase in Her.
  destruct (two_children (Node cx L x kvx R)) eqn:Htwo.
  - (* two children: exchange with the successor first *)
    destruct L as [|cl ll a kva lr]; [done|]. destruct R as [|cr rl b kvb rr]; [done|].
    set (L := Node cl ll a kva lr) in *. set (R := Node cr rl b kvb rr) in *.
    unfold tswap in Her.
    destruct (lmost R Top) as [[kR ty]|] eqn:Hlm; [|done].
    destruct (lmost_spec _ _ _ _ Hlm) as (kR' & cy & y & kvy & ry & E & Hsp & -> & ER).
    rewrite ctx_app_Top in E. subst kR'.
    destruct (efix0 _ _) as [[k2 t2]|] eqn:Hfix; [|done]. injection Her as <-.
    assert (HS0 : Shape hd tl h r
      (plug (ctx_app kR (Zip RIGHT cx x kvx L k)) (Node cy Leaf y kvy ry))).
    { rewrite plug_app. cbn [plug mkN]. by rewrite <-ER. }
    assert (Ep : plug k (Node cx L x kvx R)
               = plug (ctx_app kR (Zip RIGHT cx x kvx L k)) (Node cy Leaf y kvy ry)).
    { rewrite plug_app. cbn [plug mkN]. by rewrite <-ER. }
    pose proof (Shape_succ _ _ _ _ _ _ _ _ _ _ _ _ _ _ Hsp HS0) as Hnx.
    destruct (swap_node_spec _ _ _ _ (Nat.pred n) _ _ _ _ _ _ _ _ _ _ Hsp HS0)
      as (h1 & r1 & Hrun1 & HS1 & Hfr1).
    destruct (erase_tail_sim' fuel _ _ _ _ _ _ _ _ _ _ _ _ (Nat.pred n) HS1 (or_introl eq_refl) Hfix)
      as (h2 & r2 & Hrun2 & HS2 & Hfr2 & Hx2).
    { rewrite ctx_depth_app. cbn [ctx_depth].
      pose proof (ctx_depth_lt (ctx_app kR (Zip RIGHT cx x kvx L k)) (Node cy Leaf y kvy ry)) as Hd.
      rewrite <-Ep, ctx_depth_app in Hd. cbn [ctx_depth] in Hd. specialize (Hd ltac:(done)). lia. }
    exists h2, r2. split_and!; [|done| |done].
    + rewrite erase_node_unfold. repeat mstep. subst L R. cbn [root_of].
      rewrite !bool_decide_true by done. cbn [andb].
      rewrite bind_bind. mstep.
      erewrite bind_ok by exact Hrun1. exact Hrun2.
    + rewrite Ep. eapply frame_on_trans; [exact Hfr1|].
      eapply frame_on_mono; [|exact Hfr2].
      clear. intros z. rewrite !elem_of_cons, !addrs_plug, !ctx_before_app, !ctx_after_app.
      cbn [ctx_before ctx_after addrs]. set_solver.
  - (* at most one child *)
    assert (Hone : L = Leaf ∨ R = Leaf).
    { destruct L; [by left|]. destruct R; [by right|]. done. }
    destruct (efix0 _ _) as [[k2 t2]|] eqn:Hfix; [|done]. injection Her as <-.
    destruct (erase_tail_sim' fuel _ _ _ _ _ _ _ _ _ _ _ _ (Nat.pred n) HS Hone Hfix)
      as (h2 & r2 & Hrun2 & HS2 & Hfr2 & Hx2).
    { pose proof (ctx_depth_lt k (Node cx L x kvx R)) as Hd. specialize (Hd ltac:(done)). lia. }
    exists h2, r2. split_and!; [|done..].
    rewrite erase_node_unfold. repeat mstep.
    assert (bool_decide (root_of L ≠ None) && bool_decide (root_of R ≠ None) = false) as ->.
    { destruct Hone as [-> | ->]; cbn; [done|]. by rewrite andb_false_r. }
    mstep. exact Hrun2.
Qed.

End erase_node.

(** ** The red-black properties *)

Section rb.
Context {K V : Type}.
Implicit Types (t l r s tw tn : tree K V) (k up : ctx K V).

(** No RED node has a RED child, and every path to an empty child
    position has [n] BLACK nodes. *)
Fixpoint rb (n : nat) t : Prop :=
  match t with
  | Leaf => n = 0
  | Node RED l _ _ r =>
      null_or_black_t l = true ∧ null_or_black_t r = true ∧ rb n l ∧ rb n r
  | Node BLACK l _ _ r => ∃ m, n = S m ∧ rb m l ∧ rb m r
  end.

(** A red-black tree: moreover the root is BLACK. *)
Definition is_rb t : Prop := null_or_black_t t = true ∧ ∃ n, rb n t.

(** A context whose hole takes a subtree of [n] BLACK nodes per path. *)
Definition ctx_black k : Prop :=
  match k with Top => False | Zip _ c _ _ _ _ => c = BLACK end.
Fixpoint rbk k (n : nat) : Prop :=
  match k with
  | Top => True
  | Zip w c f kvf s up =>
      rb n s ∧
      match c with
      | RED => null_or_black_t s = true ∧ ctx_black up ∧ rbk up n
      | BLACK => rbk up (S n)
      end
  end.
(** The root of the subtree in the hole must be BLACK at the top and below
    a RED node. *)
Definition hole_ok k t : Prop :=
  match k with
  | Top | Zip _ RED _ _ _ _ => null_or_black_t t = true
  | Zip _ BLACK _ _ _ _ => True
  end.

Lemma rb_mkN n w c tw x kv tn :
  rb n (mkN w c tw x kv tn) ↔ rb n (Node c tw x kv tn).
Proof. destruct w, c; simpl; naive_solver. Qed.

Lemma rb_Leaf n : rb n (Leaf : tree K V) ↔ n = 0.
Proof. done. Qed.
Lemma rb_RED n l x kv r :
  rb n (Node RED l x kv r) ↔
    null_or_black_t l = true ∧ null_or_black_t r = true ∧ rb n l ∧ rb n r.
Proof. done. Qed.
Lemma rb_BLACK n l x kv r :
  rb n (Node BLACK l x kv r) ↔ ∃ m, n = S m ∧ rb m l ∧ rb m r.
Proof. done. Qed.
Lemma rb_BLACK_S n l x kv r : rb (S n) (Node BLACK l x kv r) ↔ rb n l ∧ rb n r.
Proof. simpl. split; [intros (m & [= <-] & ?); done|]. intros []. by exists n. Qed.

Lemma rb_null_or_black_0 t : rb 0 t → null_or_black_t t = true → t = Leaf.
Proof. destruct t as [|[] ? ? ? ?]; simpl; [done|done|]. by intros (m & ? & _). Qed.
Lemma rb_S_Node n t : rb (S n) t → t ≠ Leaf.
Proof. by destruct t. Qed.

Lemma nob_mkN w c tw x kv tn :
  null_or_black_t (mkN w c tw x kv tn) = bool_decide (c = BLACK).
Proof. by destruct w, c. Qed.
Lemma nob_set_BLACK t : null_or_black_t (set_tcolor BLACK t) = true.
Proof. by destruct t. Qed.

Lemma rb_plug k t n : rbk k n → rb n t → hole_ok k t → is_rb (plug k t).
Proof.
  revert t n. induction k as [|w c f kvf s up IH]; intros t n Hk Ht Hh; simpl in *.
  - split; [done|]. by exists n.
  - destruct Hk as [Hs Hk]. destruct c.
    + destruct Hk as (Hsb & Hb & Hk). apply (IH _ n); [done| |].
      * apply rb_mkN. simpl. done.
      * destruct up as [|? [] ? ? ? ?]; simpl in *; try done.
    + apply (IH _ (S n)); [done| |].
      * apply rb_mkN, rb_BLACK_S. done.
      * destruct up as [|? [] ? ? ? ?]; simpl; try done; by rewrite nob_mkN.
Qed.

Lemma rb_unplug k t : is_rb (plug k t) → ∃ n, rbk k n ∧ rb n t ∧ hole_ok k t.
Proof.
  revert t. induction k as [|w c f kvf s up IH]; intros t; simpl.
  - intros [Hb [n Hn]]. by exists n.
  - intros (n & Hk & Ht & Hh)%IH. apply rb_mkN in Ht. destruct c; simpl in Ht.
    + destruct Ht as (Hbt & Hbs & Ht & Hs). exists n. split_and!; try done.
      destruct up as [|? [] ? ? ? ?]; simpl in *; try done; by rewrite nob_mkN in Hh.
    + destruct Ht as (m & -> & Ht & Hs). exists m. done.
Qed.

(** *** Insertion *)

Lemma ifix_rb k t n :
  rbk k n → rb n t → tcolor t = RED →
  ∃ t', ifix k t = Some t' ∧ is_rb t'.
Proof.
  assert (∃ d, ctx_depth k < d) as [d Hd] by (exists (S (ctx_depth k)); lia).
  revert k t n Hd. induction d as [|d IH]; intros k t n Hd Hk Ht Hc; [lia|]. destruct t as [|ct l x kv r]; [done|]. simpl in Hc. subst ct.
  destruct k as [|w1 c1 f kvf s1 up]; cbn [ifix].
  { eexists. split; [done|]. split; [done|]. exists (S n). apply rb_BLACK_S.
    by destruct Ht as (_ & _ & ? & ?). }
  destruct c1.
  2: { eexists. split; [done|]. by eapply rb_plug. }
  destruct Hk as (Hs1 & Hbs1 & Hb & Hk).
  destruct up as [|w2 c2 g kvg s2 up2]; [done|]. simpl in Hb. subst c2.
  destruct Hk as [Hs2 Hk2].
  pose proof Ht as (Hbl & Hbr & Hl & Hr).
  destruct (null_or_black_t s2) eqn:Hnb.
  - case_bool_decide as Hw.
    + subst w2. eexists. split; [done|]. eapply (rb_plug _ _ (S n)); [done| |].
      * apply rb_mkN, rb_BLACK_S. split; [done|]. apply rb_mkN. simpl. done.
      * destruct up2 as [|? [] ? ? ? ?]; simpl; try done; by rewrite nob_mkN.
    + eexists. split; [done|]. eapply (rb_plug _ _ (S n)); [done| |].
      * apply rb_mkN, rb_BLACK_S. split; apply rb_mkN; simpl; destruct w2; simpl; done.
      * destruct up2 as [|? [] ? ? ? ?]; simpl; try done; by rewrite nob_mkN.
  - apply (IH up2) with (n := S n).
    + simpl in Hd. lia.
    + done.
    + apply rb_mkN. simpl. rewrite nob_mkN, nob_set_BLACK. split_and!; try done.
      * apply rb_mkN, rb_BLACK_S. done.
      * destruct s2 as [|[] ? ? ? ?]; try done. simpl in *.
        exists n. naive_solver.
    + by destruct w2.
Qed.

(** *** Removal *)

Definition frame_ok (c : color_e) up (n : nat) : Prop :=
  match c with RED => ctx_black up ∧ rbk up n | BLACK => rbk up (S n) end.

Lemma rbk_Zip w c f kvf s up n :
  rbk (Zip w c f kvf s up) n ↔
    rb n s ∧ (c = RED → null_or_black_t s = true) ∧ frame_ok c up n.
Proof. destruct c; simpl; naive_solver. Qed.

Lemma efix_tail_rb w cf f kvf bl y kvy br up n :
  rb (S n) (Node BLACK bl y kvy br) →
  null_or_black_t bl && null_or_black_t br = false →
  frame_ok cf up (S n) →
  ∃ k', efix_tail w cf f kvf (Node BLACK bl y kvy br) up = Some k' ∧ rbk k' n.
Proof.
  intros [Hbl Hbr]%rb_BLACK_S Hred Hup. unfold efix_tail.
  destruct w; cbn [tchild negb].
  - (* the target is the right child: the far nephew is [bl] *)
    destruct (null_or_black_t bl) eqn:Hfar.
    + destruct br as [|[] nl z kvz nr]; try done.
      destruct Hbr as (Hb1 & Hb2 & Hnl & Hnr).
      cbn. eexists. split; [done|].
      apply rbk_Zip. split_and!; [done|done|]. cbn [frame_ok].
      apply rbk_Zip. split_and!.
      * apply rb_BLACK_S. done.
      * done.
      * done.
    + destruct bl as [|[] fl u kvu fr]; try done.
      destruct Hbl as (Hb1 & Hb2 & Hfl & Hfr).
      cbn. eexists. split; [done|].
      apply rbk_Zip. split_and!; [done|done|]. cbn [frame_ok].
      apply rbk_Zip. split_and!; [by apply rb_BLACK_S|done|done].
  - destruct (null_or_black_t br) eqn:Hfar.
    + rewrite andb_true_r in Hred.
      destruct bl as [|[] nl z kvz nr]; try done.
      destruct Hbl as (Hb1 & Hb2 & Hnl & Hnr).
      cbn. eexists. split; [done|].
      apply rbk_Zip. split_and!; [done|done|]. cbn [frame_ok].
      apply rbk_Zip. split_and!; [by apply rb_BLACK_S|done|done].
    + destruct br as [|[] fl u kvu fr]; try done.
      destruct Hbr as (Hb1 & Hb2 & Hfl & Hfr).
      cbn. eexists. split; [done|].
      apply rbk_Zip. split_and!; [done|done|]. cbn [frame_ok].
      apply rbk_Zip. split_and!; [by apply rb_BLACK_S|done|done].
Qed.

Lemma efix_mid_rb w cf f kvf bl y kvy br up n :
  rb (S n) (Node BLACK bl y kvy br) →
  (cf = BLACK → null_or_black_t bl && null_or_black_t br = false) →
  frame_ok cf up (S n) →
  ∃ k', efix_mid w cf f kvf (Node BLACK bl y kvy br) up = Some k' ∧ rbk k' n.
Proof.
  intros Hs Hred Hup. unfold efix_mid.
  destruct (null_or_black_t bl && null_or_black_t br) eqn:Hnb.
  - destruct cf; [|by specialize (Hred eq_refl)].
    rewrite !bool_decide_true by done. cbn [andb].
    apply andb_prop in Hnb as [H1 H2]. rewrite H1, H2.
    eexists. split; [done|]. apply rb_BLACK_S in Hs as [Hbl Hbr].
    apply rbk_Zip. split_and!; [done|done|]. by destruct Hup.
  - assert (bool_decide (cf = RED) && bool_decide (BLACK = BLACK)
            && null_or_black_t bl && null_or_black_t br = false) as ->.
    { rewrite <-andb_assoc, Hnb. by rewrite andb_false_r. }
    by apply efix_tail_rb.
Qed.

Lemma efix_red_rb w cf f kvf s up n :
  rbk (Zip w cf f kvf s up) (S n) →
  (cf = BLACK → tcolor s = BLACK →
   null_or_black_t (tchild LEFT s) && null_or_black_t (tchild RIGHT s) = false) →
  ∃ k', efix_red w cf f kvf s up = Some k' ∧ rbk k' n.
Proof.
  intros (Hs & Hnob & Hup)%rbk_Zip Hred.
  destruct s as [|cb bl y kvy br]; [done|]. unfold efix_red.
  destruct cb.
  - (* the brother is RED: the father is BLACK *)
    destruct cf; [by specialize (Hnob eq_refl)|].
    rewrite bool_decide_true by done.
    destruct Hs as (Hb1 & Hb2 & Hbl & Hbr).
    assert (∀ near far, rb (S n) near → null_or_black_t near = true → rb (S n) far →
      ∃ k', efix_mid w RED f kvf near (Zip w BLACK y kvy far up) = Some k' ∧ rbk k' n)
      as Hgen.
    { intros near far Hn Hnb Hf. destruct near as [|[] nl z kvz nr]; try done.
      apply efix_mid_rb; [done|by intros [=]|]. split; [done|]. apply rbk_Zip. done. }
    destruct w; cbn [tchild]; by apply Hgen.
  - rewrite bool_decide_false by done. apply efix_mid_rb; [done| |done].
    intros ->. by apply Hred.
Qed.

Lemma efix_rb k n :
  rbk k (S n) →
  ∃ k' b, efix k = Some (k', b) ∧ rbk k' n ∧ (b = true → k' = Top).
Proof.
  revert n. induction k as [|w cf f kvf s up IH]; intros n Hk; cbn [efix].
  { by exists Top, true. }
  pose proof Hk as (Hs & Hnob & Hup)%rbk_Zip.
  destruct s as [|cb bl y kvy br]; [done|].
  destruct (bool_decide (cf = BLACK) && bool_decide (cb = BLACK)
            && null_or_black_t bl && null_or_black_t br) eqn:Htest.
  - apply andb_prop in Htest as [[[Hcf Hcb]%andb_prop Hbl]%andb_prop Hbr].
    apply bool_decide_eq_true in Hcf as ->, Hcb as ->.
    destruct (IH (S n) Hup) as (up' & b' & -> & Hup' & _).
    eexists _, _. split; [done|]. split; [|done].
    apply rb_BLACK_S in Hs as [? ?].
    apply rbk_Zip. destruct b'; split_and!; done.
  - destruct (efix_red_rb w cf f kvf (Node cb bl y kvy br) up n Hk) as (k' & -> & Hk').
    + intros -> Hcb. simpl in Hcb. subst cb. cbn [tchild].
      rewrite !bool_decide_true in Htest by done. cbn [andb] in Htest.
      destruct (null_or_black_t bl); [done|]. done.
    + by exists k', false.
Qed.

(** The properties depend on the colours and the shape only. *)
Fixpoint same_shape t t' : Prop :=
  match t, t' with
  | Leaf, Leaf => True
  | Node c l _ _ r, Node c' l' _ _ r' => c = c' ∧ same_shape l l' ∧ same_shape r r'
  | _, _ => False
  end.
Fixpoint same_shape_ctx k k' : Prop :=
  match k, k' with
  | Top, Top => True
  | Zip w c _ _ s up, Zip w' c' _ _ s' up' =>
      w = w' ∧ c = c' ∧ same_shape s s' ∧ same_shape_ctx up up'
  | _, _ => False
  end.

Lemma same_shape_refl t : same_shape t t.
Proof. induction t; simpl; auto. Qed.
Lemma same_shape_ctx_refl k : same_shape_ctx k k.
Proof. induction k; simpl; auto using same_shape_refl. Qed.
Lemma same_shape_nob t t' : same_shape t t' → null_or_black_t t = null_or_black_t t'.
Proof. destruct t, t'; simpl; try done. by intros (-> & _). Qed.
Lemma same_shape_rb n t t' : same_shape t t' → rb n t → rb n t'.
Proof.
  revert n t'. induction t as [|c l IHl x kv r IHr]; intros n [|c' l' x' kv' r']; simpl; try done.
  intros (<- & Hl & Hr). destruct c.
  - rewrite (same_shape_nob _ _ Hl), (same_shape_nob _ _ Hr). naive_solver.
  - naive_solver.
Qed.
Lemma same_shape_plug k k' t t' :
  same_shape_ctx k k' → same_shape t t' → same_shape (plug k t) (plug k' t').
Proof.
  revert k' t t'. induction k as [|w c x kv s up IH]; intros [|w' c' x' kv' s' up'] t t';
    simpl; try done.
  intros (<- & <- & Hs & Hup) Ht. apply IH; [done|]. destruct w; simpl; auto.
Qed.
Lemma same_shape_ctx_app k1 k2 k2' :
  same_shape_ctx k2 k2' → same_shape_ctx (ctx_app k1 k2) (ctx_app k1 k2').
Proof. intros H. induction k1; simpl; auto using same_shape_refl. Qed.
Lemma same_shape_is_rb t t' : same_shape t t' → is_rb t → is_rb t'.
Proof.
  intros Hs [Hb [n Hn]]. split; [by rewrite <-(same_shape_nob _ _ Hs)|].
  exists n. by eapply same_shape_rb.
Qed.

Lemma lmost_Some t k : t ≠ Leaf → is_Some (lmost t k).
Proof.
  induction t as [|c l IHl y kv r _] in k |- *; [done|]. intros _. simpl.
  destruct l; [done|]. by apply IHl.
Qed.

(** The fix-up makes the node at the focus removable. *)
Lemma efix0_unlink_rb k c l x kv r :
  is_rb (plug k (Node c l x kv r)) → l = Leaf ∨ r = Leaf →
  ∃ k2 t2, efix0 k (Node c l x kv r) = Some (k2, t2) ∧ is_rb (plug k2 (only_child_t t2)).
Proof.
  intros (n & Hk & Ht & Hh)%rb_unplug Hone. unfold efix0.
  assert (Hleaf : hole_ok k (Leaf : tree K V)) by (by destruct k as [|? [] ? ? ? ?]).
  destruct c.
  - rewrite bool_decide_true by done. eexists _, _. split; [done|].
    destruct Ht as (Hbl & Hbr & Hl & Hr).
    assert (n = 0) as -> by (by destruct Hone as [-> | ->]).
    apply rb_null_or_black_0 in Hl as ->; [|done]. apply rb_null_or_black_0 in Hr as ->; [|done].
    by apply (rb_plug _ _ 0).
  - rewrite bool_decide_false by done.
    destruct Ht as (m & -> & Hl & Hr).
    assert (m = 0) as -> by (by destruct Hone as [-> | ->]).
    destruct (null_or_black_t (only_child_t (Node BLACK l x kv r))) eqn:Hnb.
    + assert (l = Leaf ∧ r = Leaf) as [-> ->].
      { destruct Hone as [-> | ->].
        - split; [done|]. by apply rb_null_or_black_0.
        - split; [|done]. apply rb_null_or_black_0; [done|]. by destruct l. }
      destruct (efix_rb k 0 Hk) as (k' & b & -> & Hk' & _).
      eexists _, _. split; [done|].
      assert (hole_ok k' (Leaf : tree K V)) by (by destruct k' as [|? [] ? ? ? ?]).
      destruct b; by apply (rb_plug _ _ 0).
    + destruct l as [|cl ll a kva lr].
      * eexists _, _. split; [done|]. cbn.
        destruct r as [|[] rl a kva rr]; try done. cbn.
        apply (rb_plug _ _ 1); [done| |by destruct k as [|? [] ? ? ? ?]].
        destruct Hr as (_ & _ & ? & ?). by apply rb_BLACK_S.
      * eexists _, _. split; [done|]. cbn.
        destruct cl; try done.
        apply (rb_plug _ _ 1); [done| |by destruct k as [|? [] ? ? ? ?]].
        destruct Hl as (_ & _ & ? & ?). by apply rb_BLACK_S.
Qed.

(** Removing a node of a red-black tree leaves a red-black tree. *)
Lemma terase_rb k t :
  is_rb (plug k t) → t ≠ Leaf → ∃ t', terase k t = Some t' ∧ is_rb t'.
Proof.
  intros Hrb Ht. destruct t as [|cx L x kvx R]; [done|]. unfold terase.
  destruct (two_children (Node cx L x kvx R)) eqn:Htwo.
  - destruct L as [|cl ll a kva lr]; [done|]. destruct R as [|cr rl b kvb rr]; [done|].
    set (L := Node cl ll a kva lr) in *. set (R := Node cr rl b kvb rr) in *.
    unfold tswap.
    destruct (lmost_Some R Top) as [[kR ty] Hlm]; [done|]. rewrite Hlm.
    destruct (lmost_spec _ _ _ _ Hlm) as (kR' & cy & y & kvy & ry & E & Hsp & -> & ER).
    rewrite ctx_app_Top in E. subst kR'.
    assert (Hrb1 : is_rb (plug (ctx_app kR (Zip RIGHT cx y kvy L k)) (Node cy Leaf x kvx ry))).
    { eapply same_shape_is_rb; [|exact Hrb]. rewrite plug_app. cbn [plug mkN].
      apply same_shape_plug; [apply same_shape_ctx_refl|].
      cbn [same_shape]. split_and!; [done|apply same_shape_refl|].
      rewrite ER. apply same_shape_plug; [apply same_shape_ctx_refl|].
      simpl. auto using same_shape_refl. }
    destruct (efix0_unlink_rb _ _ _ _ _ _ Hrb1 (or_introl eq_refl)) as (k2 & t2 & -> & Hrb2).
    eauto.
  - assert (Hone : L = Leaf ∨ R = Leaf).
    { destruct L; [by left|]. destruct R; [by right|]. done. }
    destruct (efix0_unlink_rb _ _ _ _ _ _ Hrb Hone) as (k2 & t2 & -> & Hrb2).
    eauto.
Qed.

End rb.
(** ** The order of the nodes

    What the fix-ups and the removal do to the in-order sequence, and the
    descents of [__insert] and [find] on a sorted tree. *)

Section order.
Context {K V : Type}.
Implicit Types (t l r s : tree K V) (k up : ctx K V).

(** In-order nodes: the address with the stored pair. *)
Fixpoint nodes t : list (addr * (K * V)) :=
  match t with Leaf => [] | Node _ l x kv r => nodes l ++ (x, kv) :: nodes r end.

Lemma nodes_addrs t : (nodes t).*1 = addrs t.
Proof. induction t as [|c l IHl x kv r IHr]; simpl; [done|]. by rewrite fmap_app, fmap_cons, IHl, IHr. Qed.
Lemma nodes_elems t : (nodes t).*2 = elems t.
Proof. induction t as [|c l IHl x kv r IHr]; simpl; [done|]. by rewrite fmap_app, fmap_cons, IHl, IHr. Qed.

Lemma nodes_value h t a kv :
  tree_ok h t → (a, kv) ∈ nodes t → load value (Some a) h = Some (Some kv).
Proof.
  induction t as [|c l IHl x kv' r IHr]; simpl; [by intros _ ?%elem_of_nil|].
  intros (_ & Hv & _ & _ & _ & _ & Hl & Hr) Hin.
  apply elem_of_app in Hin as [Hin|Hin]; [by apply IHl|].
  apply elem_of_cons in Hin as [[= -> ->]|Hin]; [done|]. by apply IHr.
Qed.

Lemma ctx_elems_before_app k1 k2 :
  ctx_elems_before (ctx_app k1 k2) = ctx_elems_before k2 ++ ctx_elems_before k1.
Proof.
  induction k1 as [|w c x kv sib up IH]; simpl; [by rewrite app_nil_r|].
  destruct w; [|done]. by rewrite IH, <-app_assoc.
Qed.
Lemma ctx_elems_after_app k1 k2 :
  ctx_elems_after (ctx_app k1 k2) = ctx_elems_after k1 ++ ctx_elems_after k2.
Proof.
  induction k1 as [|w c x kv sib up IH]; simpl; [done|].
  destruct w; rewrite IH; [done|]. simpl. by rewrite <-app_assoc.
Qed.
Lemma lspine_elems_before (kR : ctx K V) : lspine kR → ctx_elems_before kR = [].
Proof. induction kR as [|w c x kv sib up IH]; simpl; [done|]. intros [-> ?]. auto. Qed.

(** [insert_fix] keeps the order. *)
Lemma ifix_order k t t' :
  ifix k t = Some t' → addrs t' = addrs (plug k t) ∧ elems t' = elems (plug k t).
Proof.
  assert (∃ d, ctx_depth k < d) as [d Hd] by (exists (S (ctx_depth k)); lia).
  revert k t Hd. induction d as [|d IH]; intros k t Hd; [lia|].
  destruct t as [|ct l x kv r]; [by destruct k|].
  destruct k as [|w1 c1 f kvf s1 up]; cbn [ifix].
  { by intros [= <-]. }
  destruct c1.
  2: { by intros [= <-]. }
  destruct up as [|w2 c2 g kvg s2 up2]; [done|].
  destruct (null_or_black_t s2).
  - case_bool_decide; intros [= <-]; cbn [plug]; rewrite !addrs_plug, !elems_plug;
      destruct w1, w2; try done; by simplify_list_eq.
  - intros H. apply IH in H; [|simpl in Hd; lia]. destruct H as [-> ->]. cbn [plug].
    rewrite !addrs_plug, !elems_plug.
    destruct w1, w2; simpl; rewrite ?addrs_set_tcolor, ?elems_set_tcolor; by simplify_list_eq.
Qed.

(** [erase_fix] changes the context of the target only. *)
Lemma efix0_ctx_order k t k' t' u :
  efix0 k t = Some (k', t') →
  addrs (plug k' u) = addrs (plug k u) ∧ elems (plug k' u) = elems (plug k u).
Proof.
  unfold efix0. destruct t as [|ct l x kv r]; [done|].
  destruct (bool_decide (ct = RED)); [by intros [= <- <-]|].
  destruct (null_or_black_t _).
  - destruct (efix k) as [[k1 b]|] eqn:Hk; [|done]. intros [= <- <-].
    by apply efix_order with b.
  - destruct l; by intros [= <- <-].
Qed.
Lemma efix0_only_child k t k' t' :
  efix0 k t = Some (k', t') →
  addrs (only_child_t t') = addrs (only_child_t t) ∧
  elems (only_child_t t') = elems (only_child_t t).
Proof.
  unfold efix0. destruct t as [|ct l x kv r]; [done|].
  destruct (bool_decide (ct = RED)); [by intros [= <- <-]|].
  destruct (null_or_black_t _).
  - destruct (efix k) as [[k1 b]|] eqn:Hk; [|done]. intros [= <- <-]. by destruct b.
  - destruct l as [|cl ll a kva lr]; intros [= <- <-]; cbn.
    + by rewrite addrs_set_tcolor, elems_set_tcolor.
    + done.
Qed.

(** Removal takes the node at the focus out of the sequence. *)
Lemma terase_order k c l x kv r t' :
  terase k (Node c l x kv r) = Some t' →
  addrs t' = ctx_before k ++ addrs l ++ addrs r ++ ctx_after k ∧
  elems t' = ctx_elems_before k ++ elems l ++ elems r ++ ctx_elems_after k.
Proof.
  unfold terase.
  destruct (two_children (Node c l x kv r)) eqn:Htwo.
  - unfold tswap.
    destruct (lmost r Top) as [[kR ty]|] eqn:Hlm; [|done].
    destruct (lmost_spec _ _ _ _ Hlm) as (kR' & cy & y & kvy & ry & E & Hsp & -> & ER).
    rewrite ctx_app_Top in E. subst kR'.
    destruct (efix0 _ _) as [[k2 t2]|] eqn:Hfix; [|done]. intros [= <-].
    destruct (efix0_ctx_order _ _ _ _ (only_child_t t2) Hfix) as [-> ->].
    destruct (efix0_only_child _ _ _ _ Hfix) as [E1 E2].
    rewrite addrs_plug, elems_plug, E1, E2, ER, addrs_plug, elems_plug.
    rewrite ctx_before_app, ctx_after_app, ctx_elems_before_app, ctx_elems_after_app.
    rewrite (lspine_before _ Hsp), (lspine_elems_before _ Hsp).
    cbn. by simplify_list_eq.
  - destruct (efix0 _ _) as [[k2 t2]|] eqn:Hfix; [|done]. intros [= <-].
    destruct (efix0_ctx_order _ _ _ _ (only_child_t t2) Hfix) as [-> ->].
    destruct (efix0_only_child _ _ _ _ Hfix) as [E1 E2].
    rewrite addrs_plug, elems_plug, E1, E2.
    destruct l as [|cl ll a kva lr]; [done|]. destruct r; [|done].
    cbn. by simplify_list_eq.
Qed.

(** *** Sorted trees *)

Variable comparing_function : K → K → bool.

Definition cmp_transitive : Prop :=
  ∀ a b c, comparing_function a b = true → comparing_function b c = true →
           comparing_function a c = true.

(** The pair [a] comes before the pair [b]. *)
Definition kv_lt (a b : K * V) : Prop := comparing_function a.1 b.1 = true.
(** Strictly ascending keys. *)
Definition ascending (l : list (K * V)) : Prop := StronglySorted kv_lt l.
Definition sorted t : Prop := ascending (elems t).

(** Neither key is less than the other. *)
Definition equiv_key (a b : K) : Prop :=
  comparing_function a b = false ∧ comparing_function b a = false.

Lemma ascending_insert (l1 l2 : list (K * V)) v :
  ascending (l1 ++ l2) → Forall (λ e, kv_lt e v) l1 → Forall (kv_lt v) l2 →
  ascending (l1 ++ v :: l2).
Proof.
  unfold ascending. rewrite !StronglySorted_app, StronglySorted_cons, !Forall_forall.
  intros (H12 & H1 & H2) Hb Ha. split_and!; try done.
  intros x1 x2 Hx1 [->|Hx2]%elem_of_cons; auto.
Qed.
Lemma ascending_delete (l1 l2 : list (K * V)) v : ascending (l1 ++ v :: l2) → ascending (l1 ++ l2).
Proof.
  unfold ascending. rewrite !StronglySorted_app, StronglySorted_cons.
  intros (H12 & H1 & _ & H2). split_and!; try done.
  intros x1 x2 Hx1 Hx2. apply H12; [done|]. by apply elem_of_cons; right.
Qed.

(** The descent of [__insert] keeps the key between the pairs before the
    hole and those after it. *)
Lemma locate_bounds key t k :
  cmp_transitive → sorted (plug k t) →
  Forall (λ e, comparing_function e.1 key = true) (ctx_elems_before k) →
  Forall (λ e, comparing_function key e.1 = true) (ctx_elems_after k) →
  match locate comparing_function key t k with
  | Found _ _ => True
  | Hole k' =>
      Forall (λ e, comparing_function e.1 key = true) (ctx_elems_before k') ∧
      Forall (λ e, comparing_function key e.1 = true) (ctx_elems_after k')
  end.
Proof.
  intros Htr. induction t as [|c l IHl x kv r IHr] in k |- *; intros Hs Hb Ha; simpl; [done|].
  destruct (negb _ && negb _) eqn:Heq; [done|].
  assert (Hin : Forall (λ e, kv_lt e kv) (elems l) ∧ Forall (kv_lt kv) (elems r)).
  { unfold sorted, ascending in Hs. rewrite elems_plug in Hs. simpl in Hs.
    apply StronglySorted_app_1_r, StronglySorted_app_1_l in Hs.
    apply StronglySorted_app in Hs as (H1 & _ & H2).
    apply StronglySorted_cons in H2 as [H2 _]. split; [|done].
    apply Forall_forall. intros e He. apply H1; [done|]. by apply elem_of_cons; left. }
  destruct Hin as [Hl Hr].
  destruct (comparing_function kv.1 key) eqn:Hw.
  - apply (IHr (Zip RIGHT c x kv l k)); [done| |done]. simpl.
    rewrite !Forall_app. split_and!; [done| |by repeat constructor].
    eapply Forall_impl; [exact Hl|]. intros e He. exact (Htr _ _ _ He Hw).
  - simpl in Heq. apply negb_false_iff in Heq.
    apply (IHl (Zip LEFT c x kv r k)); [done|done|]. simpl.
    constructor; [done|]. rewrite Forall_app. split; [|done].
    eapply Forall_impl; [exact Hr|]. intros e He. exact (Htr _ _ _ Heq He).
Qed.

(** A new pair attached where the descent stops keeps the tree sorted. *)
Lemma insert_sorted t k' a v t' :
  cmp_transitive → sorted t →
  locate comparing_function v.1 t Top = Hole k' →
  ifix k' (Node RED Leaf a v Leaf) = Some t' →
  sorted t'.
Proof.
  intros Htr Hs Hloc Hfix. unfold sorted.
  destruct (ifix_order _ _ _ Hfix) as [_ ->].
  pose proof (locate_plug comparing_function v.1 t Top) as Hp.
  pose proof (locate_bounds v.1 t Top Htr Hs) as Hb. rewrite Hloc in Hp, Hb.
  simpl in Hp. destruct Hb as [Hb Ha]; [by constructor..|].
  rewrite elems_plug. simpl. apply ascending_insert; [|done|done].
  unfold sorted in Hs. by rewrite <-Hp, elems_plug in Hs.
Qed.

(** Removal keeps the tree sorted. *)
Lemma terase_sorted k t t' :
  sorted (plug k t) → terase k t = Some t' → sorted t'.
Proof.
  destruct t as [|c l x kv r]; [done|]. intros Hs Her. unfold sorted in *.
  destruct (terase_order _ _ _ _ _ _ _ Her) as [_ ->].
  rewrite elems_plug in Hs. simpl in Hs. rewrite <-!app_assoc in Hs. simpl in Hs.
  rewrite !app_assoc in Hs. apply ascending_delete in Hs. by rewrite <-!app_assoc in Hs.
Qed.

(** *** Searching *)

Lemma locate_Found key t k k' t' :
  locate comparing_function key t k = Found k' t' →
  ∃ c l x kv r, t' = Node c l x kv r ∧ equiv_key kv.1 key.
Proof.
  induction t as [|c l IHl x kv r IHr] in k |- *; simpl; [done|].
  destruct (negb _ && negb _) eqn:Heq.
  - intros [= <- <-]. apply andb_true_iff in Heq as [?%negb_true_iff ?%negb_true_iff].
    by exists c, l, x, kv, r.
  - destruct (comparing_function kv.1 key); eauto.
Qed.

(** Where the descent reaches an empty position no key of the tree is
    equivalent to the one sought. *)
Lemma locate_Hole key t k' e :
  cmp_transitive → sorted t →
  locate comparing_function key t Top = Hole k' → e ∈ elems t →
  comparing_function e.1 key = true ∨ comparing_function key e.1 = true.
Proof.
  intros Htr Hs Hloc He.
  pose proof (locate_plug comparing_function key t Top) as Hp.
  pose proof (locate_bounds key t Top Htr Hs) as Hb. rewrite Hloc in Hp, Hb.
  simpl in Hp. destruct Hb as [Hb Ha]; [by constructor..|].
  rewrite <-Hp, elems_plug in He. simpl in He.
  rewrite Forall_forall in Hb, Ha.
  apply elem_of_app in He as [He|He]; auto.
Qed.

Lemma tfind_Some key t a kv :
  tfind comparing_function key t = Some (a, kv) →
  (a, kv) ∈ nodes t ∧ equiv_key key kv.1.
Proof.
  induction t as [|c l IHl x kv' r IHr]; simpl; [done|].
  destruct (comparing_function key kv'.1) eqn:E1.
  { intros [H ?]%IHl. split; [|done]. apply elem_of_app. by left. }
  destruct (comparing_function kv'.1 key) eqn:E2.
  { intros [H ?]%IHr. split; [|done]. apply elem_of_app. right. by apply elem_of_cons; right. }
  intros [= <- <-]. split; [|done]. apply elem_of_app. right. by apply elem_of_cons; left.
Qed.

Lemma tfind_None key t e :
  cmp_transitive → sorted t → tfind comparing_function key t = None → e ∈ elems t →
  comparing_function key e.1 = true ∨ comparing_function e.1 key = true.
Proof.
  intros Htr. induction t as [|c l IHl x kv r IHr]; simpl; [by intros _ _ ?%elem_of_nil|].
  intros Hs Hf He. unfold sorted, ascending in Hs. simpl in Hs.
  apply StronglySorted_app in Hs as (H1 & Hsl & H2).
  apply StronglySorted_cons in H2 as [H2 Hsr]. rewrite Forall_forall in H2.
  apply elem_of_app in He as [He|He]; [|apply elem_of_cons in He as [->|He]].
  - destruct (comparing_function key kv.1) eqn:E1; [by apply IHl|].
    destruct (comparing_function kv.1 key) eqn:E2; [|done].
    right. eapply Htr; [|exact E2]. apply H1; [done|]. by apply elem_of_cons; left.
  - destruct (comparing_function key kv.1) eqn:E1; [by left|].
    destruct (comparing_function kv.1 key) eqn:E2; [by right|done].
  - destruct (comparing_function key kv.1) eqn:E1.
    { left. eapply Htr; [exact E1|]. by apply H2. }
    destruct (comparing_function kv.1 key) eqn:E2; [by apply IHr|done].
Qed.

End order.
(** ** [clear]: the nodes are deleted along the list *)

Section clear.
Context {K V : Type}.
Implicit Types (h : gmap addr (rbt_node K V)).

Local Open Scope m_scope.

Lemma load_agree {A} (f : rbt_node K V → A) a h h' :
  h' !! a = h !! a → load f (Some a) h' = load f (Some a) h.
Proof. unfold load. simpl. by intros ->. Qed.

(** The [next] pointers lead from [cur] through [xs] to [tl]. *)
Fixpoint chain h (cur : ptr) (xs : list addr) (tl : addr) : Prop :=
  match xs with
  | [] => cur = Some tl
  | x :: xs => cur = Some x ∧ ∃ n, load next (Some x) h = Some n ∧ chain h n xs tl
  end.

Lemma dll_chain h a xs b :
  dll h a xs b → ∃ n, load next (Some a) h = Some n ∧ chain h n xs b.
Proof.
  revert a; induction xs as [|x xs IH]; intros a; simpl.
  - intros [Hn _]. eauto.
  - intros [[Hn _] Hd]. exists (Some x). split; [done|]. split; [done|]. by apply IH.
Qed.

Lemma chain_delete h n xs tl x : chain h n xs tl → x ∉ xs → chain (delete x h) n xs tl.
Proof.
  revert n; induction xs as [|y xs IH]; intros n; simpl; [done|].
  intros (-> & n' & Hn & Hc) Hx. split; [done|]. exists n'. split; [|apply IH; set_solver].
  rewrite load_delete_ne; [done|]. intros [= ->]. set_solver.
Qed.

Lemma clear_loop_ok fuel h cur xs tl hd r n :
  chain h cur xs tl → NoDup (tl :: xs) → length xs < fuel →
  ∃ h', clear_loop fuel cur (mk_state h hd (Some tl) r n)
          = Some (tt, mk_state h' hd (Some tl) r n) ∧
        (∀ b, b ∈ xs → h' !! b = None) ∧ (∀ b, b ∉ xs → h' !! b = h !! b).
Proof.
  revert h cur fuel. induction xs as [|x xs IH]; intros h cur fuel Hc Hnd Hlen.
  - simpl in Hc. subst cur. destruct fuel; [simpl in Hlen; lia|].
    exists h. split; [|split; [by intros b ?%elem_of_nil|done]].
    cbn [clear_loop]. rewrite bind_get_tail. st_simpl. by rewrite ptr_eqb_refl.
  - destruct Hc as (-> & n' & Hn & Hc). destruct fuel; [simpl in Hlen; lia|].
    apply NoDup_cons in Hnd as [Htl Hnd]. apply NoDup_cons in Hnd as [Hx Hnd].
    destruct (IH (delete x h) n' fuel) as (h' & Hrun & Hdel & Hkeep).
    { by apply chain_delete. }
    { apply NoDup_cons. split; [set_solver|done]. }
    { simpl in Hlen. lia. }
    exists h'. split; [|split].
    + cbn [clear_loop]. rewrite bind_get_tail. st_simpl.
      rewrite ptr_eqb_ne by (intros [= ->]; set_solver).
      erewrite bind_rd by exact Hn.
      unfold bind at 1, delete_node. st_simpl.
      apply load_Some in Hn as (nd & -> & _). st_simpl. exact Hrun.
    + intros b [->|Hb]%elem_of_cons; [|by apply Hdel].
      rewrite Hkeep by done. apply lookup_delete_eq.
    + intros b Hb. rewrite Hkeep by set_solver. apply lookup_delete_ne. set_solver.
Qed.

(** [clear()] leaves the empty container and frees the nodes. *)
Lemma clear_body_spec fuel hd tl h r (t : tree K V) n :
  Shape hd tl h r t → length (addrs t) < fuel →
  ∃ h',
    clear_body fuel (mk_state h (Some hd) (Some tl) r n)
      = Some (tt, mk_state h' (Some hd) (Some tl) None 0) ∧
    Shape hd tl h' None Leaf ∧
    frame_on (hd :: tl :: addrs t) h h' ∧
    (∀ b, b ∈ addrs t → h' !! b = None).
Proof.
  intros HS Hlen. pose proof (Shape_alloc _ _ _ _ _ hd HS ltac:(set_solver)) as Hah.
  pose proof (Shape_alloc _ _ _ _ _ tl HS ltac:(set_solver)) as Hat.
  destruct HS as (Hnd & Hvh & Hvt & _ & _ & Hd).
  destruct (dll_chain _ _ _ _ Hd) as (first & Hfirst & Hc).
  apply NoDup_cons in Hnd as [Hhd Hnd].
  destruct (clear_loop_ok fuel h first (addrs t) tl (Some hd) r 0 Hc Hnd Hlen)
    as (h1 & Hrun & Hdel & Hkeep).
  assert (Hh1 : h1 !! hd = h !! hd) by (apply Hkeep; set_solver).
  assert (Ht1 : h1 !! tl = h !! tl).
  { apply Hkeep. by apply NoDup_cons in Hnd as [? _]. }
  assert (hd ≠ tl) by set_solver.
  assert (Htl : tl ∉ addrs t) by (by apply NoDup_cons in Hnd as [? _]).
  exists (alter (set_prev (Some hd)) tl (alter (set_next (Some tl)) hd h1)).
  split; [|split; [|split]].
  - unfold clear_body. rewrite bind_set_size, bind_get_head. st_simpl.
    erewrite bind_rd by exact Hfirst.
    erewrite bind_ok by exact Hrun.
    rewrite bind_get_head, bind_get_tail. st_simpl.
    rewrite bind_wr by (st_simpl; by rewrite Hh1). st_simpl.
    rewrite bind_wr by (st_simpl; by rewrite alter_is_Some, Ht1). done.
  - split_and!.
    + cbn [addrs]. apply NoDup_cons. split; [set_solver|]. apply NoDup_singleton.
    + rewrite load_alter_ne by congruence. rewrite load_alter_indep by done.
      by rewrite (load_agree _ _ _ _ Hh1).
    + rewrite load_alter_indep by done. rewrite load_alter_ne by congruence.
      by rewrite (load_agree _ _ _ _ Ht1).
    + done.
    + done.
    + cbn [addrs dll]. split.
      * rewrite load_alter_ne by congruence. apply load_alter_same; [done|by rewrite Hh1].
      * apply load_alter_same; [done|]. by rewrite alter_is_Some, Ht1.
  - intros b Hb. rewrite !lookup_alter_ne by set_solver. apply Hkeep. set_solver.
  - intros b Hb. rewrite !lookup_alter_ne by (intros ->; set_solver). by apply Hdel.
Qed.

End clear.

(** ** The cloning constructor *)

Section clone.
Context {K V : Type}.
Implicit Types (h : gmap addr (rbt_node K V)) (t l : tree K V) (r : ptr).

Local Open Scope m_scope.

Lemma dll_frame2 h h' a xs b :
  dll h a xs b →
  (∀ z, z ∈ a :: xs → load next (Some z) h' = load next (Some z) h) →
  (∀ z, z ∈ b :: xs → load prev (Some z) h' = load prev (Some z) h) →
  dll h' a xs b.
Proof.
  revert a; induction xs as [|x xs IH]; intros a; simpl.
  - intros [H1 H2] Hn Hp. split.
    + rewrite Hn; [done|set_solver].
    + rewrite Hp; [done|set_solver].
  - intros [[H1 H2] Hd] Hn Hp. split; [split|].
    + rewrite Hn; [done|set_solver].
    + rewrite Hp; [done|set_solver].
    + apply IH; [done| |]; intros z Hz; [apply Hn|apply Hp]; set_solver.
Qed.

Lemma tree_ok_same h h' t :
  tree_ok h t → (∀ a, a ∈ addrs t → same_node h h' a) → tree_ok h' t.
Proof.
  induction t as [|c l IHl x kv r IHr]; [done|]. simpl.
  intros (Hc & Hv & Hl & Hr & Hul & Hur & Htl & Htr) Hs.
  destruct (Hs x) as [(-> & -> & -> & ->) _]; [set_solver|].
  split_and!; try done.
  - eapply uplink_frame; [done|]. intros a Ha. apply Hs.
    apply root_of_addrs in Ha. set_solver.
  - eapply uplink_frame; [done|]. intros a Ha. apply Hs.
    apply root_of_addrs in Ha. set_solver.
  - apply IHl; [done|]. intros a Ha. apply Hs. set_solver.
  - apply IHr; [done|]. intros a Ha. apply Hs. set_solver.
Qed.

(** What a clone between [pv] and [nx] does to the nodes there were:
    it sets [pv->next] and [nx->prev]. *)
Definition clone_frame h h' (pv nx : addr) : Prop :=
  (∀ b, is_Some (h !! b) → b ≠ pv → b ≠ nx → h' !! b = h !! b) ∧
  (∃ p, h' !! pv = set_next p <$> h !! pv) ∧
  (∃ q, h' !! nx = set_prev q <$> h !! nx).

Lemma clone_frame_refl h pv nx : clone_frame h h pv nx.
Proof.
  split; [done|]. split.
  - destruct (h !! pv) as [n|] eqn:E; [|by exists None].
    exists (next n). simpl. by destruct n.
  - destruct (h !! nx) as [n|] eqn:E; [|by exists None].
    exists (prev n). simpl. by destruct n.
Qed.

Lemma clone_frame_alloc h h' pv nx b :
  clone_frame h h' pv nx → is_Some (h !! b) → is_Some (h' !! b).
Proof.
  intros (Ho & [p Hp] & [q Hq]) Hb.
  destruct (decide (b = pv)) as [->|]; [rewrite Hp; by apply fmap_is_Some|].
  destruct (decide (b = nx)) as [->|]; [rewrite Hq; by apply fmap_is_Some|].
  by rewrite Ho.
Qed.

Lemma clone_frame_load {A} (f : rbt_node K V → A) h h' pv nx b :
  clone_frame h h' pv nx →
  (∀ p n, f (set_next p n) = f n) ∨ b ≠ pv →
  (∀ p n, f (set_prev p n) = f n) ∨ b ≠ nx →
  is_Some (h !! b) →
  load f (Some b) h' = load f (Some b) h.
Proof.
  intros (Ho & [p Hp] & [q Hq]) H1 H2 Hb. unfold load. simpl.
  destruct (decide (b = pv)) as [->|Hn1].
  { destruct H1 as [H1|]; [|done]. rewrite Hp. destruct (h !! pv); simpl; [|done].
    by rewrite H1. }
  destruct (decide (b = nx)) as [->|Hn2].
  { destruct H2 as [H2|]; [|done]. rewrite Hq. destruct (h !! nx); simpl; [|done].
    by rewrite H2. }
  by rewrite Ho.
Qed.

Lemma clone_frame_same_node h h' pv nx b :
  clone_frame h h' pv nx → is_Some (h !! b) → same_node h h' b.
Proof.
  intros Hf Hb. unfold same_node, same_body, same_up.
  split_and!; apply (clone_frame_load _ _ _ _ _ _ Hf); auto.
Qed.

Lemma clone_frame_tree h h' pv nx t :
  clone_frame h h' pv nx → tree_ok h t → tree_ok h' t.
Proof.
  intros Hf Ht. apply tree_ok_same with h; [done|]. intros a Ha.
  eapply clone_frame_same_node; [done|]. by eapply tree_ok_alloc.
Qed.

Lemma set_next_set_next p q (n : rbt_node K V) : set_next p (set_next q n) = set_next p n.
Proof. done. Qed.
Lemma set_prev_set_prev p q (n : rbt_node K V) : set_prev p (set_prev q n) = set_prev p n.
Proof. done. Qed.

Lemma clone_frame_init h a n0 pv nx :
  h !! a = None → is_Some (h !! pv) → is_Some (h !! nx) → pv ≠ nx →
  clone_frame h (alter (set_next (Some a)) pv (alter (set_prev (Some a)) nx (<[a := n0]> h)))
    pv nx.
Proof.
  intros Ha [np Hp] [nn Hn] Hne.
  assert (pv ≠ a) by congruence. assert (nx ≠ a) by congruence.
  split; [|split].
  - intros b [nb Hb] H1 H2. rewrite !lookup_alter_ne by done.
    apply lookup_insert_ne. congruence.
  - exists (Some a). rewrite lookup_alter_eq, lookup_alter_ne by done.
    by rewrite lookup_insert_ne by done.
  - exists (Some a). rewrite lookup_alter_ne, lookup_alter_eq by done.
    by rewrite lookup_insert_ne by done.
Qed.

(** The clone of a left subtree: between [pv] and the new node [a]. *)
Lemma clone_frame_trans_l h h1 h2 pv a nx :
  clone_frame h h1 pv nx → clone_frame h1 h2 pv a →
  h !! a = None → is_Some (h !! nx) → pv ≠ nx →
  clone_frame h h2 pv nx.
Proof.
  intros (Ho1 & [p1 Hp1] & [q1 Hq1]) (Ho2 & [p2 Hp2] & _) Ha Hnx Hne.
  assert (nx ≠ a) by (intros ->; rewrite Ha in Hnx; by destruct Hnx).
  split; [|split].
  - intros b Hb H1 H2. rewrite Ho2, Ho1; try done.
    + rewrite Ho1 by done. done.
    + intros ->. rewrite Ha in Hb. by destruct Hb.
  - exists p2. rewrite Hp2, Hp1. destruct (h !! pv); [|done]. done.
  - exists q1. rewrite Ho2; [done| |congruence|done].
    rewrite Hq1. by apply fmap_is_Some.
Qed.

(** The clone of a right subtree: between the new node [a] and [nx]. *)
Lemma clone_frame_trans_r h h1 h2 pv a nx :
  clone_frame h h1 pv nx → clone_frame h1 h2 a nx →
  h !! a = None → is_Some (h !! pv) → pv ≠ nx →
  clone_frame h h2 pv nx.
Proof.
  intros (Ho1 & [p1 Hp1] & [q1 Hq1]) (Ho2 & _ & [q2 Hq2]) Ha Hpv Hne.
  assert (pv ≠ a) by (intros ->; rewrite Ha in Hpv; by destruct Hpv).
  split; [|split].
  - intros b Hb H1 H2. rewrite Ho2, Ho1; try done.
    + rewrite Ho1 by done. done.
    + intros ->. rewrite Ha in Hb. by destruct Hb.
  - exists p1. rewrite Ho2; [done| |done|done].
    rewrite Hp1. by apply fmap_is_Some.
  - exists q2. rewrite Hq2, Hq1. destruct (h !! nx); [|done]. done.
Qed.

Lemma clone_frame_alter h h1 pv nx g a :
  clone_frame h h1 pv nx → h !! a = None → is_Some (h !! pv) → is_Some (h !! nx) →
  clone_frame h (alter g a h1) pv nx.
Proof.
  intros (Ho & Hp & Hq) Ha Hpv Hnx.
  assert (pv ≠ a) by (intros ->; rewrite Ha in Hpv; by destruct Hpv).
  assert (nx ≠ a) by (intros ->; rewrite Ha in Hnx; by destruct Hnx).
  split; [|split].
  - intros b Hb H1 H2. rewrite lookup_alter_ne; [by apply Ho|].
    intros ->. rewrite Ha in Hb. by destruct Hb.
  - by rewrite lookup_alter_ne by done.
  - by rewrite lookup_alter_ne by done.
Qed.

Lemma tree_ok_alter_ne h t g a : tree_ok h t → a ∉ addrs t → tree_ok (alter g a h) t.
Proof.
  intros Ht Ha. apply tree_ok_same with h; [done|]. intros b Hb.
  assert (Some b ≠ Some a) by (intros [= ->]; done).
  unfold same_node, same_body, same_up. by rewrite !load_alter_ne by done.
Qed.

(** The result of a clone of [t] between [pv] and [nx] under the father
    [f]. *)
Definition cloned h h' t t' (f : ptr) (pv nx : addr) : Prop :=
  same_shape t t' ∧ elems t' = elems t ∧
  NoDup (addrs t') ∧ (∀ b, b ∈ addrs t' → h !! b = None) ∧
  tree_ok h' t' ∧
  (∀ a o, root_of t' = Some a → root_of t = Some o →
     load father (Some a) h' = Some f ∧ load which (Some a) h' = load which (Some o) h) ∧
  dll h' pv (addrs t') nx ∧ clone_frame h h' pv nx ∧
  (∀ b, is_Some (h' !! b) → is_Some (h !! b) ∨ b ∈ addrs t').

(** One of the two tests on the children of [other]. *)
Definition clone_branch (fuel : nat) (w : which_e) (o this pv nx : ptr) : M K V unit :=
  if o is Some _ then let* c := clone fuel o this pv nx in wr (set_child w c) this
  else wr (set_child w None) this.

Definition clone_ok (fuel : nat) t : Prop :=
  ∀ h f pv nx hd tl r n o,
    tree_ok h t → root_of t = Some o → link h pv nx → pv ≠ nx →
    ∃ t' h' a,
      clone fuel (Some o) f (Some pv) (Some nx) (mk_state h hd tl r n)
        = Some (Some a, mk_state h' hd tl r n) ∧
      root_of t' = Some a ∧ cloned h h' t t' f pv nx.

Lemma link_alloc h a b : link h a b → is_Some (h !! a) ∧ is_Some (h !! b).
Proof. intros [H1 H2]. split; by eapply load_alloc. Qed.

Lemma clone_branch_spec fuel w t h this pv nx hd tl r n :
  (t ≠ Leaf → clone_ok fuel t) →
  tree_ok h t → link h pv nx → pv ≠ nx → is_Some (h !! this) →
  ∃ t' h',
    clone_branch fuel w (root_of t) (Some this) (Some pv) (Some nx) (mk_state h hd tl r n)
      = Some (tt, mk_state (alter (set_child w (root_of t')) this h') hd tl r n) ∧
    cloned h h' t t' (Some this) pv nx.
Proof.
  intros IH Ht Hl Hne Hthis. destruct t as [|c l o kv rr].
  - exists Leaf, h. split.
    + cbn [clone_branch root_of]. by rewrite wr_ok by done.
    + split_and!; try done;
        [apply NoDup_nil_2|by intros b ?%elem_of_nil|apply clone_frame_refl|by left].
  - destruct (IH ltac:(done) h (Some this) pv nx hd tl r n o Ht eq_refl Hl Hne)
      as (t' & h' & a & Hrun & Hroot & Hcl).
    exists t', h'. split; [|done].
    cbn [clone_branch root_of]. erewrite bind_ok by exact Hrun.
    rewrite Hroot. rewrite wr_ok; [done|]. st_simpl.
    destruct Hcl as (_ & _ & _ & _ & _ & _ & _ & Hfr & _).
    by eapply clone_frame_alloc.
Qed.

Lemma clone_unfold fuel other f pv nx :
  clone (K:=K) (V:=V) (S fuel) other f pv nx =
    (let* ow := rd which other in
     let* oc := rd color other in
     let* ov := rd value other in
     let* ov := (if ov is Some kv then ret (Some kv) else fault) in
     let* this := new_node (mk_node pv nx f None None ow oc ov) in
     wr (set_prev this) nx >>
     wr (set_next this) pv >>
     let* ol := rd (child LEFT) other in
     clone_branch fuel LEFT ol this pv this >>
     let* or := rd (child RIGHT) other in
     clone_branch fuel RIGHT or this this nx >>
     ret this).
Proof. reflexivity. Qed.

Lemma clone_spec fuel t : length (addrs t) ≤ fuel → clone_ok fuel t.
Proof.
  revert fuel. induction t as [|c l IHl o kv rr IHr]; intros fuel Hlen; [by intros ? ? ? ? ? ? ? ? ? ? ?|].
  intros h f pv nx hd tl r n o' Ht [= <-] Hl Hne.
  simpl in Hlen. rewrite length_app in Hlen. simpl in Hlen.
  destruct fuel as [|fuel]; [lia|].
  destruct Ht as (Hc & Hv & Hcl & Hcr & Hul & Hur & Htl & Htr).
  destruct (link_alloc _ _ _ Hl) as [Hpv Hnx].
  assert (Ho : is_Some (h !! o)) by (by eapply load_alloc).
  destruct (load which (Some o) h) as [ow|] eqn:How.
  2: { destruct Ho as [nd Hnd]. unfold load in How. simpl in How. by rewrite Hnd in How. }
  set (a := alloc h).
  assert (Ha : h !! a = None) by apply alloc_fresh.
  assert (Hapv : pv ≠ a) by (intros ->; rewrite Ha in Hpv; by destruct Hpv).
  assert (Hanx : nx ≠ a) by (intros ->; rewrite Ha in Hnx; by destruct Hnx).
  set (n0 := mk_node (Some pv) (Some nx) f None None ow c (Some kv)).
  set (h1 := alter (set_next (Some a)) pv (alter (set_prev (Some a)) nx (<[a := n0]> h))).
  assert (CF1 : clone_frame h h1 pv nx) by (by apply clone_frame_init).
  assert (Ha1 : is_Some (h1 !! a)).
  { unfold h1. rewrite !lookup_alter_ne by done. by rewrite lookup_insert_eq. }
  assert (Hl1 : link h1 pv a).
  { unfold h1, link. split.
    - apply load_alter_same; [done|]. rewrite lookup_alter_ne by done.
      by rewrite lookup_insert_ne by done.
    - rewrite !load_alter_ne by congruence. by rewrite load_insert_same. }
  (* the left subtree *)
  destruct (clone_branch_spec fuel LEFT l h1 a pv a hd tl r n) as (l' & h2 & Hrun2 & Hcl2);
    [intros _; apply IHl; lia|by eapply clone_frame_tree|done|done|done|].
  destruct Hcl2 as (Hsh2 & He2 & Hnd2 & Hfresh2 & Hok2 & Hroot2 & Hd2 & CF2 & Hdom2).
  set (h2' := alter (set_child LEFT (root_of l')) a h2) in *.
  assert (Ha2 : is_Some (h2 !! a)) by (by eapply clone_frame_alloc).
  assert (CFh2 : clone_frame h h2' pv nx).
  { apply clone_frame_alter; try done. by eapply clone_frame_trans_l. }
  assert (Hl' : ∀ b, b ∈ addrs l' → b ≠ a ∧ b ≠ pv ∧ b ≠ nx ∧ is_Some (h2 !! b)).
  { intros b Hb. pose proof (Hfresh2 b Hb) as Hb1. split_and!.
    - intros ->. rewrite Hb1 in Ha1. by destruct Ha1.
    - intros ->. apply (clone_frame_alloc _ _ _ _ _ CF1) in Hpv. rewrite Hb1 in Hpv.
      by destruct Hpv.
    - intros ->. apply (clone_frame_alloc _ _ _ _ _ CF1) in Hnx. rewrite Hb1 in Hnx.
      by destruct Hnx.
    - by eapply tree_ok_alloc. }
  assert (Hl2 : link h2' a nx).
  { unfold h2', link. split.
    - rewrite load_alter_indep by (by intros []).
      rewrite (clone_frame_load next h1 h2 pv a a CF2); [|by right|by left|done].
      unfold h1. rewrite !load_alter_ne by congruence. by rewrite load_insert_same.
    - rewrite load_alter_ne by congruence.
      rewrite (clone_frame_load prev h1 h2 pv a nx CF2); [|by left|by right|].
      + unfold h1. rewrite load_alter_ne by congruence.
        apply load_alter_same; [done|]. by rewrite lookup_insert_ne by done.
      + by eapply clone_frame_alloc. }
  (* the right subtree *)
  destruct (clone_branch_spec fuel RIGHT rr h2' a a nx hd tl r n) as (r' & h3 & Hrun3 & Hcl3);
    [intros _; apply IHr; lia|by eapply clone_frame_tree|done|done
    |by unfold h2'; rewrite alter_is_Some|].
  destruct Hcl3 as (Hsh3 & He3 & Hnd3 & Hfresh3 & Hok3 & Hroot3 & Hd3 & CF3 & Hdom3).
  set (h3' := alter (set_child RIGHT (root_of r')) a h3) in *.
  assert (Hr' : ∀ b, b ∈ addrs r' → b ≠ a ∧ b ≠ pv ∧ b ≠ nx ∧ b ∉ addrs l' ∧ is_Some (h3 !! b)).
  { intros b Hb. pose proof (Hfresh3 b Hb) as Hb1.
    assert (∀ z, is_Some (h2' !! z) → b ≠ z) as Hne'.
    { intros z Hz ->. rewrite Hb1 in Hz. by destruct Hz. }
    split_and!.
    - apply Hne'. by unfold h2'; rewrite alter_is_Some.
    - apply Hne'. by eapply clone_frame_alloc.
    - apply Hne'. by eapply clone_frame_alloc.
    - intros Hbl. apply (Hne' b); [|done]. unfold h2'. rewrite alter_is_Some.
      by apply Hl'.
    - by eapply tree_ok_alloc. }
  exists (Node c l' a kv r'), h3', a. split; [|split; [done|]].
  - rewrite clone_unfold.
    erewrite bind_rd by (st_simpl; exact How).
    erewrite bind_rd by (st_simpl; exact Hc).
    erewrite bind_rd by (st_simpl; exact Hv). cbv beta iota.
    rewrite bind_ret, bind_new_node. st_simpl. fold a n0.
    rewrite bind_wr by (st_simpl; by rewrite lookup_insert_ne by done). st_simpl.
    rewrite bind_wr
      by (st_simpl; rewrite lookup_alter_ne by done; by rewrite lookup_insert_ne by done).
    st_simpl. fold h1.
    erewrite bind_rd
      by (st_simpl; rewrite (clone_frame_load _ _ _ _ _ o CF1); [exact Hcl|by left|by left|done]).
    erewrite bind_ok by exact Hrun2. fold h2'.
    erewrite bind_rd
      by (st_simpl; rewrite (clone_frame_load _ _ _ _ _ o CFh2); [exact Hcr|by left|by left|done]).
    erewrite bind_ok by exact Hrun3. done.
  - assert (Ha3 : is_Some (h3 !! a)).
    { eapply clone_frame_alloc; [exact CF3|]. by unfold h2'; rewrite alter_is_Some. }
    assert (Hla : ∀ A (g : rbt_node K V → A),
              (∀ p nd, g (set_next p nd) = g nd) → (∀ p nd, g (set_prev p nd) = g nd) →
              (∀ w p nd, g (set_child w p nd) = g nd) →
              load g (Some a) h3' = Some (g n0)).
    { intros A g G1 G2 G3. unfold h3'. rewrite load_alter_indep by apply G3.
      rewrite (clone_frame_load g _ _ _ _ a CF3); [|by left|by right|].
      2: { by unfold h2'; rewrite alter_is_Some. }
      unfold h2'. rewrite load_alter_indep by apply G3.
      rewrite (clone_frame_load g _ _ _ _ a CF2); [|by right|by left|done].
      unfold h1. rewrite !load_alter_ne by congruence. by rewrite load_insert_same. }
    assert (Hkl : ∀ A (g : rbt_node K V → A) b, b ∈ addrs l' →
              load g (Some b) h3' = load g (Some b) h2).
    { intros A g b Hb. destruct (Hl' b Hb) as (Hb1 & Hb2 & Hb3 & Hb4).
      unfold h3'. rewrite load_alter_ne by congruence.
      destruct CF3 as (Ho3 & _). rewrite (load_agree g b h2' h3).
      - unfold h2'. by rewrite load_alter_ne by congruence.
      - apply Ho3; [|done|done]. by unfold h2'; rewrite alter_is_Some. }
    assert (Hkr : ∀ A (g : rbt_node K V → A) b, b ∈ addrs r' →
              load g (Some b) h3' = load g (Some b) h3).
    { intros A g b Hb. destruct (Hr' b Hb) as (Hb1 & _).
      unfold h3'. by rewrite load_alter_ne by congruence. }
    assert (Hpv3 : load next (Some pv) h3' = load next (Some pv) h2).
    { unfold h3'. rewrite load_alter_ne by congruence.
      destruct CF3 as (Ho3 & _). rewrite (load_agree next pv h2' h3).
      - unfold h2'. by rewrite load_alter_ne by congruence.
      - apply Ho3; [|done|done]. unfold h2'. rewrite alter_is_Some.
        eapply clone_frame_alloc; [exact CF2|]. by eapply clone_frame_alloc. }
    assert (Hap3 : load prev (Some a) h3' = load prev (Some a) h2).
    { unfold h3'. rewrite load_alter_indep by (by intros []).
      rewrite (clone_frame_load prev _ _ _ _ a CF3); [|by left|by right|].
      2: { by unfold h2'; rewrite alter_is_Some. }
      unfold h2'. by rewrite load_alter_indep by (by intros []). }
    split_and!.
    + simpl. done.
    + simpl. by rewrite He2, He3.
    + simpl. apply NoDup_app. split_and!; [done| |].
      * intros b Hb [->|Hb']%elem_of_cons.
        -- by destruct (Hl' a Hb) as (? & _).
        -- by destruct (Hr' b Hb') as (_ & _ & _ & ? & _).
      * apply NoDup_cons. split; [|done]. intros Hb. by destruct (Hr' a Hb) as (? & _).
    + simpl. intros b [Hb|[->|Hb]%elem_of_cons]%elem_of_app.
      * apply Hfresh2 in Hb. destruct (h !! b) eqn:E; [|done].
        assert (is_Some (h1 !! b)) as [? ?]
          by (eapply clone_frame_alloc; [exact CF1|by rewrite E]). congruence.
      * done.
      * apply Hfresh3 in Hb. destruct (h !! b) eqn:E; [|done].
        assert (is_Some (h2' !! b)) as [? ?]
          by (eapply clone_frame_alloc; [exact CFh2|by rewrite E]). congruence.
    + simpl. split_and!.
      * apply (Hla _ color); [done|done|by intros []].
      * apply (Hla _ value); [done|done|by intros []].
      * unfold h3'. rewrite load_alter_indep by (by intros []).
        rewrite (clone_frame_load (child LEFT) _ _ _ _ a CF3); [|by left|by left|].
        2: { by unfold h2'; rewrite alter_is_Some. }
        unfold h2'. by apply load_alter_same.
      * unfold h3'. by apply load_alter_same.
      * destruct (root_of l') as [b|] eqn:Eb; [|done].
        assert (Hbl : b ∈ addrs l') by (by apply root_of_addrs).
        destruct l as [|cl ll ol kvl lr]; [by destruct l'|].
        destruct (Hroot2 b ol eq_refl eq_refl) as [Hf Hw].
        destruct Hul as [_ Hul].
        split; rewrite Hkl by done; [done|].
        rewrite Hw. rewrite (clone_frame_load which _ _ _ _ ol CF1); [done|by left|by left|].
        by eapply load_alloc.
      * destruct (root_of r') as [b|] eqn:Eb; [|done].
        assert (Hbr : b ∈ addrs r') by (by apply root_of_addrs).
        destruct rr as [|cr rl or kvr rrr]; [by destruct r'|].
        destruct (Hroot3 b or eq_refl eq_refl) as [Hf Hw].
        destruct Hur as [_ Hur].
        split; rewrite Hkr by done; [done|].
        rewrite Hw. rewrite (clone_frame_load which _ _ _ _ or CFh2); [done|by left|by left|].
        by eapply load_alloc.
      * apply tree_ok_same with h2; [done|]. intros b Hb.
        unfold same_node, same_body, same_up. by rewrite !Hkl by done.
      * apply tree_ok_same with h3; [done|]. intros b Hb.
        unfold same_node, same_body, same_up. by rewrite !Hkr by done.
    + intros a' o' [= <-] [= <-]. split.
      * apply (Hla _ father); [done|done|by intros []].
      * rewrite How. apply (Hla _ which); [done|done|by intros []].
    + simpl. apply dll_app. split.
      * apply dll_frame2 with h2; [done| |].
        -- intros z [->|Hz]%elem_of_cons; [done|]. by apply Hkl.
        -- intros z [->|Hz]%elem_of_cons; [done|]. by apply Hkl.
      * apply dll_frame2 with h3; [done| |].
        -- intros z [->|Hz]%elem_of_cons; [|by apply Hkr].
           unfold h3'. by rewrite load_alter_indep by (by intros []).
        -- intros z [->|Hz]%elem_of_cons; [|by apply Hkr].
           unfold h3'. by rewrite load_alter_ne by congruence.
    + apply clone_frame_alter; try done. by eapply clone_frame_trans_r.
    + intros b Hb. unfold h3' in Hb. rewrite alter_is_Some in Hb.
      destruct (Hdom3 b Hb) as [Hb2|Hb2]; [|simpl; set_solver].
      unfold h2' in Hb2. rewrite alter_is_Some in Hb2.
      destruct (Hdom2 b Hb2) as [Hb1|Hb1]; [|simpl; set_solver].
      unfold h1 in Hb1. rewrite !alter_is_Some in Hb1.
      destruct (decide (b = a)) as [->|Hba]; [simpl; set_solver|].
      left. by rewrite lookup_insert_ne in Hb1.
Qed.

End clone.

(** ** Containers in a world

    Every container of a world owns its sentinels and the nodes of its
    tree; the footprints of different containers are disjoint. *)

Arguments budget : simpl never.

Section world.
Context {K V : Type}.
Variable comparing_function : K → K → bool.
Variable default_V : V.
Implicit Types (h : gmap addr (rbt_node K V)) (t : tree K V) (k : ctx K V).
Implicit Types (w : world K V) (m : map_obj) (T : gmap addr (tree K V)).

Local Open Scope m_scope.

Lemma alloc_size h (l : list addr) :
  NoDup l → (∀ a, a ∈ l → is_Some (h !! a)) → length l ≤ base.size h.
Proof.
  intros Hnd Hal. rewrite <-(size_list_to_set (C:=gset addr) l Hnd).
  rewrite <-(size_dom (D:=gset addr)). apply subseteq_size.
  intros a Ha%elem_of_list_to_set. by apply elem_of_dom, Hal.
Qed.

Lemma Shape_budget hd tl h r t : Shape hd tl h r t → length (addrs t) + 2 ≤ base.size h.
Proof.
  intros HS. pose proof HS as (Hnd & _).
  pose proof (alloc_size h _ Hnd (λ a, Shape_alloc _ _ _ _ _ a HS)). simpl in *. lia.
Qed.

Lemma Shape_frame hd tl h h' r t :
  Shape hd tl h r t → (∀ a, a ∈ hd :: tl :: addrs t → h' !! a = h !! a) →
  Shape hd tl h' r t.
Proof.
  intros (Hnd & Hh & Ht & Hr & [Hok Hup] & Hd) Hag.
  assert (Hl : ∀ {A} (f : rbt_node K V → A) a, a ∈ hd :: tl :: addrs t →
            load f (Some a) h' = load f (Some a) h).
  { intros A f a Ha. by apply load_agree, Hag. }
  split_and!; try done.
  - rewrite Hl; [done|set_solver].
  - rewrite Hl; [done|set_solver].
  - split.
    + apply tree_ok_frame with h; [done| | |].
      * intros a Ha. unfold same_body. rewrite !Hl by set_solver. done.
      * intros a Ha _. unfold same_up. rewrite !Hl by set_solver. done.
      * by apply NoDup_cons in Hnd as [_ [_ ?]%NoDup_cons].
    + destruct (root_of t) as [a|] eqn:Ea; [|done]. simpl in *.
      rewrite Hl; [done|]. apply root_of_addrs in Ea. set_solver.
  - apply dll_frame with h; [done|]. intros z Hz. unfold same_links.
    rewrite !Hl by set_solver. done.
Qed.

(** The heap represents the container [m] with tree [t]. *)
Definition map_ok h m t : Prop :=
  ∃ hd tl, m_head m = Some hd ∧ m_tail m = Some tl ∧
    Shape hd tl h (m_root m) t ∧ m_size m = length (addrs t) ∧ is_rb t.

(** The addresses a container owns. *)
Definition fp m t : list addr :=
  option_list (m_head m) ++ option_list (m_tail m) ++ addrs t.

Definition wf w T : Prop :=
  (∀ i, match w_maps w !! i with
        | Some m => ∃ t, T !! i = Some t ∧ map_ok (w_heap w) m t
        | None => T !! i = None
        end) ∧
  (∀ i j m m' t t', i ≠ j →
     w_maps w !! i = Some m → w_maps w !! j = Some m' →
     T !! i = Some t → T !! j = Some t' →
     ∀ a, a ∈ fp m t → a ∉ fp m' t').

Lemma wf_lookup w T i m :
  wf w T → w_maps w !! i = Some m → ∃ t, T !! i = Some t ∧ map_ok (w_heap w) m t.
Proof. intros [H _] Hm. specialize (H i). by rewrite Hm in H. Qed.

Lemma map_ok_fp h m t hd tl :
  m_head m = Some hd → m_tail m = Some tl → fp m t = hd :: tl :: addrs t.
Proof. unfold fp. by intros -> ->. Qed.

Lemma map_ok_alloc h m t a : map_ok h m t → a ∈ fp m t → is_Some (h !! a).
Proof.
  intros (hd & tl & Hh & Ht & HS & _) Ha. rewrite (map_ok_fp h m t hd tl) in Ha by done.
  by eapply Shape_alloc.
Qed.

Lemma map_ok_frame h h' m t :
  map_ok h m t → (∀ a, a ∈ fp m t → h' !! a = h !! a) → map_ok h' m t.
Proof.
  intros (hd & tl & Hh & Ht & HS & Hn & Hrb) Hag. exists hd, tl. split_and!; try done.
  eapply Shape_frame; [done|]. by rewrite <-(map_ok_fp h m t hd tl).
Qed.

Lemma map_ok_budget w m t : map_ok (w_heap w) m t → length (addrs t) + 2 ≤ budget w.
Proof.
  intros (hd & tl & _ & _ & HS & _). apply Shape_budget in HS. unfold budget. lia.
Qed.

Lemma leave_enter i m w : w_maps w !! i = Some m → leave i (enter m w) w = w.
Proof.
  intros Hm. destruct w as [h ms]. unfold leave, enter. simpl in *. f_equal.
  destruct m. by apply insert_id.
Qed.

(** The addresses the container [i] owns in a world. *)
Definition own w T (i : addr) : list addr :=
  match w_maps w !! i, T !! i with
  | Some m, Some t => fp m t
  | _, _ => []
  end.

Lemma own_eq w T i m t : w_maps w !! i = Some m → T !! i = Some t → own w T i = fp m t.
Proof. unfold own. by intros -> ->. Qed.

Lemma wf_other w T i j mj tj :
  wf w T → j ≠ i → w_maps w !! j = Some mj → T !! j = Some tj →
  map_ok (w_heap w) mj tj ∧ ∀ b, b ∈ fp mj tj → b ∉ own w T i.
Proof.
  intros Hwf Hne Hmj Htj.
  destruct (wf_lookup _ _ _ _ Hwf Hmj) as (tj' & Htj' & Hokj).
  assert (tj' = tj) as -> by congruence. split; [done|].
  intros b Hb. unfold own.
  destruct (w_maps w !! i) as [m|] eqn:Hm; [|by intros ?%elem_of_nil].
  destruct (T !! i) as [t|] eqn:Ht; [|by intros ?%elem_of_nil].
  destruct Hwf as [_ Hdis]. by apply (Hdis j i mj m tj t).
Qed.

(** A container that is replaced, or added, by one that is well formed in
    a heap which differs inside the old footprint or at new addresses
    only. *)
Lemma wf_insert w T i h' m' t' :
  wf w T → map_ok h' m' t' →
  (∀ b, is_Some (w_heap w !! b) → b ∉ own w T i → h' !! b = w_heap w !! b) →
  (∀ b, b ∈ fp m' t' → b ∈ own w T i ∨ w_heap w !! b = None) →
  wf (mk_world h' (<[i := m']> (w_maps w))) (<[i := t']> T).
Proof.
  intros Hwf Hok Hfr Hfp.
  assert (Hother : ∀ j mj tj b, j ≠ i → w_maps w !! j = Some mj → T !! j = Some tj →
            b ∈ fp mj tj → b ∉ fp m' t').
  { intros j mj tj b Hne Hmj Htj Hb Hb'.
    destruct (wf_other _ _ i _ _ _ Hwf Hne Hmj Htj) as [Hokj Hd].
    apply Hfp in Hb' as [Hb'|Hb'].
    - by apply (Hd b).
    - apply (map_ok_alloc _ _ _ _ Hokj) in Hb as [? Hb]. congruence. }
  split.
  - intros j. simpl. destruct (decide (j = i)) as [->|Hne].
    + rewrite !lookup_insert_eq. by exists t'.
    + rewrite !lookup_insert_ne by done.
      destruct (w_maps w !! j) as [mj|] eqn:Hmj.
      * destruct (wf_lookup _ _ _ _ Hwf Hmj) as (tj & Htj & Hokj).
        exists tj. split; [done|].
        destruct (wf_other _ _ i _ _ _ Hwf Hne Hmj Htj) as [_ Hd].
        eapply map_ok_frame; [exact Hokj|]. intros b Hb. apply Hfr; [|by apply Hd].
        by eapply map_ok_alloc.
      * destruct Hwf as [Hall _]. specialize (Hall j). by rewrite Hmj in Hall.
  - intros j1 j2 mj1 mj2 tj1 tj2 Hne. simpl.
    destruct (decide (j1 = i)) as [->|Hne1]; [|destruct (decide (j2 = i)) as [->|Hne2]].
    + rewrite !lookup_insert_eq, !lookup_insert_ne by done.
      intros [= <-] Hm2 [= <-] Ht2 b Hb Hb2.
      by apply (Hother j2 mj2 tj2 b (not_eq_sym Hne) Hm2 Ht2).
    + rewrite !lookup_insert_eq, !lookup_insert_ne by done.
      intros Hm1 [= <-] Ht1 [= <-] b Hb Hb2.
      by apply (Hother j1 mj1 tj1 b Hne Hm1 Ht1).
    + rewrite !lookup_insert_ne by done. destruct Hwf as [_ Hdis]. by apply Hdis.
Qed.

(** A container that goes away. *)
Lemma wf_delete w T i h' :
  wf w T →
  (∀ b, is_Some (w_heap w !! b) → b ∉ own w T i → h' !! b = w_heap w !! b) →
  wf (mk_world h' (delete i (w_maps w))) (delete i T).
Proof.
  intros Hwf Hfr. split.
  - intros j. simpl. destruct (decide (j = i)) as [->|Hne].
    + by rewrite !lookup_delete_eq.
    + rewrite !lookup_delete_ne by done.
      destruct (w_maps w !! j) as [mj|] eqn:Hmj.
      * destruct (wf_lookup _ _ _ _ Hwf Hmj) as (tj & Htj & Hokj).
        exists tj. split; [done|].
        destruct (wf_other _ _ i _ _ _ Hwf Hne Hmj Htj) as [_ Hd].
        eapply map_ok_frame; [exact Hokj|]. intros b Hb. apply Hfr; [|by apply Hd].
        by eapply map_ok_alloc.
      * destruct Hwf as [Hall _]. specialize (Hall j). by rewrite Hmj in Hall.
  - intros j1 j2 mj1 mj2 tj1 tj2 Hne. simpl.
    rewrite !lookup_delete_Some. intros [_ ?] [_ ?] [_ ?] [_ ?].
    destruct Hwf as [_ Hdis]. by apply (Hdis j1 j2).
Qed.

(** A member function that keeps its own container well formed, and
    writes inside its footprint or to new nodes only, keeps the world
    well formed. *)
Lemma call_wf {A} i (f : M K V A) w T m t a s' t' :
  wf w T → w_maps w !! i = Some m → T !! i = Some t →
  f (enter m w) = Some (a, s') →
  head s' = m_head m → tail s' = m_tail m →
  map_ok (heap s') (mk_map (head s') (tail s') (root s') (__size s')) t' →
  (∀ b, is_Some (w_heap w !! b) → b ∉ fp m t → heap s' !! b = w_heap w !! b) →
  (∀ b, b ∈ addrs t' → b ∈ addrs t ∨ w_heap w !! b = None) →
  call i f w = Ret a (leave i s' w) ∧ wf (leave i s' w) (<[i := t']> T).
Proof.
  intros Hwf Hm Ht Hrun Hhd Htl Hok Hfr Hsub. split.
  { unfold call. by rewrite Hm, Hrun. }
  apply wf_insert; [done|done| |].
  - by rewrite (own_eq _ _ _ _ _ Hm Ht).
  - intros b. rewrite (own_eq _ _ _ _ _ Hm Ht). unfold fp. simpl.
    rewrite Hhd, Htl, !elem_of_app.
    intros [?|[?|Hb]]; auto. apply Hsub in Hb as [?|?]; auto.
Qed.

(** *** What a client observes *)

(** The tree under a root pointer, read through the child pointers. *)
Fixpoint read_tree (fuel : nat) h (p : ptr) : option (tree K V) :=
  match fuel with
  | 0 => None
  | S fuel =>
    match p with
    | None => Some Leaf
    | Some a =>
      n ← h !! a; kv ← value n;
      l ← read_tree fuel h (child_l n); r ← read_tree fuel h (child_r n);
      Some (Node (color n) l a kv r)
    end
  end.

(** The node [a] with the pair it stores. *)
Definition entry_at h (a : addr) : option (addr * (K * V)) :=
  kv ← load value (Some a) h; pair a <$> kv.

(** The entries met from [begin()] to [end()] through [next], and from
    the last entry back to the first through [prev]. *)
Definition entries w (this : addr) : option (list (addr * (K * V))) :=
  m ← w_maps w !! this;
  first ← load next (m_head m) (w_heap w);
  l ← walk_next (budget w) (w_heap w) first (m_tail m);
  mapM (entry_at (w_heap w)) l.
Definition entries_rev w (this : addr) : option (list (addr * (K * V))) :=
  m ← w_maps w !! this;
  last ← load prev (m_tail m) (w_heap w);
  l ← walk_prev (budget w) (w_heap w) last (m_head m);
  mapM (entry_at (w_heap w)) l.

Lemma read_tree_ok fuel h t :
  tree_ok h t → length (addrs t) < fuel → read_tree fuel h (root_of t) = Some t.
Proof.
  revert t. induction fuel as [|fuel IH]; intros t Ht Hlen; [lia|].
  destruct t as [|c l x kv r]; [done|].
  destruct Ht as (Hc & Hv & Hl & Hr & _ & _ & Htl & Htr).
  simpl in Hlen. rewrite length_app in Hlen. simpl in Hlen.
  cbn [read_tree root_of].
  apply load_Some in Hc as (n & Hn & Hc). rewrite Hn. simpl.
  apply load_Some in Hv as (n1 & Hn1 & Hv). assert (n1 = n) as -> by congruence.
  apply load_Some in Hl as (n2 & Hn2 & Hl). assert (n2 = n) as -> by congruence.
  apply load_Some in Hr as (n3 & Hn3 & Hr). assert (n3 = n) as -> by congruence.
  simpl in Hl, Hr. rewrite Hv, Hl, Hr. simpl.
  rewrite (IH l), (IH r) by (done || lia). simpl. by rewrite Hc.
Qed.

Lemma walk_next_dll fuel h a xs b :
  dll h a xs b → b ∉ xs → length xs < fuel →
  ∃ n, load next (Some a) h = Some n ∧ walk_next fuel h n (Some b) = Some xs.
Proof.
  revert a fuel. induction xs as [|x xs IH]; intros a fuel Hd Hb Hlen.
  - destruct Hd as [Hn _]. exists (Some b). split; [done|].
    destruct fuel; [simpl in Hlen; lia|]. simpl. by rewrite ptr_eqb_refl.
  - destruct Hd as [[Hn _] Hd]. exists (Some x). split; [done|].
    destruct fuel; [simpl in Hlen; lia|]. simpl.
    rewrite ptr_eqb_ne by (intros [= ->]; set_solver).
    destruct (IH x fuel Hd) as (n & -> & Hw); [set_solver|simpl in Hlen; lia|].
    simpl. by rewrite Hw.
Qed.

Lemma walk_prev_dll fuel h a xs b :
  dll h a xs b → a ∉ xs → length xs < fuel →
  ∃ n, load prev (Some b) h = Some n ∧ walk_prev fuel h n (Some a) = Some (reverse xs).
Proof.
  revert b fuel. induction xs as [|x xs IH] using rev_ind; intros b fuel Hd Ha Hlen.
  - destruct Hd as [_ Hp]. exists (Some a). split; [done|].
    destruct fuel; [simpl in Hlen; lia|]. simpl. by rewrite ptr_eqb_refl.
  - apply dll_app in Hd as [Hd [_ Hp]]. exists (Some x). split; [done|].
    rewrite length_app in Hlen. simpl in Hlen.
    destruct fuel; [lia|]. simpl.
    rewrite ptr_eqb_ne by (intros [= ->]; set_solver).
    destruct (IH x fuel Hd) as (n & -> & Hw); [set_solver|lia|].
    simpl. by rewrite Hw, reverse_snoc.
Qed.

Lemma entry_at_nodes h t :
  tree_ok h t → Forall2 (λ a n, entry_at h a = Some n) (addrs t) (nodes t).
Proof.
  induction t as [|c l IHl x kv r IHr]; simpl; [constructor|].
  intros (_ & Hv & _ & _ & _ & _ & Hl & Hr).
  apply Forall2_app; [auto|]. constructor; [|auto].
  unfold entry_at. by rewrite Hv.
Qed.

Lemma entries_ok w i m t :
  w_maps w !! i = Some m → map_ok (w_heap w) m t → entries w i = Some (nodes t).
Proof.
  intros Hm (hd & tl & Hh & Ht & HS & _). pose proof (Shape_budget _ _ _ _ _ HS) as Hb.
  destruct HS as (Hnd & _ & _ & _ & [Hok _] & Hd).
  unfold entries. rewrite Hm. cbn [mbind option_bind]. rewrite Hh, Ht.
  destruct (walk_next_dll (budget w) _ _ _ _ Hd) as (n & Hn & Hw).
  { apply NoDup_cons in Hnd as [_ Hnd]. by apply NoDup_cons in Hnd as [? _]. }
  { unfold budget. lia. }
  rewrite Hn. cbn [mbind option_bind]. rewrite Hw. cbn [mbind option_bind]. apply mapM_Some. by apply entry_at_nodes.
Qed.

Lemma entries_rev_ok w i m t :
  w_maps w !! i = Some m → map_ok (w_heap w) m t → entries_rev w i = Some (reverse (nodes t)).
Proof.
  intros Hm (hd & tl & Hh & Ht & HS & _). pose proof (Shape_budget _ _ _ _ _ HS) as Hb.
  destruct HS as (Hnd & _ & _ & _ & [Hok _] & Hd).
  unfold entries_rev. rewrite Hm. cbn [mbind option_bind]. rewrite Hh, Ht.
  destruct (walk_prev_dll (budget w) _ _ _ _ Hd) as (n & Hn & Hw).
  { apply NoDup_cons in Hnd as [Hnd _]. set_solver. }
  { unfold budget. lia. }
  rewrite Hn. cbn [mbind option_bind]. rewrite Hw. cbn [mbind option_bind]. apply mapM_Some. apply Forall2_reverse. by apply entry_at_nodes.
Qed.

(** *** The nodes before and after an insertion or a removal *)

Lemma nodes_zip t : nodes t = zip (addrs t) (elems t).
Proof.
  induction t as [|c l IHl x kv r IHr]; simpl; [done|].
  rewrite zip_with_app by apply length_addrs_elems. simpl. by rewrite IHl, IHr.
Qed.
Lemma ctx_before_length k : length (ctx_before k) = length (ctx_elems_before k).
Proof.
  induction k as [|w c x kv sib up IH]; simpl; [done|].
  destruct w; [|done]. rewrite !length_app, IH, length_addrs_elems. done.
Qed.

Lemma terase_nodes k c l x kv r t' :
  terase k (Node c l x kv r) = Some t' →
  ∃ n1 n2, nodes (plug k (Node c l x kv r)) = n1 ++ (x, kv) :: n2 ∧ nodes t' = n1 ++ n2.
Proof.
  intros [Ea Ee]%terase_order.
  exists (zip (ctx_before k ++ addrs l) (ctx_elems_before k ++ elems l)),
         (zip (addrs r ++ ctx_after k) (elems r ++ ctx_elems_after k)).
  assert (length (ctx_before k ++ addrs l) = length (ctx_elems_before k ++ elems l)) as Hlen.
  { by rewrite !length_app, ctx_before_length, length_addrs_elems. }
  rewrite !nodes_zip, Ea, Ee, addrs_plug, elems_plug. simpl. split.
  - replace (ctx_before k ++ (addrs l ++ x :: addrs r) ++ ctx_after k)
      with ((ctx_before k ++ addrs l) ++ x :: (addrs r ++ ctx_after k))
      by (by simplify_list_eq).
    replace (ctx_elems_before k ++ (elems l ++ kv :: elems r) ++ ctx_elems_after k)
      with ((ctx_elems_before k ++ elems l) ++ kv :: (elems r ++ ctx_elems_after k))
      by (by simplify_list_eq).
    by rewrite zip_with_app by done.
  - replace (ctx_before k ++ addrs l ++ addrs r ++ ctx_after k)
      with ((ctx_before k ++ addrs l) ++ (addrs r ++ ctx_after k))
      by (by simplify_list_eq).
    replace (ctx_elems_before k ++ elems l ++ elems r ++ ctx_elems_after k)
      with ((ctx_elems_before k ++ elems l) ++ (elems r ++ ctx_elems_after k))
      by (by simplify_list_eq).
    by rewrite zip_with_app by done.
Qed.

Lemma insert_nodes key t k' a v t' :
  locate comparing_function key t Top = Hole k' →
  ifix k' (Node RED Leaf a v Leaf) = Some t' →
  ∃ n1 n2, nodes t = n1 ++ n2 ∧ nodes t' = n1 ++ (a, v) :: n2.
Proof.
  intros Hloc [Ea Ee]%ifix_order.
  pose proof (locate_plug comparing_function key t Top) as Hp. rewrite Hloc in Hp. simpl in Hp.
  exists (zip (ctx_before k') (ctx_elems_before k')), (zip (ctx_after k') (ctx_elems_after k')).
  rewrite !nodes_zip, Ea, Ee, <-Hp, !addrs_plug, !elems_plug. simpl. split.
  - by rewrite zip_with_app by apply ctx_before_length.
  - by rewrite zip_with_app by apply ctx_before_length.
Qed.

(** Every node of a tree is under some context. *)
Lemma addrs_focus a t : a ∈ addrs t → ∃ k c l kv r, t = plug k (Node c l a kv r).
Proof.
  induction t as [|c l IHl x kv r IHr]; simpl; [by intros ?%elem_of_nil|].
  intros [Ha|[->|Ha]%elem_of_cons]%elem_of_app.
  - destruct (IHl Ha) as (k & c' & l' & kv' & r' & ->).
    exists (ctx_app k (Zip LEFT c x kv r Top)), c', l', kv', r'. by rewrite plug_app.
  - by exists Top, c, l, kv, r.
  - destruct (IHr Ha) as (k & c' & l' & kv' & r' & ->).
    exists (ctx_app k (Zip RIGHT c x kv l Top)), c', l', kv', r'. by rewrite plug_app.
Qed.

(** *** The member functions on a well-formed container *)

Lemma enter_eq m w hd tl :
  m_head m = Some hd → m_tail m = Some tl →
  enter m w = mk_state (w_heap w) (Some hd) (Some tl) (m_root m) (m_size m).
Proof. unfold enter. by intros -> ->. Qed.

Lemma nodes_length t : length (nodes t) = length (addrs t).
Proof. by rewrite <-nodes_addrs, length_fmap. Qed.

Lemma __insert_ok w m t key v :
  map_ok (w_heap w) m t →
  match locate comparing_function key t Top with
  | Found _ t' =>
      __insert comparing_function (budget w) key v (enter m w)
      = Some ((root_of t', false), enter m w)
  | Hole k' =>
      ∃ t'' s', ifix k' (Node RED Leaf (alloc (w_heap w)) v Leaf) = Some t'' ∧
        __insert comparing_function (budget w) key v (enter m w)
        = Some ((Some (alloc (w_heap w)), true), s') ∧
        head s' = m_head m ∧ tail s' = m_tail m ∧
        map_ok (heap s') (mk_map (head s') (tail s') (root s') (__size s')) t'' ∧
        frame_on (alloc (w_heap w) :: fp m t) (w_heap w) (heap s') ∧
        ∃ n1 n2, nodes t = n1 ++ n2 ∧ nodes t'' = n1 ++ (alloc (w_heap w), v) :: n2
  end.
Proof.
  intros Hok. pose proof (map_ok_budget _ _ _ Hok) as Hb.
  destruct Hok as (hd & tl & Hh & Ht & HS & Hn & Hrb).
  pose proof (insert_sim comparing_function (budget w) key v t hd tl _ _ (m_size m) HS) as Hsim.
  rewrite (enter_eq m w hd tl) by done.
  pose proof (locate_plug comparing_function key t Top) as Hp.
  pose proof (insert_nodes key t) as Hnodes.
  destruct (locate comparing_function key t Top) as [k' t'|k'].
  - apply Hsim. lia.
  - simpl in Hp. rewrite <-Hp in Hrb. apply rb_unplug in Hrb as (n & Hk & Hl & _).
    simpl in Hl. subst n.
    destruct (ifix_rb k' (Node RED Leaf (alloc (w_heap w)) v Leaf) 0) as (t'' & Hfix & Hrb'');
      [done|done|done|].
    destruct (Hsim ltac:(lia) t'' Hfix) as (h' & r' & Hrun & HS' & Hfr).
    exists t'', (mk_state h' (Some hd) (Some tl) r' (S (m_size m))).
    destruct (Hnodes k' _ v t'' eq_refl Hfix) as (n1 & n2 & E1 & E2).
    split_and!; try done.
    + exists hd, tl. split_and!; try done. simpl.
      rewrite Hn, <-!nodes_length, E1, E2, !length_app. simpl. lia.
    + by rewrite (map_ok_fp (w_heap w) m t hd tl).
    + by exists n1, n2.
Qed.

Lemma erase_node_ok w m t x :
  map_ok (w_heap w) m t → x ∈ addrs t →
  ∃ n1 kv n2 t' s',
    nodes t = n1 ++ (x, kv) :: n2 ∧ nodes t' = n1 ++ n2 ∧
    erase_node (budget w) (Some x) (enter m w) = Some (tt, s') ∧
    head s' = m_head m ∧ tail s' = m_tail m ∧
    map_ok (heap s') (mk_map (head s') (tail s') (root s') (__size s')) t' ∧
    frame_on (fp m t) (w_heap w) (heap s') ∧ heap s' !! x = None.
Proof.
  intros Hok Hx. pose proof (map_ok_budget _ _ _ Hok) as Hb.
  destruct Hok as (hd & tl & Hh & Ht & HS & Hn & Hrb).
  destruct (addrs_focus _ _ Hx) as (k & c & l & kv & r & ->).
  destruct (terase_rb k (Node c l x kv r) Hrb) as (t' & Her & Hrb'); [done|].
  destruct (terase_nodes _ _ _ _ _ _ _ Her) as (n1 & n2 & E1 & E2).
  destruct (erase_node_sim (budget w) _ _ _ x _ _ _ _ (m_size m) HS eq_refl Her)
    as (h' & r' & Hrun & HS' & Hfr & Hx'); [lia|].
  exists n1, kv, n2, t', (mk_state h' (Some hd) (Some tl) r' (Nat.pred (m_size m))).
  rewrite (enter_eq m w hd tl) by done.
  split_and!; try done.
  - exists hd, tl. split_and!; try done. simpl.
    rewrite Hn, <-!nodes_length, E1, E2, !length_app. simpl. lia.
  - by rewrite (map_ok_fp (w_heap w) m _ hd tl).
Qed.

Lemma find_node_ok w m t key :
  map_ok (w_heap w) m t →
  find_node comparing_function (budget w) key (m_root m) (enter m w)
  = Some (fst <$> tfind comparing_function key t, enter m w).
Proof.
  intros Hok. pose proof (map_ok_budget _ _ _ Hok) as Hb.
  destruct Hok as (hd & tl & Hh & Ht & HS & Hn & Hrb).
  rewrite (enter_eq m w hd tl) by done.
  destruct HS as (_ & _ & _ & -> & [Hto _] & _).
  apply find_node_sim; [done|lia].
Qed.

(** *** The public member functions in a well-formed world *)

Lemma nodes_in_addrs t a kv : (a, kv) ∈ nodes t → a ∈ addrs t.
Proof. intros H. rewrite <-nodes_addrs. apply list_elem_of_fmap. by exists (a, kv). Qed.
Lemma addrs_in_nodes t a : a ∈ addrs t → ∃ kv, (a, kv) ∈ nodes t.
Proof.
  rewrite <-nodes_addrs. intros ([a' kv] & -> & H)%list_elem_of_fmap. by exists kv.
Qed.
Lemma nodes_plug_in k t n : n ∈ nodes t → n ∈ nodes (plug k t).
Proof.
  revert t. induction k as [|w c x kv sib up IH]; intros t Hn; simpl; [done|].
  apply IH. destruct w; simpl; set_solver.
Qed.

Lemma locate_Found_nodes key t k' t' :
  locate comparing_function key t Top = Found k' t' →
  ∃ x kv, root_of t' = Some x ∧ (x, kv) ∈ nodes t ∧ equiv_key comparing_function kv.1 key.
Proof.
  intros Hloc. pose proof (locate_plug comparing_function key t Top) as Hp.
  rewrite Hloc in Hp. destruct Hp as [Hp _]. simpl in Hp.
  destruct (locate_Found _ _ _ _ _ _ Hloc) as (c & l & x & kv & r & -> & Heq).
  exists x, kv. split_and!; [done| |done]. rewrite <-Hp. apply nodes_plug_in. simpl. set_solver.
Qed.

Lemma alloc_frame S h h' :
  frame_on (alloc h :: S) h h' → ∀ b, is_Some (h !! b) → b ∉ S → h' !! b = h !! b.
Proof.
  intros Hfr b [n Hb] HbS. apply Hfr. intros [->|?]%elem_of_cons; [|done].
  by rewrite alloc_fresh in Hb.
Qed.

Lemma insert_call_wf {A} i (f : M K V A) w T m t t'' s' a n1 n2 v :
  wf w T → w_maps w !! i = Some m → T !! i = Some t →
  f (enter m w) = Some (a, s') →
  head s' = m_head m → tail s' = m_tail m →
  map_ok (heap s') (mk_map (head s') (tail s') (root s') (__size s')) t'' →
  frame_on (alloc (w_heap w) :: fp m t) (w_heap w) (heap s') →
  nodes t = n1 ++ n2 → nodes t'' = n1 ++ (alloc (w_heap w), v) :: n2 →
  call i f w = Ret a (leave i s' w) ∧ wf (leave i s' w) (<[i := t'']> T).
Proof.
  intros Hwf Hm Ht Hrun Hhd Htl Hok Hfr E1 E2.
  eapply call_wf; try done.
  - by apply alloc_frame.
  - intros b. rewrite <-!nodes_addrs, E1, E2, !fmap_app, fmap_cons, !elem_of_app, elem_of_cons.
    simpl. intros [?|[->|?]]; auto. right. apply alloc_fresh.
Qed.

(** [insert]: the existing entry, or the entry added at the position
    where the descent stops. *)
Lemma insert_spec w T i m t v :
  wf w T → w_maps w !! i = Some m → T !! i = Some t →
  match locate comparing_function v.1 t Top with
  | Found _ t' =>
      insert comparing_function i v w = Ret (mk_iterator (Some i) (root_of t'), false) w
  | Hole k' =>
      ∃ t'' w' n1 n2,
        ifix k' (Node RED Leaf (alloc (w_heap w)) v Leaf) = Some t'' ∧
        nodes t = n1 ++ n2 ∧ nodes t'' = n1 ++ (alloc (w_heap w), v) :: n2 ∧
        insert comparing_function i v w
        = Ret (mk_iterator (Some i) (Some (alloc (w_heap w))), true) w' ∧
        wf w' (<[i := t'']> T)
  end.
Proof.
  intros Hwf Hm Ht.
  destruct (wf_lookup _ _ _ _ Hwf Hm) as (t0 & Ht0 & Hok).
  assert (t0 = t) as -> by congruence.
  pose proof (__insert_ok w m t v.1 v Hok) as Hins.
  destruct (locate comparing_function v.1 t Top) as [k' t'|k'].
  - unfold insert, call, __insert_value. rewrite Hm. unfold bind at 1. rewrite Hins.
    simpl. by rewrite leave_enter.
  - destruct Hins as (t'' & s' & Hfix & Hrun & Hhd & Htl & Hok' & Hfr & n1 & n2 & E1 & E2).
    exists t'', (leave i s' w), n1, n2. split_and!; try done.
    all: eapply (insert_call_wf i _ w T m t t'' s'); try done.
    all: unfold __insert_value, bind; by rewrite Hrun.
Qed.

Lemma map_ok_value h m t a kv :
  map_ok h m t → (a, kv) ∈ nodes t → load value (Some a) h = Some (Some kv).
Proof.
  intros (hd & tl & _ & _ & (_ & _ & _ & _ & [Hok _] & _) & _). by apply nodes_value.
Qed.

(** [operator[]]: as [insert] with the default value. *)
Lemma operator_index_spec w T i m t key :
  wf w T → w_maps w !! i = Some m → T !! i = Some t →
  match locate comparing_function key t Top with
  | Found _ t' =>
      operator_index comparing_function default_V i key w = Ret (root_of t') w
  | Hole k' =>
      ∃ t'' w' n1 n2,
        ifix k' (Node RED Leaf (alloc (w_heap w)) (key, default_V) Leaf) = Some t'' ∧
        nodes t = n1 ++ n2 ∧
        nodes t'' = n1 ++ (alloc (w_heap w), (key, default_V)) :: n2 ∧
        operator_index comparing_function default_V i key w
        = Ret (Some (alloc (w_heap w))) w' ∧
        wf w' (<[i := t'']> T)
  end.
Proof.
  intros Hwf Hm Ht.
  destruct (wf_lookup _ _ _ _ Hwf Hm) as (t0 & Ht0 & Hok).
  assert (t0 = t) as -> by congruence.
  pose proof (__insert_ok w m t key (key, default_V) Hok) as Hins.
  pose proof (locate_Found_nodes key t) as HF.
  destruct (locate comparing_function key t Top) as [k' t'|k'].
  - destruct (HF _ _ eq_refl) as (x & kv & Hx & Hin & _).
    pose proof (map_ok_value _ _ _ _ _ Hok Hin) as Hv.
    unfold operator_index, call, __insert_key. rewrite Hm.
    unfold bind at 1 2. rewrite Hins. simpl. rewrite Hx.
    erewrite bind_rd by exact Hv. simpl. by rewrite leave_enter.
  - destruct Hins as (t'' & s' & Hfix & Hrun & Hhd & Htl & Hok' & Hfr & n1 & n2 & E1 & E2).
    assert (Hv : load value (Some (alloc (w_heap w))) (heap s') = Some (Some (key, default_V))).
    { apply (map_ok_value _ _ _ _ _ Hok'). rewrite E2. set_solver. }
    exists t'', (leave i s' w), n1, n2. split_and!; try done.
    all: eapply (insert_call_wf i _ w T m t t'' s'); try done.
    all: unfold __insert_key; unfold bind at 1 2; rewrite Hrun; simpl.
    all: by erewrite bind_rd by exact Hv.
Qed.

(** [erase] refuses the end position and the positions of other
    containers. *)
Lemma erase_throw w i m pos :
  w_maps w !! i = Some m →
  it_map pos ≠ Some i ∨ it_node pos = m_tail m →
  erase i pos w = Throw invalid_iterator w.
Proof.
  intros Hm Hpos. unfold erase. rewrite Hm.
  destruct Hpos as [H| ->].
  - by rewrite bool_decide_true.
  - by rewrite ptr_eqb_refl, orb_true_r.
Qed.

Lemma map_ok_tail_fresh h m t a : map_ok h m t → a ∈ addrs t → Some a ≠ m_tail m ∧ Some a ≠ m_head m.
Proof.
  intros (hd & tl & -> & -> & (Hnd & _) & _) Ha.
  apply NoDup_cons in Hnd as [Hhd [Htl _]%NoDup_cons].
  split; intros [= ->]; set_solver.
Qed.

(** [erase] at the position of an entry takes that entry out. *)
Lemma erase_spec w T i m t x :
  wf w T → w_maps w !! i = Some m → T !! i = Some t → x ∈ addrs t →
  ∃ n1 kv n2 t' w',
    nodes t = n1 ++ (x, kv) :: n2 ∧ nodes t' = n1 ++ n2 ∧
    erase (K:=K) (V:=V) i (mk_iterator (Some i) (Some x)) w = Ret tt w' ∧
    wf w' (<[i := t']> T) ∧ w_heap w' !! x = None.
Proof.
  intros Hwf Hm Ht Hx.
  destruct (wf_lookup _ _ _ _ Hwf Hm) as (t0 & Ht0 & Hok).
  assert (t0 = t) as -> by congruence.
  destruct (erase_node_ok w m t x Hok Hx)
    as (n1 & kv & n2 & t' & s' & E1 & E2 & Hrun & Hhd & Htl & Hok' & Hfr & Hx').
  exists n1, kv, n2, t', (leave i s' w).
  destruct (call_wf i (erase_node (budget w) (Some x)) w T m t tt s' t') as [Hcall Hwf'];
    try done.
  { intros b _ Hb. by apply Hfr. }
  { intros b. rewrite <-!nodes_addrs, E1, E2, !fmap_app, fmap_cons, !elem_of_app, elem_of_cons.
    intros [?|?]; auto. }
  split_and!; try done.
  unfold erase. rewrite Hm. simpl.
  destruct (map_ok_tail_fresh _ _ _ _ Hok Hx) as [Hne _].
  rewrite bool_decide_false by (by intros []). by rewrite ptr_eqb_ne.
Qed.

(** [find]: the position of the entry the loop stops at, or [end()]. *)
Lemma find_spec w T i m t key :
  wf w T → w_maps w !! i = Some m → T !! i = Some t →
  find comparing_function i key w
  = Ret (mk_iterator (Some i)
           (match tfind comparing_function key t with
            | Some (a, _) => Some a
            | None => m_tail m
            end)) w.
Proof.
  intros Hwf Hm Ht.
  destruct (wf_lookup _ _ _ _ Hwf Hm) as (t0 & Ht0 & Hok).
  assert (t0 = t) as -> by congruence.
  unfold find, call. rewrite Hm. rewrite bind_get_root.
  erewrite bind_ok by (by apply find_node_ok).
  destruct (tfind comparing_function key t) as [[a kv]|]; simpl; by rewrite leave_enter.
Qed.

Lemma size_spec w T i m t :
  wf w T → w_maps w !! i = Some m → T !! i = Some t →
  size i w = Ret (length (nodes t)) w.
Proof.
  intros Hwf Hm Ht.
  destruct (wf_lookup _ _ _ _ Hwf Hm) as (t0 & Ht0 & Hok).
  assert (t0 = t) as -> by congruence.
  destruct Hok as (hd & tl & _ & _ & _ & Hn & _).
  unfold size, call. rewrite Hm. simpl. by rewrite leave_enter, nodes_length, Hn.
Qed.

Lemma end_spec w i m :
  w_maps w !! i = Some m → end_ i w = Ret (mk_iterator (Some i) (m_tail m)) w.
Proof. intros Hm. unfold end_, call. rewrite Hm. simpl. by rewrite leave_enter. Qed.

(** The first node of the sequence, the tail sentinel when there is none. *)
Definition first_of m t : ptr :=
  match addrs t with a :: _ => Some a | [] => m_tail m end.

Lemma map_ok_first h m t : map_ok h m t → load next (m_head m) h = Some (first_of m t).
Proof.
  unfold first_of. intros (hd & tl & -> & -> & (_ & _ & _ & _ & _ & Hd) & _).
  destruct (addrs t); simpl in Hd; unfold link in Hd; tauto.
Qed.

Lemma begin_spec w T i m t :
  wf w T → w_maps w !! i = Some m → T !! i = Some t →
  begin_ i w = Ret (mk_iterator (Some i) (first_of m t)) w.
Proof.
  intros Hwf Hm Ht.
  destruct (wf_lookup _ _ _ _ Hwf Hm) as (t0 & Ht0 & Hok).
  assert (t0 = t) as -> by congruence.
  unfold begin_, call. rewrite Hm. rewrite bind_get_head.
  erewrite bind_rd by (by apply map_ok_first). simpl. by rewrite leave_enter.
Qed.

(** *** Construction, copies and destruction *)

Lemma Shape_empty hd tl h :
  hd ≠ tl → load value (Some hd) h = Some None → load value (Some tl) h = Some None →
  link h hd tl → Shape hd tl h None (Leaf : tree K V).
Proof.
  intros Hne Hh Ht Hl. split_and!; try done.
  cbn [addrs]. apply NoDup_cons. split; [set_solver|]. apply NoDup_singleton.
Qed.

(** [map()]: two new sentinels and the empty tree. *)
Lemma map_default_spec w T i :
  wf w T → ∃ w', map_default i w = Ret tt w' ∧ wf w' (<[i := Leaf]> T).
Proof.
  intros Hwf. unfold map_default.
  set (h := w_heap w). set (hd := alloc h). set (h1 := <[hd := sentinel]> h).
  set (tl := alloc h1). set (h2 := <[tl := sentinel]> h1).
  assert (Hhd : h !! hd = None) by apply alloc_fresh.
  assert (Htl1 : h1 !! tl = None) by apply alloc_fresh.
  assert (Hne : tl ≠ hd).
  { intros E. unfold h1 in Htl1. rewrite E, lookup_insert_eq in Htl1. done. }
  assert (Htl : h !! tl = None).
  { unfold h1 in Htl1. by rewrite lookup_insert_ne in Htl1 by done. }
  rewrite store_Some.
  2: { unfold h2, h1. rewrite lookup_insert_ne by done. by rewrite lookup_insert_eq. }
  rewrite store_Some.
  2: { rewrite alter_is_Some. unfold h2. by rewrite lookup_insert_eq. }
  eexists. split; [done|].
  apply wf_insert; [done| | |].
  - exists hd, tl. split_and!; [done|done| |done|by split; [|exists 0]].
    apply Shape_empty; [done| | |].
    + rewrite load_alter_ne, load_alter_indep by (done || congruence).
      unfold h2. rewrite load_insert_ne by congruence. unfold h1. by rewrite load_insert_same.
    + rewrite load_alter_indep, load_alter_ne by (done || congruence).
      unfold h2. by rewrite load_insert_same.
    + split.
      * rewrite load_alter_ne by congruence. apply load_alter_same; [done|].
        unfold h2, h1. rewrite lookup_insert_ne by done. by rewrite lookup_insert_eq.
      * apply load_alter_same; [done|]. rewrite alter_is_Some. unfold h2.
        by rewrite lookup_insert_eq.
  - intros b [nb Hb] _. fold h in Hb.
    assert (b ≠ hd) by congruence. assert (b ≠ tl) by congruence.
    rewrite !lookup_alter_ne by done. unfold h2, h1. by rewrite !lookup_insert_ne by done.
  - intros b. unfold fp. simpl. intros [->|[->|?%elem_of_nil]%elem_of_cons]%elem_of_cons;
      by right.
Qed.

(** [clear()]. *)
Lemma clear_spec w T i m t :
  wf w T → w_maps w !! i = Some m → T !! i = Some t →
  ∃ w', clear i w = Ret tt w' ∧ wf w' (<[i := Leaf]> T) ∧
        w_maps w' = <[i := mk_map (m_head m) (m_tail m) None 0]> (w_maps w) ∧
        (∀ b, is_Some (w_heap w !! b) → b ∉ fp m t → w_heap w' !! b = w_heap w !! b).
Proof.
  intros Hwf Hm Ht.
  destruct (wf_lookup _ _ _ _ Hwf Hm) as (t0 & Ht0 & Hok).
  assert (t0 = t) as -> by congruence.
  pose proof (map_ok_budget _ _ _ Hok) as Hb.
  pose proof Hok as (hd & tl & Hh & Htl & HS & Hn & Hrb).
  destruct (clear_body_spec (budget w) hd tl _ _ t (m_size m) HS) as (h' & Hrun & HS' & Hfr & Hdel);
    [lia|].
  rewrite <-(enter_eq m w hd tl) in Hrun by done.
  destruct (call_wf i (clear_body (budget w)) w T m t tt _ Leaf Hwf Hm Ht Hrun)
    as [Hcall Hwf']; try done.
  { exists hd, tl. split_and!; [done|done|done|done|by split; [|exists 0]]. }
  { intros b _ Hb'. apply Hfr. by rewrite <-(map_ok_fp (w_heap w) m t hd tl). }
  { by intros b ?%elem_of_nil. }
  eexists. split; [exact Hcall|]. split; [done|]. split.
  - unfold leave. simpl. by rewrite Hh, Htl.
  - intros b _ Hb'. simpl. apply Hfr. by rewrite <-(map_ok_fp (w_heap w) m t hd tl).
Qed.

Lemma map_default_maps w i :
  ∃ w' m', map_default (K:=K) (V:=V) i w = Ret tt w' ∧
    w_maps w' = <[i := m']> (w_maps w) ∧ m_root m' = None ∧ m_size m' = 0.
Proof.
  unfold map_default.
  set (h := w_heap w). set (hd := alloc h). set (h1 := <[hd := sentinel]> h).
  set (tl := alloc h1). set (h2 := <[tl := sentinel]> h1).
  assert (Htl1 : h1 !! tl = None) by apply alloc_fresh.
  assert (Hne : tl ≠ hd).
  { intros E. unfold h1 in Htl1. rewrite E, lookup_insert_eq in Htl1. done. }
  rewrite store_Some.
  2: { unfold h2, h1. rewrite lookup_insert_ne by done. by rewrite lookup_insert_eq. }
  rewrite store_Some.
  2: { rewrite alter_is_Some. unfold h2. by rewrite lookup_insert_eq. }
  by eexists _, _.
Qed.

Lemma same_shape_length t t' : same_shape t t' → length (addrs t) = length (addrs t').
Proof.
  revert t'. induction t as [|c l IHl x kv r IHr]; intros [|c' l' x' kv' r']; simpl; try done.
  intros (_ & Hl & Hr). rewrite !length_app. simpl. by rewrite (IHl l'), (IHr r').
Qed.

(** The clone of the tree of [j] hung into the empty container [i]. *)
Lemma clone_world w T i j m mo t fuel :
  wf w T → w_maps w !! i = Some m → T !! i = Some Leaf → j ≠ i →
  w_maps w !! j = Some mo → T !! j = Some t → t ≠ Leaf → length (addrs t) ≤ fuel →
  ∃ t' h' a,
    (let* hd := get_head in let* tl := get_tail in
     let* r := clone fuel (m_root mo) None hd tl in set_root r)
      (mk_state (w_heap w) (m_head m) (m_tail m) (m_root m) (m_size mo))
    = Some (tt, mk_state h' (m_head m) (m_tail m) (Some a) (m_size mo)) ∧
    same_shape t t' ∧ elems t' = elems t ∧
    wf (mk_world h' (<[i := mk_map (m_head m) (m_tail m) (Some a) (m_size mo)]> (w_maps w)))
       (<[i := t']> T) ∧
    (∀ b, is_Some (h' !! b) → is_Some (w_heap w !! b) ∨ b ∈ addrs t').
Proof.
  intros Hwf Hm Hti Hne Hmo Ht Hnl Hlen.
  destruct (wf_lookup _ _ _ _ Hwf Hm) as (t0 & Ht0 & Hok).
  assert (t0 = Leaf) as -> by congruence.
  destruct (wf_lookup _ _ _ _ Hwf Hmo) as (t1 & Ht1 & Hoko).
  assert (t1 = t) as -> by congruence.
  destruct Hok as (hd & tl & Hh & Htl & HS & _ & _).
  destruct Hoko as (hdo & tlo & _ & _ & HSo & Hno & Hrbo).
  pose proof HS as (Hnd & Hvh & Hvt & _ & _ & Hl). cbn [addrs dll] in Hl.
  pose proof HSo as (_ & _ & _ & Hro & [Hto _] & _).
  assert (Hht : hd ≠ tl).
  { apply NoDup_cons in Hnd as [Hnd _]. set_solver. }
  destruct (root_of t) as [o|] eqn:Eo; [|by destruct t].
  destruct (clone_spec fuel t Hlen (w_heap w) None hd tl (Some hd) (Some tl) (m_root m)
              (m_size mo) o Hto Eo Hl Hht)
    as (t' & h' & a & Hrun & Hroot & Hsh & He & Hnd' & Hfresh & Hok' & Hrt & Hd & CF & Hdom).
  destruct (link_alloc _ _ _ Hl) as [Hah Hat].
  exists t', h', a. split; [|split; [done|split; [done|split; [|done]]]].
  - rewrite Hh, Htl, Hro. rewrite bind_get_head, bind_get_tail. st_simpl.
    erewrite bind_ok by exact Hrun. done.
  - apply wf_insert; [done| | |].
    + exists hd, tl. split_and!; try done.
      * split_and!.
        -- apply NoDup_cons. split; [|apply NoDup_cons; split; [|done]].
           ++ intros [->|Hb]%elem_of_cons; [done|]. apply Hfresh in Hb.
              rewrite Hb in Hah. by destruct Hah.
           ++ intros Hb. apply Hfresh in Hb. rewrite Hb in Hat. by destruct Hat.
        -- rewrite (clone_frame_load value _ _ _ _ hd CF); [done|by left|by left|done].
        -- rewrite (clone_frame_load value _ _ _ _ tl CF); [done|by left|by left|done].
        -- done.
        -- split; [done|]. rewrite Hroot. simpl. by destruct (Hrt a o Hroot Eo) as [-> _].
        -- done.
      * simpl. by rewrite Hno, (same_shape_length _ _ Hsh).
      * by eapply same_shape_is_rb.
    + intros b Hb Hown. rewrite (own_eq _ _ _ _ _ Hm Hti) in Hown.
      rewrite (map_ok_fp (w_heap w) m Leaf hd tl) in Hown by done.
      destruct CF as (Ho & _). apply Ho; [done| |]; intros ->; set_solver.
    + intros b. rewrite (own_eq _ _ _ _ _ Hm Hti). unfold fp. simpl.
      rewrite !elem_of_app. intros [?|[?|Hb]]; auto.
Qed.

(** [map(const map &other)]: a new container with a copy of the tree. *)
Lemma map_copy_spec w T i j mo t :
  wf w T → i ≠ j → w_maps w !! j = Some mo → T !! j = Some t →
  ∃ t' w', map_copy i j w = Ret tt w' ∧ wf w' (<[i := t']> T) ∧
           same_shape t t' ∧ elems t' = elems t.
Proof.
  intros Hwf Hne Hmo Ht.
  destruct (map_default_spec w T i Hwf) as (w1 & Hdef & Hwf1).
  destruct (map_default_maps w i) as (w1' & m1 & Hdef' & Hmaps & Hr1 & Hs1).
  assert (w1' = w1) as -> by congruence.
  destruct (wf_lookup _ _ _ _ Hwf Hmo) as (t0 & Ht0 & Hoko).
  assert (t0 = t) as -> by congruence.
  pose proof (map_ok_budget _ _ _ Hoko) as Hb.
  assert (Hmo1 : w_maps w1 !! j = Some mo) by (by rewrite Hmaps, lookup_insert_ne).
  assert (Hm1 : w_maps w1 !! i = Some m1) by (by rewrite Hmaps, lookup_insert_eq).
  unfold map_copy. rewrite Hdef, Hmo1.
  case_bool_decide as Hsz.
  - exists Leaf, w1. destruct Hoko as (_ & _ & _ & _ & _ & Hn & _).
    assert (t = Leaf) as ->.
    { rewrite Hsz in Hn. destruct t; [done|]. simpl in Hn. rewrite length_app in Hn.
      simpl in Hn. lia. }
    done.
  - assert (Hnl : t ≠ Leaf).
    { intros ->. by destruct Hoko as (_ & _ & _ & _ & _ & Hn & _). }
    destruct (clone_world w1 (<[i := Leaf]> T) i j m1 mo t (budget w) Hwf1 Hm1)
      as (t' & h' & a & Hrun & Hsh & He & Hwf' & _);
      [by rewrite lookup_insert_eq|done|done|by rewrite lookup_insert_ne|done|lia|].
    rewrite insert_insert_eq in Hwf'.
    exists t'. eexists. split; [|done].
    unfold call. rewrite Hm1. rewrite bind_set_size. unfold enter. st_simpl.
    rewrite Hrun. done.
Qed.

(** [operator=] from another container. *)
Lemma operator_assign_spec w T i j m ti mo t :
  wf w T → i ≠ j → w_maps w !! i = Some m → T !! i = Some ti →
  w_maps w !! j = Some mo → T !! j = Some t →
  ∃ t' w', operator_assign i j w = Ret tt w' ∧ wf w' (<[i := t']> T) ∧
           same_shape t t' ∧ elems t' = elems t.
Proof.
  intros Hwf Hne Hm Hti Hmo Ht.
  destruct (clear_spec w T i m ti Hwf Hm Hti) as (w1 & Hclear & Hwf1 & Hmaps & Hfr).
  destruct (wf_lookup _ _ _ _ Hwf Hmo) as (t0 & Ht0 & Hoko).
  assert (t0 = t) as -> by congruence.
  pose proof (map_ok_budget _ _ _ Hoko) as Hb.
  set (m1 := mk_map (m_head m) (m_tail m) None 0) in *.
  assert (Hmo1 : w_maps w1 !! j = Some mo) by (by rewrite Hmaps, lookup_insert_ne).
  assert (Hm1 : w_maps w1 !! i = Some m1) by (by rewrite Hmaps, lookup_insert_eq).
  unfold operator_assign. rewrite bool_decide_false by done. rewrite Hclear, Hmo1.
  unfold call at 1. rewrite Hm1. unfold set_size at 1, with_size, leave, enter. simpl.
  case_bool_decide as Hsz.
  - exists Leaf. eexists. split; [done|].
    destruct Hoko as (_ & _ & _ & _ & _ & Hn & _).
    assert (t = Leaf) as ->.
    { rewrite Hsz in Hn. destruct t; [done|]. simpl in Hn. rewrite length_app in Hn.
      simpl in Hn. lia. }
    split; [|done]. rewrite Hsz. fold m1. rewrite insert_id by done. by destruct w1.
  - assert (Hnl : t ≠ Leaf).
    { intros ->. by destruct Hoko as (_ & _ & _ & _ & _ & Hn & _). }
    destruct (clone_world w1 (<[i := Leaf]> T) i j m1 mo t (budget w) Hwf1 Hm1)
      as (t' & h' & a & Hrun & Hsh & He & Hwf' & _);
      [by rewrite lookup_insert_eq|done|done|by rewrite lookup_insert_ne|done|lia|].
    rewrite insert_insert_eq in Hwf'.
    exists t'. eexists. split; [|done].
    unfold call. simpl. rewrite lookup_insert_eq. unfold enter. simpl.
    simpl in Hrun. rewrite Hrun. unfold leave. simpl. by rewrite insert_insert_eq.
Qed.

(** [~map()]. *)
Lemma map_destroy_spec w T i m t :
  wf w T → w_maps w !! i = Some m → T !! i = Some t →
  ∃ w', map_destroy i w = Ret tt w' ∧ wf w' (delete i T).
Proof.
  intros Hwf Hm Ht.
  destruct (wf_lookup _ _ _ _ Hwf Hm) as (t0 & Ht0 & Hok).
  assert (t0 = t) as -> by congruence.
  pose proof (map_ok_budget _ _ _ Hok) as Hb.
  pose proof Hok as (hd & tl & Hh & Htl & HS & Hn & Hrb).
  destruct (clear_body_spec (budget w) hd tl _ _ t (m_size m) HS) as (h' & Hrun & HS' & Hfr & Hdel);
    [lia|].
  rewrite <-(enter_eq m w hd tl) in Hrun by done.
  pose proof (Shape_alloc _ _ _ _ _ hd HS' ltac:(set_solver)) as [nh Hah].
  pose proof (Shape_alloc _ _ _ _ _ tl HS' ltac:(set_solver)) as [nt Hat].
  assert (Hht : hd ≠ tl).
  { destruct HS' as (Hnd & _). apply NoDup_cons in Hnd as [Hnd _]. set_solver. }
  unfold map_destroy, call. rewrite Hm.
  erewrite bind_ok by exact Hrun. rewrite bind_get_head. st_simpl.
  unfold bind at 1, delete_node at 1. st_simpl. rewrite Hah.
  rewrite bind_get_tail. st_simpl. unfold delete_node. st_simpl.
  rewrite lookup_delete_ne by done. rewrite Hat. st_simpl.
  eexists. split; [done|]. unfold leave. simpl. rewrite delete_insert_eq.
  apply wf_delete; [done|]. simpl.
  intros b Hb' Hown. rewrite (own_eq _ _ _ _ _ Hm Ht) in Hown.
  rewrite (map_ok_fp (w_heap w) m t hd tl) in Hown by done.
  rewrite !lookup_delete_ne by (intros ->; set_solver). by apply Hfr.
Qed.

(** *** Assignment through a reference to a mapped value *)

(** The tree with the pair of the node [x] replaced. *)
Fixpoint tset (x : addr) (kv' : K * V) t : tree K V :=
  match t with
  | Leaf => Leaf
  | Node c l y kv r =>
      Node c (tset x kv' l) y (if decide (y = x) then kv' else kv) (tset x kv' r)
  end.

Lemma addrs_tset x kv' t : addrs (tset x kv' t) = addrs t.
Proof. induction t as [|c l IHl y kv r IHr]; simpl; [done|]. by rewrite IHl, IHr. Qed.
Lemma root_of_tset x kv' t : root_of (tset x kv' t) = root_of t.
Proof. by destruct t. Qed.
Lemma same_shape_tset x kv' t : same_shape t (tset x kv' t).
Proof. induction t; simpl; auto. Qed.
Lemma nodes_tset x kv' t :
  nodes (tset x kv' t) = (λ n, if decide (n.1 = x) then (x, kv') else n) <$> nodes t.
Proof.
  induction t as [|c l IHl y kv r IHr]; simpl; [done|].
  rewrite fmap_app, fmap_cons, IHl, IHr. simpl. by destruct (decide (y = x)) as [->|].
Qed.

Lemma nodes_tset_split x kv kv' t n1 n2 :
  NoDup (addrs t) → nodes t = n1 ++ (x, kv) :: n2 →
  nodes (tset x kv' t) = n1 ++ (x, kv') :: n2.
Proof.
  intros Hnd E. rewrite nodes_tset, E, fmap_app, fmap_cons. simpl.
  rewrite decide_True by done.
  rewrite <-nodes_addrs, E, fmap_app, fmap_cons in Hnd. simpl in Hnd.
  apply NoDup_app in Hnd as (_ & H1 & [H2 _]%NoDup_cons).
  f_equal; [|f_equal].
  - rewrite <-(list_fmap_id n1) at 2. apply list_fmap_ext. intros k [a e] Hk.
    simpl. rewrite decide_False; [done|]. intros ->.
    apply (H1 x); [|set_solver]. apply list_elem_of_fmap. exists (x, e).
    split; [done|]. by eapply list_elem_of_lookup_2.
  - rewrite <-(list_fmap_id n2) at 2. apply list_fmap_ext. intros k [a e] Hk.
    simpl. rewrite decide_False; [done|]. intros ->.
    apply H2. apply list_elem_of_fmap. exists (x, e).
    split; [done|]. by eapply list_elem_of_lookup_2.
Qed.

Lemma tree_ok_tset h x kv' t :
  tree_ok h t → tree_ok (alter (set_value (Some kv')) x h) (tset x kv' t).
Proof.
  induction t as [|c l IHl y kv r IHr]; [done|]. simpl.
  intros (Hc & Hv & Hl & Hr & Hul & Hur & Htl & Htr).
  rewrite !root_of_tset.
  split_and!; try (by auto); try (by rewrite load_alter_indep by done).
  - destruct (decide (y = x)) as [->|Hne].
    + apply load_alter_same; [done|]. by eapply load_alloc.
    + by rewrite load_alter_ne by congruence.
  - destruct (root_of l); [|done]. destruct Hul. split; by rewrite load_alter_indep.
  - destruct (root_of r); [|done]. destruct Hur. split; by rewrite load_alter_indep.
Qed.

Lemma Shape_tset hd tl h r x kv' t :
  Shape hd tl h r t → x ∈ addrs t →
  Shape hd tl (alter (set_value (Some kv')) x h) r (tset x kv' t).
Proof.
  intros (Hnd & Hh & Ht & Hr & [Hok Hup] & Hd) Hx.
  assert (hd ≠ x ∧ tl ≠ x) as [? ?].
  { apply NoDup_cons in Hnd as [Hnd1 [Hnd2 _]%NoDup_cons]. split; intros ->; set_solver. }
  split_and!; rewrite ?addrs_tset, ?root_of_tset; try done.
  - by rewrite load_alter_ne by congruence.
  - by rewrite load_alter_ne by congruence.
  - split; [by apply tree_ok_tset|]. rewrite root_of_tset.
    destruct (root_of t); simpl in *; [|done]. by rewrite load_alter_indep.
  - apply dll_frame with h; [done|]. intros z _. unfold same_links.
    by rewrite !load_alter_indep.
Qed.

Lemma assign_mapped_spec w T i m t x kv v :
  wf w T → w_maps w !! i = Some m → T !! i = Some t → (x, kv) ∈ nodes t →
  ∃ w', assign_mapped (Some x) v w = Ret tt w' ∧ wf w' (<[i := tset x (kv.1, v) t]> T).
Proof.
  intros Hwf Hm Ht Hin.
  destruct (wf_lookup _ _ _ _ Hwf Hm) as (t0 & Ht0 & Hok).
  assert (t0 = t) as -> by congruence.
  pose proof (map_ok_value _ _ _ _ _ Hok Hin) as Hv.
  pose proof (nodes_in_addrs _ _ _ Hin) as Hx.
  unfold assign_mapped. rewrite Hv. rewrite store_Some by (by eapply load_alloc).
  eexists. split; [done|].
  rewrite <-(insert_id (w_maps w) i m Hm).
  destruct Hok as (hd & tl & Hh & Htl & HS & Hn & Hrb).
  apply wf_insert; [done| | |].
  - exists hd, tl. split_and!; try done.
    + by apply Shape_tset.
    + by rewrite addrs_tset.
    + eapply same_shape_is_rb; [apply same_shape_tset|done].
  - intros b _ Hb. simpl. apply lookup_alter_ne. intros ->. apply Hb.
    rewrite (own_eq _ _ _ _ _ Hm Ht). unfold fp. set_solver.
  - intros b. rewrite (own_eq _ _ _ _ _ Hm Ht). unfold fp. rewrite addrs_tset. auto.
Qed.

(** *** Lookup *)

Lemma at_spec w T i m t key :
  wf w T → w_maps w !! i = Some m → T !! i = Some t →
  at_ comparing_function i key w
  = match tfind comparing_function key t with
    | Some (a, _) => Ret (Some a) w
    | None => Throw index_out_of_bound w
    end.
Proof.
  intros Hwf Hm Ht.
  destruct (wf_lookup _ _ _ _ Hwf Hm) as (t0 & Ht0 & Hok).
  assert (t0 = t) as -> by congruence.
  unfold at_. rewrite (find_spec w T i m t key Hwf Hm Ht), (end_spec w i m Hm).
  pose proof (tfind_Some comparing_function key t) as HF.
  destruct (tfind comparing_function key t) as [[a kv]|].
  - destruct (HF a kv eq_refl) as [Hin _].
    destruct (map_ok_tail_fresh _ _ _ _ Hok (nodes_in_addrs _ _ _ Hin)) as [Hne _].
    unfold it_eqb. simpl. rewrite ptr_eqb_ne by done.
    unfold operator_arrow, arrow_body, it_tail. simpl. rewrite Hm. simpl.
    rewrite ptr_eqb_ne by done.
    by rewrite (map_ok_value _ _ _ _ _ Hok Hin).
  - unfold it_eqb. simpl. by rewrite ptr_eqb_refl.
Qed.

Lemma count_spec w T i m t key :
  wf w T → w_maps w !! i = Some m → T !! i = Some t →
  count comparing_function i key w
  = Ret (if tfind comparing_function key t is Some _ then 1 else 0) w.
Proof.
  intros Hwf Hm Ht.
  destruct (wf_lookup _ _ _ _ Hwf Hm) as (t0 & Ht0 & Hok).
  assert (t0 = t) as -> by congruence.
  unfold count. rewrite (find_spec w T i m t key Hwf Hm Ht), (end_spec w i m Hm).
  pose proof (tfind_Some comparing_function key t) as HF.
  destruct (tfind comparing_function key t) as [[a kv]|].
  - destruct (HF a kv eq_refl) as [Hin _].
    destruct (map_ok_tail_fresh _ _ _ _ Hok (nodes_in_addrs _ _ _ Hin)) as [Hne _].
    unfold it_eqb. simpl. by rewrite ptr_eqb_ne by done.
  - unfold it_eqb. simpl. by rewrite ptr_eqb_refl.
Qed.

(** *** Iterators *)

(** The node after and the node before an entry of the sequence. *)
Definition next_of m (n2 : list (addr * (K * V))) : ptr :=
  match n2 with [] => m_tail m | n :: _ => Some n.1 end.
Definition prev_of m (n1 : list (addr * (K * V))) : ptr :=
  match last n1 with None => m_head m | Some n => Some n.1 end.

Lemma map_ok_links h m t n1 x kv n2 :
  map_ok h m t → nodes t = n1 ++ (x, kv) :: n2 →
  load next (Some x) h = Some (next_of m n2) ∧ load prev (Some x) h = Some (prev_of m n1).
Proof.
  intros (hd & tl & Hh & Htl & (_ & _ & _ & _ & _ & Hd) & _) E.
  rewrite <-nodes_addrs, E, fmap_app, fmap_cons in Hd. simpl in Hd.
  apply dll_elem in Hd as [[_ Hp] [Hn _]]. unfold next_of, prev_of. split.
  - rewrite Hn. destruct n2; simpl; by rewrite ?Htl.
  - rewrite Hp. rewrite fmap_last. destruct (last n1); simpl; by rewrite ?Hh.
Qed.

Lemma operator_incr_spec w T i m t n1 x kv n2 :
  wf w T → w_maps w !! i = Some m → T !! i = Some t → nodes t = n1 ++ (x, kv) :: n2 →
  operator_incr (mk_iterator (Some i) (Some x)) w
  = Ret tt (mk_iterator (Some i) (next_of m n2), w).
Proof.
  intros Hwf Hm Ht E.
  destruct (wf_lookup _ _ _ _ Hwf Hm) as (t0 & Ht0 & Hok).
  assert (t0 = t) as -> by congruence.
  assert (Hx : x ∈ addrs t).
  { apply (nodes_in_addrs _ _ kv). rewrite E. set_solver. }
  destruct (map_ok_tail_fresh _ _ _ _ Hok Hx) as [Hne _].
  destruct (map_ok_links _ _ _ _ _ _ _ Hok E) as [Hn _].
  unfold operator_incr, it_tail. simpl. rewrite Hm. simpl.
  rewrite ptr_eqb_ne by done. by rewrite Hn.
Qed.

Lemma operator_decr_spec w T i m t n1 x kv n2 :
  wf w T → w_maps w !! i = Some m → T !! i = Some t → nodes t = n1 ++ (x, kv) :: n2 →
  n1 ≠ [] →
  operator_decr (mk_iterator (Some i) (Some x)) w
  = Ret tt (mk_iterator (Some i) (prev_of m n1), w).
Proof.
  intros Hwf Hm Ht E Hn1.
  destruct (wf_lookup _ _ _ _ Hwf Hm) as (t0 & Ht0 & Hok).
  assert (t0 = t) as -> by congruence.
  destruct (map_ok_links _ _ _ _ _ _ _ Hok E) as [_ Hp].
  pose proof (map_ok_first _ _ _ Hok) as Hf.
  unfold operator_decr, it_first. simpl. rewrite Hm. simpl. rewrite Hf.
  rewrite ptr_eqb_ne.
  - by rewrite Hp.
  - unfold first_of. rewrite <-nodes_addrs, E.
    destruct n1 as [|[y kvy] n1]; [done|]. simpl. intros [= ->].
    destruct Hok as (hd & tl & _ & _ & (Hnd & _) & _).
    rewrite <-nodes_addrs, E in Hnd. simpl in Hnd.
    apply NoDup_cons in Hnd as [_ [_ Hnd]%NoDup_cons].
    apply NoDup_cons in Hnd as [Hnd _]. apply Hnd.
    rewrite fmap_app, fmap_cons. set_solver.
Qed.

End world.

(** ** The worlds a program reaches

    A program declares containers, copies, assigns and destroys them, and
    calls their public member functions; positions and references are the
    ones of entries that exist. *)

Section reachable.
Context {K V : Type}.
Variable comparing_function : K → K → bool.
Variable default_V : V.
Implicit Types (h : gmap addr (rbt_node K V)) (t : tree K V).
Implicit Types (w : world K V) (m : map_obj) (T : gmap addr (tree K V)).

(** The node [x] holds an entry of the container [i]. *)
Definition entry_of w (i x : addr) : Prop :=
  ∃ l, entries w i = Some l ∧ x ∈ l.*1.

Inductive reachable : world K V → Prop :=
  | reach_init : reachable (mk_world ∅ ∅)
  | reach_map_default w i w' :
      reachable w → w_maps w !! i = None → map_default i w = Ret tt w' → reachable w'
  | reach_map_copy w i j w' :
      reachable w → w_maps w !! i = None → is_Some (w_maps w !! j) →
      map_copy i j w = Ret tt w' → reachable w'
  | reach_operator_assign w i j w' :
      reachable w → operator_assign i j w = Ret tt w' → reachable w'
  | reach_map_destroy w i w' :
      reachable w → map_destroy i w = Ret tt w' → reachable w'
  | reach_clear w i w' :
      reachable w → clear i w = Ret tt w' → reachable w'
  | reach_insert w i v r w' :
      reachable w → insert comparing_function i v w = Ret r w' → reachable w'
  | reach_operator_index w i key r w' :
      reachable w → operator_index comparing_function default_V i key w = Ret r w' →
      reachable w'
  | reach_erase w i x w' :
      reachable w → entry_of w i x →
      erase i (mk_iterator (Some i) (Some x)) w = Ret tt w' → reachable w'
  | reach_assign_mapped w i x v w' :
      reachable w → entry_of w i x → assign_mapped (Some x) v w = Ret tt w' →
      reachable w'.

(** Every tree is sorted. *)
Definition all_sorted T : Prop := ∀ i t, T !! i = Some t → sorted comparing_function t.

Lemma all_sorted_insert T i t :
  all_sorted T → sorted comparing_function t → all_sorted (<[i := t]> T).
Proof.
  intros HT Ht j tj. destruct (decide (j = i)) as [->|].
  - rewrite lookup_insert_eq. by intros [= <-].
  - rewrite lookup_insert_ne by done. apply HT.
Qed.
Lemma all_sorted_delete T i : all_sorted T → all_sorted (delete i T).
Proof. intros HT j tj [_ ?]%lookup_delete_Some. by eapply HT. Qed.

Lemma sorted_nodes t : sorted comparing_function t ↔ ascending comparing_function (nodes t).*2.
Proof. unfold sorted. by rewrite nodes_elems. Qed.

Lemma ascending_replace (l1 l2 : list (K * V)) kv kv' :
  kv'.1 = kv.1 →
  ascending comparing_function (l1 ++ kv :: l2) → ascending comparing_function (l1 ++ kv' :: l2).
Proof.
  intros E. unfold ascending. rewrite !StronglySorted_app, !StronglySorted_cons, !Forall_forall.
  intros (H12 & H1 & H2 & H3). split_and!; try done.
  - intros x1 x2 Hx1 [->|Hx2]%elem_of_cons.
    + unfold kv_lt. rewrite E. apply (H12 x1 kv); [done|set_solver].
    + apply H12; [done|set_solver].
  - intros x Hx. unfold kv_lt. rewrite E. by apply H2.
Qed.

Lemma wf_entries w T i m t :
  wf w T → w_maps w !! i = Some m → T !! i = Some t →
  map_ok (w_heap w) m t ∧
  entries w i = Some (nodes t) ∧ entries_rev w i = Some (reverse (nodes t)) ∧
  read_tree (budget w) (w_heap w) (m_root m) = Some t.
Proof.
  intros Hwf Hm Ht.
  destruct (wf_lookup _ _ _ _ Hwf Hm) as (t0 & Ht0 & Hok).
  assert (t0 = t) as -> by congruence.
  split_and!; [done|by eapply entries_ok|by eapply entries_rev_ok|].
  pose proof (map_ok_budget _ _ _ Hok) as Hb.
  destruct Hok as (hd & tl & _ & _ & (_ & _ & _ & -> & [Hto _] & _) & _).
  apply read_tree_ok; [done|lia].
Qed.

Lemma entries_map w i l : entries w i = Some l → ∃ m, w_maps w !! i = Some m.
Proof. unfold entries. destruct (w_maps w !! i); [eauto|done]. Qed.

Lemma wf_entry_of w T i x :
  wf w T → entry_of w i x →
  ∃ m t kv, w_maps w !! i = Some m ∧ T !! i = Some t ∧ (x, kv) ∈ nodes t.
Proof.
  intros Hwf (l & Hl & Hx). destruct (entries_map _ _ _ Hl) as [m Hm].
  destruct (wf_lookup _ _ _ _ Hwf Hm) as (t & Ht & Hok).
  destruct (wf_entries _ _ _ _ _ Hwf Hm Ht) as (_ & He & _).
  assert (l = nodes t) as -> by congruence.
  apply list_elem_of_fmap in Hx as ([x' kv] & -> & Hin). by exists m, t, kv.
Qed.

Lemma call_None {A} (f : M K V A) w i : w_maps w !! i = None → call i f w = Fault.
Proof. unfold call. by intros ->. Qed.

(** The invariant of the reachable worlds. *)
Lemma reachable_wf w :
  reachable w → ∃ T, wf w T ∧ (cmp_transitive comparing_function → all_sorted T).
Proof.
  induction 1 as [|w i w' _ [T [Hwf Hso]] Hi Hrun
                  |w i j w' _ [T [Hwf Hso]] Hi [mo Hj] Hrun
                  |w i j w' _ [T [Hwf Hso]] Hrun
                  |w i w' _ [T [Hwf Hso]] Hrun
                  |w i w' _ [T [Hwf Hso]] Hrun
                  |w i v r w' _ [T [Hwf Hso]] Hrun
                  |w i key r w' _ [T [Hwf Hso]] Hrun
                  |w i x w' _ [T [Hwf Hso]] Hx Hrun
                  |w i x v w' _ [T [Hwf Hso]] Hx Hrun].
  - exists ∅. split; [|by intros _ i t ?]. split.
    + intros i. simpl. by rewrite !lookup_empty.
    + intros i j m m' t t' _. simpl. by rewrite lookup_empty.
  - destruct (map_default_spec w T i Hwf) as (w1 & Hrun1 & Hwf1).
    assert (w1 = w') as -> by congruence.
    exists (<[i := Leaf]> T). split; [done|]. intros Htr.
    apply all_sorted_insert; [auto|]. constructor.
  - destruct (wf_lookup _ _ _ _ Hwf Hj) as (t & Ht & _).
    assert (i ≠ j) by congruence.
    destruct (map_copy_spec w T i j mo t Hwf) as (t' & w1 & Hrun1 & Hwf1 & _ & He); try done.
    assert (w1 = w') as -> by congruence.
    exists (<[i := t']> T). split; [done|]. intros Htr.
    apply all_sorted_insert; [auto|]. unfold sorted. rewrite He. by apply (Hso Htr j).
  - destruct (decide (i = j)) as [->|Hne].
    { unfold operator_assign in Hrun. rewrite bool_decide_true in Hrun by done.
      destruct (w_maps w !! j); [|done]. injection Hrun as <-. by exists T. }
    destruct (w_maps w !! i) as [m|] eqn:Hm.
    2: { unfold operator_assign, clear in Hrun. rewrite bool_decide_false in Hrun by done.
         by rewrite call_None in Hrun. }
    destruct (wf_lookup _ _ _ _ Hwf Hm) as (ti & Hti & _).
    destruct (w_maps w !! j) as [mo|] eqn:Hmo.
    2: { destruct (clear_spec w T i m ti Hwf Hm Hti) as (w1 & Hc & _ & Hmaps & _).
         unfold operator_assign in Hrun. rewrite bool_decide_false in Hrun by done.
         rewrite Hc in Hrun. rewrite Hmaps, lookup_insert_ne, Hmo in Hrun by done. done. }
    destruct (wf_lookup _ _ _ _ Hwf Hmo) as (t & Ht & _).
    destruct (operator_assign_spec w T i j m ti mo t Hwf) as (t' & w1 & Hrun1 & Hwf1 & _ & He);
      try done.
    assert (w1 = w') as -> by congruence.
    exists (<[i := t']> T). split; [done|]. intros Htr.
    apply all_sorted_insert; [auto|]. unfold sorted. rewrite He. by apply (Hso Htr j).
  - destruct (w_maps w !! i) as [m|] eqn:Hm.
    2: { unfold map_destroy in Hrun. by rewrite call_None in Hrun. }
    destruct (wf_lookup _ _ _ _ Hwf Hm) as (t & Ht & _).
    destruct (map_destroy_spec w T i m t Hwf Hm Ht) as (w1 & Hrun1 & Hwf1).
    assert (w1 = w') as -> by congruence.
    exists (delete i T). split; [done|]. intros Htr. apply all_sorted_delete. auto.
  - destruct (w_maps w !! i) as [m|] eqn:Hm.
    2: { unfold clear in Hrun. by rewrite call_None in Hrun. }
    destruct (wf_lookup _ _ _ _ Hwf Hm) as (t & Ht & _).
    destruct (clear_spec w T i m t Hwf Hm Ht) as (w1 & Hrun1 & Hwf1 & _).
    assert (w1 = w') as -> by congruence.
    exists (<[i := Leaf]> T). split; [done|]. intros Htr.
    apply all_sorted_insert; [auto|]. constructor.
  - destruct (w_maps w !! i) as [m|] eqn:Hm.
    2: { unfold insert in Hrun. by rewrite call_None in Hrun. }
    destruct (wf_lookup _ _ _ _ Hwf Hm) as (t & Ht & _).
    pose proof (insert_spec comparing_function w T i m t v Hwf Hm Ht) as Hspec.
    pose proof (insert_sorted comparing_function t) as Hins.
    destruct (locate comparing_function v.1 t Top) as [k' t'|k'] eqn:Hloc.
    + assert (w' = w) as -> by congruence. by exists T.
    + destruct Hspec as (t'' & w1 & n1 & n2 & Hfix & _ & _ & Hrun1 & Hwf1).
      assert (w1 = w') as -> by congruence.
      exists (<[i := t'']> T). split; [done|]. intros Htr.
      apply all_sorted_insert; [auto|].
      eapply (Hins k' _ v); eauto. by apply (Hso Htr i).
  - destruct (w_maps w !! i) as [m|] eqn:Hm.
    2: { unfold operator_index in Hrun. by rewrite call_None in Hrun. }
    destruct (wf_lookup _ _ _ _ Hwf Hm) as (t & Ht & _).
    pose proof (operator_index_spec comparing_function default_V w T i m t key Hwf Hm Ht)
      as Hspec.
    pose proof (insert_sorted comparing_function t) as Hins.
    destruct (locate comparing_function key t Top) as [k' t'|k'] eqn:Hloc.
    + assert (w' = w) as -> by congruence. by exists T.
    + destruct Hspec as (t'' & w1 & n1 & n2 & Hfix & _ & _ & Hrun1 & Hwf1).
      assert (w1 = w') as -> by congruence.
      exists (<[i := t'']> T). split; [done|]. intros Htr.
      apply all_sorted_insert; [auto|].
      eapply (Hins k' _ (key, default_V)); eauto. by apply (Hso Htr i).
  - destruct (wf_entry_of _ _ _ _ Hwf Hx) as (m & t & kv & Hm & Ht & Hin).
    destruct (erase_spec w T i m t x Hwf Hm Ht (nodes_in_addrs _ _ _ Hin))
      as (n1 & kv' & n2 & t' & w1 & E1 & E2 & Hrun1 & Hwf1 & _).
    assert (w1 = w') as -> by congruence.
    exists (<[i := t']> T). split; [done|]. intros Htr.
    apply all_sorted_insert; [auto|]. apply sorted_nodes.
    pose proof (Hso Htr i t Ht) as Hs. apply sorted_nodes in Hs.
    rewrite E1, fmap_app, fmap_cons in Hs. rewrite E2, fmap_app.
    by apply ascending_delete in Hs.
  - destruct (wf_entry_of _ _ _ _ Hwf Hx) as (m & t & kv & Hm & Ht & Hin).
    destruct (assign_mapped_spec w T i m t x kv v Hwf Hm Ht Hin) as (w1 & Hrun1 & Hwf1).
    assert (w1 = w') as -> by congruence.
    exists (<[i := tset x (kv.1, v) t]> T). split; [done|]. intros Htr.
    apply all_sorted_insert; [auto|]. apply sorted_nodes.
    pose proof (Hso Htr i t Ht) as Hs. apply sorted_nodes in Hs.
    apply list_elem_of_split in Hin as (n1 & n2 & E).
    destruct (wf_lookup _ _ _ _ Hwf Hm) as (t0 & Ht0 & (hd & tl & _ & _ & (Hnd & _) & _)).
    assert (t0 = t) as -> by congruence.
    apply NoDup_cons in Hnd as [_ [_ Hnd]%NoDup_cons].
    rewrite (nodes_tset_split x kv (kv.1, v) t n1 n2 Hnd E), fmap_app, fmap_cons.
    rewrite E, fmap_app, fmap_cons in Hs. by eapply ascending_replace; [|exact Hs].
Qed.

End reachable.

(** ** The behaviour of the public operations *)

Section behaviour.
Context {K V : Type}.
Variable comparing_function : K → K → bool.
Variable default_V : V.
Implicit Types (h : gmap addr (rbt_node K V)) (t : tree K V).
Implicit Types (w : world K V) (m : map_obj) (T : gmap addr (tree K V)).

Local Abbreviation reachable := (reachable comparing_function default_V).

(** *** The red-black properties, read literally *)

(** No RED node has a RED child. *)
Fixpoint no_red_red t : Prop :=
  match t with
  | Leaf => True
  | Node c l _ _ r =>
      (c = RED → tcolor l = BLACK ∧ tcolor r = BLACK) ∧ no_red_red l ∧ no_red_red r
  end.

(** The numbers of BLACK nodes on the paths from the root to the empty
    child positions. *)
Fixpoint black_counts t : list nat :=
  match t with
  | Leaf => [0]
  | Node c l _ _ r =>
      (λ n, if c is BLACK then S n else n) <$> (black_counts l ++ black_counts r)
  end.

Lemma tcolor_nob t : null_or_black_t t = true ↔ tcolor t = BLACK.
Proof. by destruct t as [|[] ? ? ? ?]. Qed.

Lemma rb_literal n t : rb n t → no_red_red t ∧ ∀ p, p ∈ black_counts t → p = n.
Proof.
  revert n. induction t as [|c l IHl x kv r IHr]; intros n; simpl.
  - intros ->. split; [done|]. by intros p ->%list_elem_of_singleton.
  - destruct c.
    + intros (Hbl & Hbr & Hl & Hr). destruct (IHl n Hl) as [? Hpl].
      destruct (IHr n Hr) as [? Hpr]. split.
      * split_and!; try done. intros _. by rewrite <-!tcolor_nob.
      * intros p (q & -> & [Hq|Hq]%elem_of_app)%list_elem_of_fmap; auto.
    + intros (k & -> & Hl & Hr). destruct (IHl k Hl) as [? Hpl].
      destruct (IHr k Hr) as [? Hpr]. split.
      * split_and!; done.
      * intros p (q & -> & [Hq|Hq]%elem_of_app)%list_elem_of_fmap; f_equal; auto.
Qed.

(** C1. After every sequence of public operations from the empty world,
    the tree of every container satisfies the red-black properties: the
    root is BLACK, no RED node has a RED child, and all paths from the root
    to an empty child position hold the same number of BLACK nodes. *)
Theorem red_black_after_every_operation w i m :
  reachable w → w_maps w !! i = Some m →
  ∃ t, read_tree (budget w) (w_heap w) (m_root m) = Some t ∧
       tcolor t = BLACK ∧ no_red_red t ∧
       ∃ n, ∀ p, p ∈ black_counts t → p = n.
Proof.
  intros (T & Hwf & _)%reachable_wf Hm.
  destruct (wf_lookup _ _ _ _ Hwf Hm) as (t & Ht & Hok).
  destruct (wf_entries _ _ _ _ _ Hwf Hm Ht) as (_ & _ & _ & Hread).
  destruct Hok as (_ & _ & _ & _ & _ & _ & [Hb [n Hn]]).
  exists t. split; [done|]. split; [by apply tcolor_nob|].
  destruct (rb_literal _ _ Hn) as [? ?]. eauto.
Qed.

(** *** The sequence layer *)

(** C2. After every sequence of public operations, walking [next] from the
    head sentinel ends at the tail sentinel and visits the nodes of the
    tree, each once, in the order of an in-order traversal, with strictly
    ascending keys; walking [prev] from the tail gives the reverse. *)
Theorem sequence_is_sorted_inorder w i m :
  cmp_transitive comparing_function →
  reachable w → w_maps w !! i = Some m →
  ∃ t, read_tree (budget w) (w_heap w) (m_root m) = Some t ∧
       entries w i = Some (nodes t) ∧
       NoDup (nodes t).*1 ∧
       ascending comparing_function (nodes t).*2 ∧
       entries_rev w i = Some (reverse (nodes t)).
Proof.
  intros Htr (T & Hwf & Hso)%reachable_wf Hm.
  destruct (wf_lookup _ _ _ _ Hwf Hm) as (t & Ht & Hok).
  destruct (wf_entries _ _ _ _ _ Hwf Hm Ht) as (_ & He & Her & Hread).
  exists t. split_and!; try done.
  - rewrite nodes_addrs. destruct Hok as (hd & tl & _ & _ & (Hnd & _) & _).
    by apply NoDup_cons in Hnd as [_ [_ ?]%NoDup_cons].
  - apply sorted_nodes. by apply (Hso Htr i).
Qed.

(** *** Insertion of a present key *)

Definition equiv_transitive : Prop :=
  ∀ a b c, equiv_key comparing_function a b → equiv_key comparing_function b c →
           equiv_key comparing_function a c.

Lemma equiv_key_sym a b :
  equiv_key comparing_function a b → equiv_key comparing_function b a.
Proof. by intros [? ?]. Qed.

(** In an ascending sequence at most one entry has a key equivalent to a
    given one. *)
Lemma nodes_equiv_unique (l : list (addr * (K * V))) a b key :
  equiv_transitive → ascending comparing_function l.*2 →
  a ∈ l → b ∈ l →
  equiv_key comparing_function a.2.1 key → equiv_key comparing_function b.2.1 key → a = b.
Proof.
  intros Het Hs Ha Hb Hea Heb.
  assert (Hab : equiv_key comparing_function a.2.1 b.2.1).
  { eapply Het; [exact Hea|]. by apply equiv_key_sym. }
  apply list_elem_of_split in Ha as (l1 & l2 & ->).
  unfold ascending in Hs. rewrite fmap_app, fmap_cons in Hs.
  apply StronglySorted_app in Hs as (H12 & _ & H2).
  apply StronglySorted_cons in H2 as [H2 _]. rewrite Forall_forall in H2.
  apply elem_of_app in Hb as [Hb|[->|Hb]%elem_of_cons]; [|done|].
  - assert (kv_lt comparing_function b.2 a.2) as Hlt.
    { apply H12; [by apply list_elem_of_fmap_2|set_solver]. }
    unfold kv_lt in Hlt. destruct Hab. congruence.
  - assert (kv_lt comparing_function a.2 b.2) as Hlt.
    { apply H2. by apply list_elem_of_fmap_2. }
    unfold kv_lt in Hlt. destruct Hab. congruence.
Qed.

(** C3. Inserting a pair whose key is equivalent to the key of an entry
    changes nothing in the world (the tree, the links, the stored values
    and the size are the same) and returns the position of that entry with
    the flag [false]. *)
Theorem insert_existing_key_changes_nothing w i l x kv v :
  cmp_transitive comparing_function → equiv_transitive →
  reachable w → entries w i = Some l → (x, kv) ∈ l →
  equiv_key comparing_function kv.1 v.1 →
  insert comparing_function i v w = Ret (mk_iterator (Some i) (Some x), false) w.
Proof.
  intros Htr Het (T & Hwf & Hso)%reachable_wf Hl Hin Heq.
  destruct (entries_map _ _ _ Hl) as [m Hm].
  destruct (wf_lookup _ _ _ _ Hwf Hm) as (t & Ht & Hok).
  destruct (wf_entries _ _ _ _ _ Hwf Hm Ht) as (_ & He & _).
  assert (l = nodes t) as -> by congruence.
  pose proof (Hso Htr i t Ht) as Hs.
  pose proof (insert_spec comparing_function w T i m t v Hwf Hm Ht) as Hspec.
  pose proof (locate_Found_nodes comparing_function v.1 t) as HF.
  pose proof (locate_Hole comparing_function v.1 t) as HH.
  destruct (locate comparing_function v.1 t Top) as [k' t'|k'].
  - destruct (HF _ _ eq_refl) as (y & kv' & Hy & Hin' & Heq').
    rewrite Hspec, Hy.
    assert ((y, kv') = (x, kv)) as [= -> ->]; [|done].
    apply (nodes_equiv_unique (nodes t) _ _ v.1); try done. by apply sorted_nodes.
  - exfalso. destruct Heq as [E1 E2].
    destruct (HH k' kv Htr Hs eq_refl); [|congruence|congruence].
    rewrite <-nodes_elems. by apply (list_elem_of_fmap_2 snd _ (x, kv)).
Qed.

(** *** Removal at a position *)

Lemma split_unique (l1 l2 l1' l2' : list (addr * (K * V))) x kv kv' :
  NoDup (l1 ++ (x, kv) :: l2).*1 →
  l1 ++ (x, kv) :: l2 = l1' ++ (x, kv') :: l2' →
  l1 = l1' ∧ kv = kv' ∧ l2 = l2'.
Proof.
  revert l1'. induction l1 as [|a l1 IH]; intros [|a' l1'] Hnd E; simpl in *.
  - by injection E as <- <-.
  - injection E as <- ->. apply NoDup_cons in Hnd as [Hnd _]. exfalso. apply Hnd.
    rewrite fmap_app, fmap_cons. set_solver.
  - injection E as -> <-. apply NoDup_cons in Hnd as [Hnd _]. exfalso. apply Hnd.
    rewrite fmap_app, fmap_cons. set_solver.
  - injection E as <- E. apply NoDup_cons in Hnd as [_ Hnd].
    destruct (IH l1' Hnd E) as (-> & -> & ->). done.
Qed.

(** What a client sees of a container whose tree is the same is the same. *)
Lemma wf_entries_eq w w' T T' j :
  wf w T → wf w' T' → T' !! j = T !! j → entries w' j = entries w j.
Proof.
  intros Hwf Hwf' E.
  pose proof (proj1 Hwf j) as H1. pose proof (proj1 Hwf' j) as H2.
  destruct (w_maps w' !! j) as [m'|] eqn:Hm'; destruct (w_maps w !! j) as [m|] eqn:Hm.
  - destruct H1 as (t & Ht & Hok). destruct H2 as (t' & Ht' & Hok').
    assert (t' = t) as -> by congruence.
    by rewrite (entries_ok _ _ _ _ Hm Hok), (entries_ok _ _ _ _ Hm' Hok').
  - destruct H2 as (t' & Ht' & _). congruence.
  - destruct H1 as (t & Ht & _). congruence.
  - unfold entries. by rewrite Hm, Hm'.
Qed.

(** C4. [erase(pos)] raises [invalid_iterator] and leaves the world as it
    is when the position is [end()] or belongs to another container; at
    the position of an entry it returns, that entry alone is taken out of
    the sequence, the size goes down by one, and the other containers are
    as before. *)
Theorem erase_position_spec w i m pos :
  reachable w → w_maps w !! i = Some m →
  (it_map pos ≠ Some i ∨ it_node pos = m_tail m →
     erase i pos w = Throw invalid_iterator w) ∧
  (∀ n1 x kv n2,
     entries w i = Some (n1 ++ (x, kv) :: n2) → pos = mk_iterator (Some i) (Some x) →
     ∃ w', erase i pos w = Ret tt w' ∧
           entries w' i = Some (n1 ++ n2) ∧
           size i w = Ret (S (length (n1 ++ n2))) w ∧
           size i w' = Ret (length (n1 ++ n2)) w' ∧
           ∀ j, j ≠ i → entries w' j = entries w j).
Proof.
  intros (T & Hwf & _)%reachable_wf Hm. split; [by apply erase_throw|].
  intros n1 x kv n2 Hl ->.
  destruct (wf_lookup _ _ _ _ Hwf Hm) as (t & Ht & Hok).
  destruct (wf_entries _ _ _ _ _ Hwf Hm Ht) as (_ & He & _).
  assert (E : nodes t = n1 ++ (x, kv) :: n2) by congruence.
  assert (Hx : x ∈ addrs t).
  { apply (nodes_in_addrs _ _ kv). rewrite E. set_solver. }
  destruct (erase_spec w T i m t x Hwf Hm Ht Hx)
    as (n1' & kv' & n2' & t' & w' & E1 & E2 & Hrun & Hwf' & _).
  assert (Hnd : NoDup (n1 ++ (x, kv) :: n2).*1).
  { rewrite <-E, nodes_addrs. destruct Hok as (hd & tl & _ & _ & (Hnd & _) & _).
    by apply NoDup_cons in Hnd as [_ [_ ?]%NoDup_cons]. }
  rewrite E in E1. destruct (split_unique _ _ _ _ _ _ _ Hnd E1) as (<- & <- & <-).
  assert (Hm' : ∃ m', w_maps w' !! i = Some m').
  { pose proof (proj1 Hwf' i) as H. rewrite lookup_insert_eq in H.
    destruct (w_maps w' !! i); [eauto|done]. }
  destruct Hm' as [m' Hm'].
  destruct (wf_entries _ _ _ _ _ Hwf' Hm' (lookup_insert_eq _ _ _)) as (_ & He' & _).
  exists w'. split_and!; try done.
  - by rewrite He', E2.
  - rewrite (size_spec w T i m t Hwf Hm Ht), E, !length_app. simpl.
    do 2 f_equal. lia.
  - by rewrite (size_spec w' _ i m' t' Hwf' Hm' (lookup_insert_eq _ _ _)), E2.
  - intros j Hne. eapply wf_entries_eq; [done|done|]. by rewrite lookup_insert_ne.
Qed.

(** *** The exchange with the successor *)

Local Open Scope m_scope.

Lemma read_tree_same_shape fuel h h' t t' p p' :
  read_tree fuel h p = Some t → tree_ok h' t' → root_of t' = p' →
  length (addrs t') = length (addrs t) → length (addrs t) < fuel →
  read_tree fuel h' p' = Some t'.
Proof. intros _ Hok <- E Hlen. apply read_tree_ok; [done|lia]. Qed.

(** C5. To erase a node [x] with two children, [erase] first exchanges it
    with the node [y] read from [x->next] without any descent; [y] is the
    in-order successor (the leftmost node of the right subtree). After the
    exchange [y] stands where [x] stood and [x] where [y] stood, each with
    the color and the links of the place, in the tree and in the list, and
    both nodes still hold their own pairs. *)
Theorem erase_swaps_with_successor w i m k cx L x kvx R fuel :
  reachable w → w_maps w !! i = Some m →
  read_tree (budget w) (w_heap w) (m_root m) = Some (plug k (Node cx L x kvx R)) →
  L ≠ Leaf → R ≠ Leaf →
  ∃ kR cy y kvy ry s' first,
    lmost R Top = Some (kR, Node cy Leaf y kvy ry) ∧
    load next (Some x) (w_heap w) = Some (Some y) ∧
    (let* nx := rd next (Some x) in swap_node (Some x) nx)
      (with_size (Nat.pred (m_size m)) (enter m w)) = Some (tt, s') ∧
    erase_node fuel (Some x) (enter m w)
      = (erase_fix fuel (Some x) false >> unlink (Some x)) s' ∧
    read_tree (budget w) (heap s') (root s')
      = Some (plug k (Node cx L y kvy (plug kR (Node cy Leaf x kvx ry)))) ∧
    load next (head s') (heap s') = Some first ∧
    walk_next (budget w) (heap s') first (tail s')
      = Some (addrs (plug k (Node cx L y kvy (plug kR (Node cy Leaf x kvx ry))))) ∧
    load value (Some x) (heap s') = Some (Some kvx) ∧
    load value (Some x) (w_heap w) = Some (Some kvx) ∧
    load value (Some y) (heap s') = Some (Some kvy) ∧
    load value (Some y) (w_heap w) = Some (Some kvy).
Proof.
  intros (T & Hwf & _)%reachable_wf Hm Hread HL HR.
  destruct (wf_lookup _ _ _ _ Hwf Hm) as (t & Ht & Hok).
  destruct (wf_entries _ _ _ _ _ Hwf Hm Ht) as (_ & _ & _ & Hread').
  assert (t = plug k (Node cx L x kvx R)) as -> by congruence.
  pose proof (map_ok_budget _ _ _ Hok) as Hb.
  destruct Hok as (hd & tl & Hh & Htl & HS & Hn & Hrb).
  destruct (Shape_node _ _ _ _ _ false _ _ _ _ _ HS) as (_ & _ & Hxl & Hxr & _).
  destruct (lmost_Some R Top HR) as [[kR ty] Hlm].
  destruct (lmost_spec _ _ _ _ Hlm) as (kR' & cy & y & kvy & ry & E & Hsp & -> & ER).
  rewrite ctx_app_Top in E. subst kR'.
  set (t0 := plug (ctx_app kR (Zip RIGHT cx x kvx L k)) (Node cy Leaf y kvy ry)).
  set (t1 := plug (ctx_app kR (Zip RIGHT cx y kvy L k)) (Node cy Leaf x kvx ry)).
  assert (E0 : plug k (Node cx L x kvx R) = t0).
  { unfold t0. rewrite plug_app. cbn [plug mkN]. by rewrite ER. }
  assert (E1 : plug k (Node cx L y kvy (plug kR (Node cy Leaf x kvx ry))) = t1).
  { unfold t1. rewrite plug_app. by cbn [plug mkN]. }
  rewrite E0 in *.
  pose proof (Shape_succ _ _ _ _ _ _ _ _ _ _ _ _ _ _ Hsp HS) as Hnext.
  destruct (swap_node_spec hd tl _ _ (Nat.pred (m_size m)) k kR cx L x kvx cy y kvy ry Hsp HS)
    as (h' & r' & Hrun & HS' & Hfr).
  assert (Hlen : length (addrs t1) = length (addrs t0)).
  { symmetry. apply same_shape_length. unfold t0, t1. apply same_shape_plug.
    - apply same_shape_ctx_app. simpl. auto using same_shape_refl, same_shape_ctx_refl.
    - simpl. auto using same_shape_refl. }
  pose proof HS' as (Hnd' & _ & _ & Hr' & [Hok' _] & Hd').
  destruct (walk_next_dll (budget w) _ _ _ _ Hd') as (first & Hfirst & Hwalk).
  { apply NoDup_cons in Hnd' as [_ Hnd']. by apply NoDup_cons in Hnd' as [? _]. }
  { fold t1. lia. }
  fold t1 in Hok', Hd', Hwalk.
  assert (Hvx : (x, kvx) ∈ nodes t1).
  { unfold t1. apply nodes_plug_in. simpl. set_solver. }
  assert (Hvy : (y, kvy) ∈ nodes t1).
  { rewrite <-E1. apply nodes_plug_in. simpl. set_solver. }
  assert (Hvx0 : (x, kvx) ∈ nodes t0).
  { rewrite <-E0. apply nodes_plug_in. simpl. set_solver. }
  assert (Hvy0 : (y, kvy) ∈ nodes t0).
  { unfold t0. apply nodes_plug_in. simpl. set_solver. }
  pose proof HS as (_ & _ & _ & _ & [Hok0 _] & _).
  assert (Hstep : (let* nx := rd next (Some x) in swap_node (Some x) nx)
                    (with_size (Nat.pred (m_size m)) (enter m w))
                  = Some (tt, mk_state h' (Some hd) (Some tl) r' (Nat.pred (m_size m)))).
  { rewrite (enter_eq m w hd tl) by done. unfold with_size. st_simpl.
    erewrite bind_rd by exact Hnext. exact Hrun. }
  exists kR, cy, y, kvy, ry, (mk_state h' (Some hd) (Some tl) r' (Nat.pred (m_size m))), first.
  rewrite E1. st_simpl.
  split_and!; try done.
  - rewrite erase_node_unfold. rewrite bind_get_size, bind_set_size.
    rewrite (enter_eq m w hd tl) in * by done. unfold with_size in *. st_simpl.
    cbn [heap head tail root __size] in Hstep.
    erewrite bind_rd by (st_simpl; exact Hxl).
    erewrite bind_rd by (st_simpl; exact Hxr).
    destruct L as [|? ? ? ? ?]; [done|]. destruct R as [|? ? ? ? ?]; [done|].
    cbn [root_of mkN negb]. rewrite !bool_decide_true by done. cbn [andb].
    by erewrite bind_ok by exact Hstep.
  - rewrite Hr'. apply read_tree_ok; [done|lia].
  - by apply (nodes_value _ t1).
  - by apply (nodes_value _ t0).
  - by apply (nodes_value _ t1).
  - by apply (nodes_value _ t0).
Qed.

(** *** Lookup *)

Lemma read_mapped_value w x kv :
  load value (Some x) (w_heap w) = Some (Some kv) → read_mapped (Some x) w = Some kv.2.
Proof. unfold read_mapped. by intros ->. Qed.

(** The call ended by raising the exception [e]. *)
Definition raises {S A} (e : exn) (o : outcome S A) : Prop := ∃ s, o = Throw e s.

(** No member function of the container [i] and no iterator operation,
    [at] and the const [operator[]] apart, raises [e] in the world [w]. *)
Definition no_other_raises (e : exn) w (i : addr) : Prop :=
  (∀ v, ¬ raises e (insert comparing_function i v w)) ∧
  (∀ key, ¬ raises e (operator_index comparing_function default_V i key w)) ∧
  (∀ pos, ¬ raises e (erase i pos w)) ∧
  (∀ key, ¬ raises e (find comparing_function i key w)) ∧
  (∀ key, ¬ raises e (count comparing_function i key w)) ∧
  ¬ raises e (size i w) ∧ ¬ raises e (empty i w) ∧
  ¬ raises e (begin_ i w) ∧ ¬ raises e (end_ i w) ∧
  ¬ raises e (clear i w) ∧ ¬ raises e (map_default i w) ∧
  (∀ j, ¬ raises e (map_copy j i w)) ∧ (∀ j, ¬ raises e (operator_assign i j w)) ∧
  ¬ raises e (map_destroy i w) ∧
  (∀ it, ¬ raises e (operator_incr it w) ∧ ¬ raises e (operator_decr it w) ∧
         ¬ raises e (operator_arrow it w)).

Lemma no_other_raises_key w i : no_other_raises index_out_of_bound w i.
Proof.
  unfold no_other_raises.
  split_and!; intros; try split_and!; intros [s E];
    unfold insert, operator_index, erase, find, count, size, empty, begin_, end_, clear,
      map_copy, operator_assign, map_destroy, map_default, operator_incr, operator_decr,
      operator_arrow, arrow_body, noexcept, find, end_, clear, call in E;
    repeat case_match; congruence.
Qed.

(** C6. [at(key)] returns a reference to the value of an entry whose key
    is equivalent to [key] when there is one, and raises
    [index_out_of_bound] when there is none; the world is the same in both
    cases. The const [operator[]] is [at], so it raises the same error; no
    other operation raises it. *)
Theorem at_finds_or_raises w i l key :
  cmp_transitive comparing_function →
  reachable w → entries w i = Some l →
  ((∃ e, e ∈ l ∧ equiv_key comparing_function e.2.1 key) →
     ∃ x kv, (x, kv) ∈ l ∧ equiv_key comparing_function key kv.1 ∧
             at_ comparing_function i key w = Ret (Some x) w ∧
             read_mapped (Some x) w = Some kv.2) ∧
  ((∀ e, e ∈ l → ¬ equiv_key comparing_function e.2.1 key) →
     at_ comparing_function i key w = Throw index_out_of_bound w) ∧
  operator_index_const comparing_function i key w = at_ comparing_function i key w ∧
  no_other_raises index_out_of_bound w i.
Proof.
  intros Htr (T & Hwf & Hso)%reachable_wf Hl.
  destruct (entries_map _ _ _ Hl) as [m Hm].
  destruct (wf_lookup _ _ _ _ Hwf Hm) as (t & Ht & Hok).
  destruct (wf_entries _ _ _ _ _ Hwf Hm Ht) as (_ & He & _).
  assert (l = nodes t) as -> by congruence.
  pose proof (Hso Htr i t Ht) as Hs.
  rewrite (at_spec comparing_function w T i m t key Hwf Hm Ht).
  pose proof (tfind_Some comparing_function key t) as HF.
  pose proof (tfind_None comparing_function key t) as HN.
  split_and!; [| |by unfold operator_index_const; apply (at_spec _ w T i m t)
              |apply no_other_raises_key].
  - intros (e & Hin & Heq).
    destruct (tfind comparing_function key t) as [[a kv]|].
    + destruct (HF a kv eq_refl) as [Hin' Heq']. exists a, kv. split_and!; try done.
      apply read_mapped_value. by eapply map_ok_value.
    + exfalso. destruct Heq as [E1 E2].
      destruct (HN e.2 Htr Hs eq_refl); [|congruence|congruence].
      rewrite <-nodes_elems. by apply list_elem_of_fmap_2.
  - intros Hno. destruct (tfind comparing_function key t) as [[a kv]|]; [|done].
    destruct (HF a kv eq_refl) as [Hin' Heq'].
    destruct (Hno (a, kv) Hin'). by apply equiv_key_sym.
Qed.

(** C7. The non-const [operator[]] always returns: a reference to the
    value of the entry with an equivalent key when there is one, the world
    being unchanged, and otherwise a reference to the value of a new entry
    [(key, V())], added in the sequence, with the size one more. The const
    [operator[]] adds nothing: it returns the reference when the key is
    there and raises [index_out_of_bound] when it is not. *)
Theorem operator_index_inserts_default w i l key :
  cmp_transitive comparing_function →
  reachable w → entries w i = Some l →
  ((∃ e, e ∈ l ∧ equiv_key comparing_function e.2.1 key) →
     ∃ x kv, (x, kv) ∈ l ∧ equiv_key comparing_function kv.1 key ∧
             operator_index comparing_function default_V i key w = Ret (Some x) w ∧
             read_mapped (Some x) w = Some kv.2) ∧
  ((∀ e, e ∈ l → ¬ equiv_key comparing_function e.2.1 key) →
     ∃ x w' n1 n2,
       l = n1 ++ n2 ∧
       operator_index comparing_function default_V i key w = Ret (Some x) w' ∧
       entries w' i = Some (n1 ++ (x, (key, default_V)) :: n2) ∧
       read_mapped (Some x) w' = Some default_V ∧
       size i w = Ret (length l) w ∧ size i w' = Ret (S (length l)) w' ∧
       ∀ j, j ≠ i → entries w' j = entries w j) ∧
  ((∃ e, e ∈ l ∧ equiv_key comparing_function e.2.1 key) →
     ∃ x kv, (x, kv) ∈ l ∧ equiv_key comparing_function key kv.1 ∧
             operator_index_const comparing_function i key w = Ret (Some x) w ∧
             read_mapped (Some x) w = Some kv.2) ∧
  ((∀ e, e ∈ l → ¬ equiv_key comparing_function e.2.1 key) →
     operator_index_const comparing_function i key w = Throw index_out_of_bound w).
Proof.
  intros Htr (T & Hwf & Hso)%reachable_wf Hl.
  destruct (entries_map _ _ _ Hl) as [m Hm].
  destruct (wf_lookup _ _ _ _ Hwf Hm) as (t & Ht & Hok).
  destruct (wf_entries _ _ _ _ _ Hwf Hm Ht) as (_ & He & _).
  assert (l = nodes t) as -> by congruence.
  pose proof (Hso Htr i t Ht) as Hs.
  pose proof (operator_index_spec comparing_function default_V w T i m t key Hwf Hm Ht)
    as Hspec.
  pose proof (locate_Found_nodes comparing_function key t) as HF.
  pose proof (locate_Hole comparing_function key t) as HH.
  assert (Hconst :
    ((∃ e, e ∈ nodes t ∧ equiv_key comparing_function e.2.1 key) →
       ∃ x kv, (x, kv) ∈ nodes t ∧ equiv_key comparing_function key kv.1 ∧
               operator_index_const comparing_function i key w = Ret (Some x) w ∧
               read_mapped (Some x) w = Some kv.2) ∧
    ((∀ e, e ∈ nodes t → ¬ equiv_key comparing_function e.2.1 key) →
       operator_index_const comparing_function i key w = Throw index_out_of_bound w)).
  { unfold operator_index_const.
    rewrite (at_spec comparing_function w T i m t key Hwf Hm Ht).
    pose proof (tfind_Some comparing_function key t) as HF'.
    pose proof (tfind_None comparing_function key t) as HN'.
    split.
    - intros (e & Hin & Heq).
      destruct (tfind comparing_function key t) as [[a kv]|].
      + destruct (HF' a kv eq_refl) as [Hin' Heq']. exists a, kv. split_and!; try done.
        apply read_mapped_value. by eapply map_ok_value.
      + exfalso. destruct Heq as [E1 E2].
        destruct (HN' e.2 Htr Hs eq_refl); [|congruence|congruence].
        rewrite <-nodes_elems. by apply list_elem_of_fmap_2.
    - intros Hno. destruct (tfind comparing_function key t) as [[a kv]|]; [|done].
      destruct (HF' a kv eq_refl) as [Hin' Heq'].
      destruct (Hno (a, kv) Hin'). by apply equiv_key_sym. }
  destruct Hconst as [Hc1 Hc2].
  split; [|split; [|by split]].
  - intros (e & Hin & Heq).
    destruct (locate comparing_function key t Top) as [k' t'|k'].
    + destruct (HF _ _ eq_refl) as (y & kv' & Hy & Hin' & Heq').
      exists y, kv'. rewrite Hspec, Hy. split_and!; try done.
      apply read_mapped_value. by eapply map_ok_value.
    + exfalso. destruct Heq as [E1 E2].
      destruct (HH k' e.2 Htr Hs eq_refl); [|congruence|congruence].
      rewrite <-nodes_elems. by apply list_elem_of_fmap_2.
  - intros Hno.
    destruct (locate comparing_function key t Top) as [k' t'|k'].
    + destruct (HF _ _ eq_refl) as (y & kv' & Hy & Hin' & Heq').
      by destruct (Hno (y, kv') Hin').
    + destruct Hspec as (t'' & w' & n1 & n2 & Hfix & E1 & E2 & Hrun & Hwf').
      assert (Hm' : ∃ m', w_maps w' !! i = Some m').
      { pose proof (proj1 Hwf' i) as H. rewrite lookup_insert_eq in H.
        destruct (w_maps w' !! i); [eauto|done]. }
      destruct Hm' as [m' Hm'].
      destruct (wf_entries _ _ _ _ _ Hwf' Hm' (lookup_insert_eq _ _ _)) as (Hok' & He' & _).
      exists (alloc (w_heap w)), w', n1, n2. split_and!; try done.
      * by rewrite He', E2.
      * apply (read_mapped_value w' _ (key, default_V)).
        eapply map_ok_value; [exact Hok'|]. rewrite E2. set_solver.
      * by rewrite (size_spec w T i m t Hwf Hm Ht).
      * rewrite (size_spec w' _ i m' t'' Hwf' Hm' (lookup_insert_eq _ _ _)), E1, E2.
        rewrite !length_app. simpl. do 2 f_equal. lia.
      * intros j Hne. eapply wf_entries_eq; [done|done|]. by rewrite lookup_insert_ne.
Qed.

(** *** Iterators at the ends *)

(** C9. [++] at [end()] and [--] at [begin()] raise [invalid_iterator]
    with the iterator and the world as they were. [operator->] at [end()]
    reaches its [throw invalid_iterator()] too, with nothing changed, but
    the function is declared [noexcept], so the program is terminated and
    no exception reaches the caller. In a reachable world [end()] and
    [begin()] return these positions. *)
Theorem iterator_checks_at_the_ends w i :
  (∀ e w', end_ i w = Ret e w' →
     operator_incr e w = Throw invalid_iterator (e, w) ∧
     arrow_body e w = Throw invalid_iterator (e, w) ∧
     operator_arrow e w = Terminate) ∧
  (∀ b w', begin_ i w = Ret b w' →
     operator_decr b w = Throw invalid_iterator (b, w)) ∧
  (∀ m, reachable w → w_maps w !! i = Some m →
     ∃ e b, end_ i w = Ret e w ∧ begin_ i w = Ret b w).
Proof.
  split_and!.
  - intros e w'. unfold end_, call. destruct (w_maps w !! i) as [m|] eqn:Hm; [|done].
    rewrite bind_get_tail. unfold ret. intros [= <- _].
    unfold operator_arrow, arrow_body, operator_incr, it_tail. simpl. rewrite Hm. simpl.
    destruct (m_tail m) as [tl|]; simpl; [|done].
    by rewrite !ptr_eqb_refl.
  - intros b w'. unfold begin_, call. destruct (w_maps w !! i) as [m|] eqn:Hm; [|done].
    rewrite bind_get_head. unfold bind, rd, ret. simpl.
    destruct (load next (m_head m) (w_heap w)) as [n|] eqn:Hn; [|done].
    intros [= <- _]. unfold operator_decr, it_first. simpl. rewrite Hm. simpl. rewrite Hn.
    destruct n as [a|]; simpl; [|done].
    by rewrite !ptr_eqb_refl.
  - intros m (T & Hwf & _)%reachable_wf Hm.
    destruct (wf_lookup _ _ _ _ Hwf Hm) as (t & Ht & Hok).
    eexists _, _. split; [by apply end_spec|by eapply begin_spec].
Qed.

(** *** Self-assignment *)

(** C10. Assigning a container to itself returns at once: the world, and
    so the size, the sequence and every stored value, is the same. *)
Theorem self_assignment_changes_nothing w i m :
  w_maps w !! i = Some m →
  operator_assign (K:=K) (V:=V) i i w = Ret tt w.
Proof.
  intros Hm. unfold operator_assign. rewrite bool_decide_true by done. by rewrite Hm.
Qed.

(** *** Copies *)

(** One mutating call on the container [i]. *)
Inductive mutation (i : addr) : world K V → world K V → Prop :=
  | mut_insert w v r w' :
      insert comparing_function i v w = Ret r w' → mutation i w w'
  | mut_operator_index w key r w' :
      operator_index comparing_function default_V i key w = Ret r w' → mutation i w w'
  | mut_erase w x w' :
      entry_of w i x → erase i (mk_iterator (Some i) (Some x)) w = Ret tt w' →
      mutation i w w'
  | mut_clear w w' : clear i w = Ret tt w' → mutation i w w'
  | mut_assign_mapped w x v w' :
      entry_of w i x → assign_mapped (Some x) v w = Ret tt w' → mutation i w w'
  | mut_operator_assign w k w' : operator_assign i k w = Ret tt w' → mutation i w w'
  | mut_map_destroy w w' : map_destroy i w = Ret tt w' → mutation i w w'.

(** Any number of them. *)
Inductive mutated (i : addr) : world K V → world K V → Prop :=
  | mutated_refl w : mutated i w w
  | mutated_step w w' w'' : mutation i w w' → mutated i w' w'' → mutated i w w''.

(** Any number of mutating calls on the containers [i] and [j], in any
    order. *)
Inductive mutated_both (i j : addr) : world K V → world K V → Prop :=
  | mutated_both_refl w : mutated_both i j w w
  | mutated_both_left w w' w'' :
      mutation i w w' → mutated_both i j w' w'' → mutated_both i j w w''
  | mutated_both_right w w' w'' :
      mutation j w w' → mutated_both i j w' w'' → mutated_both i j w w''.

Lemma mutation_wf i w w' T :
  wf w T → mutation i w w' → ∃ T', wf w' T' ∧ ∀ j, j ≠ i → T' !! j = T !! j.
Proof.
  intros Hwf Hmu. revert T Hwf.
  destruct Hmu as [w0 v r w1 Hrun|w0 key r w1 Hrun|w0 x w1 Hx Hrun|w0 w1 Hrun|w0 x v w1 Hx Hrun
                  |w0 k w1 Hrun|w0 w1 Hrun];
    intros T Hwf.
  - destruct (w_maps w0 !! i) as [m|] eqn:Hm.
    2: { unfold insert in Hrun. by rewrite call_None in Hrun. }
    destruct (wf_lookup _ _ _ _ Hwf Hm) as (t & Ht & _).
    pose proof (insert_spec comparing_function w0 T i m t v Hwf Hm Ht) as Hspec.
    destruct (locate comparing_function v.1 t Top) as [k' t'|k'].
    + assert (w1 = w0) as -> by congruence. by exists T.
    + destruct Hspec as (t'' & w2 & n1 & n2 & _ & _ & _ & Hrun1 & Hwf1).
      assert (w2 = w1) as -> by congruence.
      exists (<[i := t'']> T). split; [done|]. intros j Hj. by rewrite lookup_insert_ne.
  - destruct (w_maps w0 !! i) as [m|] eqn:Hm.
    2: { unfold operator_index in Hrun. by rewrite call_None in Hrun. }
    destruct (wf_lookup _ _ _ _ Hwf Hm) as (t & Ht & _).
    pose proof (operator_index_spec comparing_function default_V w0 T i m t key Hwf Hm Ht)
      as Hspec.
    destruct (locate comparing_function key t Top) as [k' t'|k'].
    + assert (w1 = w0) as -> by congruence. by exists T.
    + destruct Hspec as (t'' & w2 & n1 & n2 & _ & _ & _ & Hrun1 & Hwf1).
      assert (w2 = w1) as -> by congruence.
      exists (<[i := t'']> T). split; [done|]. intros j Hj. by rewrite lookup_insert_ne.
  - destruct (wf_entry_of _ _ _ _ Hwf Hx) as (m & t & kv & Hm & Ht & Hin).
    destruct (erase_spec w0 T i m t x Hwf Hm Ht (nodes_in_addrs _ _ _ Hin))
      as (n1 & kv' & n2 & t' & w2 & _ & _ & Hrun1 & Hwf1 & _).
    assert (w2 = w1) as -> by congruence.
    exists (<[i := t']> T). split; [done|]. intros j Hj. by rewrite lookup_insert_ne.
  - destruct (w_maps w0 !! i) as [m|] eqn:Hm.
    2: { unfold clear in Hrun. by rewrite call_None in Hrun. }
    destruct (wf_lookup _ _ _ _ Hwf Hm) as (t & Ht & _).
    destruct (clear_spec w0 T i m t Hwf Hm Ht) as (w2 & Hrun1 & Hwf1 & _).
    assert (w2 = w1) as -> by congruence.
    exists (<[i := Leaf]> T). split; [done|]. intros j Hj. by rewrite lookup_insert_ne.
  - destruct (wf_entry_of _ _ _ _ Hwf Hx) as (m & t & kv & Hm & Ht & Hin).
    destruct (assign_mapped_spec w0 T i m t x kv v Hwf Hm Ht Hin) as (w2 & Hrun1 & Hwf1).
    assert (w2 = w1) as -> by congruence.
    exists (<[i := tset x (kv.1, v) t]> T). split; [done|].
    intros j Hj. by rewrite lookup_insert_ne.
  - destruct (decide (i = k)) as [<-|Hne].
    { unfold operator_assign in Hrun. rewrite bool_decide_true in Hrun by done.
      destruct (w_maps w0 !! i); [|done]. injection Hrun as <-. by exists T. }
    destruct (w_maps w0 !! i) as [m|] eqn:Hm.
    2: { unfold operator_assign, clear in Hrun. rewrite bool_decide_false in Hrun by done.
         by rewrite call_None in Hrun. }
    destruct (wf_lookup _ _ _ _ Hwf Hm) as (ti & Hti & _).
    destruct (w_maps w0 !! k) as [mo|] eqn:Hmo.
    2: { destruct (clear_spec w0 T i m ti Hwf Hm Hti) as (w2 & Hc & _ & Hmaps & _).
         unfold operator_assign in Hrun. rewrite bool_decide_false in Hrun by done.
         rewrite Hc in Hrun. rewrite Hmaps, lookup_insert_ne, Hmo in Hrun by done. done. }
    destruct (wf_lookup _ _ _ _ Hwf Hmo) as (t & Ht & _).
    destruct (operator_assign_spec w0 T i k m ti mo t Hwf Hne Hm Hti Hmo Ht)
      as (t' & w2 & Hrun1 & Hwf1 & _).
    assert (w2 = w1) as -> by congruence.
    exists (<[i := t']> T). split; [done|]. intros j Hj. by rewrite lookup_insert_ne.
  - destruct (w_maps w0 !! i) as [m|] eqn:Hm.
    2: { unfold map_destroy in Hrun. by rewrite call_None in Hrun. }
    destruct (wf_lookup _ _ _ _ Hwf Hm) as (t & Ht & _).
    destruct (map_destroy_spec w0 T i m t Hwf Hm Ht) as (w2 & Hrun1 & Hwf1).
    assert (w2 = w1) as -> by congruence.
    exists (delete i T). split; [done|]. intros j Hj. by rewrite lookup_delete_ne.
Qed.

Lemma mutation_entries i w w' T j :
  wf w T → mutation i w w' → j ≠ i → entries w' j = entries w j.
Proof.
  intros Hwf Hstep Hj. destruct (mutation_wf i w w' T Hwf Hstep) as (T' & Hwf' & HT).
  eapply wf_entries_eq; [done|done|]. by apply HT.
Qed.

Lemma mutated_both_wf i j w w' T : wf w T → mutated_both i j w w' → ∃ T', wf w' T'.
Proof.
  intros Hwf Hmu. revert T Hwf.
  induction Hmu as [w|w w' w'' Hstep _ IH|w w' w'' Hstep _ IH]; intros T Hwf; [by exists T| |].
  - destruct (mutation_wf i w w' T Hwf Hstep) as (T' & Hwf' & _). by apply (IH T').
  - destruct (mutation_wf j w w' T Hwf Hstep) as (T' & Hwf' & _). by apply (IH T').
Qed.

Lemma mutated_entries i w w' T :
  wf w T → mutated i w w' → ∀ j, j ≠ i → entries w' j = entries w j.
Proof.
  intros Hwf Hmu. revert T Hwf. induction Hmu as [w|w w' w'' Hstep _ IH]; intros T Hwf j Hj.
  - done.
  - destruct (mutation_wf i w w' T Hwf Hstep) as (T' & Hwf' & HT).
    rewrite (IH T' Hwf' j Hj). eapply wf_entries_eq; [done|done|]. by apply HT.
Qed.

(** In the world [w'] the container [i] is a copy of what the container
    [j] was, with the sequence [l] and the tree [t], and each of the two
    is out of reach of the mutations of the other: of a run of mutations
    of one of them, and of every single mutation made after a run that
    mutates both in any order. *)
Definition copied (w' : world K V) (i j : addr) (l : list (addr * (K * V))) t : Prop :=
  ∃ l' m' t',
    entries w' i = Some l' ∧ l'.*2 = l.*2 ∧ entries w' j = Some l ∧
    w_maps w' !! i = Some m' ∧
    read_tree (budget w') (w_heap w') (m_root m') = Some t' ∧ same_shape t t' ∧
    (∀ w'', mutated i w' w'' → entries w'' j = Some l) ∧
    (∀ w'', mutated j w' w'' → entries w'' i = Some l') ∧
    (∀ w1 w2, mutated_both i j w' w1 → mutation i w1 w2 → entries w2 j = entries w1 j) ∧
    (∀ w1 w2, mutated_both i j w' w1 → mutation j w1 w2 → entries w2 i = entries w1 i).

Lemma copied_intro w w' T i j l t t' :
  wf w T → entries w j = Some l → T !! j = Some t → i ≠ j →
  wf w' (<[i := t']> T) → same_shape t t' → elems t' = elems t →
  copied w' i j l t.
Proof.
  intros Hwf Hl Ht Hne Hwf' Hsh He.
  assert (Hm' : ∃ m', w_maps w' !! i = Some m').
  { pose proof (proj1 Hwf' i) as H. rewrite lookup_insert_eq in H.
    destruct (w_maps w' !! i); [eauto|done]. }
  destruct Hm' as [m' Hm'].
  destruct (wf_entries _ _ _ _ _ Hwf' Hm' (lookup_insert_eq _ _ _)) as (_ & He' & _ & Hread').
  destruct (entries_map _ _ _ Hl) as [m Hm].
  destruct (wf_entries _ _ _ _ _ Hwf Hm Ht) as (_ & Hej & _).
  assert (l = nodes t) as -> by congruence.
  assert (Hj' : entries w' j = Some (nodes t)).
  { rewrite <-Hej. eapply wf_entries_eq; [done|done|]. by rewrite lookup_insert_ne. }
  exists (nodes t'), m', t'. split_and!; try done.
  - by rewrite !nodes_elems.
  - intros w'' Hmu. rewrite <-Hj'. by eapply mutated_entries.
  - intros w'' Hmu. rewrite <-He'. by eapply mutated_entries.
  - intros w1 w2 Hmu Hstep.
    destruct (mutated_both_wf i j w' w1 _ Hwf' Hmu) as [T1 Hwf1].
    by eapply mutation_entries.
  - intros w1 w2 Hmu Hstep.
    destruct (mutated_both_wf i j w' w1 _ Hwf' Hmu) as [T1 Hwf1].
    by eapply mutation_entries.
Qed.

(** C8. The copy constructor, and the assignment from another container,
    give a container with the same sequence of pairs and a tree of the same
    shape and colors, on nodes of its own: whatever mutating calls
    ([insert], [operator[]], [erase], [clear], an assignment through a
    reference, [operator=] from any container, the destructor) are made on
    one of the two afterwards, also in turn with calls on the other, the
    sequence of the other is the same. *)
Theorem copy_is_equal_and_independent w i j l m t :
  reachable w → entries w j = Some l → w_maps w !! j = Some m →
  read_tree (budget w) (w_heap w) (m_root m) = Some t → i ≠ j →
  (w_maps w !! i = None → ∃ w', map_copy i j w = Ret tt w' ∧ copied w' i j l t) ∧
  (is_Some (w_maps w !! i) → ∃ w', operator_assign i j w = Ret tt w' ∧ copied w' i j l t).
Proof.
  intros (T & Hwf & _)%reachable_wf Hl Hm Hread Hne.
  destruct (wf_lookup _ _ _ _ Hwf Hm) as (t0 & Ht & Hok).
  destruct (wf_entries _ _ _ _ _ Hwf Hm Ht) as (_ & _ & _ & Hread').
  assert (t0 = t) as -> by congruence.
  split.
  - intros Hi.
    destruct (map_copy_spec w T i j m t Hwf Hne Hm Ht) as (t' & w' & Hrun & Hwf' & Hsh & He).
    exists w'. split; [done|]. by apply (copied_intro w w' T i j l t t').
  - intros [mi Hmi].
    destruct (wf_lookup _ _ _ _ Hwf Hmi) as (ti & Hti & _).
    destruct (operator_assign_spec w T i j mi ti m t Hwf Hne Hmi Hti Hm Ht)
      as (t' & w' & Hrun & Hwf' & Hsh & He).
    exists w'. split; [done|]. by apply (copied_intro w w' T i j l t t').
Qed.

End behaviour.

(** ** Further properties of the public operations *)

Section properties.
Context {K V : Type}.
Variable comparing_function : K → K → bool.
Variable default_V : V.
Implicit Types (h : gmap addr (rbt_node K V)) (t : tree K V).
Implicit Types (w : world K V) (m : map_obj) (T : gmap addr (tree K V)).
Implicit Types (l : list (addr * (K * V))).

Local Abbreviation reachable := (reachable comparing_function default_V).
Local Abbreviation equiv := (equiv_key comparing_function).

(** What a reachable world gives for a container with the entries [l]. *)
Lemma reachable_view w i l :
  reachable w → entries w i = Some l →
  ∃ T m t, wf w T ∧ w_maps w !! i = Some m ∧ T !! i = Some t ∧
           map_ok (w_heap w) m t ∧ l = nodes t ∧
           (cmp_transitive comparing_function → sorted comparing_function t).
Proof.
  intros (T & Hwf & Hso)%reachable_wf Hl.
  destruct (entries_map _ _ _ Hl) as [m Hm].
  destruct (wf_lookup _ _ _ _ Hwf Hm) as (t & Ht & Hok).
  destruct (wf_entries _ _ _ _ _ Hwf Hm Ht) as (_ & He & _).
  exists T, m, t. split_and!; try done; [congruence|]. intros Htr. by apply (Hso Htr i).
Qed.

(** The search of [find] in terms of the entries. *)
Lemma tfind_entries t key :
  cmp_transitive comparing_function → sorted comparing_function t →
  match tfind comparing_function key t with
  | Some (a, kv) => (a, kv) ∈ nodes t ∧ equiv key kv.1
  | None => ∀ e, e ∈ nodes t → ¬ equiv e.2.1 key
  end.
Proof.
  intros Htr Hs.
  pose proof (tfind_Some comparing_function key t) as HF.
  pose proof (tfind_None comparing_function key t) as HN.
  destruct (tfind comparing_function key t) as [[a kv]|].
  - by apply HF.
  - intros e He [E1 E2].
    destruct (HN e.2 Htr Hs eq_refl); [|congruence|congruence].
    rewrite <-nodes_elems. by apply list_elem_of_fmap_2.
Qed.

Lemma tfind_present t key :
  cmp_transitive comparing_function → sorted comparing_function t →
  (∃ e, e ∈ nodes t ∧ equiv e.2.1 key) →
  ∃ x kv, tfind comparing_function key t = Some (x, kv) ∧ (x, kv) ∈ nodes t ∧ equiv key kv.1.
Proof.
  intros Htr Hs (e & He & Heq). pose proof (tfind_entries t key Htr Hs) as H.
  destruct (tfind comparing_function key t) as [[a kv]|].
  - by exists a, kv.
  - by destruct (H e He).
Qed.

Lemma tfind_absent t key :
  (∀ e, e ∈ nodes t → ¬ equiv e.2.1 key) → tfind comparing_function key t = None.
Proof.
  intros Hno. pose proof (tfind_Some comparing_function key t) as HF.
  destruct (tfind comparing_function key t) as [[a kv]|]; [|done].
  destruct (HF a kv eq_refl) as [Hin Heq]. destruct (Hno (a, kv) Hin).
  by apply equiv_key_sym.
Qed.

(** X1. [find(key)] returns the position of an entry with an equivalent
    key when there is one, and [end()] when there is none; it changes
    nothing. *)
Theorem find_returns_entry_or_end w i l key :
  cmp_transitive comparing_function → reachable w → entries w i = Some l →
  ((∃ e, e ∈ l ∧ equiv e.2.1 key) →
     ∃ x kv, (x, kv) ∈ l ∧ equiv key kv.1 ∧
             find comparing_function i key w = Ret (mk_iterator (Some i) (Some x)) w) ∧
  ((∀ e, e ∈ l → ¬ equiv e.2.1 key) → find comparing_function i key w = end_ i w).
Proof.
  intros Htr Hr Hl.
  destruct (reachable_view w i l Hr Hl) as (T & m & t & Hwf & Hm & Ht & Hok & -> & Hs).
  rewrite (find_spec comparing_function w T i m t key Hwf Hm Ht), (end_spec w i m Hm).
  split.
  - intros Hin. destruct (tfind_present t key Htr (Hs Htr) Hin) as (x & kv & -> & ? & ?).
    by exists x, kv.
  - intros Hno. by rewrite (tfind_absent t key Hno).
Qed.

(** X2. [count(key)] is 1 when an entry has an equivalent key and 0 when
    none has. *)
Theorem count_is_one_or_zero w i l key :
  cmp_transitive comparing_function → reachable w → entries w i = Some l →
  ((∃ e, e ∈ l ∧ equiv e.2.1 key) → count comparing_function i key w = Ret 1 w) ∧
  ((∀ e, e ∈ l → ¬ equiv e.2.1 key) → count comparing_function i key w = Ret 0 w).
Proof.
  intros Htr Hr Hl.
  destruct (reachable_view w i l Hr Hl) as (T & m & t & Hwf & Hm & Ht & Hok & -> & Hs).
  rewrite (count_spec comparing_function w T i m t key Hwf Hm Ht).
  split.
  - intros Hin. by destruct (tfind_present t key Htr (Hs Htr) Hin) as (x & kv & -> & ? & ?).
  - intros Hno. by rewrite (tfind_absent t key Hno).
Qed.

(** X3. [size()] is the number of entries between [begin()] and [end()],
    and [empty()] tells whether there is none. *)
Theorem size_counts_the_entries w i l :
  reachable w → entries w i = Some l →
  size i w = Ret (length l) w ∧ empty i w = Ret (bool_decide (l = [])) w.
Proof.
  intros Hr Hl.
  destruct (reachable_view w i l Hr Hl) as (T & m & t & Hwf & Hm & Ht & Hok & -> & _).
  split; [by eapply size_spec|].
  unfold empty, call. rewrite Hm. rewrite bind_get_size. unfold ret.
  rewrite (leave_enter i m w Hm). f_equal.
  destruct Hok as (_ & _ & _ & _ & _ & Hn & _). cbn [enter __size].
  apply bool_decide_ext. rewrite Hn, <-nodes_length.
  destruct (nodes t); simpl; split; done.
Qed.

Lemma first_of_nodes m t : first_of m t = next_of m (nodes t).
Proof. unfold first_of, next_of. rewrite <-nodes_addrs. by destruct (nodes t). Qed.

(** X4. [begin()] is the position of the first entry, and it is equal to
    [end()] exactly when the container has no entry. *)
Theorem begin_is_the_first_entry w i l m :
  reachable w → entries w i = Some l → w_maps w !! i = Some m →
  begin_ i w = Ret (mk_iterator (Some i) (next_of m l)) w ∧
  end_ i w = Ret (mk_iterator (Some i) (m_tail m)) w ∧
  it_eqb (mk_iterator (Some i) (next_of m l)) (mk_iterator (Some i) (m_tail m))
  = bool_decide (l = []).
Proof.
  intros Hr Hl Hm.
  destruct (reachable_view w i l Hr Hl) as (T & m' & t & Hwf & Hm' & Ht & Hok & -> & _).
  assert (m' = m) as -> by congruence.
  split_and!.
  - rewrite <-first_of_nodes. by eapply begin_spec.
  - by apply end_spec.
  - unfold it_eqb. simpl. destruct (nodes t) as [|[a kv] n] eqn:E; simpl.
    + apply ptr_eqb_refl.
    + apply ptr_eqb_ne.
      apply (map_ok_tail_fresh _ _ _ _ Hok). apply (nodes_in_addrs _ _ kv).
      rewrite E. set_solver.
Qed.

(** X5. [++] at the position of an entry moves to the next entry, or to
    [end()] after the last one; the container is not changed. *)
Theorem increment_moves_to_next_entry w i m n1 x kv n2 :
  reachable w → w_maps w !! i = Some m → entries w i = Some (n1 ++ (x, kv) :: n2) →
  operator_incr (mk_iterator (Some i) (Some x)) w
  = Ret tt (mk_iterator (Some i) (next_of m n2), w).
Proof.
  intros Hr Hm Hl.
  destruct (reachable_view w i _ Hr Hl) as (T & m' & t & Hwf & Hm' & Ht & Hok & E & _).
  assert (m' = m) as -> by congruence.
  by eapply operator_incr_spec.
Qed.

Lemma operator_decr_end_spec w T i m t n1 x kv :
  wf w T → w_maps w !! i = Some m → T !! i = Some t → nodes t = n1 ++ [(x, kv)] →
  operator_decr (mk_iterator (Some i) (m_tail m)) w
  = Ret tt (mk_iterator (Some i) (Some x), w).
Proof.
  intros Hwf Hm Ht E.
  destruct (wf_lookup _ _ _ _ Hwf Hm) as (t0 & Ht0 & Hok).
  assert (t0 = t) as -> by congruence.
  pose proof (map_ok_first _ _ _ Hok) as Hf.
  assert (Hx : ∃ a, first_of m t = Some a ∧ a ∈ addrs t).
  { unfold first_of. rewrite <-nodes_addrs, E.
    destruct n1 as [|[a kva] n1]; simpl; eexists; (split; [done|set_solver]). }
  destruct Hx as (a & Ha & Hin).
  destruct (map_ok_tail_fresh _ _ _ _ Hok Hin) as [Hne _].
  destruct Hok as (hd & tl & Hh & Htl & (_ & _ & _ & _ & _ & Hd) & _).
  rewrite <-nodes_addrs, E, fmap_app in Hd. simpl in Hd.
  apply dll_app in Hd as [_ [_ Hp]].
  unfold operator_decr, it_first. rewrite Htl. simpl. rewrite Hm. simpl. rewrite Hf, Ha.
  rewrite ptr_eqb_ne by congruence. by rewrite Hp.
Qed.

(** X6. [--] undoes [++]: from the position that follows an entry, the
    next entry or [end()], it moves back to that entry. *)
Theorem decrement_moves_to_previous_entry w i m n1 x kv n2 :
  reachable w → w_maps w !! i = Some m → entries w i = Some (n1 ++ (x, kv) :: n2) →
  operator_decr (mk_iterator (Some i) (next_of m n2)) w
  = Ret tt (mk_iterator (Some i) (Some x), w).
Proof.
  intros Hr Hm Hl.
  destruct (reachable_view w i _ Hr Hl) as (T & m' & t & Hwf & Hm' & Ht & Hok & E & _).
  assert (m' = m) as -> by congruence.
  destruct n2 as [|[y kvy] n2]; simpl.
  - by eapply operator_decr_end_spec.
  - rewrite (operator_decr_spec w T i m t (n1 ++ [(x, kv)]) y kvy n2 Hwf Hm Ht).
    + unfold prev_of. by rewrite last_snoc.
    + by rewrite <-app_assoc.
    + by destruct n1.
Qed.

Lemma wf_map_of w T i t : wf w T → T !! i = Some t → ∃ m, w_maps w !! i = Some m.
Proof.
  intros [H _] Ht. specialize (H i). destruct (w_maps w !! i); [eauto|congruence].
Qed.

Lemma clear_freed w T i m t w' :
  wf w T → w_maps w !! i = Some m → T !! i = Some t → clear i w = Ret tt w' →
  ∀ b, b ∈ addrs t → w_heap w' !! b = None.
Proof.
  intros Hwf Hm Ht Hrun.
  destruct (wf_lookup _ _ _ _ Hwf Hm) as (t0 & Ht0 & Hok).
  assert (t0 = t) as -> by congruence.
  pose proof (map_ok_budget _ _ _ Hok) as Hb.
  pose proof Hok as (hd & tl & Hh & Htl & HS & Hn & Hrb).
  destruct (clear_body_spec (budget w) hd tl _ _ t (m_size m) HS)
    as (h' & Hrun' & HS' & Hfr & Hdel); [lia|].
  rewrite <-(enter_eq m w hd tl) in Hrun' by done.
  unfold clear, call in Hrun. rewrite Hm, Hrun' in Hrun. injection Hrun as <-.
  exact Hdel.
Qed.

(** X7. [clear()] leaves the container without entries and with size 0,
    deallocates the node of every entry it had, and leaves the other
    containers as they were. *)
Theorem clear_empties_the_container w i l :
  reachable w → entries w i = Some l →
  ∃ w', clear i w = Ret tt w' ∧ entries w' i = Some [] ∧ size i w' = Ret 0 w' ∧
        (∀ e, e ∈ l → w_heap w' !! e.1 = None) ∧
        ∀ j, j ≠ i → entries w' j = entries w j.
Proof.
  intros Hr Hl.
  destruct (reachable_view w i l Hr Hl) as (T & m & t & Hwf & Hm & Ht & Hok & -> & _).
  destruct (clear_spec w T i m t Hwf Hm Ht) as (w' & Hrun & Hwf' & Hmaps & _).
  destruct (wf_map_of w' _ i Leaf Hwf' (lookup_insert_eq _ _ _)) as [m' Hm'].
  destruct (wf_entries _ _ _ _ _ Hwf' Hm' (lookup_insert_eq _ _ _)) as (_ & He' & _).
  exists w'. split_and!; try done.
  - by rewrite (size_spec w' _ i m' Leaf Hwf' Hm' (lookup_insert_eq _ _ _)).
  - intros [a kv] Hin. apply (clear_freed w T i m t w' Hwf Hm Ht Hrun).
    by apply (nodes_in_addrs _ _ kv).
  - intros j Hne. eapply wf_entries_eq; [done|done|]. by rewrite lookup_insert_ne.
Qed.

Lemma map_destroy_freed w T i m t w' :
  wf w T → w_maps w !! i = Some m → T !! i = Some t → map_destroy i w = Ret tt w' →
  w_maps w' = delete i (w_maps w) ∧ ∀ b, b ∈ fp m t → w_heap w' !! b = None.
Proof.
  intros Hwf Hm Ht Hdes.
  destruct (wf_lookup _ _ _ _ Hwf Hm) as (t0 & Ht0 & Hok).
  assert (t0 = t) as -> by congruence.
  pose proof (map_ok_budget _ _ _ Hok) as Hb.
  pose proof Hok as (hd & tl & Hh & Htl & HS & Hn & Hrb).
  destruct (clear_body_spec (budget w) hd tl _ _ t (m_size m) HS)
    as (h' & Hrun & HS' & Hfr & Hdel); [lia|].
  rewrite <-(enter_eq m w hd tl) in Hrun by done.
  pose proof (Shape_alloc _ _ _ _ _ hd HS' ltac:(set_solver)) as [nh Hah].
  pose proof (Shape_alloc _ _ _ _ _ tl HS' ltac:(set_solver)) as [nt Hat].
  assert (Hht : hd ≠ tl).
  { destruct HS' as (Hnd & _). apply NoDup_cons in Hnd as [Hnd _]. set_solver. }
  revert Hdes. unfold map_destroy, call. rewrite Hm.
  erewrite bind_ok by exact Hrun. rewrite bind_get_head. st_simpl.
  unfold bind at 1, delete_node at 1. st_simpl. rewrite Hah.
  rewrite bind_get_tail. st_simpl. unfold delete_node. st_simpl.
  rewrite lookup_delete_ne by done. rewrite Hat. st_simpl.
  intros [= <-]. unfold leave. simpl. split; [by rewrite delete_insert_eq|].
  intros b. rewrite (map_ok_fp (w_heap w) m t hd tl) by done.
  intros [->|[->|Hin]%elem_of_cons]%elem_of_cons.
  - rewrite lookup_delete_ne by done. apply lookup_delete_eq.
  - apply lookup_delete_eq.
  - destruct (decide (b = tl)) as [->|]; [apply lookup_delete_eq|].
    rewrite lookup_delete_ne by done.
    destruct (decide (b = hd)) as [->|]; [apply lookup_delete_eq|].
    rewrite lookup_delete_ne by done. by apply Hdel.
Qed.

(** X8. The destructor deallocates both sentinels and the node of every
    entry, the container is gone, and the other containers are as they
    were. *)
Theorem destructor_frees_the_container w i l m :
  reachable w → entries w i = Some l → w_maps w !! i = Some m →
  ∃ w', map_destroy i w = Ret tt w' ∧ w_maps w' !! i = None ∧
        (∀ e, e ∈ l → w_heap w' !! e.1 = None) ∧
        (∀ b, m_head m = Some b ∨ m_tail m = Some b → w_heap w' !! b = None) ∧
        ∀ j, j ≠ i → entries w' j = entries w j.
Proof.
  intros Hr Hl Hm.
  destruct (reachable_view w i l Hr Hl) as (T & m' & t & Hwf & Hm' & Ht & Hok & -> & _).
  assert (m' = m) as -> by congruence.
  destruct (map_destroy_spec w T i m t Hwf Hm Ht) as (w' & Hrun & Hwf').
  destruct (map_destroy_freed w T i m t w' Hwf Hm Ht Hrun) as [Hmaps Hfreed].
  exists w'. split_and!; try done.
  - rewrite Hmaps. apply lookup_delete_eq.
  - intros [a kv] Hin. apply Hfreed. unfold fp. rewrite !elem_of_app. right; right.
    by apply (nodes_in_addrs _ _ kv).
  - intros b Hb. apply Hfreed. unfold fp. rewrite !elem_of_app.
    destruct Hb as [-> | ->]; simpl; [left|right; left]; set_solver.
  - intros j Hne. eapply wf_entries_eq; [done|done|]. by rewrite lookup_delete_ne.
Qed.

(** X9. The default constructor gives a container without entries: its
    size is 0, [empty()] holds, [begin()] is [end()], and the containers
    that exist are as they were. *)
Theorem default_constructor_gives_empty w i :
  reachable w → w_maps w !! i = None →
  ∃ w' e, map_default i w = Ret tt w' ∧ entries w' i = Some [] ∧
          size i w' = Ret 0 w' ∧ empty i w' = Ret true w' ∧
          begin_ i w' = Ret e w' ∧ end_ i w' = Ret e w' ∧
          ∀ j, j ≠ i → entries w' j = entries w j.
Proof.
  intros (T & Hwf & _)%reachable_wf Hfresh.
  destruct (map_default_spec w T i Hwf) as (w' & Hrun & Hwf').
  destruct (wf_map_of w' _ i Leaf Hwf' (lookup_insert_eq _ _ _)) as [m' Hm'].
  destruct (wf_entries _ _ _ _ _ Hwf' Hm' (lookup_insert_eq _ _ _)) as (Hok' & He' & _).
  exists w', (mk_iterator (Some i) (m_tail m')). split_and!; try done.
  - by rewrite (size_spec w' _ i m' Leaf Hwf' Hm' (lookup_insert_eq _ _ _)).
  - unfold empty, call. rewrite Hm'. rewrite bind_get_size. unfold ret.
    rewrite (leave_enter i m' w' Hm').
    destruct Hok' as (_ & _ & _ & _ & _ & Hn & _). cbn [enter __size]. by rewrite Hn.
  - by rewrite (begin_spec w' _ i m' Leaf Hwf' Hm' (lookup_insert_eq _ _ _)).
  - by apply end_spec.
  - intros j Hne. eapply wf_entries_eq; [done|done|]. by rewrite lookup_insert_ne.
Qed.

(** The two outcomes of [insert] on a container with the entries [l]. *)
Lemma insert_cases w i l v :
  reachable w → entries w i = Some l →
  (∃ x kv, (x, kv) ∈ l ∧ equiv kv.1 v.1 ∧
           insert comparing_function i v w = Ret (mk_iterator (Some i) (Some x), false) w) ∨
  (∃ x w' n1 n2,
     l = n1 ++ n2 ∧ w_heap w !! x = None ∧
     insert comparing_function i v w = Ret (mk_iterator (Some i) (Some x), true) w' ∧
     entries w' i = Some (n1 ++ (x, v) :: n2) ∧
     size i w' = Ret (S (length l)) w' ∧
     read_mapped (Some x) w' = Some v.2 ∧
     (∀ j, j ≠ i → entries w' j = entries w j) ∧
     (cmp_transitive comparing_function → ∀ e, e ∈ l → ¬ equiv e.2.1 v.1)).
Proof.
  intros Hr Hl.
  destruct (reachable_view w i l Hr Hl) as (T & m & t & Hwf & Hm & Ht & Hok & -> & Hs).
  pose proof (insert_spec comparing_function w T i m t v Hwf Hm Ht) as Hspec.
  pose proof (locate_Found_nodes comparing_function v.1 t) as HF.
  pose proof (locate_Hole comparing_function v.1 t) as HH.
  destruct (locate comparing_function v.1 t Top) as [k' t'|k'].
  - left. destruct (HF _ _ eq_refl) as (y & kv' & Hy & Hin' & Heq').
    exists y, kv'. by rewrite Hspec, Hy.
  - right. destruct Hspec as (t'' & w' & n1 & n2 & Hfix & E1 & E2 & Hrun & Hwf').
    destruct (wf_map_of w' _ i t'' Hwf' (lookup_insert_eq _ _ _)) as [m' Hm'].
    destruct (wf_entries _ _ _ _ _ Hwf' Hm' (lookup_insert_eq _ _ _)) as (Hok' & He' & _).
    exists (alloc (w_heap w)), w', n1, n2. split_and!; try done.
    + apply alloc_fresh.
    + by rewrite He', E2.
    + rewrite (size_spec w' _ i m' t'' Hwf' Hm' (lookup_insert_eq _ _ _)), E1, E2.
      rewrite !length_app. simpl. do 2 f_equal. lia.
    + apply (read_mapped_value w' _ v).
      eapply map_ok_value; [exact Hok'|]. rewrite E2. set_solver.
    + intros j Hne. eapply wf_entries_eq; [done|done|]. by rewrite lookup_insert_ne.
    + intros Htr e He [E3 E4].
      destruct (HH k' e.2 Htr (Hs Htr) eq_refl); [|congruence|congruence].
      rewrite <-nodes_elems. by apply list_elem_of_fmap_2.
Qed.

(** X10. [insert] of a pair whose key no entry has adds exactly one
    entry, on a new node, between the entries that were there, which keep
    their nodes and pairs; it returns the new position with [true], the
    size grows by one and the other containers are as they were. *)
Theorem insert_new_key_adds_one_entry w i l v :
  reachable w → entries w i = Some l →
  (∀ e, e ∈ l → ¬ equiv e.2.1 v.1) →
  ∃ x w' n1 n2,
    l = n1 ++ n2 ∧ w_heap w !! x = None ∧
    insert comparing_function i v w = Ret (mk_iterator (Some i) (Some x), true) w' ∧
    entries w' i = Some (n1 ++ (x, v) :: n2) ∧
    size i w' = Ret (S (length l)) w' ∧
    read_mapped (Some x) w' = Some v.2 ∧
    ∀ j, j ≠ i → entries w' j = entries w j.
Proof.
  intros Hr Hl Hno.
  destruct (insert_cases w i l v Hr Hl)
    as [(x & kv & Hin & Heq & _)|(x & w' & n1 & n2 & H1 & H2 & H3 & H4 & H5 & H6 & H7 & _)].
  - by destruct (Hno (x, kv) Hin).
  - by exists x, w', n1, n2.
Qed.

(** A strict order: no key is before itself. *)
Definition cmp_irreflexive : Prop := ∀ a, comparing_function a a = false.

Lemma equiv_refl a : cmp_irreflexive → equiv a a.
Proof. intros H. by split. Qed.

(** The lookups of a key equivalent to the key of an entry. *)
Lemma lookup_entry w i l x kv key :
  cmp_transitive comparing_function → equiv_transitive comparing_function →
  reachable w → entries w i = Some l → (x, kv) ∈ l → equiv kv.1 key →
  find comparing_function i key w = Ret (mk_iterator (Some i) (Some x)) w ∧
  at_ comparing_function i key w = Ret (Some x) w ∧
  count comparing_function i key w = Ret 1 w ∧
  read_mapped (Some x) w = Some kv.2.
Proof.
  intros Htr Het Hr Hl Hin Heq.
  destruct (reachable_view w i l Hr Hl) as (T & m & t & Hwf & Hm & Ht & Hok & -> & Hs).
  rewrite (find_spec comparing_function w T i m t key Hwf Hm Ht).
  rewrite (at_spec comparing_function w T i m t key Hwf Hm Ht).
  rewrite (count_spec comparing_function w T i m t key Hwf Hm Ht).
  destruct (tfind_present t key Htr (Hs Htr)) as (x' & kv' & -> & Hin' & Heq').
  { by exists (x, kv). }
  assert ((x', kv') = (x, kv)) as [= -> ->].
  { apply (nodes_equiv_unique comparing_function (nodes t) _ _ key); try done.
    - by apply sorted_nodes, Hs.
    - by apply equiv_key_sym. }
  split_and!; try done. apply read_mapped_value. by eapply map_ok_value.
Qed.

Lemma call_Ret {A} i (f : M K V A) w a w' :
  call i f w = Ret a w' → ∃ m, w_maps w !! i = Some m.
Proof. unfold call. destruct (w_maps w !! i); [eauto|done]. Qed.

Lemma reachable_entries w i m :
  reachable w → w_maps w !! i = Some m → ∃ l, entries w i = Some l.
Proof.
  intros (T & Hwf & _)%reachable_wf Hm.
  destruct (wf_lookup _ _ _ _ Hwf Hm) as (t & Ht & _).
  destruct (wf_entries _ _ _ _ _ Hwf Hm Ht) as (_ & He & _). eauto.
Qed.

(** X11. After [insert(v)], whether it added the pair or found an entry
    with an equivalent key, [find], [at] and [count] of that key give the
    position [insert] returned; when the pair was added, the value read
    there is the one of [v]. *)
Theorem insert_then_find w i v it b w' :
  cmp_transitive comparing_function → cmp_irreflexive →
  equiv_transitive comparing_function →
  reachable w → insert comparing_function i v w = Ret (it, b) w' →
  ∃ x, it = mk_iterator (Some i) (Some x) ∧
       find comparing_function i v.1 w' = Ret it w' ∧
       at_ comparing_function i v.1 w' = Ret (Some x) w' ∧
       count comparing_function i v.1 w' = Ret 1 w' ∧
       (b = true → read_mapped (Some x) w' = Some v.2).
Proof.
  intros Htr Hir Het Hr Hrun.
  assert (Hr' : reachable w') by (by eapply reach_insert).
  destruct (call_Ret _ _ _ _ _ Hrun) as [m Hm].
  destruct (reachable_entries w i m Hr Hm) as [l Hl].
  destruct (insert_cases w i l v Hr Hl)
    as [(x & kv & Hin & Heq & E)|(x & w1 & n1 & n2 & H1 & H2 & E & H4 & H5 & H6 & H7 & _)];
    rewrite E in Hrun; injection Hrun as <- <- <-; exists x.
  - destruct (lookup_entry w i l x kv v.1 Htr Het Hr Hl Hin Heq) as (? & ? & ? & ?).
    by split_and!.
  - destruct (lookup_entry w1 i _ x v v.1 Htr Het Hr' H4) as (? & ? & ? & ?);
      [set_solver|by apply equiv_refl|].
    by split_and!.
Qed.

Lemma ascending_around (l1 l2 : list (addr * (K * V))) x kv e :
  ascending comparing_function (l1 ++ (x, kv) :: l2).*2 →
  e ∈ l1 ++ l2 → ¬ equiv e.2.1 kv.1.
Proof.
  rewrite fmap_app, fmap_cons. unfold ascending. simpl.
  intros (Hlt & _ & [Hgt _]%StronglySorted_cons)%StronglySorted_app.
  intros [He|He]%elem_of_app [E1 E2].
  - specialize (Hlt e.2 kv). unfold kv_lt in Hlt. rewrite E1 in Hlt.
    assert (false = true); [|done]. apply Hlt; [by apply list_elem_of_fmap_2|set_solver].
  - rewrite Forall_forall in Hgt. specialize (Hgt e.2). unfold kv_lt in Hgt.
    rewrite E2 in Hgt. assert (false = true); [|done].
    apply Hgt. by apply list_elem_of_fmap_2.
Qed.

(** X12. After [erase] at the position of an entry, the node of the
    entry is deallocated and its key is no longer in the container:
    [find] gives [end()], [count] gives 0 and [at] raises
    [index_out_of_bound]. *)
Theorem erase_then_find w i n1 x kv n2 :
  cmp_transitive comparing_function →
  reachable w → entries w i = Some (n1 ++ (x, kv) :: n2) →
  ∃ w', erase i (mk_iterator (Some i) (Some x)) w = Ret tt w' ∧
        w_heap w' !! x = None ∧
        find comparing_function i kv.1 w' = end_ i w' ∧
        count comparing_function i kv.1 w' = Ret 0 w' ∧
        at_ comparing_function i kv.1 w' = Throw index_out_of_bound w'.
Proof.
  intros Htr Hr Hl.
  destruct (reachable_view w i _ Hr Hl) as (T & m & t & Hwf & Hm & Ht & Hok & E & Hs).
  assert (Hx : x ∈ addrs t).
  { apply (nodes_in_addrs _ _ kv). rewrite <-E. set_solver. }
  destruct (erase_spec w T i m t x Hwf Hm Ht Hx)
    as (n1' & kv' & n2' & t' & w' & E1 & E2 & Hrun & Hwf' & Hfree).
  assert (Hnd : NoDup (n1 ++ (x, kv) :: n2).*1).
  { rewrite E, nodes_addrs. destruct Hok as (hd & tl & _ & _ & (Hnd & _) & _).
    by apply NoDup_cons in Hnd as [_ [_ ?]%NoDup_cons]. }
  rewrite <-E in E1. destruct (split_unique _ _ _ _ _ _ _ Hnd E1) as (<- & <- & <-).
  destruct (wf_map_of w' _ i t' Hwf' (lookup_insert_eq _ _ _)) as [m' Hm'].
  assert (Hno : tfind comparing_function kv.1 t' = None).
  { apply tfind_absent. intros e He. rewrite E2 in He.
    apply (ascending_around n1 n2 x kv); [|done]. rewrite E. by apply sorted_nodes, Hs. }
  exists w'. split_and!; try done.
  - rewrite (find_spec comparing_function w' _ i m' t' kv.1 Hwf' Hm' (lookup_insert_eq _ _ _)).
    by rewrite Hno, (end_spec w' i m' Hm').
  - rewrite (count_spec comparing_function w' _ i m' t' kv.1 Hwf' Hm' (lookup_insert_eq _ _ _)).
    by rewrite Hno.
  - rewrite (at_spec comparing_function w' _ i m' t' kv.1 Hwf' Hm' (lookup_insert_eq _ _ _)).
    by rewrite Hno.
Qed.

(** The two outcomes of the non-const [operator[]]. *)
Lemma operator_index_cases w i l key :
  reachable w → entries w i = Some l →
  (∃ x kv, (x, kv) ∈ l ∧ equiv kv.1 key ∧
           operator_index comparing_function default_V i key w = Ret (Some x) w) ∨
  (∃ x w' n1 n2,
     l = n1 ++ n2 ∧
     operator_index comparing_function default_V i key w = Ret (Some x) w' ∧
     entries w' i = Some (n1 ++ (x, (key, default_V)) :: n2)).
Proof.
  intros Hr Hl.
  destruct (reachable_view w i l Hr Hl) as (T & m & t & Hwf & Hm & Ht & Hok & -> & Hs).
  pose proof (operator_index_spec comparing_function default_V w T i m t key Hwf Hm Ht)
    as Hspec.
  pose proof (locate_Found_nodes comparing_function key t) as HF.
  destruct (locate comparing_function key t Top) as [k' t'|k'].
  - left. destruct (HF _ _ eq_refl) as (y & kv' & Hy & Hin' & Heq').
    exists y, kv'. by rewrite Hspec, Hy.
  - right. destruct Hspec as (t'' & w' & n1 & n2 & Hfix & E1 & E2 & Hrun & Hwf').
    destruct (wf_map_of w' _ i t'' Hwf' (lookup_insert_eq _ _ _)) as [m' Hm'].
    destruct (wf_entries _ _ _ _ _ Hwf' Hm' (lookup_insert_eq _ _ _)) as (Hok' & He' & _).
    exists (alloc (w_heap w)), w', n1, n2. split_and!; try done. by rewrite He', E2.
Qed.

(** X13. A value assigned through the reference that [operator[]]
    returns is the value that [at] of the same key reads afterwards, at
    the same node; the assignment changes no key and no other entry. *)
Theorem index_assign_then_at w i key v r w1 :
  cmp_transitive comparing_function → cmp_irreflexive →
  equiv_transitive comparing_function →
  reachable w → operator_index comparing_function default_V i key w = Ret r w1 →
  ∃ w2 n1 x kv n2,
    r = Some x ∧ entries w1 i = Some (n1 ++ (x, kv) :: n2) ∧
    assign_mapped r v w1 = Ret tt w2 ∧
    entries w2 i = Some (n1 ++ (x, (kv.1, v)) :: n2) ∧
    at_ comparing_function i key w2 = Ret r w2 ∧
    read_mapped r w2 = Some v.
Proof.
  intros Htr Hir Het Hr Hrun.
  assert (Hr1 : reachable w1) by (by eapply reach_operator_index).
  destruct (call_Ret _ _ _ _ _ Hrun) as [m Hm].
  destruct (reachable_entries w i m Hr Hm) as [l Hl].
  assert (∃ x kv l1, r = Some x ∧ entries w1 i = Some l1 ∧ (x, kv) ∈ l1 ∧ equiv kv.1 key)
    as (x & kv & l1 & -> & Hl1 & Hin & Heq).
  { destruct (operator_index_cases w i l key Hr Hl)
      as [(x & kv & Hin & Heq & E)|(x & w' & n1 & n2 & H1 & E & H4)];
      rewrite E in Hrun; injection Hrun as <- <-.
    - by exists x, kv, l.
    - exists x, (key, default_V), (n1 ++ (x, (key, default_V)) :: n2).
      split_and!; [done|done|set_solver|by apply equiv_refl]. }
  apply list_elem_of_split in Hin as (n1 & n2 & ->).
  destruct (reachable_view w1 i _ Hr1 Hl1) as (T & m1 & t & Hwf & Hm1 & Ht & Hok & E & _).
  assert (Hin : (x, kv) ∈ nodes t) by (rewrite <-E; set_solver).
  destruct (assign_mapped_spec w1 T i m1 t x kv v Hwf Hm1 Ht Hin) as (w2 & Hrun2 & Hwf2).
  assert (Hr2 : reachable w2).
  { eapply (reach_assign_mapped _ _ w1 i x v w2); [done| |done].
    exists (n1 ++ (x, kv) :: n2). split; [done|]. rewrite fmap_app, fmap_cons. set_solver. }
  destruct (wf_map_of w2 _ i _ Hwf2 (lookup_insert_eq _ _ _)) as [m2 Hm2].
  destruct (wf_entries _ _ _ _ _ Hwf2 Hm2 (lookup_insert_eq _ _ _)) as (Hok2 & He2 & _).
  assert (E2 : nodes (tset x (kv.1, v) t) = n1 ++ (x, (kv.1, v)) :: n2).
  { apply (nodes_tset_split x kv); [|done].
    destruct Hok as (hd & tl & _ & _ & (Hnd & _) & _).
    by apply NoDup_cons in Hnd as [_ [_ ?]%NoDup_cons]. }
  rewrite E2 in He2.
  destruct (lookup_entry w2 i _ x (kv.1, v) key Htr Het Hr2 He2) as (_ & Hat & _ & Hread);
    [set_solver|done|].
  by exists w2, n1, x, kv, n2.
Qed.

(** The call returned, without an exception and without a fault. *)
Definition returns {S A} (o : outcome S A) : Prop := ∃ a s, o = Ret a s.

Lemma operator_arrow_entry w T i m t x kv :
  wf w T → w_maps w !! i = Some m → T !! i = Some t → (x, kv) ∈ nodes t →
  operator_arrow (mk_iterator (Some i) (Some x)) w
  = Ret (Some x) (mk_iterator (Some i) (Some x), w).
Proof.
  intros Hwf Hm Ht Hin.
  destruct (wf_lookup _ _ _ _ Hwf Hm) as (t0 & Ht0 & Hok).
  assert (t0 = t) as -> by congruence.
  destruct (map_ok_tail_fresh _ _ _ _ Hok (nodes_in_addrs _ _ _ Hin)) as [Hne _].
  unfold operator_arrow, arrow_body, it_tail. simpl. rewrite Hm. simpl.
  rewrite ptr_eqb_ne by done.
  by rewrite (map_ok_value _ _ _ _ _ Hok Hin).
Qed.

(** X14. On a container of a reachable world no public member function
    faults or runs out of its budget: each one returns, [at] apart, which
    returns or raises [index_out_of_bound]; so do [erase], [++] and [->]
    at the position of an entry. *)
Theorem public_calls_never_fault w i l :
  reachable w → entries w i = Some l →
  (∀ v, returns (insert comparing_function i v w)) ∧
  (∀ key, returns (operator_index comparing_function default_V i key w)) ∧
  (∀ key, returns (find comparing_function i key w) ∧
          returns (count comparing_function i key w) ∧
          (returns (at_ comparing_function i key w) ∨
           at_ comparing_function i key w = Throw index_out_of_bound w)) ∧
  returns (size i w) ∧ returns (empty i w) ∧
  returns (begin_ i w) ∧ returns (end_ i w) ∧
  returns (clear i w) ∧ returns (map_destroy i w) ∧
  (∀ j, is_Some (w_maps w !! j) → returns (operator_assign i j w)) ∧
  (∀ j, w_maps w !! j = None → returns (map_copy j i w)) ∧
  (∀ e, e ∈ l →
     returns (erase i (mk_iterator (Some i) (Some e.1)) w) ∧
     returns (operator_incr (mk_iterator (Some i) (Some e.1)) w) ∧
     returns (operator_arrow (mk_iterator (Some i) (Some e.1)) w)).
Proof.
  intros Hr Hl.
  destruct (reachable_view w i l Hr Hl) as (T & m & t & Hwf & Hm & Ht & Hok & -> & _).
  split_and!.
  - intros v. pose proof (insert_spec comparing_function w T i m t v Hwf Hm Ht) as H.
    destruct (locate comparing_function v.1 t Top); [by eexists _, _|].
    destruct H as (? & ? & ? & ? & _ & _ & _ & H & _). by eexists _, _.
  - intros key.
    pose proof (operator_index_spec comparing_function default_V w T i m t key Hwf Hm Ht)
      as H.
    destruct (locate comparing_function key t Top); [by eexists _, _|].
    destruct H as (? & ? & ? & ? & _ & _ & _ & H & _). by eexists _, _.
  - intros key. split_and!.
    + eexists _, _. by eapply find_spec.
    + eexists _, _. by eapply count_spec.
    + rewrite (at_spec comparing_function w T i m t key Hwf Hm Ht).
      destruct (tfind comparing_function key t) as [[a kv]|]; [left|by right].
      by eexists _, _.
  - eexists _, _. by eapply size_spec.
  - unfold empty, call. rewrite Hm. rewrite bind_get_size. by eexists _, _.
  - eexists _, _. by eapply begin_spec.
  - eexists _, _. by eapply end_spec.
  - destruct (clear_spec w T i m t Hwf Hm Ht) as (w' & H & _). by eexists _, _.
  - destruct (map_destroy_spec w T i m t Hwf Hm Ht) as (w' & H & _). by eexists _, _.
  - intros j [mj Hmj]. destruct (decide (i = j)) as [<-|Hne].
    + unfold operator_assign. rewrite bool_decide_true, Hm by done. by eexists _, _.
    + destruct (wf_lookup _ _ _ _ Hwf Hmj) as (tj & Htj & _).
      destruct (operator_assign_spec w T i j m t mj tj Hwf Hne Hm Ht Hmj Htj)
        as (? & w' & H & _).
      by eexists _, _.
  - intros j Hj.
    assert (Hne : j ≠ i) by (intros ->; congruence).
    destruct (map_copy_spec w T j i m t Hwf Hne Hm Ht) as (? & w' & H & _).
    by eexists _, _.
  - intros [x kv] Hin. simpl.
    destruct (list_elem_of_split _ _ Hin) as (n1 & n2 & E). split_and!.
    + destruct (erase_spec w T i m t x Hwf Hm Ht (nodes_in_addrs _ _ _ Hin))
        as (? & ? & ? & ? & w' & _ & _ & H & _).
      by eexists _, _.
    + eexists _, _. by eapply operator_incr_spec.
    + eexists _, _. by eapply operator_arrow_entry.
Qed.

(** The height of a tree: the number of nodes on its longest path. *)
Fixpoint height t : nat :=
  match t with
  | Leaf => 0
  | Node _ l _ _ r => S (Nat.max (height l) (height r))
  end.

Lemma rb_height n t : rb n t → height t ≤ 2 * n + (if null_or_black_t t then 0 else 1).
Proof.
  revert n. induction t as [|c l IHl x kv r IHr]; intros n; simpl; [lia|].
  destruct c.
  - intros (Hl & Hr & Hbl & Hbr). apply IHl in Hbl. apply IHr in Hbr.
    rewrite Hl in Hbl. rewrite Hr in Hbr. lia.
  - intros (n' & -> & Hbl & Hbr). apply IHl in Hbl. apply IHr in Hbr.
    destruct (null_or_black_t l), (null_or_black_t r); lia.
Qed.

Lemma rb_size n t : rb n t → 2 ^ n ≤ S (length (addrs t)).
Proof.
  revert n. induction t as [|c l IHl x kv r IHr]; intros n; simpl.
  - intros ->. simpl. lia.
  - rewrite length_app. simpl. destruct c.
    + intros (_ & _ & Hbl & _). apply IHl in Hbl. lia.
    + intros (n' & -> & Hbl & Hbr). apply IHl in Hbl. apply IHr in Hbr.
      rewrite Nat.pow_succ_r'. lia.
Qed.

(** X15. The tree of a container with [n] entries has height at most
    [2 * log2 (n + 1)]: the descents of [find], [insert] and [erase] are
    logarithmic in the size. *)
Theorem height_is_logarithmic w i l m :
  reachable w → entries w i = Some l → w_maps w !! i = Some m →
  ∃ t, read_tree (budget w) (w_heap w) (m_root m) = Some t ∧
       nodes t = l ∧ height t ≤ 2 * Nat.log2 (S (length l)).
Proof.
  intros Hr Hl Hm.
  destruct (reachable_view w i l Hr Hl) as (T & m' & t & Hwf & Hm' & Ht & Hok & -> & _).
  assert (m' = m) as -> by congruence.
  destruct (wf_entries _ _ _ _ _ Hwf Hm Ht) as (_ & _ & _ & Hread).
  exists t. split_and!; try done.
  destruct Hok as (_ & _ & _ & _ & _ & _ & Hnb & n & Hrb).
  pose proof (rb_height n t Hrb) as Hh. rewrite Hnb in Hh.
  pose proof (rb_size n t Hrb) as Hs.
  rewrite nodes_length.
  apply Nat.log2_le_pow2 in Hs; lia.
Qed.

(** The loop [for (it = b; it != e; ++it)] of a client, which reads
    [it.operator->()] at every step: the pointers it gets. *)
Fixpoint traverse (fuel : nat) (it e : iterator) w : option (list ptr) :=
  match fuel with
  | 0 => None
  | S fuel =>
    if it_eqb it e then Some []
    else
      match operator_arrow it w with
      | Ret p _ =>
        match operator_incr it w with
        | Ret _ (it', _) => cons p <$> traverse fuel it' e w
        | _ => None
        end
      | _ => None
      end
  end.

Lemma traverse_from w T i m t n1 n2 :
  wf w T → w_maps w !! i = Some m → T !! i = Some t → nodes t = n1 ++ n2 →
  traverse (S (length n2)) (mk_iterator (Some i) (next_of m n2))
    (mk_iterator (Some i) (m_tail m)) w
  = Some (Some <$> n2.*1).
Proof.
  intros Hwf Hm Ht. revert n1.
  destruct (wf_lookup _ _ _ _ Hwf Hm) as (t0 & Ht0 & Hok).
  assert (t0 = t) as -> by congruence.
  induction n2 as [|[x kv] n2 IH]; intros n1 E.
  - cbn [traverse length next_of]. unfold it_eqb. simpl. by rewrite ptr_eqb_refl.
  - assert (Hin : (x, kv) ∈ nodes t) by (rewrite E; set_solver).
    destruct (map_ok_tail_fresh _ _ _ _ Hok (nodes_in_addrs _ _ _ Hin)) as [Hne _].
    change (length ((x, kv) :: n2)) with (S (length n2)).
    specialize (IH (n1 ++ [(x, kv)])). rewrite <-app_assoc in IH. specialize (IH E).
    set (f := S (length n2)) in *.
    cbn [traverse next_of fst]. unfold it_eqb at 1. cbn [it_node].
    rewrite ptr_eqb_ne by done.
    rewrite (operator_arrow_entry w T i m t x kv Hwf Hm Ht Hin).
    rewrite (operator_incr_spec w T i m t n1 x kv n2 Hwf Hm Ht E).
    by rewrite IH.
Qed.

(** X16. A client that goes from [begin()] to [end()] with [++],
    dereferencing at every step, gets the node of every entry once, in the
    order of the sequence, within [size() + 1] comparisons with [end()]. *)
Theorem traversal_visits_the_entries w i l :
  reachable w → entries w i = Some l →
  ∃ b e, begin_ i w = Ret b w ∧ end_ i w = Ret e w ∧
         traverse (S (length l)) b e w = Some (Some <$> l.*1).
Proof.
  intros Hr Hl.
  destruct (reachable_view w i l Hr Hl) as (T & m & t & Hwf & Hm & Ht & Hok & -> & _).
  exists (mk_iterator (Some i) (next_of m (nodes t))), (mk_iterator (Some i) (m_tail m)).
  split_and!.
  - rewrite <-first_of_nodes. by eapply begin_spec.
  - by apply end_spec.
  - by apply (traverse_from w T i m t []).
Qed.

Lemma nodes_plug_ext k t t' : nodes t = nodes t' → nodes (plug k t) = nodes (plug k t').
Proof.
  revert t t'. induction k as [|wh c x kv sib up IH]; intros t t' E; simpl; [done|].
  apply IH. destruct wh; simpl; by rewrite E.
Qed.

(** X17. [rotate(x, which)], on a node [x] whose child [y] on the other
    side is not null, puts [y] in the place of [x] and [x] below it on the
    side [which], each with its color; the in-order sequence of the tree,
    the list and every node outside the tree are as they were. *)
Theorem rotate_keeps_the_sequence w i m k wh cx cy (C : tree K V) x kvx (B : tree K V)
    y kvy (A : tree K V) :
  reachable w → w_maps w !! i = Some m →
  read_tree (budget w) (w_heap w) (m_root m)
  = Some (plug k (mkN wh cx C x kvx (mkN (negb wh) cy A y kvy B))) →
  ∃ s' first,
    rotate (Some x) wh (enter m w) = Some (tt, s') ∧
    read_tree (budget w) (heap s') (root s')
    = Some (plug k (mkN wh cy (mkN wh cx C x kvx B) y kvy A)) ∧
    nodes (plug k (mkN wh cy (mkN wh cx C x kvx B) y kvy A))
    = nodes (plug k (mkN wh cx C x kvx (mkN (negb wh) cy A y kvy B))) ∧
    load next (head s') (heap s') = Some first ∧
    walk_next (budget w) (heap s') first (tail s')
    = Some (addrs (plug k (mkN wh cx C x kvx (mkN (negb wh) cy A y kvy B)))) ∧
    frame_on (addrs (plug k (mkN wh cx C x kvx (mkN (negb wh) cy A y kvy B))))
      (w_heap w) (heap s').
Proof.
  intros (T & Hwf & _)%reachable_wf Hm Hread.
  destruct (wf_lookup _ _ _ _ Hwf Hm) as (t & Ht & Hok).
  destruct (wf_entries _ _ _ _ _ Hwf Hm Ht) as (_ & _ & _ & Hread').
  assert (t = plug k (mkN wh cx C x kvx (mkN (negb wh) cy A y kvy B))) as -> by congruence.
  pose proof (map_ok_budget _ _ _ Hok) as Hb.
  destruct Hok as (hd & tl & Hh & Htl & HS & Hn & Hrb).
  destruct (rotate_spec hd tl _ _ (m_size m) wh k cx cy C x kvx B y kvy A HS)
    as (h' & r' & Hrun & HS' & Hfr).
  assert (HN : nodes (plug k (mkN wh cy (mkN wh cx C x kvx B) y kvy A))
               = nodes (plug k (mkN wh cx C x kvx (mkN (negb wh) cy A y kvy B)))).
  { apply nodes_plug_ext. destruct wh; simpl; by rewrite <-?app_assoc. }
  assert (HA : addrs (plug k (mkN wh cy (mkN wh cx C x kvx B) y kvy A))
               = addrs (plug k (mkN wh cx C x kvx (mkN (negb wh) cy A y kvy B)))).
  { by rewrite <-!nodes_addrs, HN. }
  pose proof HS' as (Hnd' & _ & _ & Hr' & [Hok' _] & Hd').
  destruct (walk_next_dll (budget w) _ _ _ _ Hd') as (first & Hfirst & Hwalk).
  { apply NoDup_cons in Hnd' as [_ Hnd']. by apply NoDup_cons in Hnd' as [? _]. }
  { rewrite HA. lia. }
  exists (mk_state h' (Some hd) (Some tl) r' (m_size m)), first.
  rewrite (enter_eq m w hd tl) by done. st_simpl.
  split_and!; try done.
  - rewrite Hr'. apply read_tree_ok; [done|]. rewrite HA. lia.
  - by rewrite <-HA.
Qed.

End properties.

(** ** Every node has an owner

    No node is lost: in a reachable world every allocated node is a
    sentinel or the node of an entry of a container. *)

Section accounting.
Context {K V : Type}.
Variable comparing_function : K → K → bool.
Variable default_V : V.
Implicit Types (h : gmap addr (rbt_node K V)) (t : tree K V).
Implicit Types (w : world K V) (m : map_obj) (T : gmap addr (tree K V)).

Local Abbreviation reachable := (reachable comparing_function default_V).
Local Open Scope m_scope.

Local Ltac st_simpl_in H :=
  unfold with_heap, with_root, with_size in H; cbn [heap head tail root __size] in H.

(** Every allocated node is in the footprint of a container. *)
Definition tight w T : Prop := ∀ b, is_Some (w_heap w !! b) → ∃ i, b ∈ own w T i.

Lemma tight_update w T i h' m' t' :
  tight w T →
  (∀ b, is_Some (h' !! b) → b ∈ fp m' t' ∨ is_Some (w_heap w !! b)) →
  (∀ b, b ∈ own w T i → b ∈ fp m' t' ∨ h' !! b = None) →
  tight (mk_world h' (<[i := m']> (w_maps w))) (<[i := t']> T).
Proof.
  intros Ht D1 D2 b Hb. simpl in Hb.
  assert (Hi : b ∈ fp m' t' → ∃ j, b ∈ own (mk_world h' (<[i := m']> (w_maps w))) (<[i := t']> T) j).
  { intros Hin. exists i. unfold own. simpl. by rewrite !lookup_insert_eq. }
  destruct (D1 b Hb) as [Hin|Hold]; [by apply Hi|].
  destruct (Ht b Hold) as [j Hj]. destruct (decide (j = i)) as [->|Hne].
  - destruct (D2 b Hj) as [Hin|Hnone]; [by apply Hi|].
    rewrite Hnone in Hb. by destruct Hb.
  - exists j. unfold own in *. simpl. by rewrite !lookup_insert_ne.
Qed.

Lemma tight_delete w T i h' :
  tight w T →
  (∀ b, is_Some (h' !! b) → is_Some (w_heap w !! b)) →
  (∀ b, b ∈ own w T i → h' !! b = None) →
  tight (mk_world h' (delete i (w_maps w))) (delete i T).
Proof.
  intros Ht D1 D2 b Hb. simpl in Hb.
  destruct (Ht b (D1 b Hb)) as [j Hj]. destruct (decide (j = i)) as [->|Hne].
  - rewrite (D2 b Hj) in Hb. by destruct Hb.
  - exists j. unfold own in *. simpl. by rewrite !lookup_delete_ne.
Qed.

Lemma call_inv {A} i (f : M K V A) w a w' :
  call i f w = Ret a w' →
  ∃ m s', w_maps w !! i = Some m ∧ f (enter m w) = Some (a, s') ∧ w' = leave i s' w.
Proof.
  unfold call. destruct (w_maps w !! i) as [m|]; [|done].
  destruct (f (enter m w)) as [[a' s']|] eqn:E; [|done]. intros [= <- <-]. by exists m, s'.
Qed.

(** A member function that keeps the sentinels and works inside [S]. *)
Lemma tight_call i w T m t s' t' (S : list addr) :
  wf w T → tight w T → w_maps w !! i = Some m → T !! i = Some t →
  head s' = m_head m → tail s' = m_tail m →
  frame_on S (w_heap w) (heap s') →
  (∀ b, b ∈ S → b ∈ fp m t ∨ b ∈ addrs t') →
  (∀ b, b ∈ addrs t → b ∈ addrs t' ∨ heap s' !! b = None) →
  tight (leave i s' w) (<[i := t']> T).
Proof.
  intros Hwf Hti Hm Ht Hhd Htl Hfr HS Hfree.
  destruct (wf_lookup _ _ _ _ Hwf Hm) as (t0 & Ht0 & Hok).
  assert (t0 = t) as -> by congruence.
  unfold leave. apply tight_update; [done| |].
  - intros b Hb. unfold fp at 1. simpl. rewrite Hhd, Htl.
    destruct (decide (b ∈ S)) as [Hin|Hout].
    + destruct (HS b Hin) as [Hf|Ht']; [|left; set_solver].
      right. by eapply map_ok_alloc.
    + right. by rewrite <-(Hfr b Hout).
  - intros b. rewrite (own_eq _ _ _ _ _ Hm Ht). unfold fp. simpl. rewrite Hhd, Htl.
    rewrite !elem_of_app. intros [?|[?|Hb]]; auto.
    destruct (Hfree b Hb); auto.
Qed.

Lemma insert_body_tight w T i m t key v r s' :
  wf w T → tight w T → w_maps w !! i = Some m → T !! i = Some t →
  __insert comparing_function (budget w) key v (enter m w) = Some (r, s') →
  ∃ t', wf (leave i s' w) (<[i := t']> T) ∧ tight (leave i s' w) (<[i := t']> T).
Proof.
  intros Hwf Hti Hm Ht Hrun.
  destruct (wf_lookup _ _ _ _ Hwf Hm) as (t0 & Ht0 & Hok).
  assert (t0 = t) as -> by congruence.
  pose proof (__insert_ok comparing_function w m t key v Hok) as Hins.
  destruct (locate comparing_function key t Top) as [k' t'|k'].
  - rewrite Hins in Hrun. injection Hrun as <- <-. exists t.
    by rewrite (leave_enter i m w Hm), (insert_id T i t Ht).
  - destruct Hins as (t'' & s'' & Hfix & Hrun' & Hhd & Htl & Hok' & Hfr & n1 & n2 & E1 & E2).
    rewrite Hrun' in Hrun. injection Hrun as <- <-. exists t''.
    assert (Hsub : ∀ b, b ∈ addrs t → b ∈ addrs t'').
    { intros b. rewrite <-!nodes_addrs, E1, E2, !fmap_app, fmap_cons. set_solver. }
    split.
    + by eapply (insert_call_wf i _ w T m t t'' s'' _ n1 n2 v).
    + eapply (tight_call i w T m t s'' t'' (alloc (w_heap w) :: fp m t)); try done.
      * intros b [->|Hb]%elem_of_cons; [|by left].
        right. rewrite <-nodes_addrs, E2, fmap_app, fmap_cons. set_solver.
      * intros b Hb. left. by apply Hsub.
Qed.

(** The invariant of the worlds. *)
Definition kept w : Prop := ∃ T, wf w T ∧ tight w T.

Lemma insert_tight w T i v r w' :
  wf w T → tight w T → insert comparing_function i v w = Ret r w' → kept w'.
Proof.
  intros Hwf Hti Hrun. unfold insert in Hrun.
  destruct (call_inv _ _ _ _ _ Hrun) as (m & s' & Hm & Hf & ->).
  destruct (wf_lookup _ _ _ _ Hwf Hm) as (t & Ht & _).
  unfold __insert_value, bind, ret in Hf.
  destruct (__insert comparing_function (budget w) v.1 v (enter m w)) as [[r0 s0]|] eqn:E;
    [|done].
  injection Hf as <- <-.
  destruct (insert_body_tight w T i m t _ _ _ _ Hwf Hti Hm Ht E) as (t' & ? & ?).
  by exists (<[i := t']> T).
Qed.

Lemma operator_index_tight w T i key r w' :
  wf w T → tight w T →
  operator_index comparing_function default_V i key w = Ret r w' → kept w'.
Proof.
  intros Hwf Hti Hrun. unfold operator_index in Hrun.
  destruct (call_inv _ _ _ _ _ Hrun) as (m & s' & Hm & Hf & ->).
  destruct (wf_lookup _ _ _ _ Hwf Hm) as (t & Ht & _).
  unfold __insert_key, bind, ret, rd in Hf.
  destruct (__insert comparing_function (budget w) key (key, default_V) (enter m w))
    as [[r0 s0]|] eqn:E; [|done].
  destruct (load value r0.1 (heap s0)) as [[kv|]|]; try done.
  injection Hf as <- <-.
  destruct (insert_body_tight w T i m t _ _ _ _ Hwf Hti Hm Ht E) as (t' & ? & ?).
  by exists (<[i := t']> T).
Qed.

Lemma erase_tight w T i x w' :
  wf w T → tight w T → entry_of w i x →
  erase i (mk_iterator (Some i) (Some x)) w = Ret tt w' → kept w'.
Proof.
  intros Hwf Hti Hx Hrun.
  destruct (wf_entry_of _ _ _ _ Hwf Hx) as (m & t & kv & Hm & Ht & Hin).
  destruct (wf_lookup _ _ _ _ Hwf Hm) as (t0 & Ht0 & Hok).
  assert (t0 = t) as -> by congruence.
  pose proof (nodes_in_addrs _ _ _ Hin) as Hxa.
  destruct (erase_node_ok w m t x Hok Hxa)
    as (n1 & kv' & n2 & t' & s' & E1 & E2 & Hrun' & Hhd & Htl & Hok' & Hfr & Hx').
  destruct (call_wf i (erase_node (budget w) (Some x)) w T m t tt s' t') as [Hcall Hwf'];
    try done.
  { intros b _ Hb. by apply Hfr. }
  { intros b. rewrite <-!nodes_addrs, E1, E2, !fmap_app, fmap_cons, !elem_of_app, elem_of_cons.
    intros [?|?]; auto. }
  unfold erase in Hrun. rewrite Hm in Hrun. simpl in Hrun.
  destruct (map_ok_tail_fresh _ _ _ _ Hok Hxa) as [Hne _].
  rewrite bool_decide_false in Hrun by (by intros []).
  rewrite ptr_eqb_ne in Hrun by done. simpl in Hrun.
  rewrite Hcall in Hrun. injection Hrun as <-.
  exists (<[i := t']> T). split; [done|].
  eapply (tight_call i w T m t s' t' (fp m t)); try done.
  - by left.
  - intros b. rewrite <-!nodes_addrs, E1, E2, !fmap_app, fmap_cons, !elem_of_app, elem_of_cons.
    simpl. intros [?|[->|?]]; auto.
Qed.

Lemma clear_tight w T i w' :
  wf w T → tight w T → clear i w = Ret tt w' →
  wf w' (<[i := Leaf]> T) ∧ tight w' (<[i := Leaf]> T).
Proof.
  intros Hwf Hti Hrun. unfold clear in Hrun.
  destruct (call_inv _ _ _ _ _ Hrun) as (m & s' & Hm & Hf & ->).
  destruct (wf_lookup _ _ _ _ Hwf Hm) as (t & Ht & Hok).
  pose proof (map_ok_budget _ _ _ Hok) as Hb.
  pose proof Hok as (hd & tl & Hh & Htl & HS & Hn & Hrb).
  destruct (clear_body_spec (budget w) hd tl _ _ t (m_size m) HS)
    as (h' & Hrun' & HS' & Hfr & Hdel); [lia|].
  rewrite <-(enter_eq m w hd tl) in Hrun' by done.
  rewrite Hrun' in Hf. injection Hf as <-.
  destruct (call_wf i (clear_body (budget w)) w T m t tt _ Leaf Hwf Hm Ht Hrun')
    as [Hcall Hwf']; try done.
  { exists hd, tl. split_and!; try done. by split; [|exists 0]. }
  { intros b _ Hb'. apply Hfr. by rewrite <-(map_ok_fp (w_heap w) m t hd tl). }
  { by intros b ?%elem_of_nil. }
  split; [done|].
  eapply (tight_call i w T m t _ Leaf (fp m t)); try done.
  - by rewrite (map_ok_fp (w_heap w) m t hd tl).
  - by left.
  - intros b Hb'. right. by apply Hdel.
Qed.

Lemma assign_mapped_tight w T i x v w' :
  wf w T → tight w T → entry_of w i x →
  assign_mapped (Some x) v w = Ret tt w' → kept w'.
Proof.
  intros Hwf Hti Hx Hrun.
  destruct (wf_entry_of _ _ _ _ Hwf Hx) as (m & t & kv & Hm & Ht & Hin).
  destruct (assign_mapped_spec w T i m t x kv v Hwf Hm Ht Hin) as (w2 & Hrun2 & Hwf2).
  assert (w2 = w') as -> by congruence.
  exists (<[i := tset x (kv.1, v) t]> T). split; [done|].
  unfold assign_mapped in Hrun.
  destruct (load value (Some x) (w_heap w)) as [[kv0|]|]; try done.
  unfold store in Hrun. simpl in Hrun.
  destruct (w_heap w !! x) as [nd|] eqn:Hnd; [|done]. simpl in Hrun.
  injection Hrun as <-.
  rewrite <-(insert_id (w_maps w) i m Hm).
  apply tight_update; [done| |].
  - intros b Hb. right. by rewrite alter_is_Some in Hb.
  - intros b. rewrite (own_eq _ _ _ _ _ Hm Ht). unfold fp. rewrite addrs_tset. auto.
Qed.

Lemma map_default_tight w T i w' :
  wf w T → tight w T → w_maps w !! i = None →
  map_default i w = Ret tt w' →
  wf w' (<[i := Leaf]> T) ∧ tight w' (<[i := Leaf]> T).
Proof.
  intros Hwf Hti Hfresh Hrun.
  destruct (map_default_spec w T i Hwf) as (w1 & Hdef & Hwf1).
  assert (w1 = w') as -> by congruence.
  split; [done|].
  unfold map_default in Hrun.
  set (h := w_heap w) in *. set (hd := alloc h) in *. set (h1 := <[hd := sentinel]> h) in *.
  set (tl := alloc h1) in *. set (h2 := <[tl := sentinel]> h1) in *.
  assert (Htl1 : h1 !! tl = None) by apply alloc_fresh.
  assert (Hne : tl ≠ hd).
  { intros E. unfold h1 in Htl1. rewrite E, lookup_insert_eq in Htl1. done. }
  rewrite store_Some in Hrun.
  2: { unfold h2, h1. rewrite lookup_insert_ne by done. by rewrite lookup_insert_eq. }
  rewrite store_Some in Hrun.
  2: { rewrite alter_is_Some. unfold h2. by rewrite lookup_insert_eq. }
  injection Hrun as <-.
  apply tight_update; [done| |].
  - intros b. rewrite !alter_is_Some. unfold h2, h1, fp. simpl.
    destruct (decide (b = tl)) as [->|]; [left; set_solver|].
    destruct (decide (b = hd)) as [->|]; [left; set_solver|].
    rewrite !lookup_insert_ne by done. auto.
  - intros b. unfold own. rewrite Hfresh. by intros ?%elem_of_nil.
Qed.

Lemma map_destroy_tight w T i w' :
  wf w T → tight w T → map_destroy i w = Ret tt w' → kept w'.
Proof.
  intros Hwf Hti Hdes.
  assert (∃ m, w_maps w !! i = Some m) as [m Hm].
  { unfold map_destroy, call in Hdes. destruct (w_maps w !! i); [eauto|done]. }
  destruct (wf_lookup _ _ _ _ Hwf Hm) as (t & Ht & Hok).
  destruct (map_destroy_spec w T i m t Hwf Hm Ht) as (w1 & Hrun & Hwf').
  assert (w1 = w') as -> by congruence.
  exists (delete i T). split; [done|].
  pose proof (map_ok_budget _ _ _ Hok) as Hb.
  pose proof Hok as (hd & tl & Hh & Htl & HS & Hn & Hrb).
  destruct (clear_body_spec (budget w) hd tl _ _ t (m_size m) HS)
    as (h' & Hrun' & HS' & Hfr & Hdel); [lia|].
  rewrite <-(enter_eq m w hd tl) in Hrun' by done.
  pose proof (Shape_alloc _ _ _ _ _ hd HS' ltac:(set_solver)) as [nh Hah].
  pose proof (Shape_alloc _ _ _ _ _ tl HS' ltac:(set_solver)) as [nt Hat].
  assert (Hht : hd ≠ tl).
  { destruct HS' as (Hnd & _). apply NoDup_cons in Hnd as [Hnd _]. set_solver. }
  revert Hdes. unfold map_destroy, call. rewrite Hm.
  erewrite bind_ok by exact Hrun'. rewrite bind_get_head. st_simpl.
  unfold bind at 1, delete_node at 1. st_simpl. rewrite Hah.
  rewrite bind_get_tail. st_simpl. unfold delete_node. st_simpl.
  rewrite lookup_delete_ne by done. rewrite Hat. st_simpl.
  intros [= <-]. unfold leave. simpl. rewrite delete_insert_eq.
  apply tight_delete; [done| |].
  - intros b Hb'.
    destruct (decide (b = tl)) as [->|]; [by rewrite lookup_delete_eq in Hb'; destruct Hb'|].
    rewrite lookup_delete_ne in Hb' by done.
    destruct (decide (b = hd)) as [->|]; [by rewrite lookup_delete_eq in Hb'; destruct Hb'|].
    rewrite lookup_delete_ne in Hb' by done.
    destruct (decide (b ∈ addrs t)) as [Hin|Hout].
    + rewrite (Hdel b Hin) in Hb'. by destruct Hb'.
    + rewrite <-(Hfr b); [done|]. set_solver.
  - intros b. rewrite (own_eq _ _ _ _ _ Hm Ht), (map_ok_fp (w_heap w) m t hd tl) by done.
    intros [->|[->|Hin]%elem_of_cons]%elem_of_cons.
    + rewrite lookup_delete_ne by done. apply lookup_delete_eq.
    + apply lookup_delete_eq.
    + destruct (decide (b = tl)) as [->|]; [apply lookup_delete_eq|].
      rewrite lookup_delete_ne by done.
      destruct (decide (b = hd)) as [->|]; [apply lookup_delete_eq|].
      rewrite lookup_delete_ne by done. by apply Hdel.
Qed.

(** The clone of the tree of [j] hung into the empty container [i]. *)
Lemma clone_tight w T i j m mo t fuel :
  wf w T → tight w T → w_maps w !! i = Some m → T !! i = Some Leaf → j ≠ i →
  w_maps w !! j = Some mo → T !! j = Some t → t ≠ Leaf → length (addrs t) ≤ fuel →
  ∃ h' a,
    (let* hd := get_head in let* tl := get_tail in
     let* r := clone fuel (m_root mo) None hd tl in set_root r)
      (mk_state (w_heap w) (m_head m) (m_tail m) (m_root m) (m_size mo))
    = Some (tt, mk_state h' (m_head m) (m_tail m) (Some a) (m_size mo)) ∧
    kept (mk_world h' (<[i := mk_map (m_head m) (m_tail m) (Some a) (m_size mo)]> (w_maps w))).
Proof.
  intros Hwf Hti Hm Hi Hne Hmo Ht Hnl Hlen.
  destruct (clone_world w T i j m mo t fuel Hwf Hm Hi Hne Hmo Ht Hnl Hlen)
    as (t' & h' & a & Hrun' & Hsh & He & Hwf' & Hdom).
  exists h', a. split; [done|].
  exists (<[i := t']> T). split; [done|].
  apply tight_update; [done| |].
  - intros b Hb. destruct (Hdom b Hb); [by right|]. left. unfold fp. set_solver.
  - intros b. rewrite (own_eq _ _ _ _ _ Hm Hi). unfold fp. simpl. set_solver.
Qed.

Lemma map_copy_tight w T i j w' :
  wf w T → tight w T → w_maps w !! i = None → is_Some (w_maps w !! j) →
  map_copy i j w = Ret tt w' → kept w'.
Proof.
  intros Hwf Hti Hfresh [mo Hmo] Hrun.
  assert (Hne : j ≠ i) by (intros ->; congruence).
  destruct (map_default_spec w T i Hwf) as (w1 & Hdef & _).
  destruct (map_default_tight w T i w1 Hwf Hti Hfresh Hdef) as [Hwf1 Hti1].
  destruct (map_default_maps w i) as (w1' & m1 & Hdef' & Hmaps & Hr1 & Hs1).
  assert (w1' = w1) as -> by congruence.
  destruct (wf_lookup _ _ _ _ Hwf Hmo) as (t & Ht & Hoko).
  pose proof (map_ok_budget _ _ _ Hoko) as Hb.
  assert (Hmo1 : w_maps w1 !! j = Some mo) by (by rewrite Hmaps, lookup_insert_ne).
  assert (Hm1 : w_maps w1 !! i = Some m1) by (by rewrite Hmaps, lookup_insert_eq).
  unfold map_copy in Hrun. rewrite Hdef, Hmo1 in Hrun.
  case_bool_decide as Hsz.
  - injection Hrun as <-. by exists (<[i := Leaf]> T).
  - assert (Hnl : t ≠ Leaf).
    { intros ->. by destruct Hoko as (_ & _ & _ & _ & _ & Hn & _). }
    destruct (clone_tight w1 (<[i := Leaf]> T) i j m1 mo t (budget w) Hwf1 Hti1 Hm1)
      as (h' & a & Hrun' & Hkept);
      [by rewrite lookup_insert_eq|done|done|by rewrite lookup_insert_ne|done|lia|].
    destruct (call_inv _ _ _ _ _ Hrun) as (m1' & s' & Hm1' & Hf & ->).
    assert (m1' = m1) as -> by congruence.
    rewrite bind_set_size in Hf. unfold enter in Hf. st_simpl_in Hf.
    rewrite Hrun' in Hf. injection Hf as <-. exact Hkept.
Qed.

Lemma operator_assign_tight w T i j w' :
  wf w T → tight w T → operator_assign i j w = Ret tt w' → kept w'.
Proof.
  intros Hwf Hti Hrun. unfold operator_assign in Hrun.
  case_bool_decide as Hij.
  { destruct (w_maps w !! i); [|done]. injection Hrun as <-. by exists T. }
  destruct (clear i w) as [[] w1| | |] eqn:Hclear; try done.
  destruct (clear_tight w T i w1 Hwf Hti Hclear) as [Hwf1 Hti1].
  destruct (call_Ret _ _ _ _ _ Hclear) as [m Hm].
  destruct (wf_lookup _ _ _ _ Hwf Hm) as (ti & Hti' & _).
  destruct (clear_spec w T i m ti Hwf Hm Hti') as (w1' & Hclear' & _ & Hmaps & Hfr).
  assert (w1' = w1) as -> by congruence.
  destruct (w_maps w1 !! j) as [mo|] eqn:Hmo1; [|done].
  assert (Hmo : w_maps w !! j = Some mo).
  { rewrite Hmaps, lookup_insert_ne in Hmo1 by done. done. }
  destruct (wf_lookup _ _ _ _ Hwf Hmo) as (t & Ht & Hoko).
  pose proof (map_ok_budget _ _ _ Hoko) as Hb.
  set (m1 := mk_map (m_head m) (m_tail m) None 0) in *.
  assert (Hm1 : w_maps w1 !! i = Some m1) by (by rewrite Hmaps, lookup_insert_eq).
  destruct (call i (set_size (m_size mo)) w1) as [[] w2| | |] eqn:Hset; try done.
  destruct (call_inv _ _ _ _ _ Hset) as (m1' & s2 & Hm1' & Hf2 & ->).
  assert (m1' = m1) as -> by congruence.
  unfold set_size in Hf2. injection Hf2 as <-.
  case_bool_decide as Hsz.
  - injection Hrun as <-. exists (<[i := Leaf]> T).
    unfold leave, with_size, enter. simpl.
    rewrite Hsz. fold m1. rewrite insert_id by done. by destruct w1.
  - assert (Hnl : t ≠ Leaf).
    { intros ->. by destruct Hoko as (_ & _ & _ & _ & _ & Hn & _). }
    destruct (clone_tight w1 (<[i := Leaf]> T) i j m1 mo t (budget w) Hwf1 Hti1 Hm1)
      as (h' & a & Hrun' & Hkept);
      [by rewrite lookup_insert_eq|done|done|by rewrite lookup_insert_ne|done|lia|].
    destruct (call_inv _ _ _ _ _ Hrun) as (m2 & s' & Hm2 & Hf & ->).
    unfold leave in Hm2. cbn [w_maps] in Hm2. rewrite lookup_insert_eq in Hm2.
    injection Hm2 as <-.
    unfold enter, leave, with_size in Hf. cbn [w_heap heap head tail root __size
      m_head m_tail m_root m_size] in Hf.
    change (m_head m) with (m_head m1) in Hf. change (m_tail m) with (m_tail m1) in Hf.
    change None with (m_root m1) in Hf at 2.
    rewrite Hrun' in Hf. injection Hf as <-.
    unfold leave. cbn [w_heap w_maps heap head tail root __size].
    rewrite insert_insert_eq. exact Hkept.
Qed.

Lemma reachable_tight w : reachable w → kept w.
Proof.
  induction 1 as [|w i w' _ (T & Hwf & Hti) Hfresh Hrun
                  |w i j w' _ (T & Hwf & Hti) Hfresh Hj Hrun
                  |w i j w' _ (T & Hwf & Hti) Hrun
                  |w i w' _ (T & Hwf & Hti) Hrun
                  |w i w' _ (T & Hwf & Hti) Hrun
                  |w i v r w' _ (T & Hwf & Hti) Hrun
                  |w i key r w' _ (T & Hwf & Hti) Hrun
                  |w i x w' _ (T & Hwf & Hti) Hx Hrun
                  |w i x v w' _ (T & Hwf & Hti) Hx Hrun].
  - exists ∅. split.
    + split; [by intros i; rewrite !lookup_empty|]. intros ???????. by rewrite lookup_empty.
    + intros b. simpl. rewrite lookup_empty. by intros [? ?].
  - exists (<[i := Leaf]> T). by eapply map_default_tight.
  - by eapply map_copy_tight.
  - by eapply operator_assign_tight.
  - by eapply map_destroy_tight.
  - exists (<[i := Leaf]> T). by eapply clear_tight.
  - by eapply insert_tight.
  - by eapply operator_index_tight.
  - by eapply erase_tight.
  - by eapply assign_mapped_tight.
Qed.

(** X18. No node is lost or shared: in a reachable world every
    allocated node is a sentinel or the node of an entry of exactly one
    container, and when no container is left the heap is empty. *)
Theorem every_node_has_one_owner w :
  reachable w →
  (∀ b, is_Some (w_heap w !! b) →
     ∃ i m l, w_maps w !! i = Some m ∧ entries w i = Some l ∧
       (m_head m = Some b ∨ m_tail m = Some b ∨ b ∈ l.*1) ∧
       ∀ j mj lj, w_maps w !! j = Some mj → entries w j = Some lj →
         (m_head mj = Some b ∨ m_tail mj = Some b ∨ b ∈ lj.*1) → j = i) ∧
  (w_maps w = ∅ → w_heap w = ∅).
Proof.
  intros (T & Hwf & Hti)%reachable_tight.
  assert (Hfp : ∀ j mj lj, w_maps w !! j = Some mj → entries w j = Some lj →
            ∃ tj, T !! j = Some tj ∧ ∀ b,
              (m_head mj = Some b ∨ m_tail mj = Some b ∨ b ∈ lj.*1) ↔ b ∈ fp mj tj).
  { intros j mj lj Hmj Hlj.
    destruct (wf_lookup _ _ _ _ Hwf Hmj) as (tj & Htj & Hokj).
    destruct (wf_entries _ _ _ _ _ Hwf Hmj Htj) as (_ & He & _).
    assert (lj = nodes tj) as -> by congruence.
    exists tj. split; [done|]. intros b. unfold fp. rewrite nodes_addrs, !elem_of_app.
    destruct (m_head mj), (m_tail mj); simpl; set_solver. }
  split.
  - intros b Hb. destruct (Hti b Hb) as [i Hi]. unfold own in Hi.
    destruct (w_maps w !! i) as [m|] eqn:Hm; [|by apply elem_of_nil in Hi].
    destruct (T !! i) as [t|] eqn:Ht; [|by apply elem_of_nil in Hi].
    destruct (wf_entries _ _ _ _ _ Hwf Hm Ht) as (_ & He & _).
    destruct (Hfp i m _ Hm He) as (t0 & Ht0 & Hiff).
    assert (t0 = t) as -> by congruence.
    exists i, m, (nodes t). split_and!; try done; [by apply Hiff|].
    intros j mj lj Hmj Hlj Hbj. destruct (decide (j = i)) as [|Hne]; [done|].
    destruct (Hfp j mj lj Hmj Hlj) as (tj & Htj & Hiffj).
    destruct Hwf as [_ Hdis]. destruct (Hdis j i mj m tj t Hne Hmj Hm Htj Ht b); [|done].
    by apply Hiffj.
  - intros Hnone. apply map_empty. intros b.
    destruct (w_heap w !! b) as [nd|] eqn:Hb; [|done].
    destruct (Hti b (mk_is_Some _ _ Hb)) as [i Hi]. unfold own in Hi.
    rewrite Hnone, lookup_empty in Hi. by apply elem_of_nil in Hi.
Qed.

End accounting.

(** ** A run on natural numbers

    The container [1] of a world built by the default constructor and four
    insertions, with [<] on [nat] as the order. *)

Definition ret_world {K V A} (o : outcome (world K V) A) (d : world K V) : world K V :=
  match o with Ret _ w => w | _ => d end.

Definition demo0 : world nat nat := mk_world ∅ ∅.
Definition demo1 : world nat nat := ret_world (map_default 1%positive demo0) demo0.
Definition demo2 : world nat nat := ret_world (insert Nat.ltb 1%positive (5, 50) demo1) demo1.
Definition demo3 : world nat nat := ret_world (insert Nat.ltb 1%positive (3, 30) demo2) demo2.
Definition demo4 : world nat nat := ret_world (insert Nat.ltb 1%positive (8, 80) demo3) demo3.
Definition demo5 : world nat nat := ret_world (insert Nat.ltb 1%positive (1, 10) demo4) demo4.

Definition demo_map : map_obj :=
  mk_map (Some 1%positive) (Some 2%positive) (Some 3%positive) 4.
Definition demo_entries : list (addr * (nat * nat)) :=
  [(6%positive, (1, 10)); (4%positive, (3, 30)); (3%positive, (5, 50)); (5%positive, (8, 80))].
Definition demo_tree : tree nat nat :=
  Node BLACK
    (Node BLACK (Node RED Leaf 6%positive (1, 10) Leaf) 4%positive (3, 30) Leaf)
    3%positive (5, 50)
    (Node BLACK Leaf 5%positive (8, 80) Leaf).

Lemma ltb_transitive : cmp_transitive Nat.ltb.
Proof. intros a b c H1%Nat.ltb_lt H2%Nat.ltb_lt. apply Nat.ltb_lt. lia. Qed.

Lemma ltb_equiv_transitive : equiv_transitive Nat.ltb.
Proof.
  intros a b c [H1%Nat.ltb_ge H2%Nat.ltb_ge] [H3%Nat.ltb_ge H4%Nat.ltb_ge].
  split; apply Nat.ltb_ge; lia.
Qed.

Lemma demo1_reachable : reachable Nat.ltb 0 demo1.
Proof.
  apply reach_map_default with (w := demo0) (i := 1%positive);
    [apply reach_init|done|by vm_compute].
Qed.

Lemma demo5_reachable : reachable Nat.ltb 0 demo5.
Proof.
  eapply reach_insert with (w := demo4) (i := 1%positive) (v := (1, 10)); [|by vm_compute].
  eapply reach_insert with (w := demo3) (i := 1%positive) (v := (8, 80)); [|by vm_compute].
  eapply reach_insert with (w := demo2) (i := 1%positive) (v := (3, 30)); [|by vm_compute].
  eapply reach_insert with (w := demo1) (i := 1%positive) (v := (5, 50)); [|by vm_compute].
  apply demo1_reachable.
Qed.

Lemma demo5_map : w_maps demo5 !! 1%positive = Some demo_map.
Proof. by vm_compute. Qed.
Lemma demo5_entries : entries demo5 1%positive = Some demo_entries.
Proof. by vm_compute. Qed.
Lemma demo5_tree : read_tree (budget demo5) (w_heap demo5) (m_root demo_map) = Some demo_tree.
Proof. by vm_compute. Qed.

Lemma red_black_after_every_operation_witness :
  ∃ t, read_tree (budget demo5) (w_heap demo5) (m_root demo_map) = Some t ∧
       tcolor t = BLACK ∧ no_red_red t ∧ ∃ n, ∀ p, p ∈ black_counts t → p = n.
Proof.
  exact (red_black_after_every_operation Nat.ltb 0 demo5 1%positive demo_map
           demo5_reachable demo5_map).
Defined.

Lemma sequence_is_sorted_inorder_witness :
  ∃ t, read_tree (budget demo5) (w_heap demo5) (m_root demo_map) = Some t ∧
       entries demo5 1%positive = Some (nodes t) ∧ NoDup (nodes t).*1 ∧
       ascending Nat.ltb (nodes t).*2 ∧
       entries_rev demo5 1%positive = Some (reverse (nodes t)).
Proof.
  exact (sequence_is_sorted_inorder Nat.ltb 0 demo5 1%positive demo_map
           ltb_transitive demo5_reachable demo5_map).
Defined.

Lemma insert_existing_key_changes_nothing_witness :
  insert Nat.ltb 1%positive (3, 99) demo5
  = Ret (mk_iterator (Some 1%positive) (Some 4%positive), false) demo5.
Proof.
  apply (insert_existing_key_changes_nothing Nat.ltb 0 demo5 1%positive demo_entries
           4%positive (3, 30) (3, 99) ltb_transitive ltb_equiv_transitive
           demo5_reachable demo5_entries).
  - unfold demo_entries. set_solver.
  - by vm_compute.
Defined.

Lemma demo_absent_7 (e : addr * (nat * nat)) :
  e ∈ demo_entries → ¬ equiv_key Nat.ltb e.2.1 7.
Proof.
  unfold demo_entries. intros He [H1 H2].
  repeat (apply elem_of_cons in He as [->|He]); try (by vm_compute in H1).
  by apply elem_of_nil in He.
Qed.

Lemma demo_present_3 : ∃ e, e ∈ demo_entries ∧ equiv_key Nat.ltb e.2.1 3.
Proof. exists (4%positive, (3, 30)). split; [unfold demo_entries; set_solver|by vm_compute]. Qed.

Lemma erase_position_spec_witness :
  erase 1%positive (mk_iterator (Some 1%positive) (Some 2%positive)) demo5
  = Throw invalid_iterator demo5 ∧
  ∃ w', erase 1%positive (mk_iterator (Some 1%positive) (Some 4%positive)) demo5 = Ret tt w' ∧
        entries w' 1%positive
        = Some [(6%positive, (1, 10)); (3%positive, (5, 50)); (5%positive, (8, 80))] ∧
        size 1%positive w' = Ret 3 w'.
Proof.
  destruct (erase_position_spec Nat.ltb 0 demo5 1%positive demo_map
              (mk_iterator (Some 1%positive) (Some 2%positive))
              demo5_reachable demo5_map) as [Hthrow _].
  destruct (erase_position_spec Nat.ltb 0 demo5 1%positive demo_map
              (mk_iterator (Some 1%positive) (Some 4%positive))
              demo5_reachable demo5_map) as [_ H].
  destruct (H [(6%positive, (1, 10))] 4%positive (3, 30)
              [(3%positive, (5, 50)); (5%positive, (8, 80))] demo5_entries eq_refl)
    as (w' & E & He & _ & Hs & _).
  split; [exact (Hthrow (or_intror eq_refl))|].
  exists w'. split; [exact E|]. split; [exact He|exact Hs].
Defined.

Lemma erase_swaps_with_successor_witness :
  ∃ y s',
    load next (Some 3%positive) (w_heap demo5) = Some (Some y) ∧
    bind (rd next (Some 3%positive)) (λ nx, swap_node (Some 3%positive) nx)
      (with_size 3 (enter demo_map demo5)) = Some (tt, s') ∧
    load value (Some 3%positive) (heap s') = Some (Some (5, 50)).
Proof.
  assert (HL : Node BLACK (Node RED Leaf 6%positive (1, 10) Leaf) 4%positive (3, 30) Leaf
               ≠ (Leaf : tree nat nat)) by discriminate.
  assert (HR : Node BLACK Leaf 5%positive (8, 80) Leaf ≠ (Leaf : tree nat nat))
    by discriminate.
  destruct (erase_swaps_with_successor Nat.ltb 0 demo5 1%positive demo_map Top BLACK
              (Node BLACK (Node RED Leaf 6%positive (1, 10) Leaf) 4%positive (3, 30) Leaf)
              3%positive (5, 50) (Node BLACK Leaf 5%positive (8, 80) Leaf) (budget demo5)
              demo5_reachable demo5_map demo5_tree HL HR)
    as (kR & cy & y & kvy & ry & s' & first & _ & Hn & Hsw & _ & _ & _ & _ & Hv & _).
  exists y, s'. split; [exact Hn|]. split; [exact Hsw|exact Hv].
Defined.

Lemma at_finds_or_raises_witness :
  (∃ x kv, (x, kv) ∈ demo_entries ∧ equiv_key Nat.ltb 3 kv.1 ∧
           at_ Nat.ltb 1%positive 3 demo5 = Ret (Some x) demo5 ∧
           read_mapped (Some x) demo5 = Some kv.2) ∧
  at_ Nat.ltb 1%positive 7 demo5 = Throw index_out_of_bound demo5.
Proof.
  destruct (at_finds_or_raises Nat.ltb 0 demo5 1%positive demo_entries 3
              ltb_transitive demo5_reachable demo5_entries) as (Hin & _).
  destruct (at_finds_or_raises Nat.ltb 0 demo5 1%positive demo_entries 7
              ltb_transitive demo5_reachable demo5_entries) as (_ & Hout & _).
  split; [exact (Hin demo_present_3)|exact (Hout demo_absent_7)].
Defined.

(** The const [operator[]] raises [index_out_of_bound] too. *)
Lemma const_operator_index_raises_key_error :
  operator_index_const Nat.ltb 1%positive 7 demo5 = Throw index_out_of_bound demo5.
Proof. by vm_compute. Qed.

Lemma operator_index_inserts_default_witness :
  (∃ x kv, (x, kv) ∈ demo_entries ∧ equiv_key Nat.ltb kv.1 3 ∧
           operator_index Nat.ltb 0 1%positive 3 demo5 = Ret (Some x) demo5 ∧
           read_mapped (Some x) demo5 = Some kv.2) ∧
  (∃ x w' n1 n2,
     demo_entries = n1 ++ n2 ∧
     operator_index Nat.ltb 0 1%positive 7 demo5 = Ret (Some x) w' ∧
     entries w' 1%positive = Some (n1 ++ (x, (7, 0)) :: n2) ∧
     read_mapped (Some x) w' = Some 0 ∧
     size 1%positive demo5 = Ret (length demo_entries) demo5 ∧
     size 1%positive w' = Ret (S (length demo_entries)) w' ∧
     ∀ j, j ≠ 1%positive → entries w' j = entries demo5 j) ∧
  (∃ x kv, (x, kv) ∈ demo_entries ∧ equiv_key Nat.ltb 3 kv.1 ∧
           operator_index_const Nat.ltb 1%positive 3 demo5 = Ret (Some x) demo5 ∧
           read_mapped (Some x) demo5 = Some kv.2) ∧
  operator_index_const Nat.ltb 1%positive 7 demo5 = Throw index_out_of_bound demo5.
Proof.
  destruct (operator_index_inserts_default Nat.ltb 0 demo5 1%positive demo_entries 3
              ltb_transitive demo5_reachable demo5_entries) as (Hin & _ & Hcin & _).
  destruct (operator_index_inserts_default Nat.ltb 0 demo5 1%positive demo_entries 7
              ltb_transitive demo5_reachable demo5_entries) as (_ & Hout & _ & Hcout).
  split; [exact (Hin demo_present_3)|].
  split; [exact (Hout demo_absent_7)|].
  split; [exact (Hcin demo_present_3)|exact (Hcout demo_absent_7)].
Defined.

(** On a container without the key, the const [operator[]] fails. *)
Lemma const_operator_index_fails_when_absent :
  entries demo1 1%positive = Some [] ∧
  operator_index_const Nat.ltb 1%positive 7 demo1 = Throw index_out_of_bound demo1.
Proof. by vm_compute. Qed.

Lemma demo5_fresh : w_maps demo5 !! 2%positive = None.
Proof. vm_compute. reflexivity. Qed.

Definition demo6 : world nat nat := ret_world (map_default 2%positive demo5) demo5.

Lemma demo6_reachable : reachable Nat.ltb 0 demo6.
Proof.
  apply reach_map_default with (w := demo5) (i := 2%positive);
    [apply demo5_reachable|exact demo5_fresh|by vm_compute].
Qed.

Lemma demo6_map : w_maps demo6 !! 1%positive = Some demo_map.
Proof. vm_compute. reflexivity. Qed.
Lemma demo6_other : is_Some (w_maps demo6 !! 2%positive).
Proof. vm_compute. eexists. reflexivity. Qed.
Lemma demo6_entries : entries demo6 1%positive = Some demo_entries.
Proof. vm_compute. reflexivity. Qed.
Lemma demo6_tree : read_tree (budget demo6) (w_heap demo6) (m_root demo_map) = Some demo_tree.
Proof. vm_compute. reflexivity. Qed.

Lemma copy_is_equal_and_independent_witness :
  (∃ w', map_copy 2%positive 1%positive demo5 = Ret tt w' ∧
         copied Nat.ltb 0 w' 2%positive 1%positive demo_entries demo_tree) ∧
  (∃ w', operator_assign 2%positive 1%positive demo6 = Ret tt w' ∧
         copied Nat.ltb 0 w' 2%positive 1%positive demo_entries demo_tree).
Proof.
  assert (Hne : 2%positive ≠ 1%positive) by discriminate.
  destruct (copy_is_equal_and_independent Nat.ltb 0 demo5 2%positive 1%positive
              demo_entries demo_map demo_tree demo5_reachable demo5_entries demo5_map
              demo5_tree Hne) as [Hcopy _].
  destruct (copy_is_equal_and_independent Nat.ltb 0 demo6 2%positive 1%positive
              demo_entries demo_map demo_tree demo6_reachable demo6_entries demo6_map
              demo6_tree Hne) as [_ Hassign].
  split; [exact (Hcopy demo5_fresh)|exact (Hassign demo6_other)].
Defined.

Lemma iterator_checks_at_the_ends_witness :
  operator_incr (mk_iterator (Some 1%positive) (Some 2%positive)) demo5
  = Throw invalid_iterator (mk_iterator (Some 1%positive) (Some 2%positive), demo5) ∧
  operator_decr (mk_iterator (Some 1%positive) (Some 6%positive)) demo5
  = Throw invalid_iterator (mk_iterator (Some 1%positive) (Some 6%positive), demo5) ∧
  operator_arrow (mk_iterator (Some 1%positive) (Some 2%positive)) demo5 = Terminate ∧
  ∃ e b, end_ 1%positive demo5 = Ret e demo5 ∧ begin_ 1%positive demo5 = Ret b demo5.
Proof.
  destruct (iterator_checks_at_the_ends Nat.ltb 0 demo5 1%positive) as (H1 & H2 & H3).
  assert (He : end_ 1%positive demo5
               = Ret (mk_iterator (Some 1%positive) (Some 2%positive)) demo5)
    by (vm_compute; reflexivity).
  assert (Hb : begin_ 1%positive demo5
               = Ret (mk_iterator (Some 1%positive) (Some 6%positive)) demo5)
    by (vm_compute; reflexivity).
  destruct (H1 _ demo5 He) as (Hincr & _ & Harrow).
  split; [exact Hincr|]. split; [exact (H2 _ demo5 Hb)|]. split; [exact Harrow|].
  exact (H3 demo_map demo5_reachable demo5_map).
Defined.

(** [m.end().operator->()] on the container with the keys 1, 3, 5, 8:
    [end()] returns, the check of [operator->] throws, and the program
    is terminated. *)
Lemma arrow_at_end_terminates :
  end_ 1%positive demo5 = Ret (mk_iterator (Some 1%positive) (Some 2%positive)) demo5 ∧
  arrow_body (mk_iterator (Some 1%positive) (Some 2%positive)) demo5
  = Throw invalid_iterator (mk_iterator (Some 1%positive) (Some 2%positive), demo5) ∧
  operator_arrow (mk_iterator (Some 1%positive) (Some 2%positive)) demo5 = Terminate.
Proof. by vm_compute. Qed.

Lemma self_assignment_changes_nothing_witness :
  operator_assign 1%positive 1%positive demo5 = Ret tt demo5.
Proof. exact (self_assignment_changes_nothing demo5 1%positive demo_map demo5_map). Defined.

(** ** The further properties on the run *)

Lemma ltb_irreflexive : cmp_irreflexive Nat.ltb.
Proof. intros a. apply Nat.ltb_irrefl. Qed.

Definition demo7 : world nat nat := ret_world (insert Nat.ltb 1%positive (7, 70) demo5) demo5.

Lemma demo7_run :
  insert Nat.ltb 1%positive (7, 70) demo5
  = Ret (mk_iterator (Some 1%positive) (Some 7%positive), true) demo7.
Proof. vm_compute. reflexivity. Qed.

Lemma demo5_index :
  operator_index Nat.ltb 0 1%positive 3 demo5 = Ret (Some 4%positive) demo5.
Proof. vm_compute. reflexivity. Qed.

Lemma find_returns_entry_or_end_witness :
  (∃ x kv, (x, kv) ∈ demo_entries ∧ equiv_key Nat.ltb 3 kv.1 ∧
           find Nat.ltb 1%positive 3 demo5 = Ret (mk_iterator (Some 1%positive) (Some x)) demo5) ∧
  find Nat.ltb 1%positive 7 demo5 = end_ 1%positive demo5.
Proof.
  destruct (find_returns_entry_or_end Nat.ltb 0 demo5 1%positive demo_entries 3
              ltb_transitive demo5_reachable demo5_entries) as [Hin _].
  destruct (find_returns_entry_or_end Nat.ltb 0 demo5 1%positive demo_entries 7
              ltb_transitive demo5_reachable demo5_entries) as [_ Hout].
  split; [exact (Hin demo_present_3)|exact (Hout demo_absent_7)].
Defined.

Lemma count_is_one_or_zero_witness :
  count Nat.ltb 1%positive 3 demo5 = Ret 1 demo5 ∧
  count Nat.ltb 1%positive 7 demo5 = Ret 0 demo5.
Proof.
  destruct (count_is_one_or_zero Nat.ltb 0 demo5 1%positive demo_entries 3
              ltb_transitive demo5_reachable demo5_entries) as [Hin _].
  destruct (count_is_one_or_zero Nat.ltb 0 demo5 1%positive demo_entries 7
              ltb_transitive demo5_reachable demo5_entries) as [_ Hout].
  split; [exact (Hin demo_present_3)|exact (Hout demo_absent_7)].
Defined.

Lemma size_counts_the_entries_witness :
  size 1%positive demo5 = Ret (length demo_entries) demo5 ∧
  empty 1%positive demo5 = Ret (bool_decide (demo_entries = [])) demo5.
Proof.
  exact (size_counts_the_entries Nat.ltb 0 demo5 1%positive demo_entries
           demo5_reachable demo5_entries).
Defined.

Lemma begin_is_the_first_entry_witness :
  begin_ 1%positive demo5 = Ret (mk_iterator (Some 1%positive) (next_of demo_map demo_entries)) demo5 ∧
  end_ 1%positive demo5 = Ret (mk_iterator (Some 1%positive) (m_tail demo_map)) demo5 ∧
  it_eqb (mk_iterator (Some 1%positive) (next_of demo_map demo_entries))
    (mk_iterator (Some 1%positive) (m_tail demo_map))
  = bool_decide (demo_entries = []).
Proof.
  exact (begin_is_the_first_entry Nat.ltb 0 demo5 1%positive demo_entries demo_map
           demo5_reachable demo5_entries demo5_map).
Defined.

Lemma increment_moves_to_next_entry_witness :
  operator_incr (mk_iterator (Some 1%positive) (Some 4%positive)) demo5
  = Ret tt (mk_iterator (Some 1%positive) (Some 3%positive), demo5) ∧
  operator_incr (mk_iterator (Some 1%positive) (Some 5%positive)) demo5
  = Ret tt (mk_iterator (Some 1%positive) (Some 2%positive), demo5).
Proof.
  split.
  - exact (increment_moves_to_next_entry Nat.ltb 0 demo5 1%positive demo_map
             [(6%positive, (1, 10))] 4%positive (3, 30)
             [(3%positive, (5, 50)); (5%positive, (8, 80))]
             demo5_reachable demo5_map demo5_entries).
  - exact (increment_moves_to_next_entry Nat.ltb 0 demo5 1%positive demo_map
             [(6%positive, (1, 10)); (4%positive, (3, 30)); (3%positive, (5, 50))]
             5%positive (8, 80) [] demo5_reachable demo5_map demo5_entries).
Defined.

Lemma decrement_moves_to_previous_entry_witness :
  operator_decr (mk_iterator (Some 1%positive) (Some 3%positive)) demo5
  = Ret tt (mk_iterator (Some 1%positive) (Some 4%positive), demo5) ∧
  operator_decr (mk_iterator (Some 1%positive) (Some 2%positive)) demo5
  = Ret tt (mk_iterator (Some 1%positive) (Some 5%positive), demo5).
Proof.
  split.
  - exact (decrement_moves_to_previous_entry Nat.ltb 0 demo5 1%positive demo_map
             [(6%positive, (1, 10))] 4%positive (3, 30)
             [(3%positive, (5, 50)); (5%positive, (8, 80))]
             demo5_reachable demo5_map demo5_entries).
  - exact (decrement_moves_to_previous_entry Nat.ltb 0 demo5 1%positive demo_map
             [(6%positive, (1, 10)); (4%positive, (3, 30)); (3%positive, (5, 50))]
             5%positive (8, 80) [] demo5_reachable demo5_map demo5_entries).
Defined.

Lemma clear_empties_the_container_witness :
  ∃ w', clear 1%positive demo5 = Ret tt w' ∧ entries w' 1%positive = Some [] ∧
        size 1%positive w' = Ret 0 w' ∧
        (∀ e, e ∈ demo_entries → w_heap w' !! e.1 = None) ∧
        ∀ j, j ≠ 1%positive → entries w' j = entries demo5 j.
Proof.
  exact (clear_empties_the_container Nat.ltb 0 demo5 1%positive demo_entries
           demo5_reachable demo5_entries).
Defined.

Lemma destructor_frees_the_container_witness :
  ∃ w', map_destroy 1%positive demo5 = Ret tt w' ∧ w_maps w' !! 1%positive = None ∧
        (∀ e, e ∈ demo_entries → w_heap w' !! e.1 = None) ∧
        (∀ b, m_head demo_map = Some b ∨ m_tail demo_map = Some b → w_heap w' !! b = None) ∧
        ∀ j, j ≠ 1%positive → entries w' j = entries demo5 j.
Proof.
  exact (destructor_frees_the_container Nat.ltb 0 demo5 1%positive demo_entries demo_map
           demo5_reachable demo5_entries demo5_map).
Defined.

Lemma default_constructor_gives_empty_witness :
  ∃ w' e, map_default 2%positive demo5 = Ret tt w' ∧ entries w' 2%positive = Some [] ∧
          size 2%positive w' = Ret 0 w' ∧ empty 2%positive w' = Ret true w' ∧
          begin_ 2%positive w' = Ret e w' ∧ end_ 2%positive w' = Ret e w' ∧
          ∀ j, j ≠ 2%positive → entries w' j = entries demo5 j.
Proof.
  exact (default_constructor_gives_empty Nat.ltb 0 demo5 2%positive
           demo5_reachable demo5_fresh).
Defined.

Lemma insert_new_key_adds_one_entry_witness :
  ∃ x w' n1 n2,
    demo_entries = n1 ++ n2 ∧ w_heap demo5 !! x = None ∧
    insert Nat.ltb 1%positive (7, 70) demo5 = Ret (mk_iterator (Some 1%positive) (Some x), true) w' ∧
    entries w' 1%positive = Some (n1 ++ (x, (7, 70)) :: n2) ∧
    size 1%positive w' = Ret (S (length demo_entries)) w' ∧
    read_mapped (Some x) w' = Some 70 ∧
    ∀ j, j ≠ 1%positive → entries w' j = entries demo5 j.
Proof.
  exact (insert_new_key_adds_one_entry Nat.ltb 0 demo5 1%positive demo_entries (7, 70)
           demo5_reachable demo5_entries demo_absent_7).
Defined.

Lemma insert_then_find_witness :
  ∃ x, mk_iterator (Some 1%positive) (Some 7%positive) = mk_iterator (Some 1%positive) (Some x) ∧
       find Nat.ltb 1%positive 7 demo7
       = Ret (mk_iterator (Some 1%positive) (Some 7%positive)) demo7 ∧
       at_ Nat.ltb 1%positive 7 demo7 = Ret (Some x) demo7 ∧
       count Nat.ltb 1%positive 7 demo7 = Ret 1 demo7 ∧
       (true = true → read_mapped (Some x) demo7 = Some 70).
Proof.
  exact (insert_then_find Nat.ltb 0 demo5 1%positive (7, 70)
           (mk_iterator (Some 1%positive) (Some 7%positive)) true demo7
           ltb_transitive ltb_irreflexive ltb_equiv_transitive demo5_reachable demo7_run).
Defined.

Lemma erase_then_find_witness :
  ∃ w', erase 1%positive (mk_iterator (Some 1%positive) (Some 4%positive)) demo5 = Ret tt w' ∧
        w_heap w' !! 4%positive = None ∧
        find Nat.ltb 1%positive 3 w' = end_ 1%positive w' ∧
        count Nat.ltb 1%positive 3 w' = Ret 0 w' ∧
        at_ Nat.ltb 1%positive 3 w' = Throw index_out_of_bound w'.
Proof.
  exact (erase_then_find Nat.ltb 0 demo5 1%positive [(6%positive, (1, 10))] 4%positive (3, 30)
           [(3%positive, (5, 50)); (5%positive, (8, 80))]
           ltb_transitive demo5_reachable demo5_entries).
Defined.

Lemma index_assign_then_at_witness :
  ∃ w2 n1 x kv n2,
    Some 4%positive = Some x ∧ entries demo5 1%positive = Some (n1 ++ (x, kv) :: n2) ∧
    assign_mapped (Some 4%positive) 33 demo5 = Ret tt w2 ∧
    entries w2 1%positive = Some (n1 ++ (x, (kv.1, 33)) :: n2) ∧
    at_ Nat.ltb 1%positive 3 w2 = Ret (Some 4%positive) w2 ∧
    read_mapped (Some 4%positive) w2 = Some 33.
Proof.
  exact (index_assign_then_at Nat.ltb 0 demo5 1%positive 3 33 (Some 4%positive) demo5
           ltb_transitive ltb_irreflexive ltb_equiv_transitive demo5_reachable demo5_index).
Defined.

Lemma public_calls_never_fault_witness :
  returns (insert Nat.ltb 1%positive (7, 70) demo5) ∧
  returns (operator_index Nat.ltb 0 1%positive 7 demo5) ∧
  returns (clear 1%positive demo5) ∧
  returns (map_destroy 1%positive demo5).
Proof.
  destruct (public_calls_never_fault Nat.ltb 0 demo5 1%positive demo_entries
              demo5_reachable demo5_entries)
    as (H1 & H2 & _ & _ & _ & _ & _ & H3 & H4 & _).
  split; [exact (H1 (7, 70))|]. split; [exact (H2 7)|]. split; [exact H3|exact H4].
Defined.

Lemma height_is_logarithmic_witness :
  ∃ t, read_tree (budget demo5) (w_heap demo5) (m_root demo_map) = Some t ∧
       nodes t = demo_entries ∧ height t ≤ 2 * Nat.log2 (S (length demo_entries)).
Proof.
  exact (height_is_logarithmic Nat.ltb 0 demo5 1%positive demo_entries demo_map
           demo5_reachable demo5_entries demo5_map).
Defined.

Lemma traversal_visits_the_entries_witness :
  ∃ b e, begin_ 1%positive demo5 = Ret b demo5 ∧ end_ 1%positive demo5 = Ret e demo5 ∧
         traverse (S (length demo_entries)) b e demo5 = Some (Some <$> demo_entries.*1).
Proof.
  exact (traversal_visits_the_entries Nat.ltb 0 demo5 1%positive demo_entries
           demo5_reachable demo5_entries).
Defined.

Lemma rotate_keeps_the_sequence_witness :
  ∃ s',
    rotate (Some 3%positive) RIGHT (enter demo_map demo5) = Some (tt, s') ∧
    read_tree (budget demo5) (heap s') (root s')
    = Some (Node BLACK (Node RED Leaf 6%positive (1, 10) Leaf) 4%positive (3, 30)
              (Node BLACK Leaf 3%positive (5, 50) (Node BLACK Leaf 5%positive (8, 80) Leaf))).
Proof.
  destruct (rotate_keeps_the_sequence Nat.ltb 0 demo5 1%positive demo_map Top RIGHT BLACK BLACK
              (Node BLACK Leaf 5%positive (8, 80) Leaf) 3%positive (5, 50) Leaf
              4%positive (3, 30) (Node RED Leaf 6%positive (1, 10) Leaf)
              demo5_reachable demo5_map demo5_tree)
    as (s' & first & Hrun & Hread & _).
  exists s'. split; [exact Hrun|exact Hread].
Defined.

Definition demo8 : world nat nat := ret_world (map_destroy 1%positive demo5) demo5.

Lemma demo8_reachable : reachable Nat.ltb 0 demo8.
Proof.
  apply reach_map_destroy with (w := demo5) (i := 1%positive);
    [apply demo5_reachable|by vm_compute].
Qed.

Lemma demo8_maps : w_maps demo8 = ∅.
Proof. vm_compute. reflexivity. Qed.

Lemma demo5_node : is_Some (w_heap demo5 !! 4%positive).
Proof. vm_compute. eexists. reflexivity. Qed.

Lemma every_node_has_one_owner_witness :
  (∃ i m l, w_maps demo5 !! i = Some m ∧ entries demo5 i = Some l ∧
     (m_head m = Some 4%positive ∨ m_tail m = Some 4%positive ∨ 4%positive ∈ l.*1) ∧
     ∀ j mj lj, w_maps demo5 !! j = Some mj → entries demo5 j = Some lj →
       (m_head mj = Some 4%positive ∨ m_tail mj = Some 4%positive ∨ 4%positive ∈ lj.*1) →
       j = i) ∧
  w_heap demo8 = ∅.
Proof.
  destruct (every_node_has_one_owner Nat.ltb 0 demo5 demo5_reachable) as [Hown _].
  destruct (every_node_has_one_owner Nat.ltb 0 demo8 demo8_reachable) as [_ Hempty].
  split; [exact (Hown 4%positive demo5_node)|exact (Hempty demo8_maps)].
Defined.
